(** * MCScriptT: the script-to-payoff compiler of the Monte-Carlo engine

    A shallow embedding of
    [ql/experimental/templatemodels/montecarlo/mcscriptT.hpp]:
    the symbol table [payoffs_] (a [std::map] keyed by [std::string]),
    the expression compiler [payoff], the two script orchestrators
    [parseFlexBisonScript] and [parseScript], the constructor, [NPV]
    and [observationTimes]; of the SABR formulas of
    [ql/termstructures/volatility/sabr.cpp]; and of [localCorrImpl] of
    [ql/experimental/termstructures/localcorrsurfaceabf.cpp].

    The file is organised as follows:
    - the pieces of the C++ standard library the header relies on
      ([std::to_string], [std::stol], [std::stod], exceptions);
    - [StdMap], the ordered map;
    - [Regex], the backtracking matcher for the legacy grammar;
    - the payoff nodes, syntax trees and the environment of external
      collaborators;
    - the member functions of [MCScriptT];
    - floating-point numbers, [Sabr] and [LocalCorr];
    - [Example] and [ExactArithmetic], in which the functions
      evaluate;
    - the vocabulary of the properties;
    - the properties C1 to C10, each after the lemmas it rests on;
    - the further properties X1 to X26 of the compiler, the scripts,
      the constructor, the queries, the formulas and the correlation
      surface;
    - the properties at work on concrete inputs. *)

From Stdlib Require Import String Ascii List ZArith NArith QArith Bool Lia.
From Stdlib Require Import DecimalString Sorted.
Import ListNotations.

Close Scope Q_scope.
Local Open Scope string_scope.
Local Open Scope list_scope.

Set Implicit Arguments.
Set Warnings "-register-all".

(* ================================================================= *)
(** * Exceptions and results *)

(** Everything thrown in the header derives from [std::exception]:
    [std::stol] and [std::stod] throw [std::invalid_argument] or
    [std::out_of_range]; [QL_REQUIRE] and [QL_FAIL] throw
    [QuantLib::Error]. *)
Inductive exception : Type :=
| invalid_argument (what : string)
| out_of_range (what : string)
| QL_Error (what : string).

Inductive result (A : Type) : Type :=
| Return (a : A)
| Throw (e : exception).

Arguments Return {A} a.
Arguments Throw {A} e.

Definition returns {A : Type} (r : result A) : bool :=
  match r with Return _ => true | Throw _ => false end.

(* ================================================================= *)
(** * The C++ standard library *)

Module Cxx.

(** [std::to_string] on an unsigned integer. *)
Definition to_string (n : nat) : string :=
  NilEmpty.string_of_uint (Nat.to_uint n).

(** [isspace] in the "C" locale. *)
Definition isspace (c : ascii) : bool :=
  let n := N_of_ascii c in
  ((n =? 32) || ((9 <=? n) && (n <=? 13)))%N.

Definition isdigit (c : ascii) : bool :=
  let n := N_of_ascii c in ((48 <=? n) && (n <=? 57))%N.

Definition isalpha (c : ascii) : bool :=
  let n := N_of_ascii c in
  (((65 <=? n) && (n <=? 90)) || ((97 <=? n) && (n <=? 122)))%N.

Definition tolower (c : ascii) : ascii :=
  let n := N_of_ascii c in
  if ((65 <=? n) && (n <=? 90))%N then ascii_of_N (n + 32) else c.

Definition digit_value (c : ascii) : N := (N_of_ascii c - 48)%N.

(** Value of a hexadecimal digit, when [c] is one. *)
Definition xdigit_value (c : ascii) : option N :=
  let n := N_of_ascii c in
  if ((48 <=? n) && (n <=? 57))%N then Some (n - 48)%N
  else if ((65 <=? n) && (n <=? 70))%N then Some (n - 55)%N
  else if ((97 <=? n) && (n <=? 102))%N then Some (n - 87)%N
  else None.

Fixpoint skip_space (s : string) : string :=
  match s with
  | String c s' => if isspace c then skip_space s' else s
  | EmptyString => s
  end.

(** An optional sign: [(negative, rest)]. *)
Definition scan_sign (s : string) : bool * string :=
  match s with
  | String "-" s' => (true, s')
  | String "+" s' => (false, s')
  | _ => (false, s)
  end.

(** The longest run of decimal digits at the head of [s], accumulated
    onto [acc]: [(value, number of digits, rest)]. *)
Fixpoint scan_digits (acc : N) (s : string) : N * nat * string :=
  match s with
  | String c s' =>
      if isdigit c then
        let '(v, n, r) := scan_digits (acc * 10 + digit_value c)%N s' in
        (v, S n, r)
      else (acc, 0, s)
  | EmptyString => (acc, 0, s)
  end.

Fixpoint scan_xdigits (acc : N) (s : string) : N * nat * string :=
  match s with
  | String c s' =>
      match xdigit_value c with
      | Some d =>
          let '(v, n, r) := scan_xdigits (acc * 16 + d)%N s' in
          (v, S n, r)
      | None => (acc, 0, s)
      end
  | EmptyString => (acc, 0, s)
  end.

(** Number of characters consumed, given what is left over. *)
Definition consumed (str rest : string) : nat :=
  String.length str - String.length rest.

(** [LONG_MAX] for a [long] of [32 + extra] bits ([extra] is 0 on
    LLP64 platforms, 32 on LP64 ones). *)
Definition LONG_MAX (extra : N) : Z := 2 ^ (31 + Z.of_N extra) - 1.
Definition LONG_MIN (extra : N) : Z := - 2 ^ (31 + Z.of_N extra).

(** [std::stol(str, &sz)] with base 10: white space, an optional sign,
    then the longest run of digits; [(value, sz)]. *)
Definition stol (extra : N) (str : string) : result (Z * nat) :=
  let '(neg, s) := scan_sign (skip_space str) in
  let '(v, n, rest) := scan_digits 0 s in
  match n with
  | O => Throw (invalid_argument "stol")
  | S _ =>
      let z := if neg : bool then (- Z.of_N v)%Z else Z.of_N v in
      if ((LONG_MIN extra <=? z) && (z <=? LONG_MAX extra))%Z
      then Return (z, consumed str rest)
      else Throw (out_of_range "stol")
  end.

(** What [strtod] reads, before rounding to a [double]. *)
Inductive strtod_value : Type :=
| Decimal (neg : bool) (mant : N) (exp10 : Z)
| Hexadecimal (neg : bool) (mant : N) (exp2 : Z)
| Infinity (neg : bool)
| NaN (neg : bool).

(** Case-insensitive match of the lower-case word [w] at the head of
    [s]; the rest of [s] on success. *)
Fixpoint scan_word (w s : string) : option string :=
  match w with
  | EmptyString => Some s
  | String a w' =>
      match s with
      | String c s' =>
          if Ascii.eqb (tolower c) a then scan_word w' s' else None
      | EmptyString => None
      end
  end.

(** An exponent part [e[sign]digits] (the marker being one of [m1],
    [m2]); it is read only when a digit follows. *)
Definition scan_exponent (m1 m2 : ascii) (s : string) : Z * string :=
  match s with
  | String c s' =>
      if Ascii.eqb c m1 || Ascii.eqb c m2 then
        let '(neg, s2) := scan_sign s' in
        let '(v, n, rest) := scan_digits 0 s2 in
        match n with
        | O => (0%Z, s)
        | S _ => ((if neg : bool then - Z.of_N v else Z.of_N v)%Z, rest)
        end
      else (0%Z, s)
  | EmptyString => (0%Z, s)
  end.

(** The [n-char-sequence] of [nan(...)]: digits, letters, underscore. *)
Fixpoint skip_nchars (s : string) : string :=
  match s with
  | String c s' =>
      if isdigit c || isalpha c || Ascii.eqb c "_" then skip_nchars s'
      else s
  | EmptyString => s
  end.

(** A decimal floating constant: digits with an optional radix
    character (at least one digit in all) and an optional exponent. *)
Definition scan_decimal (neg : bool) (s : string)
  : option (strtod_value * string) :=
  let '(m1, n1, r1) := scan_digits 0 s in
  let '(m2, n2, r2) :=
    match r1 with
    | String "." r => scan_digits m1 r
    | _ => (m1, 0, r1)
    end in
  match n1 + n2 with
  | O => None
  | S _ =>
      let '(e, r3) := scan_exponent "e" "E" r2 in
      Some (Decimal neg m2 (e - Z.of_nat n2), r3)
  end.

(** A hexadecimal floating constant, after its [0x] prefix. *)
Definition scan_hexadecimal (neg : bool) (s : string)
  : option (strtod_value * string) :=
  let '(m1, n1, r1) := scan_xdigits 0 s in
  let '(m2, n2, r2) :=
    match r1 with
    | String "." r => scan_xdigits m1 r
    | _ => (m1, 0, r1)
    end in
  match n1 + n2 with
  | O => None
  | S _ =>
      let '(e, r3) := scan_exponent "p" "P" r2 in
      Some (Hexadecimal neg m2 (e - 4 * Z.of_nat n2), r3)
  end.

(** The subject sequence of [strtod], after white space and sign. *)
Definition scan_subject (neg : bool) (s : string)
  : option (strtod_value * string) :=
  match scan_word "infinity" s with
  | Some r => Some (Infinity neg, r)
  | None =>
  match scan_word "inf" s with
  | Some r => Some (Infinity neg, r)
  | None =>
  match scan_word "nan" s with
  | Some r =>
      match r with
      | String "(" r1 =>
          match skip_nchars r1 with
          | String ")" r2 => Some (NaN neg, r2)
          | _ => Some (NaN neg, r)
          end
      | _ => Some (NaN neg, r)
      end
  | None =>
  match scan_word "0x" s with
  | Some r =>
      match scan_hexadecimal neg r with
      | Some v => Some v
      | None => scan_decimal neg s
      end
  | None => scan_decimal neg s
  end end end end.

(** [strtod]: the value read and the number of characters consumed, or
    nothing when no conversion can be performed. *)
Definition strtod (str : string) : option (strtod_value * nat) :=
  let '(neg, s) := scan_sign (skip_space str) in
  match scan_subject neg s with
  | Some (v, rest) => Some (v, consumed str rest)
  | None => None
  end.

End Cxx.

(* ================================================================= *)
(** * [std::map<std::string, V>] *)

(** The map keeps its entries ordered by key ([std::less<std::string>],
    i.e. lexicographic comparison of the bytes); iteration, and so
    [rbegin], follows that order. *)
Module StdMap.

Definition t (V : Type) : Type := list (string * V).

Section Operations.

Variable V : Type.

Definition empty : t V := [].

Definition size (m : t V) : nat := List.length m.

Fixpoint find (k : string) (m : t V) : option V :=
  match m with
  | [] => None
  | (k', v) :: m' => if String.eqb k k' then Some v else find k m'
  end.

(** [insert(std::make_pair(k, v))]: a key already present keeps its
    value. *)
Fixpoint insert (k : string) (v : V) (m : t V) : t V :=
  match m with
  | [] => [(k, v)]
  | (k', v') :: m' =>
      match String.compare k k' with
      | Lt => (k, v) :: m
      | Eq => m
      | Gt => (k', v') :: insert k v m'
      end
  end.

(** [it->second = v] for the iterator [it = find(k)]. *)
Fixpoint assign (k : string) (v : V) (m : t V) : t V :=
  match m with
  | [] => []
  | (k', v') :: m' =>
      if String.eqb k k' then (k', v) :: m' else (k', v') :: assign k v m'
  end.

(** [*rbegin()]: the entry with the greatest key. *)
Fixpoint rbegin (m : t V) : option (string * V) :=
  match m with
  | [] => None
  | [e] => Some e
  | _ :: m' => rbegin m'
  end.

Definition keys (m : t V) : list string := map fst m.

Definition key_lt (a b : string * V) : Prop :=
  String.ltb (fst a) (fst b) = true.

(** The representation invariant: keys strictly increasing. *)
Definition ordered (m : t V) : Prop := StronglySorted key_lt m.

End Operations.

End StdMap.

(* ================================================================= *)
(** * [boost::regex], as far as the legacy grammar uses it *)

(** Perl-style matching: alternatives are tried from left to right,
    repetitions are greedy, and the first way of matching the whole
    input that backtracking finds fixes the sub-matches. *)
Module Regex.

Inductive regex : Type :=
| Eps                              (* the empty expression *)
| Lit (s : string)                 (* literal characters *)
| Set_ (cls : ascii -> bool)       (* one character of a class *)
| Star (cls : ascii -> bool)       (* cls*  *)
| Plus (cls : ascii -> bool)       (* cls+  *)
| Alt (r1 r2 : regex)              (* r1|r2 *)
| Cat (r1 r2 : regex)              (* r1r2  *)
| Group (r : regex).               (* (r), a marked sub-expression *)

(** Character classes. *)
Definition any (_ : ascii) : bool := true.                (* .          *)
Definition alpha (c : ascii) : bool := Cxx.isalpha c.     (* [a-zA-Z]   *)
Definition alnum (c : ascii) : bool :=                    (* [a-zA-Z0-9] *)
  Cxx.isalpha c || Cxx.isdigit c.

Definition alts (l : list regex) : regex :=
  match l with
  | [] => Eps
  | r :: l' => fold_left Alt l' r
  end.

Definition cats (l : list regex) : regex := fold_right Cat Eps l.

(** [lit] at the head of [s]: the rest of [s]. *)
Fixpoint strip_prefix (lit s : string) : option string :=
  match lit with
  | EmptyString => Some s
  | String a lit' =>
      match s with
      | String c s' => if Ascii.eqb a c then strip_prefix lit' s' else None
      | EmptyString => None
      end
  end.

(** The ways [cls*] can match at the head of [s], longest first:
    [(matched, rest)]. *)
Fixpoint star_splits (cls : ascii -> bool) (s : string)
  : list (string * string) :=
  match s with
  | String c s' =>
      if cls c then
        map (fun p => (String c (fst p), snd p)) (star_splits cls s')
          ++ [(EmptyString, s)]
      else [(EmptyString, s)]
  | EmptyString => [(EmptyString, s)]
  end.

Definition plus_splits (cls : ascii -> bool) (s : string)
  : list (string * string) :=
  match s with
  | String c s' =>
      if cls c then
        map (fun p => (String c (fst p), snd p)) (star_splits cls s')
      else []
  | EmptyString => []
  end.

(** One way of matching at the head of the input: the characters
    matched, the sub-matches in the order of their opening parentheses,
    and the rest of the input. *)
Record partial : Type := Partial {
  matched : string;
  submatches : list string;
  rest : string
}.

(** All the ways [r] matches at the head of [s], in the order
    backtracking explores them. *)
Fixpoint run (r : regex) (s : string) : list partial :=
  match r with
  | Eps => [Partial EmptyString [] s]
  | Lit l =>
      match strip_prefix l s with
      | Some s' => [Partial l [] s']
      | None => []
      end
  | Set_ cls =>
      match s with
      | String c s' =>
          if cls c then [Partial (String c EmptyString) [] s'] else []
      | EmptyString => []
      end
  | Star cls => map (fun p => Partial (fst p) [] (snd p)) (star_splits cls s)
  | Plus cls => map (fun p => Partial (fst p) [] (snd p)) (plus_splits cls s)
  | Alt r1 r2 => run r1 s ++ run r2 s
  | Cat r1 r2 =>
      flat_map
        (fun p1 =>
           map (fun p2 =>
                  Partial (matched p1 ++ matched p2)
                          (submatches p1 ++ submatches p2)
                          (rest p2))
               (run r2 (rest p1)))
        (run r1 s)
  | Group r' =>
      map (fun p => Partial (matched p) (matched p :: submatches p) (rest p))
          (run r' s)
  end.

Definition is_empty (s : string) : bool :=
  match s with EmptyString => true | _ => false end.

(** [boost::regex_match(s, what, r)]: the marked sub-expressions
    [what[1]], [what[2]], ... of the first match of the whole of [s]. *)
Definition regex_match (s : string) (r : regex) : option (list string) :=
  match filter (fun p => is_empty (rest p)) (run r s) with
  | p :: _ => Some (submatches p)
  | [] => None
  end.

(** [what[i]], for [i >= 1]. *)
Definition sub (what : list string) (i : nat) : string :=
  nth (i - 1) what EmptyString.

(** [boost::regex_replace(s, boost::regex(" "), "")]. *)
Fixpoint remove_spaces (s : string) : string :=
  match s with
  | String c s' =>
      if Ascii.eqb c " " then remove_spaces s' else String c (remove_spaces s')
  | EmptyString => EmptyString
  end.

End Regex.

(* ================================================================= *)
(** * Numbers, payoff nodes, syntax trees *)

(** [DateType], [PassiveType] and [ActiveType] are instantiated with
    one type [R] of reals.  Its arithmetic is the floating-point
    arithmetic of the platform and is kept abstract: the header only
    converts, adds and divides.  [of_int z] also stands for the
    literals [0.0], [1.0], [-1.0] and [365.0], which are exact. *)
Class RealOps (R : Type) : Type := {
  of_int : Z -> R;
  (** rounding of what [strtod] read; nothing on a range error *)
  of_strtod : Cxx.strtod_value -> option R;
  add : R -> R -> R;
  div : R -> R -> R;
  (** [boost::lexical_cast<std::string>] *)
  lexical_cast : R -> string
}.

(** Modelled from the spec: the payoff nodes of [mcpayoffT.hpp], which
    is not among the sources: fixed amounts, linear combinations,
    products, quotients, min/max, conditional selection, logical
    comparisons, time-shifted payment and caching.  Each constructor
    takes what the header passes to [new MCPayoffT::...(...)].  A
    [boost::shared_ptr<MCPayoffT>] is an [option]: [None] is the null
    pointer.  [External] stands for any node built outside the script
    and handed to the constructor. *)
Inductive MCPayoffT (R : Type) : Type :=
| External (id : nat)
| FixedAmount (amount : R)
| Axpy (a : R) (x y : option (MCPayoffT R))
| Mult (x y : option (MCPayoffT R))
| Division (x y : option (MCPayoffT R))
| IfThenElse (x y z : option (MCPayoffT R))
| Min (x y : option (MCPayoffT R))
| Max (x y : option (MCPayoffT R))
| Logical (x y : option (MCPayoffT R)) (op : string)
| Pay (x : option (MCPayoffT R)) (t : R)
| Cache (x : option (MCPayoffT R)).

Arguments External {R} id.
Arguments FixedAmount {R} amount.
Arguments Axpy {R} a x y.
Arguments Mult {R} x y.
Arguments Division {R} x y.
Arguments IfThenElse {R} x y z.
Arguments Min {R} x y.
Arguments Max {R} x y.
Arguments Logical {R} x y op.
Arguments Pay {R} x t.
Arguments Cache {R} x.

Definition shared_ptr (R : Type) : Type := option (MCPayoffT R).

(** Modelled from the spec: the kind tag [Scripting::Expression::Type]
    of [scripting/expression.hpp], which is not among the sources; the
    enumerators are those [mcscriptT.hpp] names, and [UNLISTED] stands
    for any other. *)
Inductive ExpressionType : Type :=
| NUMBER | IDENTIFIER
| UNARYPLUS | UNARYMINUS
| PLUS | MINUS | MULT | DIVISION
| IFTHENELSE | MIN | MAX | LOGICAL
| PAY | PAY_WITHDATE | CACHE | PAYOFFAT | PAYOFFAT_WITHDATE
| ASSIGNMENT
| UNLISTED (tag : nat).

(** Modelled from the spec: [Scripting::Expression], a node tagged
    with a kind, an ordered list of child nodes (shared pointers,
    possibly null) and an ordered list of leaf string tokens. *)
Inductive Expression : Type :=
| Expr (type : ExpressionType)
       (childs : list (option Expression))
       (leafs : list string).

Definition type (e : Expression) : ExpressionType :=
  match e with Expr ty _ _ => ty end.
Definition childs (e : Expression) : list (option Expression) :=
  match e with Expr _ cs _ => cs end.
Definition leafs (e : Expression) : list string :=
  match e with Expr _ _ ls => ls end.

Definition is_ASSIGNMENT (ty : ExpressionType) : bool :=
  match ty with ASSIGNMENT => true | _ => false end.

(** Modelled from the spec: what the orchestrator asks of a
    [Scripting::FlexBisonDriver] ([scripting/flexbisondriver.hpp], not
    among the sources), a black box that returns a tree, a return value
    (0 for success) and an error message. *)
Record Driver : Type := {
  expressionTree : option Expression;
  returnValue : Z;
  errorMsg : string
}.

(** [QuantLib::Month]. *)
Inductive Month : Type :=
| Jan | Feb | Mar | Apr | May | Jun | Jul | Aug | Sep | Oct | Nov | Dec.

(** C++ leaves the order in which the arguments of a call are
    evaluated to the compiler; these are the two orders compilers
    use. *)
Inductive ArgumentOrder : Type := LeftToRight | RightToLeft.

(** The external collaborators of the header, none of which is among
    the sources, are parameters: the line parser (which returns on
    every line), the virtual functions of the payoff nodes, the date
    class and the global evaluation date; and so are three choices of
    the C++ implementation. *)
Class Environment (R : Type) : Type := {
  (** [Scripting::FlexBisonDriver driver(line, false, false)] *)
  FlexBisonDriver : string -> Driver;
  (** [Scripting::Expression::toString()] *)
  toString : Expression -> string;
  (** [MCPayoffT::at(t)], [observationTime()], [discountedAt(p)] *)
  payoff_at : MCPayoffT R -> R -> result (shared_ptr R);
  observationTime : MCPayoffT R -> R;
  PathType : Type;
  discountedAt : MCPayoffT R -> PathType -> R;
  (** [Date(day, month, year)], [serialNumber()] and
      [Settings::instance().evaluationDate()] *)
  Date : Type;
  Date_ctor : Z -> Month -> Z -> result Date;
  serialNumber : Date -> Z;
  evaluationDate : Date;
  (** width of [long] beyond 32 bits *)
  long_extra_bits : N;
  (** [what()] of the [std::exception] a [catch (std::exception e)]
      copies the thrown object into *)
  sliced_what : string;
  argument_order : ArgumentOrder
}.

(* ================================================================= *)
(** * The class [MCScriptT] *)

(** The symbol table [payoffs_] holds nodes: the objects of this
    development are those whose table binds no name to the null
    pointer.  The header keeps that so when the constructor is given
    payoffs that are not null, since a script line stores a payoff
    only after the test of lines 360 and 449; what it does with a
    null pointer among the initial payoffs is left out. *)
Record MCScriptT (R : Type) : Type := {
  payoffs_ : StdMap.t (MCPayoffT R);
  expressions_ : list string;
  scriptLog_ : list string;
  result_ : shared_ptr R;
  observationTime_ : R
}.

(** Member functions run on the object and either return or throw;
    what they did to the object before throwing stays done. *)
Definition M (R A : Type) : Type := MCScriptT R -> result A * MCScriptT R.

Definition ret {R A : Type} (a : A) : M R A := fun self => (Return a, self).

Definition bind {R A B : Type} (m : M R A) (f : A -> M R B) : M R B :=
  fun self =>
    match m self with
    | (Return a, self') => f a self'
    | (Throw e, self') => (Throw e, self')
    end.

Definition throw {R A : Type} (e : exception) : M R A :=
  fun self => (Throw e, self).

(** [try { m } catch (std::exception e) { ... }]: every exception of
    the model is a [std::exception], so the handler sees them all. *)
Definition try_block {R A : Type} (m : M R A) : M R (result A) :=
  fun self => let (r, self') := m self in (Return r, self').

(** A call of an external function, which does not touch the object. *)
Definition call {R A : Type} (r : result A) : M R A := fun self => (r, self).

Definition QL_FAIL {R A : Type} (message : string) : M R A :=
  throw (QL_Error message).

Definition QL_REQUIRE {R : Type} (condition : bool) (message : string)
  : M R unit :=
  if condition then ret tt else QL_FAIL message.

Declare Scope script_scope.
Delimit Scope script_scope with script.
Notation "x <- m ;; k" := (bind m (fun x => k))
  (at level 100, m at next level, right associativity) : script_scope.
Notation "m ;; k" := (bind m (fun _ => k))
  (at level 100, right associativity) : script_scope.

(** The same for plain results. *)
Definition rbind {A B : Type} (r : result A) (f : A -> result B) : result B :=
  match r with
  | Return a => f a
  | Throw e => Throw e
  end.

Notation "x <-- r ;; k" := (rbind r (fun x => k))
  (at level 100, r at next level, right associativity) : script_scope.

Local Open Scope script_scope.

Section MemberFunctions.

Context {R : Type} {ops : RealOps R} {env : Environment R}.

(** ** Access to the data members *)

Definition scriptLog_push_back (msg : string) : M R unit :=
  fun self =>
    (Return tt,
     {| payoffs_ := payoffs_ self;
        expressions_ := expressions_ self;
        scriptLog_ := scriptLog_ self ++ [msg];
        result_ := result_ self;
        observationTime_ := observationTime_ self |}).

Definition expressions_push_back (e : string) : M R unit :=
  fun self =>
    (Return tt,
     {| payoffs_ := payoffs_ self;
        expressions_ := expressions_ self ++ [e];
        scriptLog_ := scriptLog_ self;
        result_ := result_ self;
        observationTime_ := observationTime_ self |}).

Definition payoffs_find (name : string) : M R (shared_ptr R) :=
  fun self => (Return (StdMap.find name (payoffs_ self)), self).

Definition payoffs_size : M R nat :=
  fun self => (Return (StdMap.size (payoffs_ self)), self).

Definition payoffs_rbegin : M R (option (string * MCPayoffT R)) :=
  fun self => (Return (StdMap.rbegin (payoffs_ self)), self).

Definition set_payoffs (m : StdMap.t (MCPayoffT R)) : M R unit :=
  fun self =>
    (Return tt,
     {| payoffs_ := m;
        expressions_ := expressions_ self;
        scriptLog_ := scriptLog_ self;
        result_ := result_ self;
        observationTime_ := observationTime_ self |}).

Definition payoffs_insert (name : string) (p : MCPayoffT R) : M R unit :=
  fun self => set_payoffs (StdMap.insert name p (payoffs_ self)) self.

Definition payoffs_assign (name : string) (p : MCPayoffT R) : M R unit :=
  fun self => set_payoffs (StdMap.assign name p (payoffs_ self)) self.

Definition set_result (p : shared_ptr R) : M R unit :=
  fun self =>
    (Return tt,
     {| payoffs_ := payoffs_ self;
        expressions_ := expressions_ self;
        scriptLog_ := scriptLog_ self;
        result_ := p;
        observationTime_ := observationTime_ self |}).

Definition set_observationTime (t : R) : M R unit :=
  fun self =>
    (Return tt,
     {| payoffs_ := payoffs_ self;
        expressions_ := expressions_ self;
        scriptLog_ := scriptLog_ self;
        result_ := result_ self;
        observationTime_ := t |}).

(** ** Conversions *)

(** [std::stod(str, &sz)]. *)
Definition stod (str : string) : result (R * nat) :=
  match Cxx.strtod str with
  | None => Throw (invalid_argument "stod")
  | Some (v, sz) =>
      match of_strtod v with
      | Some x => Return (x, sz)
      | None => Throw (out_of_range "stod")
      end
  end.

(** [to_Number(str, number)]: [Some number] for [true]. *)
Definition to_Number (str : string) : option R :=
  match stod str with
  | Return (res, sz) => Some res
  | Throw e => None
  end.

Definition month_of_string (s : string) : option Month :=
  if String.eqb s "Jan" then Some Jan
  else if String.eqb s "Feb" then Some Feb
  else if String.eqb s "Mar" then Some Mar
  else if String.eqb s "Apr" then Some Apr
  else if String.eqb s "May" then Some May
  else if String.eqb s "Jun" then Some Jun
  else if String.eqb s "Jul" then Some Jul
  else if String.eqb s "Aug" then Some Aug
  else if String.eqb s "Sep" then Some Sep
  else if String.eqb s "Oct" then Some Oct
  else if String.eqb s "Nov" then Some Nov
  else if String.eqb s "Dec" then Some Dec
  else None.

(** The body of the [try] block of [date_to_Number]; [Return None] is
    its [return false]. *)
Definition date_to_Number_try (str : string) : result (option R) :=
  day <-- Cxx.stol long_extra_bits (substring 0 2 str) ;;
  year <-- Cxx.stol long_extra_bits (substring 5 4 str) ;;
  match month_of_string (substring 2 3 str) with
  | None => Return None
  | Some month =>
      d <-- Date_ctor (fst day) month (fst year) ;;
      let today := evaluationDate in
      Return (Some (div (of_int (serialNumber d - serialNumber today))
                        (of_int 365)))
  end.

(** [date_to_Number(str, number)]: [Some number] for [true]. *)
Definition date_to_Number (str : string) : option R :=
  if negb (String.length str =? 9)%nat then None
  else
    match date_to_Number_try str with
    | Return r => r
    | Throw e => None
    end.

(** ** Helpers of the expression compiler *)

Definition hasChilds (tree : option Expression) (nArgs lineNr : nat)
  : M R bool :=
  match tree with
  | None =>
      scriptLog_push_back
        ("Error line " ++ Cxx.to_string lineNr ++ ": Empty expression tree.") ;;
      ret false
  | Some t =>
      if negb (List.length (childs t) =? nArgs)%nat then
        scriptLog_push_back
          ("Error line " ++ Cxx.to_string lineNr ++ ": "
             ++ Cxx.to_string nArgs ++ " child expressions expected, but "
             ++ Cxx.to_string (List.length (childs t)) ++ " found.") ;;
        ret false
      else ret true
  end.

Definition hasLeafs (tree : option Expression) (nArgs lineNr : nat)
  : M R bool :=
  match tree with
  | None =>
      scriptLog_push_back
        ("Error line " ++ Cxx.to_string lineNr ++ ": Empty expression tree.") ;;
      ret false
  | Some t =>
      if negb (List.length (leafs t) =? nArgs)%nat then
        scriptLog_push_back
          ("Error line " ++ Cxx.to_string lineNr ++ ": "
             ++ Cxx.to_string nArgs ++ " leafs expected, but "
             ++ Cxx.to_string (List.length (childs t)) ++ " found.") ;;
        ret false
      else ret true
  end.

(** [findPayoffs(keys, throwException)] reads the object only. *)
Fixpoint findPayoffs_from (self : MCScriptT R) (keys : list string)
         (throwException : bool) (payoffs : list (MCPayoffT R))
  : result (list (MCPayoffT R)) :=
  match keys with
  | [] => Return payoffs
  | key :: keys' =>
      match StdMap.find key (payoffs_ self) with
      | Some p => findPayoffs_from self keys' throwException (payoffs ++ [p])
      | None =>
          if throwException then
            Throw (QL_Error ("MCScript error: payoff '" ++ key ++ "' not found"))
          else findPayoffs_from self keys' throwException payoffs
      end
  end.

Definition findPayoffs (self : MCScriptT R) (keys : list string)
           (throwException : bool) : result (list (MCPayoffT R)) :=
  findPayoffs_from self keys throwException [].

(** ** The expression compiler *)

Definition Cannot_interprete {A : Type} : M R A :=
  QL_FAIL "Cannot interprete payoff".

(** [if (!check) QL_FAIL("Cannot interprete payoff");] *)
Definition ensure (check : M R bool) : M R unit :=
  ok <- check ;; if negb ok then Cannot_interprete else ret tt.

(** The head of [payoff]: a null tree is logged and refused. *)
Definition empty_tree {A : Type} (k : nat) : M R A :=
  scriptLog_push_back
    ("Error line " ++ Cxx.to_string k ++ ": Empty expression tree.") ;;
  Cannot_interprete.

Definition cannot_convert {A : Type} (leaf : string) (k : nat) : M R A :=
  scriptLog_push_back
    ("Error line " ++ Cxx.to_string k ++ ": cannot convert " ++ leaf
       ++ " to number.") ;;
  Cannot_interprete.

(** The two arguments [a] and [b] of a call, in the order the compiler
    chose. *)
Definition arguments2 {A B : Type} (a : M R A) (b : M R B) : M R (A * B) :=
  match argument_order with
  | LeftToRight => x <- a ;; y <- b ;; ret (x, y)
  | RightToLeft => y <- b ;; x <- a ;; ret (x, y)
  end.

Definition arguments3 {A B C : Type} (a : M R A) (b : M R B) (c : M R C)
  : M R (A * B * C) :=
  match argument_order with
  | LeftToRight => x <- a ;; y <- b ;; z <- c ;; ret (x, y, z)
  | RightToLeft => z <- c ;; y <- b ;; x <- a ;; ret (x, y, z)
  end.

(** [payoff(tree, k)] on a tree that is not null.  [child i] is
    [payoff(tree->childs()[i], k)] and [leaf i] is [tree->leafs()[i]];
    both are only used after [hasChilds] and [hasLeafs] have checked
    the sizes. *)
Fixpoint payoff_node (t : Expression) (k : nat) {struct t}
  : M R (shared_ptr R) :=
  match t with
  | Expr ty cs ls =>
      let tree := Some t in
      let child (i : nat) : M R (shared_ptr R) :=
        nth i
            (map (fun c : option Expression =>
                    match c with
                    | Some t' => payoff_node t' k
                    | None => empty_tree k
                    end) cs)
            (empty_tree k) in
      let leaf (i : nat) : string := nth i ls EmptyString in
      match ty with
      | NUMBER =>
          ensure (hasChilds tree 0 k) ;;
          ensure (hasLeafs tree 1 k) ;;
          match to_Number (leaf 0) with
          | Some number => ret (Some (FixedAmount number))
          | None => cannot_convert (leaf 0) k
          end
      | IDENTIFIER =>
          ensure (hasChilds tree 0 k) ;;
          ensure (hasLeafs tree 1 k) ;;
          it <- payoffs_find (leaf 0) ;;
          match it with
          | Some p =>
              scriptLog_push_back
                ("Payoff line " ++ Cxx.to_string k ++ ": '" ++ leaf 0
                   ++ "' is in map") ;;
              ret (Some p)
          | None =>
              scriptLog_push_back
                ("Error line " ++ Cxx.to_string k ++ ": '" ++ leaf 0
                   ++ "' is no payoff") ;;
              Cannot_interprete
          end
      | UNARYPLUS =>
          ensure (hasChilds tree 1 k) ;;
          ensure (hasLeafs tree 0 k) ;;
          child 0
      | UNARYMINUS =>
          ensure (hasChilds tree 1 k) ;;
          ensure (hasLeafs tree 0 k) ;;
          x <- child 0 ;;
          ret (Some (Axpy (of_int (-1)) x None))
      | PLUS =>
          ensure (hasChilds tree 2 k) ;;
          ensure (hasLeafs tree 0 k) ;;
          xy <- arguments2 (child 0) (child 1) ;;
          ret (Some (Axpy (of_int 1) (fst xy) (snd xy)))
      | MINUS =>
          ensure (hasChilds tree 2 k) ;;
          ensure (hasLeafs tree 0 k) ;;
          xy <- arguments2 (child 1) (child 0) ;;
          ret (Some (Axpy (of_int (-1)) (fst xy) (snd xy)))
      | MULT =>
          ensure (hasChilds tree 2 k) ;;
          ensure (hasLeafs tree 0 k) ;;
          xy <- arguments2 (child 0) (child 1) ;;
          ret (Some (Mult (fst xy) (snd xy)))
      | DIVISION =>
          ensure (hasChilds tree 2 k) ;;
          ensure (hasLeafs tree 0 k) ;;
          xy <- arguments2 (child 0) (child 1) ;;
          ret (Some (Division (fst xy) (snd xy)))
      | IFTHENELSE =>
          ensure (hasChilds tree 3 k) ;;
          ensure (hasLeafs tree 0 k) ;;
          xyz <- arguments3 (child 0) (child 1) (child 2) ;;
          ret (Some (IfThenElse (fst (fst xyz)) (snd (fst xyz)) (snd xyz)))
      | MIN =>
          ensure (hasChilds tree 2 k) ;;
          ensure (hasLeafs tree 0 k) ;;
          xy <- arguments2 (child 0) (child 1) ;;
          ret (Some (Min (fst xy) (snd xy)))
      | MAX =>
          ensure (hasChilds tree 2 k) ;;
          ensure (hasLeafs tree 0 k) ;;
          xy <- arguments2 (child 0) (child 1) ;;
          ret (Some (Max (fst xy) (snd xy)))
      | LOGICAL =>
          ensure (hasChilds tree 2 k) ;;
          ensure (hasLeafs tree 1 k) ;;
          xy <- arguments2 (child 0) (child 1) ;;
          ret (Some (Logical (fst xy) (snd xy) (leaf 0)))
      | PAY =>
          ensure (hasChilds tree 1 k) ;;
          ensure (hasLeafs tree 1 k) ;;
          match to_Number (leaf 0) with
          | None => cannot_convert (leaf 0) k
          | Some number =>
              x <- child 0 ;;
              ret (Some (Pay x number))
          end
      | PAY_WITHDATE =>
          ensure (hasChilds tree 1 k) ;;
          ensure (hasLeafs tree 1 k) ;;
          match date_to_Number (leaf 0) with
          | None => cannot_convert (leaf 0) k
          | Some number =>
              x <- child 0 ;;
              ret (Some (Pay x number))
          end
      | CACHE =>
          ensure (hasChilds tree 1 k) ;;
          ensure (hasLeafs tree 0 k) ;;
          x <- child 0 ;;
          ret (Some (Cache x))
      | PAYOFFAT =>
          ensure (hasChilds tree 1 k) ;;
          ensure (hasLeafs tree 1 k) ;;
          match to_Number (leaf 0) with
          | None => cannot_convert (leaf 0) k
          | Some number =>
              p <- child 0 ;;
              match p with
              | Some p' => call (payoff_at p' number)
              | None => Cannot_interprete
              end
          end
      | PAYOFFAT_WITHDATE =>
          ensure (hasChilds tree 1 k) ;;
          ensure (hasLeafs tree 1 k) ;;
          match date_to_Number (leaf 0) with
          | None => cannot_convert (leaf 0) k
          | Some number =>
              p <- child 0 ;;
              match p with
              | Some p' => call (payoff_at p' number)
              | None => Cannot_interprete
              end
          end
      | ASSIGNMENT | UNLISTED _ =>
          scriptLog_push_back
            ("Error line " ++ Cxx.to_string k ++ ": unknown expression type.") ;;
          Cannot_interprete
      end
  end.

(** [payoff(tree, k)]: convert an abstract expression tree into a
    payoff. *)
Definition payoff (tree : option Expression) (k : nat)
  : M R (shared_ptr R) :=
  match tree with
  | None => empty_tree k
  | Some t => payoff_node t k
  end.

(** ** The script orchestrator, primary grammar *)

(** A [for (Size k = 0; k < script.size(); ++k)] loop over the lines,
    entered with [k] at the index of the first line of [script]. *)
Fixpoint for_each_line (body : nat -> string -> M R unit) (k : nat)
         (script : list string) : M R unit :=
  match script with
  | [] => ret tt
  | line :: script' => body k line ;; for_each_line body (S k) script'
  end.

(** Storing the payoff [p] of line [k] under [var]; [text] is what the
    log quotes.  Lines 371-382. *)
Definition store_FlexBison (overwrite : bool) (k : nat) (text var : string)
           (p : MCPayoffT R) : M R unit :=
  it <- payoffs_find var ;;
  match it with
  | None =>
      payoffs_insert var p ;;
      scriptLog_push_back
        ("Insert line " ++ Cxx.to_string k ++ ": '" ++ text ++ "'")
  | Some _ =>
      if overwrite then
        payoffs_assign var p ;;
        scriptLog_push_back
          ("Replace line " ++ Cxx.to_string k ++ ": '" ++ text ++ "'")
      else
        scriptLog_push_back
          ("Error line " ++ Cxx.to_string k ++ ": Cannot replace line '"
             ++ text ++ "'")
  end.

(** One turn of the loop of [parseFlexBisonScript]; every [continue]
    is the end of a branch. *)
Definition parseFlexBisonLine (overwrite : bool) (k : nat) (line : string)
  : M R unit :=
  let driver := FlexBisonDriver line in
  match expressionTree driver with
  | Some t =>
      expressions_push_back ("L" ++ Cxx.to_string k ++ ":" ++ toString t)
  | None => ret tt
  end ;;
  if (returnValue driver =? 0)%Z then
    match expressionTree driver with
    | None =>
        scriptLog_push_back
          ("Error line " ++ Cxx.to_string k ++ ": Empty expression tree.")
    | Some t =>
        if negb (is_ASSIGNMENT (type t)) then
          scriptLog_push_back
            ("Error line " ++ Cxx.to_string k ++ ": Assignment expected.")
        else
          ok1 <- hasChilds (Some t) 1 k ;;
          if negb ok1 then ret tt else
          ok2 <- hasLeafs (Some t) 1 k ;;
          if negb ok2 then ret tt else
          r <- try_block (payoff (nth 0 (childs t) None) k) ;;
          match r with
          | Throw e =>
              scriptLog_push_back
                ("Error line " ++ Cxx.to_string k ++ ": Exception caught: "
                   ++ sliced_what)
          | Return None =>
              scriptLog_push_back
                ("Error line " ++ Cxx.to_string k ++ ": No payoff found.")
          | Return (Some p) =>
              let var := nth 0 (leafs t) EmptyString in
              if String.eqb var "" then
                scriptLog_push_back
                  ("Error line " ++ Cxx.to_string k
                     ++ ": Non-empty identifier expected.")
              else store_FlexBison overwrite k line var p
          end
    end
  else
    scriptLog_push_back
      ("Error line " ++ Cxx.to_string k ++ ": " ++ errorMsg driver).

Definition parseFlexBisonScript (script : list string) (overwrite : bool)
  : M R unit :=
  for_each_line (parseFlexBisonLine overwrite) 0 script.

(** ** The script orchestrator, legacy grammar *)

(** The regular expressions of [parseScript] and of the functions it
    calls, in the order of their appearance. *)
(** [re_assignment] is the pattern  ( [a-zA-Z][a-zA-Z0-9]* ) (=) (.+)
    without the blanks. *)
Definition re_assignment : Regex.regex :=
  Regex.cats [Regex.Group (Regex.Cat (Regex.Set_ Regex.alpha)
                                     (Regex.Star Regex.alnum));
              Regex.Group (Regex.Lit "=");
              Regex.Group (Regex.Plus Regex.any)].

Definition re_operator1 : Regex.regex :=       (* (\+|-)(.+) *)
  Regex.cats [Regex.Group (Regex.alts [Regex.Lit "+"; Regex.Lit "-"]);
              Regex.Group (Regex.Plus Regex.any)].

Definition re_operator2 : Regex.regex :=
  (* (.+)(\+|-|\*|==|!=|<=|<|>=|>|&&|\|\|)(.+) *)
  Regex.cats [Regex.Group (Regex.Plus Regex.any);
              Regex.Group
                (Regex.alts [Regex.Lit "+"; Regex.Lit "-"; Regex.Lit "*";
                             Regex.Lit "=="; Regex.Lit "!="; Regex.Lit "<=";
                             Regex.Lit "<"; Regex.Lit ">="; Regex.Lit ">";
                             Regex.Lit "&&"; Regex.Lit "||"]);
              Regex.Group (Regex.Plus Regex.any)].

Definition re_function3 : Regex.regex :=       (* ([a-zA-Z]+)\((.+),(.+),(.+)\) *)
  Regex.cats [Regex.Group (Regex.Plus Regex.alpha); Regex.Lit "(";
              Regex.Group (Regex.Plus Regex.any); Regex.Lit ",";
              Regex.Group (Regex.Plus Regex.any); Regex.Lit ",";
              Regex.Group (Regex.Plus Regex.any); Regex.Lit ")"].

Definition re_function2 : Regex.regex :=       (* ([a-zA-Z]+)\((.+),(.+)\) *)
  Regex.cats [Regex.Group (Regex.Plus Regex.alpha); Regex.Lit "(";
              Regex.Group (Regex.Plus Regex.any); Regex.Lit ",";
              Regex.Group (Regex.Plus Regex.any); Regex.Lit ")"].

Definition re_function1 : Regex.regex :=       (* ([a-zA-Z]+)\((.+)\) *)
  Regex.cats [Regex.Group (Regex.Plus Regex.alpha); Regex.Lit "(";
              Regex.Group (Regex.Plus Regex.any); Regex.Lit ")"].

Definition re_logical : Regex.regex :=         (* ==|!=|<|<=|>|>=|&&|\|\| *)
  Regex.alts [Regex.Lit "=="; Regex.Lit "!="; Regex.Lit "<"; Regex.Lit "<=";
              Regex.Lit ">"; Regex.Lit ">="; Regex.Lit "&&"; Regex.Lit "||"].

(** [boost::regex_match(name, what, boost::regex(pattern))] as a test,
    for a pattern without sub-expressions. *)
Definition matches (name : string) (pattern : Regex.regex) : bool :=
  match Regex.regex_match name pattern with
  | Some _ => true
  | None => false
  end.

(** [payoff(expr, lineNr)] on a string: compile fixed cash flow or
    lookup in map; the null pointer when neither works. *)
Definition payoff_string (expr : string) (lineNr : nat)
  : M R (shared_ptr R) :=
  match to_Number expr with
  | Some amount =>
      scriptLog_push_back
        ("Payoff line " ++ Cxx.to_string lineNr ++ ": '"
           ++ lexical_cast amount ++ "' is fixed amount") ;;
      ret (Some (FixedAmount amount))
  | None =>
      it <- payoffs_find expr ;;
      match it with
      | Some p =>
          scriptLog_push_back
            ("Payoff line " ++ Cxx.to_string lineNr ++ ": '" ++ expr
               ++ "' is in map") ;;
          ret (Some p)
      | None =>
          scriptLog_push_back
            ("Error line " ++ Cxx.to_string lineNr ++ ": '" ++ expr
               ++ "' is no payoff") ;;
          ret None
      end
  end.

(** [payoff(operand, lineNr)] followed by the test of its result: the
    continuation runs on a payoff that is not null. *)
Definition with_operand (operand : string) (lineNr : nat)
           (k : MCPayoffT R -> M R (shared_ptr R)) : M R (shared_ptr R) :=
  p <- payoff_string operand lineNr ;;
  match p with
  | None =>
      scriptLog_push_back
        ("Error line " ++ Cxx.to_string lineNr ++ ": '" ++ operand
           ++ "' is no valid operand") ;;
      ret None
  | Some p' => k p'
  end.

Definition no_valid_name (lineNr : nat) (name kind : string)
  : M R (shared_ptr R) :=
  scriptLog_push_back
    ("Error line " ++ Cxx.to_string lineNr ++ ": '" ++ name ++ "' is no valid "
       ++ kind ++ " name") ;;
  ret None.

Definition function1 (fname operand : string) (lineNr : nat)
  : M R (shared_ptr R) :=
  with_operand operand lineNr (fun p =>
  if matches fname (Regex.Lit "Cache") then ret (Some (Cache (Some p)))
  else no_valid_name lineNr fname "unary function").

Definition function2 (fname oper1 oper2 : string) (lineNr : nat)
  : M R (shared_ptr R) :=
  with_operand oper1 lineNr (fun p1 =>
  with_operand oper2 lineNr (fun p2 =>
  if matches fname (Regex.Lit "Min") then ret (Some (Min (Some p1) (Some p2)))
  else if matches fname (Regex.Lit "Max") then
    ret (Some (Max (Some p1) (Some p2)))
  else if matches fname (Regex.Lit "Pay") then
    match to_Number oper2 with
    | Some t => ret (Some (Pay (Some p1) t))
    | None => ret (Some (Pay (Some p1) (observationTime p2)))
    end
  else no_valid_name lineNr fname "binary function")).

Definition function3 (fname oper1 oper2 oper3 : string) (lineNr : nat)
  : M R (shared_ptr R) :=
  with_operand oper1 lineNr (fun p1 =>
  with_operand oper2 lineNr (fun p2 =>
  with_operand oper3 lineNr (fun p3 =>
  if matches fname (Regex.Lit "IfThenElse") then
    ret (Some (IfThenElse (Some p1) (Some p2) (Some p3)))
  else no_valid_name lineNr fname "function"))).

Definition operator1 (opname operand : string) (lineNr : nat)
  : M R (shared_ptr R) :=
  with_operand operand lineNr (fun p =>
  if matches opname (Regex.Lit "+") then ret (Some p)
  else if matches opname (Regex.Lit "-") then
    ret (Some (Axpy (of_int (-1)) (Some p) None))
  else no_valid_name lineNr opname "unary operator").

Definition operator2 (opname oper1 oper2 : string) (lineNr : nat)
  : M R (shared_ptr R) :=
  with_operand oper1 lineNr (fun p1 =>
  with_operand oper2 lineNr (fun p2 =>
  if matches opname (Regex.Lit "+") then
    ret (Some (Axpy (of_int 1) (Some p1) (Some p2)))
  else if matches opname (Regex.Lit "-") then
    ret (Some (Axpy (of_int (-1)) (Some p2) (Some p1)))
  else if matches opname (Regex.Lit "*") then
    ret (Some (Mult (Some p1) (Some p2)))
  else if matches opname re_logical then
    ret (Some (Logical (Some p1) (Some p2) opname))
  else no_valid_name lineNr opname "binary operator")).

(** The cascade of [parseScript] that compiles the right-hand side
    [expr] of line [k]: the first regular expression that matches
    decides.  Lines 432-447. *)
Definition compile_expr (expr : string) (k : nat) : M R (shared_ptr R) :=
  match Regex.regex_match expr re_operator1 with
  | Some what => operator1 (Regex.sub what 1) (Regex.sub what 2) k
  | None =>
  match Regex.regex_match expr re_operator2 with
  | Some what =>
      operator2 (Regex.sub what 2) (Regex.sub what 1) (Regex.sub what 3) k
  | None =>
  match Regex.regex_match expr re_function3 with
  | Some what =>
      function3 (Regex.sub what 1) (Regex.sub what 2) (Regex.sub what 3)
                (Regex.sub what 4) k
  | None =>
  match Regex.regex_match expr re_function2 with
  | Some what =>
      function2 (Regex.sub what 1) (Regex.sub what 2) (Regex.sub what 3) k
  | None =>
  match Regex.regex_match expr re_function1 with
  | Some what => function1 (Regex.sub what 1) (Regex.sub what 2) k
  | None => payoff_string expr k
  end end end end end.

(** Storing the payoff of line [k] under [var].  Lines 455-467. *)
Definition store_legacy (overwrite : bool) (k : nat) (line var : string)
           (p : MCPayoffT R) : M R unit :=
  it <- payoffs_find var ;;
  match it with
  | None =>
      payoffs_insert var p ;;
      scriptLog_push_back
        ("Insert line " ++ Cxx.to_string k ++ ": '" ++ line ++ "'")
  | Some _ =>
      if overwrite then
        payoffs_assign var p ;;
        scriptLog_push_back
          ("Replace line " ++ Cxx.to_string k ++ ": '" ++ line ++ "'")
      else
        scriptLog_push_back
          ("Error line " ++ Cxx.to_string k ++ ": '" ++ var
             ++ "' can not be replaced")
  end.

(** One turn of the loop of [parseScript]. *)
Definition parseLine (overwrite : bool) (k : nat) (script_k : string)
  : M R unit :=
  let line := Regex.remove_spaces script_k in
  match Regex.regex_match line re_assignment with
  | None =>
      scriptLog_push_back
        ("Error line " ++ Cxx.to_string k ++ ": '" ++ line
           ++ "' is no valid assignment")
  | Some what =>
      let var := Regex.sub what 1 in
      let expr := Regex.sub what 3 in
      p <- compile_expr expr k ;;
      match p with
      | None =>
          scriptLog_push_back
            ("Error line " ++ Cxx.to_string k ++ ": '" ++ expr
               ++ "' is no valid expression")
      | Some p' => store_legacy overwrite k line var p'
      end
  end.

(** The help text that [parseScript] logs for an empty script. *)
Definition grammar_help : list string :=
  [
    "we implement the following non-recursive grammar                                     ";
    "                                                                                     ";
    "line  =  var '=' expr                                                                ";
    "var   =  [a-zA-Z][a-zA-Z0-9]*           { RegEx }                                    ";
    "expr  =  operator | function | payoff   { apply from left to right }                 ";
    "                                                                                     ";
    "operator   =  operator1 | operator2                                                  ";
    "operator1  =  ['+' | '-'] payoff                                                     ";
    "operator2  =  payoff ['+' | '-' | '*' |                                              ";
    "                      '==' | '!=' | '<=' |'<' | '>=' | '>' | '&&' | '||' ] payoff    ";
    "                                                                                     ";
    "function   =  function3 | function2 | function1                                      ";
    "function3  =  fname3 '(' payoff ',' payoff ',' payoff ')'                            ";
    "function2  =  fname2 '(' payoff ',' payoff ')'                                       ";
    "function1  =  fname1 '(' payoff ')'                                                  ";
    "                                                                                     ";
    "fname3     =  'IfThenElse'                                                           ";
    "fname2     =  'Min' | 'Max' | 'Pay'                                                  ";
    "fname1     =  'Cache'                                                                ";
    "                                                                                     ";
    "payoff  =  number | string              { try double conversion and lookup in map }  "
  ].

Fixpoint scriptLog_push_back_all (msgs : list string) : M R unit :=
  match msgs with
  | [] => ret tt
  | msg :: msgs' => scriptLog_push_back msg ;; scriptLog_push_back_all msgs'
  end.

Definition parseScript (script : list string) (overwrite : bool)
  : M R unit :=
  for_each_line (parseLine overwrite) 0 script ;;
  if (List.length script =? 0)%nat then scriptLog_push_back_all grammar_help
  else ret tt.

(** ** The constructor *)

(** The loop that stores the initial bindings [(keys[k], payoffs[k])];
    the two vectors have the same size when it runs.  The payoffs
    handed to the constructor are nodes, not null pointers. *)
Fixpoint initialize_map (keys : list string) (payoffs : list (MCPayoffT R))
         (overwrite : bool) : M R unit :=
  match keys, payoffs with
  | key :: keys', p :: payoffs' =>
      it <- payoffs_find key ;;
      match it with
      | None => payoffs_insert key p
      | Some _ =>
          QL_REQUIRE overwrite "MCScript error: overwrite not allowed" ;;
          payoffs_assign key p
      end ;;
      initialize_map keys' payoffs' overwrite
  | _, _ => ret tt
  end.

(** The choice of the grammar: [script.size() > 0] and
    [script[0].compare("NonRecursive") == 0]. *)
Definition is_NonRecursive (script : list string) : bool :=
  match script with
  | first :: _ => String.eqb first "NonRecursive"
  | [] => false
  end.

Definition parse (script : list string) (overwrite : bool) : M R unit :=
  if is_NonRecursive script then parseScript script overwrite
  else parseFlexBisonScript script overwrite.

(** [result_ = payoffs_.rbegin()->second], on a map that is not empty. *)
Definition pick_last : M R unit :=
  last <- payoffs_rbegin ;;
  set_result (option_map snd last).

Definition select_result : M R unit :=
  pick_last ;;
  it <- payoffs_find "payoff" ;;
  match it with
  | Some p => set_result (Some p)
  | None => pick_last
  end ;;
  fun self =>
    match result_ self with
    | Some p => set_observationTime (observationTime p) self
    | None => (Return tt, self)
    end.

(** The body of [MCScriptT::MCScriptT], run on the object the base
    class constructor [MCPayoffT(0.0)] leaves. *)
Definition MCScriptT_ctor (keys : list string) (payoffs : list (MCPayoffT R))
           (script : list string) (overwrite : bool) : M R unit :=
  QL_REQUIRE (List.length keys =? List.length payoffs)%nat
             "MCScript error: key vs. value size missmatch" ;;
  initialize_map keys payoffs overwrite ;;
  parse script overwrite ;;
  n <- payoffs_size ;;
  QL_REQUIRE (0 <? n)%nat "MCScript error: no payoffs stored." ;;
  select_result.

Definition fresh : MCScriptT R :=
  {| payoffs_ := StdMap.empty (MCPayoffT R);
     expressions_ := [];
     scriptLog_ := [];
     result_ := None;
     observationTime_ := of_int 0 |}.

(** [MCScriptT(keys, payoffs, script, overwrite)]: the object, unless
    the constructor throws. *)
Definition new_MCScriptT (keys : list string) (payoffs : list (MCPayoffT R))
           (script : list string) (overwrite : bool) : result (MCScriptT R) :=
  match MCScriptT_ctor keys payoffs script overwrite fresh with
  | (Return _, self) => Return self
  | (Throw e, _) => Throw e
  end.

(** ** Monte-Carlo valuation *)

(** What [NPV] asks of a [SimulationType]. *)
Record SimulationType : Type := {
  nPaths : nat;
  path : nat -> PathType
}.

(** The inner loop: [npv[k] += payoffs[k]->discountedAt(p)]. *)
Fixpoint add_discounted (npv : list R) (payoffs : list (MCPayoffT R))
         (p : PathType) : list R :=
  match npv, payoffs with
  | x :: npv', q :: payoffs' =>
      add x (discountedAt q p) :: add_discounted npv' payoffs' p
  | _, _ => npv
  end.

(** The outer loop over the paths [n, n+1, ...], [count] of them; the
    second component lists the paths fetched so far, in order. *)
Fixpoint over_paths (simulation : SimulationType)
         (payoffs : list (MCPayoffT R)) (n count : nat)
         (npv : list R) (fetched : list nat) : list R * list nat :=
  match count with
  | O => (npv, fetched)
  | S count' =>
      let p := path simulation n in
      over_paths simulation payoffs (S n) count'
                 (add_discounted npv payoffs p) (fetched ++ [n])
  end.

(** [NPV(simulation, keys)], together with the indices of the paths it
    fetched from the simulation. *)
Definition NPV (self : MCScriptT R) (simulation : SimulationType)
           (keys : list string) : result (list R) * list nat :=
  match findPayoffs self keys true with
  | Throw e => (Throw e, [])
  | Return payoffs =>
      let npv0 := repeat (of_int 0) (List.length payoffs) in
      let (npv, fetched) :=
        over_paths simulation payoffs 0 (nPaths simulation) npv0 [] in
      (Return (map (fun x => div x (of_int (Z.of_nat (nPaths simulation))))
                   npv),
       fetched)
  end.

End MemberFunctions.

(* ================================================================= *)
(** * Observation times *)

(** Modelled from the spec: every payoff node declares a set of
    observation times, and the sets of several nodes are united.  The
    sets ([std::set<DateType>]), [MCPayoffT::observationTimes()] and
    [MCPayoffT::unionTimes] belong to [mcpayoffT.hpp], which is not
    among the sources; they are taken as they come. *)
Class TimeSets (R : Type) : Type := {
  TimeSet : Type;
  (** [std::set<DateType> s;] *)
  no_times : TimeSet;
  unionTimes : TimeSet -> TimeSet -> TimeSet;
  (** [payoff->observationTimes()] *)
  times_of : MCPayoffT R -> TimeSet;
  (** [std::vector<DateType>(s.begin(), s.end())] *)
  to_vector : TimeSet -> list R
}.

Section ObservationTimes.

Context {R : Type} {ops : RealOps R} {env : Environment R} {sets : TimeSets R}.

(** The loop [s = unionTimes(s, payoffs[k]->observationTimes())]. *)
Definition union_of (payoffs : list (MCPayoffT R)) : TimeSet :=
  fold_left (fun s p => unionTimes s (times_of p)) payoffs no_times.

(** [observationTimes(keys)]. *)
Definition observationTimes (self : MCScriptT R) (keys : list string)
  : result (list R) :=
  match findPayoffs self keys true with
  | Throw e => Throw e
  | Return payoffs => Return (to_vector (union_of payoffs))
  end.

End ObservationTimes.

(* ================================================================= *)
(** * Floating-point numbers *)

(** [sabr.cpp] and [localcorrsurfaceabf.cpp] compute with [Real], the
    [double] of the platform.  Its operations are kept abstract: a
    literal denotes a number, and the operations are those of the
    hardware and of [<cmath>], whatever they round to.  The operators
    associate as they do in C++. *)
Class Floating (T : Type) : Type := {
  (** the [double] that a literal denotes *)
  lit : Q -> T;
  fadd : T -> T -> T;
  fsub : T -> T -> T;
  fmul : T -> T -> T;
  fdiv : T -> T -> T;
  fneg : T -> T;
  fgt : T -> T -> bool;
  fge : T -> T -> bool;
  flt : T -> T -> bool;
  fle : T -> T -> bool;
  fneq : T -> T -> bool
}.

Arguments lit {T _} _%_Q.

(** [std::pow], [std::sqrt], [std::log], [std::fabs]; [close] of
    [ql/math/comparison.hpp] and [QL_EPSILON]; the text that
    [operator<<] prints for a [Real], and for [io::rate] of it. *)
Class Elementary (T : Type) : Type := {
  pow : T -> T -> T;
  sqrt : T -> T;
  log : T -> T;
  fabs : T -> T;
  close : T -> T -> bool;
  QL_EPSILON : T;
  shown : T -> string;
  io_rate : T -> string
}.

Declare Scope real_scope.
Delimit Scope real_scope with real.
Notation "x + y" := (fadd x y) : real_scope.
Notation "x - y" := (fsub x y) : real_scope.
Notation "x * y" := (fmul x y) : real_scope.
Notation "x / y" := (fdiv x y) : real_scope.
Notation "- x" := (fneg x) : real_scope.
Notation "x > y" := (fgt x y) : real_scope.
Notation "x >= y" := (fge x y) : real_scope.
Notation "x < y" := (flt x y) : real_scope.
Notation "x <= y" := (fle x y) : real_scope.

(* ================================================================= *)
(** * The SABR volatility formulas of [sabr.cpp] *)

Module Sabr.

Section Formulas.

Context {T : Type} {fp : Floating T} {fn : Elementary T}.

Local Open Scope real_scope.

Definition unsafeSabrVolatility
           (strike forward expiryTime alpha beta nu rho : T) : T :=
  let oneMinusBeta := lit 1.0 - beta in
  let A := pow (forward * strike) oneMinusBeta in
  let sqrtA := sqrt A in
  let logM :=
    if negb (close forward strike) then log (forward / strike)
    else
      let epsilon := (forward - strike) / strike in
      epsilon - lit 0.5 * epsilon * epsilon in
  let z := (nu / alpha) * sqrtA * logM in
  let zz := (nu / alpha) * logM in
  let B := lit 1.0 - lit 2.0 * rho * z + z * z in
  let C := oneMinusBeta * oneMinusBeta * logM * logM in
  let tmp := (sqrt B + z - rho) / (lit 1.0 - rho) in
  let xx := log tmp in
  let D := lit 1.0 + C / lit 24.0 + C * C / lit 1920.0 in
  let d :=
    lit 1.0 + expiryTime *
      (oneMinusBeta * oneMinusBeta * alpha * alpha / (lit 24.0 * A)
       + lit 0.25 * rho * beta * nu * alpha / sqrtA
       + (lit 2.0 - lit 3.0 * rho * rho) * (nu * nu / lit 24.0)) in
  let m := lit 10 in
  if fabs (z * z) > QL_EPSILON * m then
    let multiplier := zz / xx in
    (alpha / D) * multiplier * d
  else
    let multiplier :=
      lit 1.0 - lit 0.5 * rho * z
      - (lit 3.0 * rho * rho - lit 2.0) * z * z / lit 12.0 in
    let D := sqrtA * D in
    (alpha / D) * multiplier * d.

Definition unsafeShiftedSabrVolatility
           (strike forward expiryTime alpha beta nu rho shift : T) : T :=
  unsafeSabrVolatility (strike + shift) (forward + shift) expiryTime
                       alpha beta nu rho.

Definition unsafeNormalSabrVolatility
           (strike forward expiryTime alpha beta nu rho : T) : T :=
  let Fmid := sqrt (forward * strike) in
  let C := pow Fmid beta in
  let gamma1 := beta / Fmid in
  let gamma2 := - gamma1 * (lit 1.0 - beta) / Fmid in
  let zeta :=
    nu / alpha / (lit 1.0 - beta)
    * (pow forward (lit 1.0 - beta) - pow strike (lit 1.0 - beta)) in
  let D :=
    log ((sqrt (lit 1.0 - lit 2.0 * rho * zeta + zeta * zeta) + zeta - rho)
         / (lit 1.0 - rho)) in
  let mult :=
    if negb (close forward strike) then nu * (forward - strike) / D
    else alpha * pow forward beta in
  let res :=
    (lit 2.0 * gamma2 - gamma1 * gamma1) / lit 24.0 * alpha * alpha * C * C
    / nu / nu in
  let res := res + rho * gamma1 / lit 4.0 * alpha * C / nu in
  let res := res + (lit 2.0 - lit 3.0 * rho * rho) / lit 24.0 in
  let res := lit 1 + res * expiryTime * nu * nu in
  res * mult.

(** [QL_REQUIRE(condition, message)] in a function without an
    object. *)
Definition require (condition : bool) (message : string) : result unit :=
  if condition then Return tt else Throw (QL_Error message).

Definition validateSabrParameters (alpha beta nu rho : T) : result unit :=
  _ <-- require (alpha > lit 0.0)
                ("alpha must be positive: " ++ shown alpha ++ " not allowed") ;;
  _ <-- require ((beta >= lit 0.0) && (beta <= lit 1.0))
                ("beta must be in (0.0, 1.0): " ++ shown beta ++ " not allowed") ;;
  _ <-- require (nu >= lit 0.0)
                ("nu must be non negative: " ++ shown nu ++ " not allowed") ;;
  require (rho * rho < lit 1.0)
          ("rho square must be less than one: " ++ shown rho ++ " not allowed").

Definition sabrVolatility (strike forward expiryTime alpha beta nu rho : T)
           (calcNormalVol : bool) : result T :=
  _ <-- require (strike > lit 0.0)
                ("strike must be positive: " ++ io_rate strike
                   ++ " not allowed") ;;
  _ <-- require (forward > lit 0.0)
                ("at the money forward rate must be positive: "
                   ++ io_rate forward ++ " not allowed") ;;
  _ <-- require (expiryTime >= lit 0.0)
                ("expiry time must be non-negative: " ++ shown expiryTime
                   ++ " not allowed") ;;
  _ <-- validateSabrParameters alpha beta nu rho ;;
  if calcNormalVol then
    Return (unsafeNormalSabrVolatility strike forward expiryTime
                                       alpha beta nu rho)
  else
    Return (unsafeSabrVolatility strike forward expiryTime alpha beta nu rho).

Definition shiftedSabrVolatility
           (strike forward expiryTime alpha beta nu rho shift : T)
  : result T :=
  _ <-- require (strike + shift > lit 0.0)
                ("strike+shift must be positive: " ++ io_rate strike ++ "+"
                   ++ io_rate shift ++ " not allowed") ;;
  _ <-- require (forward + shift > lit 0.0)
                ("at the money forward rate + shift must be positive: "
                   ++ io_rate forward ++ " " ++ io_rate shift
                   ++ " not allowed") ;;
  _ <-- require (expiryTime >= lit 0.0)
                ("expiry time must be non-negative: " ++ shown expiryTime
                   ++ " not allowed") ;;
  _ <-- validateSabrParameters alpha beta nu rho ;;
  Return (unsafeShiftedSabrVolatility strike forward expiryTime
                                      alpha beta nu rho shift).

(** The conditions under which [validateSabrParameters] returns. *)
Definition valid_parameters (alpha beta nu rho : T) : bool :=
  (alpha > lit 0.0) && ((beta >= lit 0.0) && (beta <= lit 1.0))
  && (nu >= lit 0.0) && (rho * rho < lit 1.0).

End Formulas.

End Sabr.

(* ================================================================= *)
(** * The local correlation surface of [localcorrsurfaceabf.cpp] *)

Module LocalCorr.

(** How a run on vectors ends.  A subscript out of range has no
    defined behaviour: the run is then [Undefined]. *)
Inductive status : Type :=
| Finished
| Thrown (e : exception)
| Undefined.

(** [v[n] = x] on a vector that has an element [n]. *)
Fixpoint update {A : Type} (n : nat) (x : A) (v : list A) : list A :=
  match v, n with
  | [], _ => []
  | _ :: v', O => x :: v'
  | a :: v', S n' => a :: update n' x v'
  end.

Section Surface.

Context {T : Type} {fp : Floating T}.

Local Open Scope real_scope.

(** [RealStochasticProcess::MatA] and [VecA]: vectors of vectors of
    reals, and vectors of reals. *)
Definition MatA : Type := list (list T).
Definition VecA : Type := list T.

(** What [localCorrImpl] uses of the object.  The two correlation
    matrices and the functions [localA], [localB] and [localF] are
    members of the base class [LocalCorrTermStructure], which is not
    among the sources; they are taken as they come. *)
Record LocalCorrSurfaceABF : Type := {
  corr0_ : MatA;
  corr1_ : MatA;
  localA : T -> VecA -> bool -> T;
  localB : T -> VecA -> bool -> T;
  localF : T -> VecA -> bool -> T
}.

(** [m[i][j]] as a value. *)
Definition subscript (m : MatA) (i j : nat) : option T :=
  match nth_error m i with
  | Some row => nth_error row j
  | None => None
  end.

(** [m[i][j] = x]. *)
Definition assign (m : MatA) (i j : nat) (x : T) : option MatA :=
  match nth_error m i with
  | Some row =>
      if (j <? List.length row)%nat then Some (update i (update j x row) m)
      else None
  | None => None
  end.

(** The body of the inner loop. *)
Definition cell (self : LocalCorrSurfaceABF) (lambda : T) (i j : nat)
           (corrMatrix : MatA) : status * MatA :=
  match subscript (corr0_ self) i j, subscript (corr1_ self) i j with
  | Some c0, Some c1 =>
      match assign corrMatrix i j ((lit 1 - lambda) * c0 + lambda * c1) with
      | None => (Undefined, corrMatrix)
      | Some m1 =>
          match subscript m1 i j with
          | None => (Undefined, m1)
          | Some x =>
              if negb (fneq x (lit 1) || (i =? j)%nat) then
                (Thrown (QL_Error "correlation is not allowed wo be 1 for i!=j"),
                 m1)
              else
                match assign m1 j i x with
                | None => (Undefined, m1)
                | Some m2 => (Finished, m2)
                end
          end
      end
  | _, _ => (Undefined, corrMatrix)
  end.

(** [for (; j < corrMatrix[i].size(); j++)], entered with [count]
    turns to go: an assignment to an element changes no size. *)
Fixpoint row_loop (self : LocalCorrSurfaceABF) (lambda : T)
         (i j count : nat) (corrMatrix : MatA) : status * MatA :=
  match count with
  | O => (Finished, corrMatrix)
  | S count' =>
      match cell self lambda i j corrMatrix with
      | (Finished, m) => row_loop self lambda i (S j) count' m
      | stop => stop
      end
  end.

(** [for (; i < corrMatrix.size(); i++)], entered with [count] turns
    to go. *)
Fixpoint rows_loop (self : LocalCorrSurfaceABF) (lambda : T)
         (i count : nat) (corrMatrix : MatA) : status * MatA :=
  match count with
  | O => (Finished, corrMatrix)
  | S count' =>
      match nth_error corrMatrix i with
      | None => (Undefined, corrMatrix)
      | Some row =>
          match row_loop self lambda i i (List.length row - i) corrMatrix with
          | (Finished, m) => rows_loop self lambda (S i) count' m
          | stop => stop
          end
      end
  end.

(** [localCorrImpl(corrMatrix, t, X0, extrapolate)]: how it ends, and
    the matrix it leaves. *)
Definition localCorrImpl (self : LocalCorrSurfaceABF) (corrMatrix : MatA)
           (t : T) (X0 : VecA) (extrapolate : bool) : status * MatA :=
  let lambda :=
    (localF self t X0 extrapolate - localA self t X0 extrapolate)
    / localB self t X0 extrapolate in
  rows_loop self lambda 0 (List.length corrMatrix) corrMatrix.

(** ** Vocabulary *)

(** A matrix of [n] rows of [n] elements. *)
Definition square (n : nat) (m : MatA) : Prop :=
  List.length m = n /\ Forall (fun row => List.length row = n) m.

(** The matrix [c] has the elements [c[i][j]] for [i <= j < n]. *)
Definition covers (n : nat) (c : MatA) : Prop :=
  forall i j, (i <= j)%nat -> (j < n)%nat -> subscript c i j <> None.

Definition entry (c : MatA) (i j : nat) : T :=
  match subscript c i j with
  | Some x => x
  | None => lit 0
  end.

(** The correlation that [lambda] selects between the two matrices of
    the object. *)
Definition blend (self : LocalCorrSurfaceABF) (lambda : T) (i j : nat) : T :=
  (lit 1 - lambda) * entry (corr0_ self) i j
  + lambda * entry (corr1_ self) i j.

(** No correlation off the diagonal is 1, on or above the diagonal
    of an [n] by [n] matrix and from row [i] on. *)
Definition admissible_row (self : LocalCorrSurfaceABF) (lambda : T)
           (i j count : nat) : bool :=
  forallb (fun j' => fneq (blend self lambda i j') (lit 1) || (i =? j')%nat)
          (seq j count).

Fixpoint admissible (self : LocalCorrSurfaceABF) (lambda : T)
         (n i count : nat) : bool :=
  match count with
  | O => true
  | S count' =>
      admissible_row self lambda i i (n - i)
      && admissible self lambda n (S i) count'
  end.

(** How [localCorrImpl] ends when a correlation off the diagonal
    is 1. *)
Definition refused : status :=
  Thrown (QL_Error "correlation is not allowed wo be 1 for i!=j").

(** [lambda], as [localCorrImpl] computes it. *)
Definition lambda_of (self : LocalCorrSurfaceABF) (t : T) (X0 : VecA)
           (extrapolate : bool) : T :=
  (localF self t X0 extrapolate - localA self t X0 extrapolate)
  / localB self t X0 extrapolate.

End Surface.

End LocalCorr.

(* ================================================================= *)
(** * An environment to run the functions in *)

(** The properties below hold for every [RealOps] and [Environment].
    To evaluate the functions on concrete scripts we fix one of each. *)
Module Example.

(** Exact arithmetic on the rationals extended with infinities and an
    undefined value: floating-point arithmetic without rounding.  The
    range is that of a [double]: the conversion of a literal reports a
    range error where [strtod] sets [ERANGE]. *)
Inductive xreal : Type :=
| Finite (q : Q)
| Infinite (neg : bool)
| Undefined.

Definition sign (neg : bool) (q : Q) : Q := if neg then Qopp q else q.

(** The magnitudes from which rounding to the nearest [double] gives
    an infinity: [DBL_MAX] plus half a unit in its last place. *)
Definition overflow_threshold : Q := inject_Z (2 ^ 1024 - 2 ^ 970).

(** [DBL_MIN], the smallest positive normal [double]. *)
Definition smallest_normal : Q := Qmake 1 (2 ^ 1022).

Definition magnitude (q : Q) : Q := Qmake (Z.abs (Qnum q)) (Qden q).

(** [strtod] converts [q] without a range error: [q] is zero, or its
    magnitude is that of a normal [double].  Overflow sets [ERANGE];
    so does underflow in the library taken here (the C standard
    leaves that choice to the implementation). *)
Definition in_range (q : Q) : bool :=
  Qeq_bool q (inject_Z 0)
  || (Qle_bool smallest_normal (magnitude q)
      && negb (Qle_bool overflow_threshold (magnitude q))).

(** The rounding of what [strtod] read; nothing on a range error, on
    which [std::stod] throws [std::out_of_range]. *)
Definition finite_in_range (q : Q) : option xreal :=
  if in_range q then Some (Finite (Qred q)) else None.

Definition xreal_of_strtod (v : Cxx.strtod_value) : option xreal :=
  match v with
  | Cxx.Decimal neg m e =>
      finite_in_range (sign neg (Qmult (inject_Z (Z.of_N m))
                                       (Qpower (inject_Z 10) e)))
  | Cxx.Hexadecimal neg m e =>
      finite_in_range (sign neg (Qmult (inject_Z (Z.of_N m))
                                       (Qpower (inject_Z 2) e)))
  | Cxx.Infinity neg => Some (Infinite neg)
  | Cxx.NaN _ => Some Undefined
  end.

Definition xreal_add (a b : xreal) : xreal :=
  match a, b with
  | Finite x, Finite y => Finite (Qred (Qplus x y))
  | Infinite s, Finite _ => Infinite s
  | Finite _, Infinite s => Infinite s
  | Infinite s, Infinite s' => if Bool.eqb s s' then Infinite s else Undefined
  | _, _ => Undefined
  end.

Definition Qnegative (q : Q) : bool := (Qnum q <? 0)%Z.

Definition xreal_div (a b : xreal) : xreal :=
  match a, b with
  | Finite x, Finite y =>
      if (Qnum y =? 0)%Z then
        if (Qnum x =? 0)%Z then Undefined else Infinite (Qnegative x)
      else Finite (Qred (Qdiv x y))
  | Finite _, Infinite _ => Finite (inject_Z 0)
  | Infinite s, Finite y => Infinite (xorb s (Qnegative y))
  | _, _ => Undefined
  end.

Definition string_of_Z (z : Z) : string :=
  NilEmpty.string_of_int (Z.to_int z).

Definition xreal_to_string (a : xreal) : string :=
  match a with
  | Finite q =>
      match Qden q with
      | xH => string_of_Z (Qnum q)
      | d => string_of_Z (Qnum q) ++ "/" ++ string_of_Z (Zpos d)
      end
  | Infinite neg => if neg then "-inf" else "inf"
  | Undefined => "nan"
  end.

#[export] Instance xreal_ops : RealOps xreal := {|
  of_int := fun z => Finite (inject_Z z);
  of_strtod := xreal_of_strtod;
  add := xreal_add;
  div := xreal_div;
  lexical_cast := xreal_to_string
|}.

(** Modelled from the spec: the class [Date] of [ql/time/date.hpp] is
    not among the sources, and the spec asks of a date only its serial
    number.  Here a date is its serial number, counted as QuantLib
    counts it (1 January 1901 is day 367); the constructor accepts the
    years 1901 to 2199 and the days of the month, and throws
    otherwise. *)
Definition isLeap (y : Z) : bool :=
  ((y =? 1900) || ((y mod 4 =? 0) && (negb (y mod 100 =? 0) || (y mod 400 =? 0))))%Z.

Definition monthLength (m : Month) (leap : bool) : Z :=
  match m with
  | Feb => if leap then 29 else 28
  | Apr | Jun | Sep | Nov => 30
  | _ => 31
  end%Z.

Definition monthOffset (m : Month) (leap : bool) : Z :=
  let l : Z := if leap then 1%Z else 0%Z in
  match m with
  | Jan => 0 | Feb => 31 | Mar => 59 + l | Apr => 90 + l
  | May => 120 + l | Jun => 151 + l | Jul => 181 + l | Aug => 212 + l
  | Sep => 243 + l | Oct => 273 + l | Nov => 304 + l | Dec => 334 + l
  end%Z.

(** Serial number of 31 December of the year before [y]. *)
Definition yearOffset (y : Z) : Z :=
  (365 * (y - 1900) + ((y - 1) / 4 - (y - 1) / 100 + (y - 1) / 400 - 460) + 1)%Z.

Definition serial_Date (d : Z) (m : Month) (y : Z) : result Z :=
  if negb ((1900 <? y) && (y <? 2200))%Z then
    Throw (QL_Error "year out of bound. It must be in [1901,2199]")
  else if negb ((0 <? d) && (d <=? monthLength m (isLeap y)))%Z then
    Throw (QL_Error "day outside month day-range")
  else Return (d + monthOffset m (isLeap y) + yearOffset y)%Z.

(** A line parser that knows a handful of lines, and refuses the
    others with a syntax error. *)
Definition number (text : string) : option Expression :=
  Some (Expr NUMBER [] [text]).
Definition identifier (name : string) : option Expression :=
  Some (Expr IDENTIFIER [] [name]).
Definition assignment (name : string) (rhs : option Expression)
  : option Expression :=
  Some (Expr ASSIGNMENT [rhs] [name]).

Definition known_lines : list (string * option Expression) :=
  [ ("a = 2", assignment "a" (number "2"));
    ("b = 3", assignment "b" (number "3"));
    ("a = 7", assignment "a" (number "7"));
    ("y = 5abc", assignment "y" (number "5abc"));
    ("c = a - b",
     assignment "c" (Some (Expr MINUS [identifier "a"; identifier "b"] [])));
    ("d = -a", assignment "d" (Some (Expr UNARYMINUS [identifier "a"] [])));
    ("y = z + 1",
     assignment "y" (Some (Expr PLUS [identifier "z"; number "1"] [])));
    ("p = Pay(a, 15Jan2020)",
     assignment "p" (Some (Expr PAY_WITHDATE [identifier "a"] ["15Jan2020"])));
    ("a + b", Some (Expr PLUS [identifier "a"; identifier "b"] []));
    (" = 2", assignment "" (number "2")) ].

Fixpoint lookup_line (line : string) (table : list (string * option Expression))
  : option (option Expression) :=
  match table with
  | [] => None
  | (l, t) :: table' =>
      if String.eqb line l then Some t else lookup_line line table'
  end.

Definition driver (line : string) : Driver :=
  match lookup_line line known_lines with
  | Some t => {| expressionTree := t; returnValue := 0; errorMsg := "" |}
  | None =>
      {| expressionTree := None; returnValue := 1;
         errorMsg := "syntax error" |}
  end.

(** An evaluation date: 1 January 2019. *)
Definition today : Z := 43466.

(** In the example a path is its index, and a node is worth its fixed
    amount, if it is one, whatever the path. *)
Definition worth (p : MCPayoffT xreal) (path : nat) : xreal :=
  match p with
  | FixedAmount a => a
  | _ => Finite (inject_Z 0)
  end.

Definition environment (order : ArgumentOrder) : Environment xreal := {|
  FlexBisonDriver := driver;
  toString := fun _ => "expression";
  payoff_at := fun p t => Return (Some p);
  observationTime := fun _ => Finite (inject_Z 0);
  PathType := nat;
  discountedAt := worth;
  Date := Z;
  Date_ctor := serial_Date;
  serialNumber := fun d => d;
  evaluationDate := today;
  long_extra_bits := 32;
  sliced_what := "std::exception";
  argument_order := order
|}.

#[export] Instance env : Environment xreal := environment RightToLeft.

(** The same environment, but for payoffs whose own [at(t)] hands
    back the null pointer. *)
Definition forgetful : Environment xreal := {|
  FlexBisonDriver := driver;
  toString := fun _ => "expression";
  payoff_at := fun p t => Return None;
  observationTime := fun _ => Finite (inject_Z 0);
  PathType := nat;
  discountedAt := worth;
  Date := Z;
  Date_ctor := serial_Date;
  serialNumber := fun d => d;
  evaluationDate := today;
  long_extra_bits := 32;
  sliced_what := "std::exception";
  argument_order := RightToLeft
|}.

(** An object whose symbol table binds [a] and [b] to two nodes built
    outside the script. *)
Definition bound_ab : MCScriptT xreal :=
  {| payoffs_ := [("a", External 0); ("b", External 1)];
     expressions_ := [];
     scriptLog_ := [];
     result_ := None;
     observationTime_ := Finite (inject_Z 0) |}.

(** An object that binds the name [info]. *)
Definition bound_info : MCScriptT xreal :=
  {| payoffs_ := [("info", External 0)];
     expressions_ := [];
     scriptLog_ := [];
     result_ := None;
     observationTime_ := Finite (inject_Z 0) |}.

End Example.

(* ================================================================= *)
(** * Exact arithmetic, to run the local correlation in *)

Module ExactArithmetic.

(** The rationals with their exact operations: floating-point
    arithmetic without rounding. *)
#[export] Instance exact : Floating Q := {|
  lit := fun q => q;
  fadd := Qplus;
  fsub := Qminus;
  fmul := Qmult;
  fdiv := Qdiv;
  fneg := Qopp;
  fgt := fun x y => negb (Qle_bool x y);
  fge := fun x y => Qle_bool y x;
  flt := fun x y => negb (Qle_bool y x);
  fle := Qle_bool;
  fneq := fun x y => negb (Qeq_bool x y)
|}.

(** A surface over two assets whose correlation is 0.2 in one matrix
    and 0.8 in the other, with [localF = 0.5], [localA = 0] and
    [localB = 1]. *)
Definition surface : LocalCorr.LocalCorrSurfaceABF (T := Q) :=
  {| LocalCorr.corr0_ := [[1; 0.2]; [0.2; 1]]%Q;
     LocalCorr.corr1_ := [[1; 0.8]; [0.8; 1]]%Q;
     LocalCorr.localA := fun _ _ _ => 0%Q;
     LocalCorr.localB := fun _ _ _ => 1%Q;
     LocalCorr.localF := fun _ _ _ => 0.5%Q |}.

Definition zeros : LocalCorr.MatA (T := Q) := [[0; 0]; [0; 0]]%Q.

End ExactArithmetic.

(* ================================================================= *)
(** * Vocabulary of the properties *)

Section Vocabulary.

Context {R : Type} {ops : RealOps R} {env : Environment R}.

(** [self'] is [self] with some messages appended to the log. *)
Definition logged (self self' : MCScriptT R) : Prop :=
  payoffs_ self' = payoffs_ self /\
  expressions_ self' = expressions_ self /\
  result_ self' = result_ self /\
  observationTime_ self' = observationTime_ self /\
  exists added, scriptLog_ self' = scriptLog_ self ++ added.

(** A computation that only reads the symbol table and writes to the
    log: what it returns or throws depends on the table alone. *)
Definition compiling {A : Type} (m : M R A) : Prop :=
  forall self,
    logged self (snd (m self)) /\
    forall other, payoffs_ other = payoffs_ self -> fst (m other) = fst (m self).

(** A computation that returns, whatever the object. *)
Definition total {A : Type} (m : M R A) : Prop :=
  forall self, exists a, fst (m self) = Return a.

(** From [self] to [self'] the symbol table stays ordered and the log
    is only appended to. *)
Definition grows (self self' : MCScriptT R) : Prop :=
  (StdMap.ordered (payoffs_ self) -> StdMap.ordered (payoffs_ self')) /\
  exists added, scriptLog_ self' = scriptLog_ self ++ added.

Definition advancing {A : Type} (m : M R A) : Prop :=
  forall self, grows self (snd (m self)).

(** The diagnostic of an error on line [k]. *)
Definition Error_line (k : nat) (reason : string) : string :=
  "Error line " ++ Cxx.to_string k ++ ": " ++ reason.

(** The stages at which [parseFlexBisonScript] gives up line [k],
    whose text is [line], on the object [self]. *)
Inductive stage_failure (overwrite : bool) (k : nat) (line : string)
          (self : MCScriptT R) : Prop :=
| Parse_failure :
    returnValue (FlexBisonDriver line) <> 0%Z ->
    stage_failure overwrite k line self
| Tree_absent :
    returnValue (FlexBisonDriver line) = 0%Z ->
    expressionTree (FlexBisonDriver line) = None ->
    stage_failure overwrite k line self
| Not_an_assignment (t : Expression) :
    returnValue (FlexBisonDriver line) = 0%Z ->
    expressionTree (FlexBisonDriver line) = Some t ->
    is_ASSIGNMENT (type t) = false ->
    stage_failure overwrite k line self
| Wrong_arity (t : Expression) :
    returnValue (FlexBisonDriver line) = 0%Z ->
    expressionTree (FlexBisonDriver line) = Some t ->
    is_ASSIGNMENT (type t) = true ->
    List.length (childs t) <> 1 \/ List.length (leafs t) <> 1 ->
    stage_failure overwrite k line self
| Compilation_throws (rhs : option Expression) (name : string) (e : exception) :
    returnValue (FlexBisonDriver line) = 0%Z ->
    expressionTree (FlexBisonDriver line)
      = Some (Expr ASSIGNMENT [rhs] [name]) ->
    fst (payoff rhs k self) = Throw e ->
    stage_failure overwrite k line self
| Compilation_null (rhs : option Expression) (name : string) :
    returnValue (FlexBisonDriver line) = 0%Z ->
    expressionTree (FlexBisonDriver line)
      = Some (Expr ASSIGNMENT [rhs] [name]) ->
    fst (payoff rhs k self) = Return None ->
    stage_failure overwrite k line self
| Empty_target_name (rhs : option Expression) (p : MCPayoffT R) :
    returnValue (FlexBisonDriver line) = 0%Z ->
    expressionTree (FlexBisonDriver line)
      = Some (Expr ASSIGNMENT [rhs] [EmptyString]) ->
    fst (payoff rhs k self) = Return (Some p) ->
    stage_failure overwrite k line self
| Disallowed_overwrite (rhs : option Expression) (name : string)
                       (p old : MCPayoffT R) :
    returnValue (FlexBisonDriver line) = 0%Z ->
    expressionTree (FlexBisonDriver line)
      = Some (Expr ASSIGNMENT [rhs] [name]) ->
    fst (payoff rhs k self) = Return (Some p) ->
    name <> EmptyString ->
    StdMap.find name (payoffs_ self) = Some old ->
    overwrite = false ->
    stage_failure overwrite k line self.

(** A line of the primary grammar that reaches the store: it parses
    to an assignment of [rhs] to [name], [rhs] compiles to [p], and
    [name] is not empty. *)
Definition compiled_line (k : nat) (line : string) (self : MCScriptT R)
           (name : string) (p : MCPayoffT R) : Prop :=
  exists rhs,
    returnValue (FlexBisonDriver line) = 0%Z /\
    expressionTree (FlexBisonDriver line)
      = Some (Expr ASSIGNMENT [rhs] [name]) /\
    fst (payoff rhs k self) = Return (Some p) /\
    name <> EmptyString.

(** The operand lookup of the legacy grammar succeeds on [operand]:
    [to_Number] accepts it, or it is a name of the symbol table. *)
Definition resolves (self : MCScriptT R) (operand : string) : bool :=
  match to_Number operand with
  | Some _ => true
  | None =>
      match StdMap.find operand (payoffs_ self) with
      | Some _ => true
      | None => false
      end
  end.

(** The operands that the cascade of [compile_expr] extracts from the
    right-hand side [expr]. *)
Definition operands (expr : string) : list string :=
  match Regex.regex_match expr re_operator1 with
  | Some what => [Regex.sub what 2]
  | None =>
  match Regex.regex_match expr re_operator2 with
  | Some what => [Regex.sub what 1; Regex.sub what 3]
  | None =>
  match Regex.regex_match expr re_function3 with
  | Some what => [Regex.sub what 2; Regex.sub what 3; Regex.sub what 4]
  | None =>
  match Regex.regex_match expr re_function2 with
  | Some what => [Regex.sub what 2; Regex.sub what 3]
  | None =>
  match Regex.regex_match expr re_function1 with
  | Some what => [Regex.sub what 2]
  | None => [expr]
  end end end end end.

(** The result the constructor selects on the object [self]. *)
Definition selected (self : MCScriptT R) : shared_ptr R :=
  match StdMap.find "payoff" (payoffs_ self) with
  | Some p => Some p
  | None => option_map snd (StdMap.rbegin (payoffs_ self))
  end.

(** The sum of the discounted values of [p] over the paths
    [0 .. nPaths-1], taken in that order from [0.0], divided by the
    number of paths. *)
Definition average (simulation : SimulationType) (p : MCPayoffT R) : R :=
  div (fold_left add
         (map (fun n => discountedAt p (path simulation n))
              (seq 0 (nPaths simulation)))
         (of_int 0))
      (of_int (Z.of_nat (nPaths simulation))).

End Vocabulary.

(** Decimal digits only. *)
Fixpoint all_digits (s : string) : bool :=
  match s with
  | String c s' => Cxx.isdigit c && all_digits s'
  | EmptyString => true
  end.

(** What may follow an integer literal without being read as part of
    the number: the end of the text, or a character that is not a
    digit, a point, an exponent mark or the x of a hexadecimal
    prefix. *)
Definition ends_number (tail : string) : bool :=
  match tail with
  | EmptyString => true
  | String c _ =>
      negb (Cxx.isdigit c || Ascii.eqb c "." || Ascii.eqb c "e"
            || Ascii.eqb c "E" || Ascii.eqb c "x" || Ascii.eqb c "X")
  end.

(** The number that a run of decimal digits denotes: a digit with [i]
    digits to its right counts [10 ^ i] times. *)
Fixpoint numeral (digits : string) : N :=
  match digits with
  | EmptyString => 0
  | String c rest =>
      Cxx.digit_value c * 10 ^ N.of_nat (String.length rest) + numeral rest
  end%N.

(** White space only. *)
Fixpoint blank (s : string) : bool :=
  match s with
  | String c s' => Cxx.isspace c && blank s'
  | EmptyString => true
  end.

(** A sign as it is written: nothing, a plus or a minus. *)
Definition is_sign (s : string) : bool :=
  String.eqb s "" || String.eqb s "+" || String.eqb s "-".

(** The integer written as the sign [s] and the natural number [n]. *)
Definition signed (s : string) (n : N) : Z :=
  if String.eqb s "-" then (- Z.of_N n)%Z else Z.of_N n.

(** The text starts with a digit. *)
Definition digit_head (s : string) : bool :=
  match s with
  | String c _ => Cxx.isdigit c
  | EmptyString => false
  end.

(** The head of a decimal constant: a digit, or a point and a
    digit. *)
Definition numeric_head (s : string) : bool :=
  match s with
  | String c s' => Cxx.isdigit c || (Ascii.eqb c "." && digit_head s')
  | EmptyString => false
  end.

(** A decimal floating constant as the C grammar writes it, with what
    may precede it in the subject of [strtod]: white space, a sign,
    digits with an optional point (a digit at least on one side of
    it), and an optional exponent, of which we keep the mark, the sign
    and the digits.  [text] is the constant as written and [value]
    what it denotes: the digits before and after the point read as one
    numeral, and ten to the power of the exponent less the number of
    digits after the point.  The grammar is written independently of
    the scanner [Cxx.strtod], which the properties compare with it. *)
Module Constant.

Local Open Scope string_scope.

Record t : Type := {
  blanks : string;
  sign : string;
  whole : string;
  point : bool;
  fraction : string;
  exponent : option (ascii * string * string)
}.

Definition point_text (c : t) : string :=
  if point c then "." ++ fraction c else "".

Definition exponent_text (c : t) : string :=
  match exponent c with
  | Some (mark, s, digits) => String mark (s ++ digits)
  | None => ""
  end.

Definition text (c : t) : string :=
  blanks c ++ sign c ++ whole c ++ point_text c ++ exponent_text c.

Definition well_formed (c : t) : bool :=
  blank (blanks c) && is_sign (sign c)
  && all_digits (whole c) && all_digits (fraction c)
  && (point c || String.eqb (fraction c) "")
  && negb (String.eqb (whole c ++ fraction c) "")
  && match exponent c with
     | Some (mark, s, digits) =>
         (Ascii.eqb mark "e" || Ascii.eqb mark "E") && is_sign s
         && all_digits digits && negb (String.eqb digits "")
     | None => true
     end.

Definition power (c : t) : Z :=
  match exponent c with
  | Some (_, s, digits) => signed s (numeral digits)
  | None => 0%Z
  end.

Definition value (c : t) : Cxx.strtod_value :=
  Cxx.Decimal (String.eqb (sign c) "-")
              (numeral (whole c ++ fraction c))
              (power c - Z.of_nat (String.length (fraction c))).

End Constant.

(** The constant  -12.5e+2  after a blank. *)
Definition a_constant : Constant.t :=
  {| Constant.blanks := " ";
     Constant.sign := "-";
     Constant.whole := "12";
     Constant.point := true;
     Constant.fraction := "5";
     Constant.exponent := Some ("e"%char, "+", "2") |}.

(** The constant  1e400 . *)
Definition a_large_constant : Constant.t :=
  {| Constant.blanks := "";
     Constant.sign := "";
     Constant.whole := "1";
     Constant.point := false;
     Constant.fraction := "";
     Constant.exponent := Some ("e"%char, "", "400") |}.

(** The names in the order in which the constructor inserts them while
    it stores the initial bindings [keys] (a repeated name is inserted
    once, at its first occurrence). *)
Fixpoint insertion_order (seen keys : list string) : list string :=
  match keys with
  | [] => []
  | key :: keys' =>
      if existsb (String.eqb key) seen then insertion_order seen keys'
      else key :: insertion_order (key :: seen) keys'
  end.

(** The spec's fallback, for a construction without script lines: the
    name inserted last. *)
Definition most_recently_inserted (keys : list string) : option string :=
  match rev (insertion_order [] keys) with
  | name :: _ => Some name
  | [] => None
  end.

(** Induction on syntax trees, through the lists of children. *)
Fixpoint Expression_nested_ind (P : Expression -> Prop)
  (step : forall ty cs ls,
      Forall (fun c => match c with Some e => P e | None => True end) cs ->
      P (Expr ty cs ls))
  (e : Expression) {struct e} : P e :=
  match e with
  | Expr ty cs ls =>
      step ty cs ls
        ((fix children (l : list (option Expression))
            : Forall (fun c => match c with Some e => P e | None => True end) l :=
            match l with
            | [] => Forall_nil _
            | c :: l' =>
                Forall_cons c
                  (match c as c0
                         return match c0 with Some e => P e | None => True end
                   with
                   | Some e' => Expression_nested_ind P step e'
                   | None => I
                   end)
                  (children l')
            end) cs)
  end.

(* ================================================================= *)
(** * Vocabulary of the further properties *)

(** Every character of [s] is in the class [f]. *)
Fixpoint string_forallb (f : ascii -> bool) (s : string) : bool :=
  match s with
  | String c s' => f c && string_forallb f s'
  | EmptyString => true
  end.

(** The names of the legacy grammar: a letter, then letters and
    digits. *)
Definition is_identifier (s : string) : bool :=
  match s with
  | String c s' => Regex.alpha c && string_forallb Regex.alnum s'
  | EmptyString => false
  end.

(** [name] starts with the word [w], written in lower case, whatever
    the case of the letters of [name]. *)
Definition starts_with (w name : string) : bool :=
  match Cxx.scan_word w name with
  | Some _ => true
  | None => false
  end.

(** What starts a number for [strtod]: the head of a decimal (or
    hexadecimal) constant, or one of the words inf and nan in any
    case. *)
Definition starts_number (s : string) : bool :=
  numeric_head s || starts_with "inf" s || starts_with "nan" s.

(** The value that [bindings], stored one after the other with
    permission to overwrite, leave under [key]: the one of the last
    pair with that key. *)
Fixpoint last_binding {V : Type} (key : string) (bindings : list (string * V))
  : option V :=
  match bindings with
  | [] => None
  | (k, v) :: bindings' =>
      match last_binding key bindings' with
      | Some v' => Some v'
      | None => if String.eqb key k then Some v else None
      end
  end.

(** The characters that the operator and function patterns of the
    legacy grammar look for. *)
Definition plain_char (c : ascii) : bool :=
  negb (existsb (Ascii.eqb c)
                ["+"; "-"; "*"; "="; "!"; "<"; ">"; "&"; "|"; "("]%char).

(** A text without any of them. *)
Definition plain (s : string) : bool := string_forallb plain_char s.

(** Whatever [r] matches holds a character that is not plain. *)
Fixpoint marked (r : Regex.regex) : bool :=
  match r with
  | Regex.Lit l => negb (plain l)
  | Regex.Alt r1 r2 => marked r1 && marked r2
  | Regex.Cat r1 r2 => marked r1 || marked r2
  | Regex.Group r' => marked r'
  | _ => false
  end.

(** The environment [env] with another order of evaluation of the
    arguments of a call. *)
Definition with_order {R : Type} (env : Environment R) (order : ArgumentOrder)
  : Environment R :=
  {| FlexBisonDriver := @FlexBisonDriver R env;
     toString := @toString R env;
     payoff_at := @payoff_at R env;
     observationTime := @observationTime R env;
     PathType := @PathType R env;
     discountedAt := @discountedAt R env;
     Date := @Date R env;
     Date_ctor := @Date_ctor R env;
     serialNumber := @serialNumber R env;
     evaluationDate := @evaluationDate R env;
     long_extra_bits := @long_extra_bits R env;
     sliced_what := @sliced_what R env;
     argument_order := order |}.

(** Two runs end alike: both return, and the same value, or both
    throw. *)
Definition same_outcome {A : Type} (r1 r2 : result A) : Prop :=
  match r1, r2 with
  | Return a, Return b => a = b
  | Throw _, Throw _ => True
  | _, _ => False
  end.

(** Two computations that only read the symbol table and write to the
    log, and that end alike on every object. *)
Definition alike {R A : Type} (m1 m2 : M R A) : Prop :=
  compiling m1 /\ compiling m2 /\
  forall self, same_outcome (fst (m1 self)) (fst (m2 self)).

(** Two objects that differ in their logs at most. *)
Definition similar {R : Type} (self1 self2 : MCScriptT R) : Prop :=
  payoffs_ self1 = payoffs_ self2 /\
  expressions_ self1 = expressions_ self2 /\
  result_ self1 = result_ self2 /\
  observationTime_ self1 = observationTime_ self2.

(** Two computations that take similar objects to similar objects,
    and end alike on them. *)
Definition corresponding {R A : Type} (m1 m2 : M R A) : Prop :=
  forall self1 self2,
    similar self1 self2 ->
    similar (snd (m1 self1)) (snd (m2 self2)) /\
    same_outcome (fst (m1 self1)) (fst (m2 self2)).

(** [c] is the operand of a node of kind PAYOFFAT or PAYOFFAT_WITHDATE
    of the tree: the first child of such a node, which is the tree or
    one of the nodes below it. *)
Inductive at_operand (c : option Expression) : Expression -> Prop :=
| at_operand_here (ty : ExpressionType) (cs : list (option Expression))
                  (ls : list string) :
    ty = PAYOFFAT \/ ty = PAYOFFAT_WITHDATE ->
    nth 0 cs None = c ->
    at_operand c (Expr ty cs ls)
| at_operand_below (ty : ExpressionType) (cs : list (option Expression))
                   (ls : list string) (t : Expression) :
    In (Some t) cs -> at_operand c t -> at_operand c (Expr ty cs ls).

Section FurtherVocabulary.

Context {R : Type} {ops : RealOps R} {env : Environment R}.

(** The numbers of children and of leaves that [payoff] asks of a node
    of each kind, as the calls of [hasChilds] and [hasLeafs] in its
    switch give them; the kinds the switch does not list have none. *)
Definition arity (ty : ExpressionType) : option (nat * nat) :=
  match ty with
  | NUMBER | IDENTIFIER => Some (0, 1)
  | UNARYPLUS | UNARYMINUS | CACHE => Some (1, 0)
  | PLUS | MINUS | MULT | DIVISION | MIN | MAX => Some (2, 0)
  | IFTHENELSE => Some (3, 0)
  | LOGICAL => Some (2, 1)
  | PAY | PAY_WITHDATE | PAYOFFAT | PAYOFFAT_WITHDATE => Some (1, 1)
  | ASSIGNMENT | UNLISTED _ => None
  end.

(** [c] is a child of [t], or of a child of [t], and so on. *)
Inductive descendant (c : option Expression) : Expression -> Prop :=
| descendant_child (ty : ExpressionType) (cs : list (option Expression))
                   (ls : list string) :
    In c cs -> descendant c (Expr ty cs ls)
| descendant_deeper (ty : ExpressionType) (cs : list (option Expression))
                    (ls : list string) (t : Expression) :
    In (Some t) cs -> descendant c t -> descendant c (Expr ty cs ls).

(** [m] throws on every object that has the symbol table of [self]. *)
Definition doomed {A : Type} (self : MCScriptT R) (m : M R A) : Prop :=
  forall other,
    payoffs_ other = payoffs_ self -> exists e, fst (m other) = Throw e.

(** The three ways in which the compilation of line [k], started on
    [self], ends with the exception [e] on the object [self'].
    Announced: the compiler throws its exception right after an
    "Error line k" message. *)
Definition announced (k : nat) (self self' : MCScriptT R) (e : exception)
  : Prop :=
  e = QL_Error "Cannot interprete payoff" /\
  exists added reason,
    scriptLog_ self' = scriptLog_ self ++ added ++ [Error_line k reason].

(** Not announced: a node of kind PAYOFFAT or PAYOFFAT_WITHDATE of the
    tree [t] found that its operand [c] had compiled to the null
    pointer, and the compiler throws its exception in the state in
    which that compilation left the object. *)
Definition null_operand (k : nat) (t : Expression) (self' : MCScriptT R)
           (e : exception) : Prop :=
  e = QL_Error "Cannot interprete payoff" /\
  exists c s, at_operand c t /\ payoff c k s = (Return None, self').

(** Foreign: the exception is one that a payoff's own [at(t)]
    throws. *)
Definition thrown_by_at (e : exception) : Prop :=
  exists p x, payoff_at p x = Throw e.

(** A computation of line [k] that only appends to the log, and
    throws in one of the three ways, [S] standing for the second. *)
Definition announces {A : Type} (k : nat)
           (S : MCScriptT R -> exception -> Prop) (m : M R A) : Prop :=
  forall self,
    (exists added, scriptLog_ (snd (m self)) = scriptLog_ self ++ added) /\
    forall e, fst (m self) = Throw e ->
              announced k self (snd (m self)) e \/ S (snd (m self)) e
              \/ thrown_by_at e.

(** A relation between objects that is reflexive and transitive. *)
Definition preorder (Rel : MCScriptT R -> MCScriptT R -> Prop) : Prop :=
  (forall self, Rel self self) /\
  (forall self1 self2 self3,
      Rel self1 self2 -> Rel self2 self3 -> Rel self1 self3).

(** Every run of [m] takes the object to one that is [Rel]-related to
    it, whether [m] returns or throws. *)
Definition stepping {A : Type} (Rel : MCScriptT R -> MCScriptT R -> Prop)
           (m : M R A) : Prop :=
  forall self, Rel self (snd (m self)).

(** From [self] to [self'] no name is unbound, and none is rebound
    unless overwriting is enabled. *)
Definition survive (overwrite : bool) (self self' : MCScriptT R) : Prop :=
  forall name p,
    StdMap.find name (payoffs_ self) = Some p ->
    if overwrite then StdMap.find name (payoffs_ self') <> None
    else StdMap.find name (payoffs_ self') = Some p.

(** From [self] to [self'] the recorded expressions stay as they
    are. *)
Definition same_expressions (self self' : MCScriptT R) : Prop :=
  expressions_ self' = expressions_ self.

(** The texts that the lines of [script], the first of which has
    index [k], leave in [expressions_]: one for every line for which
    the parser hands back a tree. *)
Fixpoint recorded (k : nat) (script : list string) : list string :=
  match script with
  | [] => []
  | line :: script' =>
      match expressionTree (FlexBisonDriver line) with
      | Some t => ["L" ++ Cxx.to_string k ++ ":" ++ toString t]%string
      | None => []
      end ++ recorded (S k) script'
  end.

(** The name a line of the primary grammar assigns to, when it parses
    to an assignment with one child and one leaf. *)
Definition target (line : string) : option string :=
  if (returnValue (FlexBisonDriver line) =? 0)%Z then
    match expressionTree (FlexBisonDriver line) with
    | Some (Expr ASSIGNMENT [_] [name]) => Some name
    | _ => None
    end
  else None.

(** The name a line of the legacy grammar assigns to, when it has the
    form of an assignment. *)
Definition legacy_target (script_k : string) : option string :=
  match Regex.regex_match (Regex.remove_spaces script_k) re_assignment with
  | Some what => Some (Regex.sub what 1)
  | None => None
  end.

(** The right-hand side of a line of the legacy grammar. *)
Definition legacy_rhs (script_k : string) : string :=
  match Regex.regex_match (Regex.remove_spaces script_k) re_assignment with
  | Some what => Regex.sub what 3
  | None => EmptyString
  end.

(** The names that the lines of a script assign to. *)
Definition targets (of_line : string -> option string)
           (script : list string) : list string :=
  flat_map (fun line => match of_line line with
                        | Some name => [name]
                        | None => []
                        end) script.

(** The payoffs of the names of [keys] that are bound, in the order of
    [keys]. *)
Definition bound_payoffs (self : MCScriptT R) (keys : list string)
  : list (MCPayoffT R) :=
  flat_map (fun key => match StdMap.find key (payoffs_ self) with
                       | Some p => [p]
                       | None => []
                       end) keys.

(** The first name of [keys] that is not bound. *)
Definition first_missing (self : MCScriptT R) (keys : list string)
  : option string :=
  List.find (fun key => match StdMap.find key (payoffs_ self) with
                        | Some _ => false
                        | None => true
                        end) keys.

(** The exception of [findPayoffs] for the name [key]. *)
Definition not_found (key : string) : exception :=
  QL_Error ("MCScript error: payoff '" ++ key ++ "' not found").

End FurtherVocabulary.

(* ================================================================= *)
(** * Properties of the ordered map *)

Module StdMapFacts.

Lemma ascii_compare_refl (a : ascii) : Ascii.compare a a = Eq.
Proof. unfold Ascii.compare. apply N.compare_refl. Qed.

Lemma compare_refl (s : string) : String.compare s s = Eq.
Proof.
  induction s as [|a s IH]; simpl; [reflexivity|].
  now rewrite ascii_compare_refl.
Qed.

Lemma compare_Eq_iff (s1 s2 : string) : String.compare s1 s2 = Eq <-> s1 = s2.
Proof.
  split; [apply String.compare_eq_iff | intros ->; apply compare_refl].
Qed.

Lemma eqb_compare (s1 s2 : string) :
  String.eqb s1 s2 = match String.compare s1 s2 with Eq => true | _ => false end.
Proof.
  destruct (String.eqb_spec s1 s2) as [->|Hne].
  - now rewrite compare_refl.
  - destruct (String.compare s1 s2) eqn:Hc; try reflexivity.
    apply compare_Eq_iff in Hc. contradiction.
Qed.

Lemma ascii_compare_Lt_trans (a b c : ascii) :
  Ascii.compare a b = Lt -> Ascii.compare b c = Lt -> Ascii.compare a c = Lt.
Proof.
  unfold Ascii.compare. rewrite !N.compare_lt_iff. lia.
Qed.

Lemma compare_Lt_trans (s1 s2 s3 : string) :
  String.compare s1 s2 = Lt -> String.compare s2 s3 = Lt ->
  String.compare s1 s3 = Lt.
Proof.
  revert s2 s3.
  induction s1 as [|a s1 IH]; intros [|b s2] [|c s3]; simpl;
    try discriminate; try reflexivity.
  destruct (Ascii.compare a b) eqn:Hab; try discriminate;
    destruct (Ascii.compare b c) eqn:Hbc; try discriminate; intros H1 H2.
  - apply Ascii.compare_eq_iff in Hab, Hbc. subst.
    rewrite ascii_compare_refl. eauto.
  - apply Ascii.compare_eq_iff in Hab. subst. now rewrite Hbc.
  - apply Ascii.compare_eq_iff in Hbc. subst. now rewrite Hab.
  - now rewrite (ascii_compare_Lt_trans _ _ _ Hab Hbc).
Qed.

Lemma ltb_trans (s1 s2 s3 : string) :
  String.ltb s1 s2 = true -> String.ltb s2 s3 = true -> String.ltb s1 s3 = true.
Proof.
  unfold String.ltb.
  destruct (String.compare s1 s2) eqn:H12; try discriminate.
  destruct (String.compare s2 s3) eqn:H23; try discriminate.
  now rewrite (compare_Lt_trans _ _ _ H12 H23).
Qed.

Lemma ltb_leb (s1 s2 : string) : String.ltb s1 s2 = true -> String.leb s1 s2 = true.
Proof.
  unfold String.ltb, String.leb. now destruct (String.compare s1 s2).
Qed.

Lemma leb_refl (s : string) : String.leb s s = true.
Proof. unfold String.leb. now rewrite compare_refl. Qed.

Lemma compare_Gt_ltb (s1 s2 : string) :
  String.compare s1 s2 = Gt -> String.ltb s2 s1 = true.
Proof.
  intros H. unfold String.ltb. rewrite String.compare_antisym, H. reflexivity.
Qed.

Section Facts.

Variable V : Type.
Implicit Types (m : StdMap.t V) (k : string) (v : V).

Lemma find_In m k v : StdMap.find k m = Some v -> In (k, v) m.
Proof.
  induction m as [|[k' v'] m IH]; simpl; [discriminate|].
  destruct (String.eqb_spec k k') as [->|Hne].
  - intros [= ->]. now left.
  - intros H. right. auto.
Qed.

Lemma find_None_keys m k : StdMap.find k m = None <-> ~ In k (StdMap.keys m).
Proof.
  induction m as [|[k' v'] m IH]; simpl.
  - tauto.
  - destruct (String.eqb_spec k k') as [->|Hne].
    + split; [discriminate | intros H; exfalso; apply H; now left].
    + rewrite IH. split.
      * intros H [Heq|Hin]; [congruence | contradiction].
      * intros H Hin. apply H. now right.
Qed.

(** A key that is absent is stored by [insert], and no other key is
    touched. *)
Lemma find_insert m k v k' :
  StdMap.find k m = None ->
  StdMap.find k' (StdMap.insert k v m) =
  if String.eqb k' k then Some v else StdMap.find k' m.
Proof.
  induction m as [|[k0 v0] m IH]; simpl; intros Hk.
  - reflexivity.
  - destruct (String.eqb_spec k k0) as [->|Hne]; [discriminate|].
    destruct (String.compare k k0) eqn:Hc.
    + apply compare_Eq_iff in Hc. contradiction.
    + simpl. reflexivity.
    + simpl. rewrite (IH Hk).
      destruct (String.eqb_spec k' k0) as [->|Hne'].
      * destruct (String.eqb_spec k0 k); [congruence | reflexivity].
      * reflexivity.
Qed.

(** [assign] changes the value of a key that is present, and nothing
    else. *)
Lemma find_assign m k v k' :
  StdMap.find k' (StdMap.assign k v m) =
  if String.eqb k' k then
    match StdMap.find k m with Some _ => Some v | None => None end
  else StdMap.find k' m.
Proof.
  induction m as [|[k0 v0] m IH]; simpl.
  - now destruct (String.eqb k' k).
  - destruct (String.eqb_spec k k0) as [->|Hne]; simpl.
    + now destruct (String.eqb_spec k' k0).
    + rewrite IH. destruct (String.eqb_spec k' k0) as [->|Hne'].
      * destruct (String.eqb_spec k0 k); [congruence | reflexivity].
      * reflexivity.
Qed.

Lemma keys_assign m k v : StdMap.keys (StdMap.assign k v m) = StdMap.keys m.
Proof.
  induction m as [|[k0 v0] m IH]; simpl; [reflexivity|].
  destruct (String.eqb k k0); simpl; [reflexivity | now rewrite IH].
Qed.

Lemma size_assign m k v : StdMap.size (StdMap.assign k v m) = StdMap.size m.
Proof.
  unfold StdMap.size. rewrite <- !(length_map fst).
  change (map fst (StdMap.assign k v m)) with (StdMap.keys (StdMap.assign k v m)).
  now rewrite keys_assign.
Qed.

Lemma size_insert_pos m k v : 0 < StdMap.size (StdMap.insert k v m).
Proof.
  destruct m as [|[k0 v0] m]; simpl; [lia|].
  destruct (String.compare k k0); simpl; lia.
Qed.

Lemma ordered_keys m1 m2 :
  StdMap.keys m1 = StdMap.keys m2 -> StdMap.ordered m1 -> StdMap.ordered m2.
Proof.
  unfold StdMap.ordered, StdMap.keys. revert m2.
  induction m1 as [|e1 m1 IH]; intros [|e2 m2]; simpl; try discriminate.
  - constructor.
  - intros [= Hk Hks] Hs. inversion Hs as [|? ? Hs' Hall]; subst.
    constructor; [now apply IH|].
    unfold StdMap.key_lt in *. rewrite <- Hk.
    clear - Hall Hks. revert m2 Hks.
    induction Hall as [|x l Hx Hall IH']; intros [|y m2]; simpl; try discriminate.
    + constructor.
    + intros [= Hy Hys]. constructor; [now rewrite <- Hy | now apply IH'].
Qed.

Lemma ordered_assign m k v : StdMap.ordered m -> StdMap.ordered (StdMap.assign k v m).
Proof. apply ordered_keys. symmetry. apply keys_assign. Qed.

Lemma insert_Forall m k v (P : string * V -> Prop) :
  P (k, v) -> Forall P m -> Forall P (StdMap.insert k v m).
Proof.
  intros Hk. induction 1 as [|[k0 v0] m H0 Hall IH]; simpl.
  - now constructor.
  - destruct (String.compare k k0); repeat constructor; auto.
Qed.

Lemma ordered_insert m k v : StdMap.ordered m -> StdMap.ordered (StdMap.insert k v m).
Proof.
  unfold StdMap.ordered.
  induction 1 as [|[k0 v0] m Hs IH Hall]; simpl.
  - repeat constructor.
  - destruct (String.compare k k0) eqn:Hc.
    + now constructor.
    + constructor; [now constructor|].
      constructor.
      * unfold StdMap.key_lt, String.ltb. simpl. now rewrite Hc.
      * eapply Forall_impl; [|exact Hall].
        intros [k1 v1]. unfold StdMap.key_lt. simpl. intros H1.
        eapply ltb_trans; [|exact H1].
        unfold String.ltb. now rewrite Hc.
    + constructor; [exact IH|].
      apply insert_Forall; [|exact Hall].
      unfold StdMap.key_lt. simpl. now apply compare_Gt_ltb.
Qed.

Lemma rbegin_None m : StdMap.rbegin m = None <-> StdMap.size m = 0.
Proof.
  induction m as [|e [|e' m] IH]; simpl in *; split;
    try discriminate; try reflexivity.
  intros H. apply IH in H. discriminate.
Qed.

(** On an ordered map [rbegin] is the binding of the greatest key. *)
Lemma rbegin_greatest m k v :
  StdMap.ordered m -> StdMap.rbegin m = Some (k, v) ->
  StdMap.find k m = Some v /\
  forall k' v', StdMap.find k' m = Some v' -> String.leb k' k = true.
Proof.
  unfold StdMap.ordered.
  induction 1 as [|[k0 v0] m Hs IH Hall]; [discriminate|].
  destruct m as [|e m'].
  - simpl. intros [= -> ->]. rewrite String.eqb_refl. split; [reflexivity|].
    intros k' v'. destruct (String.eqb_spec k' k) as [->|]; [|discriminate].
    intros _. apply leb_refl.
  - intros Hr. change (StdMap.rbegin (e :: m') = Some (k, v)) in Hr.
    destruct (IH Hr) as [Hfind Hmax].
    assert (Hlt : String.ltb k0 k = true).
    { apply find_In in Hfind.
      rewrite Forall_forall in Hall. exact (Hall _ Hfind). }
    split.
    + simpl. destruct (String.eqb_spec k k0) as [->|Hne].
      * unfold String.ltb in Hlt. now rewrite compare_refl in Hlt.
      * exact Hfind.
    + intros k' v'. cbn [StdMap.find].
      destruct (String.eqb_spec k' k0) as [->|Hne].
      * intros _. now apply ltb_leb.
      * apply Hmax.
Qed.

End Facts.

End StdMapFacts.

(* ================================================================= *)
(** * Properties of the conversions of the standard library *)

Module CxxFacts.

Local Open Scope string_scope.

Lemma scan_digits_length (s : string) (acc v : N) (n : nat) (r : string) :
  Cxx.scan_digits acc s = (v, n, r) -> n + String.length r = String.length s.
Proof.
  revert acc v n r. induction s as [|c s IH]; simpl; intros acc v n r.
  - intros [= <- <- <-]. reflexivity.
  - destruct (Cxx.isdigit c).
    + destruct (Cxx.scan_digits (acc * 10 + Cxx.digit_value c) s)
        as [[v' n'] r'] eqn:Hs.
      intros [= <- <- <-]. simpl. f_equal. eapply IH. exact Hs.
    + intros [= <- <- <-]. reflexivity.
Qed.

Lemma digit_value_bound (c : ascii) :
  Cxx.isdigit c = true -> (Cxx.digit_value c <= 9)%N.
Proof.
  unfold Cxx.isdigit, Cxx.digit_value.
  rewrite andb_true_iff, !N.leb_le. lia.
Qed.

(** [n] digits read onto [acc] stay below [(acc + 1) * 10^n]. *)
Lemma scan_digits_bound (s : string) (acc v : N) (n : nat) (r : string) :
  Cxx.scan_digits acc s = (v, n, r) -> (v < (acc + 1) * 10 ^ N.of_nat n)%N.
Proof.
  revert acc v n r. induction s as [|c s IH]; simpl; intros acc v n r.
  - intros [= <- <- <-]. simpl. lia.
  - destruct (Cxx.isdigit c) eqn:Hc.
    + destruct (Cxx.scan_digits (acc * 10 + Cxx.digit_value c) s)
        as [[v' n'] r'] eqn:Hs.
      intros [= <- <- <-]. apply IH in Hs.
      pose proof (digit_value_bound c Hc) as Hd.
      rewrite Nat2N.inj_succ, N.pow_succ_r' .
      eapply N.lt_le_trans; [exact Hs|].
      rewrite N.mul_assoc. apply N.mul_le_mono_r. lia.
    + intros [= <- <- <-]. simpl. lia.
Qed.

Lemma skip_space_length (s : string) :
  String.length (Cxx.skip_space s) <= String.length s.
Proof.
  induction s as [|c s IH]; simpl; [lia|].
  destruct (Cxx.isspace c); simpl; lia.
Qed.

Lemma scan_sign_length (s : string) :
  String.length (snd (Cxx.scan_sign s)) <= String.length s.
Proof.
  destruct s as [|c s]; simpl; [lia|].
  destruct c as [[] [] [] [] [] [] [] []]; simpl; lia.
Qed.

(** On a string of at most nine characters [std::stol] cannot leave
    the range of [long]: it converts as soon as a digit follows the
    white space and the sign, and throws [std::invalid_argument]
    otherwise. *)
Lemma stol_short (extra : N) (s : string) :
  String.length s <= 9 ->
  Cxx.stol extra s =
  let '(neg, s') := Cxx.scan_sign (Cxx.skip_space s) in
  let '(v, n, rest) := Cxx.scan_digits 0 s' in
  match n with
  | O => Throw (invalid_argument "stol")
  | S _ =>
      Return ((if neg : bool then - Z.of_N v else Z.of_N v)%Z,
              Cxx.consumed s rest)
  end.
Proof.
  intros Hlen. unfold Cxx.stol.
  pose proof (skip_space_length s) as Hsp.
  pose proof (scan_sign_length (Cxx.skip_space s)) as Hsg.
  destruct (Cxx.scan_sign (Cxx.skip_space s)) as [neg s']. simpl in Hsg.
  destruct (Cxx.scan_digits 0 s') as [[v n] rest] eqn:Hs.
  destruct n as [|n]; [reflexivity|].
  pose proof (scan_digits_length _ _ Hs) as Hn.
  pose proof (scan_digits_bound _ _ Hs) as Hv.
  assert (Hpow : (10 ^ N.of_nat (S n) <= 10 ^ 9)%N).
  { apply N.pow_le_mono_r; lia. }
  assert (Hv9 : (v < 1000000000)%N).
  { change (10 ^ 9)%N with 1000000000%N in Hpow. lia. }
  assert (Hmax : (2 ^ 31 <= 2 ^ (31 + Z.of_N extra))%Z).
  { apply Z.pow_le_mono_r; lia. }
  change (2 ^ 31)%Z with 2147483648%Z in Hmax.
  unfold Cxx.LONG_MIN, Cxx.LONG_MAX.
  replace ((- 2 ^ (31 + Z.of_N extra) <=? (if neg then - Z.of_N v else Z.of_N v))
           && ((if neg then - Z.of_N v else Z.of_N v)
               <=? 2 ^ (31 + Z.of_N extra) - 1))%Z with true; [reflexivity|].
  symmetry. apply andb_true_iff. rewrite !Z.leb_le. destruct neg; lia.
Qed.

Lemma length_append (s1 s2 : string) :
  String.length (s1 ++ s2) = String.length s1 + String.length s2.
Proof. induction s1 as [|c s1 IH]; simpl; [reflexivity | now rewrite IH]. Qed.

Lemma scan_digits_app (digits tail : string) (acc : N) :
  all_digits digits = true ->
  match tail with String c _ => Cxx.isdigit c = false | EmptyString => True end ->
  Cxx.scan_digits acc (digits ++ tail)
  = (fst (fst (Cxx.scan_digits acc digits)), String.length digits, tail).
Proof.
  intros Hd Ht. revert acc.
  induction digits as [|c digits IH]; intros acc; simpl.
  - destruct tail as [|c tail]; [reflexivity|]. simpl. now rewrite Ht.
  - simpl in Hd. apply andb_true_iff in Hd. destruct Hd as [Hc Hd].
    rewrite Hc, (IH Hd).
    now destruct (Cxx.scan_digits (acc * 10 + Cxx.digit_value c) digits)
      as [[v n] r].
Qed.

Lemma digit_is_plain (c : ascii) :
  Cxx.isdigit c = true ->
  Cxx.isspace c = false /\
  Cxx.scan_sign (String c EmptyString) = (false, String c EmptyString) /\
  Cxx.tolower c = c /\
  Ascii.eqb c "i" = false /\ Ascii.eqb c "n" = false /\
  Ascii.eqb c "x" = false /\ Ascii.eqb c "." = false /\
  Ascii.eqb c "e" = false /\ Ascii.eqb c "E" = false.
Proof.
  destruct c as [[] [] [] [] [] [] [] []]; vm_compute; intros H;
    try discriminate H; repeat split.
Qed.

Lemma scan_sign_digit (c : ascii) (s : string) :
  Cxx.isdigit c = true -> Cxx.scan_sign (String c s) = (false, String c s).
Proof.
  destruct c as [[] [] [] [] [] [] [] []]; vm_compute; intros H;
    try discriminate H; reflexivity.
Qed.

Lemma ends_number_facts (tail : string) :
  ends_number tail = true ->
  match tail with
  | String c _ =>
      Cxx.isdigit c = false /\ Ascii.eqb c "." = false /\
      Ascii.eqb c "e" = false /\ Ascii.eqb c "E" = false /\
      Ascii.eqb (Cxx.tolower c) "x" = false
  | EmptyString => True
  end.
Proof.
  destruct tail as [|c tail]; [trivial|]. unfold ends_number.
  destruct c as [[] [] [] [] [] [] [] []]; vm_compute; intros H;
    try discriminate H; repeat split.
Qed.

(** [strtod] on an integer literal followed by such a tail reads the
    digits, all of them and nothing else. *)
Lemma strtod_digits (digits tail : string) :
  digits <> EmptyString ->
  all_digits digits = true ->
  ends_number tail = true ->
  Cxx.strtod (digits ++ tail)
  = Some (Cxx.Decimal false (fst (fst (Cxx.scan_digits 0 digits))) 0,
          String.length digits).
Proof.
  intros Hne Hd Ht.
  pose proof (ends_number_facts tail Ht) as Hfacts.
  destruct digits as [|c digits]; [contradiction|]. clear Hne.
  pose proof Hd as Hd'. simpl in Hd'. apply andb_true_iff in Hd'.
  destruct Hd' as [Hc Hrest].
  destruct (digit_is_plain c Hc)
    as (Hsp & _ & Hlow & Hi & Hn & Hx & Hdot & He & HE).
  unfold Cxx.strtod. cbn [String.append Cxx.skip_space]. rewrite Hsp.
  rewrite (@scan_sign_digit c (digits ++ tail) Hc).
  assert (Hsub : Cxx.scan_subject false (String c (digits ++ tail))
                 = Cxx.scan_decimal false (String c (digits ++ tail))).
  { unfold Cxx.scan_subject. cbn [Cxx.scan_word]. rewrite Hlow, Hi, Hn.
    destruct (Ascii.eqb c "0") eqn:H0; [|reflexivity].
    destruct digits as [|d digits]; cbn [String.append].
    - destruct tail as [|t tail]; [reflexivity|].
      destruct Hfacts as (_ & _ & _ & _ & Htx). now rewrite Htx.
    - simpl in Hrest. apply andb_true_iff in Hrest. destruct Hrest as [Hdd _].
      destruct (digit_is_plain d Hdd) as (_ & _ & Hlow' & _ & _ & Hx' & _).
      now rewrite Hlow', Hx'. }
  rewrite Hsub. unfold Cxx.scan_decimal.
  change (String c (digits ++ tail)) with (String c digits ++ tail).
  rewrite scan_digits_app; [|exact Hd|].
  2:{ destruct tail; [trivial | apply Hfacts]. }
  assert (Hnodot : match tail with
                   | String "." r => Cxx.scan_digits
                                       (fst (fst (Cxx.scan_digits 0 (String c digits)))) r
                   | _ => (fst (fst (Cxx.scan_digits 0 (String c digits))), 0, tail)
                   end
                   = (fst (fst (Cxx.scan_digits 0 (String c digits))), 0, tail)).
  { destruct tail as [|t tail]; [reflexivity|].
    destruct Hfacts as (_ & Htdot & _).
    destruct t as [[] [] [] [] [] [] [] []]; try reflexivity.
    discriminate Htdot. }
  rewrite Hnodot. cbn [String.length Nat.add].
  assert (Hexp : Cxx.scan_exponent "e" "E" tail = (0%Z, tail)).
  { destruct tail as [|t tail]; [reflexivity|].
    destruct Hfacts as (_ & _ & Hte & HtE & _).
    unfold Cxx.scan_exponent. now rewrite Hte, HtE. }
  rewrite Hexp. unfold Cxx.consumed. cbn [Z.of_nat Z.sub Z.opp Z.add].
  do 3 f_equal.
  rewrite length_append. cbn [String.length]. lia.
Qed.

End CxxFacts.

(* ================================================================= *)
(** * Properties of the regular expressions *)

Module RegexFacts.

Local Open Scope string_scope.

Lemma strip_prefix_app (lit s s' : string) :
  Regex.strip_prefix lit s = Some s' <-> s = lit ++ s'.
Proof.
  revert s. induction lit as [|a lit IH]; intros s; simpl.
  - split; [now intros [= ->] | now intros ->].
  - destruct s as [|c s]; [split; discriminate|].
    destruct (Ascii.eqb_spec a c) as [->|Hne].
    + rewrite IH. split; [now intros -> | now intros [= ->]].
    + split; [discriminate | intros [= -> _]; contradiction].
Qed.

Lemma append_empty_r (s : string) : s ++ "" = s.
Proof. induction s; simpl; congruence. Qed.

(** A literal matches itself and nothing else. *)
Lemma regex_match_Lit (s l : string) :
  Regex.regex_match s (Regex.Lit l) = if String.eqb s l then Some [] else None.
Proof.
  unfold Regex.regex_match. simpl.
  destruct (Regex.strip_prefix l s) as [s'|] eqn:Hs.
  - apply strip_prefix_app in Hs. subst s. simpl.
    destruct s' as [|c s']; simpl.
    + now rewrite append_empty_r, String.eqb_refl.
    + destruct (String.eqb_spec (l ++ String c s') l) as [Heq|]; [|reflexivity].
      exfalso. apply (f_equal String.length) in Heq.
      rewrite CxxFacts.length_append in Heq. simpl in Heq. lia.
  - simpl. destruct (String.eqb_spec s l) as [->|]; [|reflexivity].
    assert (H : Regex.strip_prefix l l = Some "")
      by (apply strip_prefix_app; now rewrite append_empty_r).
    congruence.
Qed.

Lemma matches_Lit (s l : string) : matches s (Regex.Lit l) = String.eqb s l.
Proof. unfold matches. rewrite regex_match_Lit. now destruct (String.eqb s l). Qed.

Lemma matches_Alt (s : string) (r1 r2 : Regex.regex) :
  matches s (Regex.Alt r1 r2) = matches s r1 || matches s r2.
Proof.
  unfold matches, Regex.regex_match. simpl. rewrite filter_app.
  destruct (filter _ (Regex.run r1 s)); simpl; [|reflexivity].
  now destruct (filter _ (Regex.run r2 s)).
Qed.

Lemma matches_re_logical (op : string) :
  matches op re_logical =
  existsb (String.eqb op) ["=="; "!="; "<"; "<="; ">"; ">="; "&&"; "||"].
Proof.
  unfold re_logical, Regex.alts. cbn [fold_left].
  rewrite !matches_Alt, !matches_Lit. cbn [existsb].
  rewrite orb_false_r, <- !orb_assoc. reflexivity.
Qed.

Lemma star_splits_class (cls : ascii -> bool) (s : string) (p : string * string) :
  In p (Regex.star_splits cls s) -> string_forallb cls (fst p) = true.
Proof.
  revert p. induction s as [|c s IH]; intros p; simpl.
  - intros [<-|[]]. reflexivity.
  - destruct (cls c) eqn:Hc.
    + rewrite in_app_iff, in_map_iff.
      intros [(q & <- & Hq)|[<-|[]]]; simpl; [|reflexivity].
      now rewrite Hc, (IH q Hq).
    + intros [<-|[]]. reflexivity.
Qed.

Lemma run_Cat (r1 r2 : Regex.regex) (s : string) (p : Regex.partial) :
  In p (Regex.run (Regex.Cat r1 r2) s) ->
  exists p1 p2,
    In p1 (Regex.run r1 s) /\ In p2 (Regex.run r2 (Regex.rest p1)) /\
    Regex.matched p = Regex.matched p1 ++ Regex.matched p2 /\
    Regex.submatches p = (Regex.submatches p1 ++ Regex.submatches p2)%list.
Proof.
  simpl. rewrite in_flat_map. intros (p1 & H1 & H).
  apply in_map_iff in H. destruct H as (p2 & <- & H2).
  exists p1, p2. auto.
Qed.

Lemma run_Group (r : Regex.regex) (s : string) (p : Regex.partial) :
  In p (Regex.run (Regex.Group r) s) ->
  exists p0,
    In p0 (Regex.run r s) /\
    Regex.submatches p = Regex.matched p0 :: Regex.submatches p0.
Proof.
  simpl. rewrite in_map_iff. intros (p0 & <- & H0). exists p0. auto.
Qed.

Lemma regex_match_In (s : string) (r : Regex.regex) (what : list string) :
  Regex.regex_match s r = Some what ->
  exists p, In p (Regex.run r s) /\ Regex.submatches p = what.
Proof.
  unfold Regex.regex_match.
  destruct (filter _ (Regex.run r s)) as [|p l] eqn:Hf; [discriminate|].
  intros [= <-]. exists p. split; [|reflexivity].
  assert (H : In p (filter (fun p => Regex.is_empty (Regex.rest p)) (Regex.run r s)))
    by (rewrite Hf; now left).
  now apply filter_In in H.
Qed.

(** The first sub-match of the assignment pattern is a letter followed
    by letters and digits. *)
Lemma re_assignment_name (line : string) (what : list string) :
  Regex.regex_match line re_assignment = Some what ->
  is_identifier (Regex.sub what 1) = true.
Proof.
  intros H. apply regex_match_In in H. destruct H as (p & Hp & <-).
  unfold re_assignment, Regex.cats in Hp. cbn [fold_right] in Hp.
  apply run_Cat in Hp. destruct Hp as (p1 & p2 & H1 & _ & _ & ->).
  apply run_Group in H1. destruct H1 as (p0 & H0 & ->).
  unfold Regex.sub. cbn [Nat.sub nth app].
  apply run_Cat in H0. destruct H0 as (pa & pb & Ha & Hb & -> & _).
  simpl in Ha. destruct line as [|c line]; [contradiction|].
  destruct (Regex.alpha c) eqn:Hc; [|contradiction].
  destruct Ha as [<-|[]]. simpl in Hb |- *.
  apply in_map_iff in Hb. destruct Hb as (q & <- & Hq). simpl.
  now rewrite Hc, (@star_splits_class _ _ _ Hq).
Qed.

Lemma append_assoc (s1 s2 s3 : string) : (s1 ++ s2) ++ s3 = s1 ++ s2 ++ s3.
Proof. induction s1; simpl; congruence. Qed.

Lemma star_splits_sound (cls : ascii -> bool) (s : string) (q : string * string) :
  In q (Regex.star_splits cls s) -> s = fst q ++ snd q.
Proof.
  revert q. induction s as [|c s IH]; intros q; simpl.
  - intros [<-|[]]. reflexivity.
  - destruct (cls c).
    + rewrite in_app_iff, in_map_iff.
      intros [(q' & <- & Hq)|[<-|[]]]; simpl; [|reflexivity].
      now rewrite <- (IH q' Hq).
    + intros [<-|[]]. reflexivity.
Qed.

(** What backtracking reports is a split of the input. *)
Lemma run_sound (r : Regex.regex) (s : string) (p : Regex.partial) :
  In p (Regex.run r s) -> s = Regex.matched p ++ Regex.rest p.
Proof.
  revert s p. induction r as [|l|cls|cls|cls|r1 IH1 r2 IH2|r1 IH1 r2 IH2|r IH];
    intros s p; simpl.
  - intros [<-|[]]. reflexivity.
  - destruct (Regex.strip_prefix l s) as [s'|] eqn:Hs; [|contradiction].
    intros [<-|[]]. simpl. now apply strip_prefix_app.
  - destruct s as [|c s]; [contradiction|].
    destruct (cls c); [|contradiction]. intros [<-|[]]. reflexivity.
  - rewrite in_map_iff. intros (q & <- & Hq). simpl.
    now apply star_splits_sound with cls.
  - rewrite in_map_iff. intros (q & <- & Hq). simpl.
    unfold Regex.plus_splits in Hq. destruct s as [|c s]; [contradiction|].
    destruct (cls c); [|contradiction].
    apply in_map_iff in Hq. destruct Hq as (q' & <- & Hq'). simpl.
    now rewrite <- (@star_splits_sound cls s q' Hq').
  - rewrite in_app_iff. intros [H|H]; auto.
  - rewrite in_flat_map. intros (p1 & H1 & H).
    apply in_map_iff in H. destruct H as (p2 & <- & H2). simpl.
    rewrite append_assoc, <- (IH2 _ _ H2). now apply IH1.
  - rewrite in_map_iff. intros (p0 & <- & H0). simpl. now apply IH.
Qed.

Lemma plain_app (s1 s2 : string) : plain (s1 ++ s2) = plain s1 && plain s2.
Proof.
  unfold plain. induction s1 as [|c s1 IH]; simpl; [reflexivity|].
  now rewrite IH, andb_assoc.
Qed.

Lemma marked_run (r : Regex.regex) (s : string) (p : Regex.partial) :
  marked r = true -> In p (Regex.run r s) -> plain (Regex.matched p) = false.
Proof.
  revert s p. induction r as [|l|cls|cls|cls|r1 IH1 r2 IH2|r1 IH1 r2 IH2|r IH];
    intros s p; simpl; try discriminate.
  - intros Hl. destruct (Regex.strip_prefix l s); [|contradiction].
    intros [<-|[]]. simpl. now apply negb_true_iff.
  - intros Hm. apply andb_prop in Hm. destruct Hm as [H1 H2].
    rewrite in_app_iff. intros [H|H]; eauto.
  - intros Hm. rewrite in_flat_map. intros (p1 & H1 & H).
    apply in_map_iff in H. destruct H as (p2 & <- & H2). simpl.
    rewrite plain_app. apply orb_prop in Hm. destruct Hm as [Hm|Hm].
    + now rewrite (IH1 _ _ Hm H1).
    + rewrite (IH2 _ _ Hm H2). apply andb_false_r.
  - intros Hm. rewrite in_map_iff. intros (p0 & <- & H0). simpl. eauto.
Qed.

(** A pattern that asks for a character that is not plain matches no
    plain text. *)
Lemma marked_no_match (r : Regex.regex) (s : string) :
  marked r = true -> plain s = true -> Regex.regex_match s r = None.
Proof.
  intros Hr Hs. destruct (Regex.regex_match s r) as [what|] eqn:Hm;
    [|reflexivity].
  unfold Regex.regex_match in Hm.
  destruct (filter _ (Regex.run r s)) as [|p l] eqn:Hf; [discriminate|].
  assert (H : In p (filter (fun p => Regex.is_empty (Regex.rest p))
                           (Regex.run r s)))
    by (rewrite Hf; now left).
  apply filter_In in H. destruct H as [Hin Hrest].
  pose proof (run_sound _ _ _ Hin) as Hsplit.
  pose proof (marked_run _ _ _ Hr Hin) as Hmark.
  rewrite Hsplit, plain_app, Hmark in Hs. discriminate.
Qed.

End RegexFacts.

(* ================================================================= *)
(** * Words that [strtod] reads *)

Module CxxWordFacts.

Local Open Scope string_scope.

Lemma scan_word_head (w s r : string) (a : ascii) :
  Cxx.scan_word (String a w) s = Some r ->
  exists c s', s = String c s' /\ Cxx.tolower c = a.
Proof.
  simpl. destruct s as [|c s']; [discriminate|].
  destruct (Ascii.eqb_spec (Cxx.tolower c) a); [|discriminate].
  intros _. eauto.
Qed.

(** A character that [tolower] takes to a letter is a letter. *)
Lemma tolower_letter (c a : ascii) :
  Cxx.tolower c = a -> Cxx.isalpha a = true -> Cxx.isalpha c = true.
Proof.
  intros <-. unfold Cxx.tolower. cbv zeta.
  destruct ((65 <=? N_of_ascii c) && (N_of_ascii c <=? 90))%N eqn:Hup.
  - intros _. unfold Cxx.isalpha. cbv zeta. now rewrite Hup.
  - trivial.
Qed.

Lemma letter_not_space (c : ascii) :
  Cxx.isalpha c = true ->
  Cxx.isspace c = false /\ Cxx.isdigit c = false /\
  c <> "-"%char /\ c <> "+"%char /\ c <> "."%char.
Proof.
  destruct c as [[] [] [] [] [] [] [] []]; vm_compute; intros H;
    try discriminate H; repeat split; discriminate.
Qed.

Lemma strtod_letter (c : ascii) (s : string) :
  Cxx.isalpha c = true ->
  Cxx.strtod (String c s) =
  match Cxx.scan_subject false (String c s) with
  | Some (v, rest) => Some (v, Cxx.consumed (String c s) rest)
  | None => None
  end.
Proof.
  intros Hc. destruct (@letter_not_space c Hc) as (Hsp & _ & Hm & Hp & _).
  unfold Cxx.strtod. cbn [Cxx.skip_space]. rewrite Hsp.
  unfold Cxx.scan_sign.
  destruct c as [[] [] [] [] [] [] [] []]; try reflexivity;
    congruence.
Qed.


Lemma scan_word_shorter (w w' s r : string) :
  Cxx.scan_word (w ++ w') s = Some r -> exists r', Cxx.scan_word w s = Some r'.
Proof.
  revert s. induction w as [|a w IH]; intros s; simpl.
  - eauto.
  - destruct s as [|c s]; [discriminate|].
    destruct (Ascii.eqb (Cxx.tolower c) a); [apply IH | discriminate].
Qed.

Lemma scan_word_letter (a : ascii) (w s r : string) :
  Cxx.isalpha a = true ->
  Cxx.scan_word (String a w) s = Some r ->
  exists c s', s = String c s' /\ Cxx.isalpha c = true.
Proof.
  intros Ha H. destruct (@scan_word_head _ _ _ _ H) as (c & s' & -> & Hc).
  exists c, s'. split; [reflexivity|]. now apply tolower_letter with a.
Qed.

(** A text that starts with "inf", in any case, reads as infinity. *)
Lemma strtod_inf (name : string) :
  starts_with "inf" name = true ->
  exists sz, Cxx.strtod name = Some (Cxx.Infinity false, sz).
Proof.
  unfold starts_with. destruct (Cxx.scan_word "inf" name) as [r|] eqn:Hw;
    [intros _ | discriminate].
  destruct (@scan_word_letter "i" "nf" name r eq_refl Hw) as (c & s & -> & Hc).
  rewrite (@strtod_letter c s Hc). unfold Cxx.scan_subject.
  destruct (Cxx.scan_word "infinity" (String c s)); [eauto|].
  rewrite Hw. eauto.
Qed.

(** A text that starts with "nan", in any case, reads as a NaN. *)
Lemma strtod_nan (name : string) :
  starts_with "nan" name = true ->
  exists sz, Cxx.strtod name = Some (Cxx.NaN false, sz).
Proof.
  unfold starts_with. destruct (Cxx.scan_word "nan" name) as [r|] eqn:Hw;
    [intros _ | discriminate].
  destruct (@scan_word_letter "n" "an" name r eq_refl Hw) as (c & s & -> & Hc).
  rewrite (@strtod_letter c s Hc). unfold Cxx.scan_subject.
  assert (Hi : Cxx.scan_word "inf" (String c s) = None).
  { simpl in Hw |- *.
    destruct (Ascii.eqb_spec (Cxx.tolower c) "n") as [->|]; [|discriminate].
    reflexivity. }
  assert (Hi' : Cxx.scan_word "infinity" (String c s) = None).
  { destruct (Cxx.scan_word "infinity" (String c s)) eqn:H; [|reflexivity].
    destruct (@scan_word_shorter "inf" "inity" _ _ H) as [r' Hr']. congruence. }
  rewrite Hi', Hi, Hw.
  destruct r as [|[[] [] [] [] [] [] [] []] r1]; eauto.
  destruct (Cxx.skip_nchars r1) as [|[[] [] [] [] [] [] [] []] r2]; eauto.
Qed.

Lemma letter_not_zero (c : ascii) :
  Cxx.isalpha c = true -> Ascii.eqb (Cxx.tolower c) "0" = false.
Proof.
  destruct c as [[] [] [] [] [] [] [] []]; vm_compute; intros H;
    try discriminate H; reflexivity.
Qed.

(** A name that starts with a letter does not read as a number unless
    it starts with "inf" or "nan". *)
Lemma strtod_identifier (name : string) :
  is_identifier name = true ->
  starts_with "inf" name = false ->
  starts_with "nan" name = false ->
  Cxx.strtod name = None.
Proof.
  destruct name as [|c s]; [discriminate|]. simpl.
  intros Hid. apply andb_prop in Hid. destruct Hid as [Hc _].
  unfold Regex.alpha in Hc. unfold starts_with.
  destruct (Cxx.scan_word "inf" (String c s)) eqn:Hi; [discriminate|].
  destruct (Cxx.scan_word "nan" (String c s)) eqn:Hn; [discriminate|].
  intros _ _. rewrite (@strtod_letter c s Hc). unfold Cxx.scan_subject.
  assert (Hi' : Cxx.scan_word "infinity" (String c s) = None).
  { destruct (Cxx.scan_word "infinity" (String c s)) eqn:H; [|reflexivity].
    destruct (@scan_word_shorter "inf" "inity" _ _ H) as [r' Hr']. congruence. }
  rewrite Hi', Hi, Hn.
  assert (Hx : Cxx.scan_word "0x" (String c s) = None).
  { simpl. now rewrite (@letter_not_zero c Hc). }
  rewrite Hx. unfold Cxx.scan_decimal.
  destruct (@letter_not_space c Hc) as (_ & Hd & _ & _ & Hdot).
  cbn [Cxx.scan_digits]. rewrite Hd.
  destruct c as [[] [] [] [] [] [] [] []]; try reflexivity; congruence.
Qed.

End CxxWordFacts.

(* ================================================================= *)
(** * Properties of [strtod] on floating constants *)

Module ConstantFacts.

Local Open Scope string_scope.

Lemma numeral_app (a b : string) :
  (numeral (a ++ b) = numeral a * 10 ^ N.of_nat (String.length b) + numeral b)%N.
Proof.
  induction a as [|c a IH]; simpl; [lia|].
  rewrite IH, CxxFacts.length_append, Nat2N.inj_add, N.pow_add_r. lia.
Qed.

Lemma scan_digits_numeral (digits : string) (acc : N) :
  all_digits digits = true ->
  (fst (fst (Cxx.scan_digits acc digits))
   = acc * 10 ^ N.of_nat (String.length digits) + numeral digits)%N.
Proof.
  revert acc. induction digits as [|c d IH]; intros acc Hd.
  - simpl. lia.
  - simpl in Hd. apply andb_true_iff in Hd. destruct Hd as [Hc Hd].
    cbn [Cxx.scan_digits]. rewrite Hc.
    specialize (IH (acc * 10 + Cxx.digit_value c)%N Hd).
    destruct (Cxx.scan_digits (acc * 10 + Cxx.digit_value c) d) as [[v n] r].
    cbn [fst] in IH |- *. rewrite IH.
    cbn [numeral String.length]. rewrite Nat2N.inj_succ, N.pow_succ_r'. lia.
Qed.

(** Digits followed by something that is not a digit: the scan stops
    there. *)
Lemma scan_digits_stop (digits rest : string) (acc : N) :
  all_digits digits = true ->
  digit_head rest = false ->
  Cxx.scan_digits acc (digits ++ rest)
  = ((acc * 10 ^ N.of_nat (String.length digits) + numeral digits)%N,
     String.length digits, rest).
Proof.
  intros Hd Hr.
  rewrite CxxFacts.scan_digits_app; [|exact Hd|].
  - now rewrite scan_digits_numeral.
  - destruct rest; [trivial | exact Hr].
Qed.

Lemma skip_space_blank (ws s : string) :
  blank ws = true -> Cxx.skip_space (ws ++ s) = Cxx.skip_space s.
Proof.
  induction ws as [|c ws IH]; simpl; [reflexivity|].
  intros H. apply andb_true_iff in H. destruct H as [Hc Hws].
  rewrite Hc. auto.
Qed.

Lemma digit_head_app (digits rest : string) :
  all_digits digits = true -> digits <> "" -> digit_head (digits ++ rest) = true.
Proof.
  destruct digits as [|c d]; [contradiction|]. simpl.
  intros H _. now apply andb_true_iff in H.
Qed.

(** What follows the digits before the point, and what follows the
    fraction, is not a digit. *)
Lemma exponent_text_head (c : Constant.t) (tail : string) :
  Constant.well_formed c = true -> ends_number tail = true ->
  digit_head (Constant.exponent_text c ++ tail) = false /\
  match Constant.exponent_text c ++ tail with
  | String a _ => Ascii.eqb a "." = false /\ Ascii.eqb (Cxx.tolower a) "x" = false
  | EmptyString => True
  end.
Proof.
  intros Hwf Ht. unfold Constant.well_formed in Hwf.
  apply andb_true_iff in Hwf. destruct Hwf as [_ He].
  pose proof (CxxFacts.ends_number_facts tail Ht) as Hf.
  unfold Constant.exponent_text.
  destruct (Constant.exponent c) as [[[mark s] digits]|].
  - apply andb_true_iff in He. destruct He as [He _].
    apply andb_true_iff in He. destruct He as [He _].
    apply andb_true_iff in He. destruct He as [He _].
    cbn [String.append digit_head].
    destruct (Ascii.eqb_spec mark "e") as [->|];
      [split; [reflexivity | split; reflexivity]|].
    destruct (Ascii.eqb_spec mark "E") as [->|];
      [split; [reflexivity | split; reflexivity]|].
    discriminate He.
  - cbn [String.append]. destruct tail as [|a tail]; [split; [reflexivity|trivial]|].
    destruct Hf as (H1 & H2 & _ & _ & H5). simpl. now rewrite H1.
Qed.

Lemma is_sign_cases (s : string) :
  is_sign s = true -> s = "" \/ s = "+" \/ s = "-".
Proof.
  unfold is_sign.
  destruct (String.eqb_spec s "") as [->|]; [auto|].
  destruct (String.eqb_spec s "+") as [->|]; [auto|].
  destruct (String.eqb_spec s "-") as [->|]; [auto|].
  discriminate.
Qed.

(** A sign, then something that starts a number: [scan_sign] takes
    the sign and nothing else. *)
Lemma scan_sign_text (s body : string) :
  is_sign s = true -> numeric_head body = true ->
  Cxx.scan_sign (s ++ body) = (String.eqb s "-", body).
Proof.
  intros Hs Hb. destruct (is_sign_cases s Hs) as [-> | [-> | ->]];
    try reflexivity.
  destruct body as [|c body]; [discriminate|]. simpl in Hb.
  cbn [String.append].
  destruct c as [[] [] [] [] [] [] [] []]; try reflexivity; discriminate Hb.
Qed.

Lemma skip_space_text (s body : string) :
  is_sign s = true -> numeric_head body = true ->
  Cxx.skip_space (s ++ body) = s ++ body.
Proof.
  intros Hs Hb. destruct (is_sign_cases s Hs) as [-> | [-> | ->]];
    try reflexivity.
  destruct body as [|c body]; [discriminate|]. simpl in Hb.
  cbn [String.append Cxx.skip_space].
  destruct c as [[] [] [] [] [] [] [] []]; try reflexivity; discriminate Hb.
Qed.

Lemma digit_head_numeric (s : string) :
  digit_head s = true -> numeric_head s = true.
Proof. destruct s as [|c s]; simpl; [discriminate|]. now intros ->. Qed.

Lemma scan_exponent_text (c : Constant.t) (tail : string) :
  Constant.well_formed c = true -> ends_number tail = true ->
  Cxx.scan_exponent "e" "E" (Constant.exponent_text c ++ tail)
  = (Constant.power c, tail).
Proof.
  intros Hwf Ht. unfold Constant.well_formed in Hwf.
  apply andb_true_iff in Hwf. destruct Hwf as [_ He].
  pose proof (CxxFacts.ends_number_facts tail Ht) as Hf.
  unfold Constant.exponent_text, Constant.power.
  destruct (Constant.exponent c) as [[[mark s] digits]|].
  - apply andb_true_iff in He. destruct He as [He Hne].
    apply andb_true_iff in He. destruct He as [He Hd].
    apply andb_true_iff in He. destruct He as [Hm Hs].
    assert (Hnonempty : digits <> "").
    { intros ->. discriminate Hne. }
    assert (Htail : digit_head tail = false).
    { destruct tail as [|a tail]; [reflexivity | apply Hf]. }
    cbn [String.append]. rewrite RegexFacts.append_assoc.
    unfold Cxx.scan_exponent. rewrite Hm.
    rewrite scan_sign_text;
      [|exact Hs | apply digit_head_numeric, digit_head_app; assumption].
    rewrite scan_digits_stop by assumption.
    destruct digits as [|d digits]; [contradiction|].
    cbn [String.length]. unfold signed.
    now rewrite N.mul_0_l, N.add_0_l.
  - cbn [String.append]. destruct tail as [|a tail]; [reflexivity|].
    destruct Hf as (_ & _ & H3 & H4 & _).
    unfold Cxx.scan_exponent. now rewrite H3, H4.
Qed.

Lemma well_formed_parts (c : Constant.t) :
  Constant.well_formed c = true ->
  blank (Constant.blanks c) = true /\ is_sign (Constant.sign c) = true /\
  all_digits (Constant.whole c) = true /\
  all_digits (Constant.fraction c) = true /\
  (Constant.point c = false -> Constant.fraction c = "") /\
  Constant.whole c ++ Constant.fraction c <> "".
Proof.
  unfold Constant.well_formed. rewrite !andb_true_iff.
  intros [[[[[[H1 H2] H3] H4] H5] H6] _]. repeat split; try assumption.
  - intros Hp. rewrite Hp in H5. simpl in H5. now apply String.eqb_eq.
  - intros Heq. rewrite Heq in H6. discriminate H6.
Qed.

(** The digits, the point and the exponent of a constant, followed by
    something that does not continue it. *)
Lemma scan_decimal_text (c : Constant.t) (tail : string) (neg : bool) :
  Constant.well_formed c = true -> ends_number tail = true ->
  Cxx.scan_decimal neg (Constant.whole c ++ Constant.point_text c
                          ++ Constant.exponent_text c ++ tail)
  = Some (Cxx.Decimal neg (numeral (Constant.whole c ++ Constant.fraction c))
                      (Constant.power c
                       - Z.of_nat (String.length (Constant.fraction c))),
          tail).
Proof.
  intros Hwf Ht.
  destruct (exponent_text_head c tail Hwf Ht) as [Hd2 Hh2].
  pose proof (scan_exponent_text c tail Hwf Ht) as Hexp.
  destruct (well_formed_parts c Hwf) as (_ & _ & Hw & Hfr & Hpt & Hne).
  unfold Cxx.scan_decimal, Constant.point_text.
  destruct (Constant.point c) eqn:Hp.
  - cbn [String.append].
    rewrite scan_digits_stop by (assumption || reflexivity).
    rewrite scan_digits_stop by assumption.
    rewrite Hexp.
    destruct (String.length (Constant.whole c)
              + String.length (Constant.fraction c)) eqn:Hlen.
    + exfalso. apply Hne.
      destruct (Constant.whole c); [|discriminate Hlen].
      destruct (Constant.fraction c); [reflexivity | discriminate Hlen].
    + now rewrite numeral_app, N.mul_0_l, N.add_0_l.
  - rewrite (Hpt eq_refl) in *. cbn [String.append].
    rewrite scan_digits_stop by assumption.
    assert (Hnodot :
              match Constant.exponent_text c ++ tail with
              | String "." r =>
                  Cxx.scan_digits
                    (0 * 10 ^ N.of_nat (String.length (Constant.whole c))
                     + numeral (Constant.whole c))%N r
              | _ => ((0 * 10 ^ N.of_nat (String.length (Constant.whole c))
                       + numeral (Constant.whole c))%N, 0,
                      Constant.exponent_text c ++ tail)
              end
              = ((0 * 10 ^ N.of_nat (String.length (Constant.whole c))
                  + numeral (Constant.whole c))%N, 0,
                 Constant.exponent_text c ++ tail)).
    { destruct (Constant.exponent_text c ++ tail) as [|a r]; [reflexivity|].
      destruct Hh2 as [Hdot _].
      destruct a as [[] [] [] [] [] [] [] []]; try reflexivity.
      discriminate Hdot. }
    rewrite Hnodot, Hexp.
    destruct (String.length (Constant.whole c) + 0) eqn:Hlen.
    + exfalso. apply Hne.
      destruct (Constant.whole c); [reflexivity | discriminate Hlen].
    + rewrite numeral_app, N.mul_0_l, N.add_0_l.
      cbn [String.length numeral N.of_nat]. now rewrite N.pow_0_r, N.mul_1_r, N.add_0_r.
Qed.

Lemma body_head (c : Constant.t) (rest : string) :
  Constant.well_formed c = true ->
  numeric_head (Constant.whole c ++ Constant.point_text c ++ rest) = true.
Proof.
  intros Hwf.
  destruct (well_formed_parts c Hwf) as (_ & _ & Hw & Hfr & Hpt & Hne).
  unfold Constant.point_text.
  destruct (Constant.whole c) as [|a w].
  - destruct (Constant.point c).
    + cbn [String.append numeric_head]. rewrite digit_head_app; auto.
    + now rewrite (Hpt eq_refl) in Hne.
  - simpl in Hw. apply andb_true_iff in Hw. destruct Hw as [Ha _].
    cbn [String.append numeric_head]. now rewrite Ha.
Qed.

(** Where the text starts a decimal constant that no x follows at
    once, [strtod] reads neither a word nor a hexadecimal constant. *)
Lemma scan_subject_decimal (neg : bool) (s : string) :
  numeric_head s = true ->
  match s with
  | String _ (String d _) => Ascii.eqb (Cxx.tolower d) "x" = false
  | _ => True
  end ->
  Cxx.scan_subject neg s = Cxx.scan_decimal neg s.
Proof.
  destruct s as [|c s]; [discriminate|]. intros Hh Hx.
  unfold Cxx.scan_subject. cbn [Cxx.scan_word]. simpl in Hh.
  assert (Hc : Ascii.eqb (Cxx.tolower c) "i" = false /\
               Ascii.eqb (Cxx.tolower c) "n" = false).
  { destruct (Cxx.isdigit c) eqn:Hd.
    - destruct (CxxFacts.digit_is_plain c Hd) as (_ & _ & -> & Hi & Hn & _).
      now split.
    - destruct (Ascii.eqb_spec c ".") as [->|]; [|discriminate Hh].
      now split. }
  destruct Hc as [-> ->].
  destruct (Ascii.eqb (Cxx.tolower c) "0"); [|reflexivity].
  destruct s as [|d s]; [reflexivity|]. now rewrite Hx.
Qed.

Lemma body_second (c : Constant.t) (tail : string) :
  Constant.well_formed c = true -> ends_number tail = true ->
  match Constant.whole c ++ Constant.point_text c
        ++ Constant.exponent_text c ++ tail with
  | String _ (String d _) => Ascii.eqb (Cxx.tolower d) "x" = false
  | _ => True
  end.
Proof.
  intros Hwf Ht.
  destruct (exponent_text_head c tail Hwf Ht) as [_ Hh2].
  destruct (well_formed_parts c Hwf) as (_ & _ & Hw & Hfr & Hpt & Hne).
  unfold Constant.point_text.
  assert (Hdigit : forall d, Cxx.isdigit d = true ->
                             Ascii.eqb (Cxx.tolower d) "x" = false).
  { intros d Hd.
    now destruct (CxxFacts.digit_is_plain d Hd) as (_ & _ & -> & _ & _ & Hx & _). }
  destruct (Constant.whole c) as [|a [|b w]].
  - destruct (Constant.point c); [|now rewrite (Hpt eq_refl) in Hne].
    cbn [String.append].
    destruct (Constant.fraction c) as [|d f]; [now elim Hne|].
    cbn [String.append]. simpl in Hfr. apply andb_true_iff in Hfr.
    now apply Hdigit.
  - cbn [String.append]. destruct (Constant.point c); [reflexivity|].
    cbn [String.append].
    destruct (Constant.exponent_text c ++ tail); [trivial | apply Hh2].
  - cbn [String.append]. simpl in Hw. rewrite !andb_true_iff in Hw.
    now apply Hdigit.
Qed.

(** [strtod] on a decimal constant followed by something that does not
    continue it: the constant is read, all of it and nothing else. *)
Lemma strtod_constant (c : Constant.t) (tail : string) :
  Constant.well_formed c = true -> ends_number tail = true ->
  Cxx.strtod (Constant.text c ++ tail)
  = Some (Constant.value c, String.length (Constant.text c)).
Proof.
  intros Hwf Ht.
  destruct (well_formed_parts c Hwf) as (Hb & Hs & _).
  pose proof (body_head c (Constant.exponent_text c ++ tail) Hwf) as Hh.
  unfold Cxx.strtod, Constant.text.
  rewrite !RegexFacts.append_assoc.
  rewrite (skip_space_blank _ _ Hb), (skip_space_text _ _ Hs Hh),
    (scan_sign_text _ _ Hs Hh).
  rewrite (scan_subject_decimal _ _ Hh (body_second c tail Hwf Ht)).
  rewrite (scan_decimal_text c tail _ Hwf Ht).
  unfold Cxx.consumed, Constant.value. do 2 f_equal.
  rewrite !CxxFacts.length_append. lia.
Qed.

Lemma scan_digits_digit (c : ascii) (s : string) (acc : N) :
  Cxx.isdigit c = true ->
  exists v n r, Cxx.scan_digits acc (String c s) = (v, S n, r).
Proof.
  intros Hc. cbn [Cxx.scan_digits]. rewrite Hc.
  destruct (Cxx.scan_digits (acc * 10 + Cxx.digit_value c) s) as [[v n] r].
  eauto.
Qed.

Lemma scan_decimal_some (neg : bool) (s : string) :
  numeric_head s = true ->
  exists v r, Cxx.scan_decimal neg s = Some (v, r).
Proof.
  destruct s as [|c s]; [discriminate|]. simpl. intros Hh.
  unfold Cxx.scan_decimal.
  destruct (Cxx.isdigit c) eqn:Hc.
  - destruct (scan_digits_digit c s 0 Hc) as (v & n & r & ->).
    destruct (match r with
              | String "." r0 => Cxx.scan_digits v r0
              | _ => (v, 0, r)
              end) as [[m2 n2] r2].
    cbn [Nat.add].
    destruct (Cxx.scan_exponent "e" "E" r2) as [e r3]. eauto.
  - destruct (Ascii.eqb_spec c ".") as [->|]; [|discriminate Hh].
    simpl in Hh. destruct s as [|d s]; [discriminate|]. simpl in Hh.
    cbn [Cxx.scan_digits]. change (Cxx.isdigit ".") with false. cbv iota.
    destruct (scan_digits_digit d s 0 Hh) as (v & n & r & ->).
    cbn [Nat.add].
    destruct (Cxx.scan_exponent "e" "E" r) as [e r3]. eauto.
Qed.

(** However the text goes on after the head of a decimal constant,
    [strtod] reads a number. *)
Lemma scan_subject_some (neg : bool) (s : string) :
  numeric_head s = true ->
  exists v r, Cxx.scan_subject neg s = Some (v, r).
Proof.
  intros Hh. unfold Cxx.scan_subject.
  destruct (Cxx.scan_word "infinity" s); [eauto|].
  destruct (Cxx.scan_word "inf" s); [eauto|].
  destruct (Cxx.scan_word "nan" s) as [r|].
  { destruct r as [|a r1]; [eauto|].
    destruct a as [[] [] [] [] [] [] [] []]; eauto.
    destruct (Cxx.skip_nchars r1) as [|b r2]; [eauto|].
    destruct b as [[] [] [] [] [] [] [] []]; eauto. }
  destruct (Cxx.scan_word "0x" s) as [r|]; [|now apply scan_decimal_some].
  destruct (Cxx.scan_hexadecimal neg r) as [[v r']|]; [eauto|].
  now apply scan_decimal_some.
Qed.

Lemma strtod_reads (c : Constant.t) (tail : string) :
  Constant.well_formed c = true ->
  exists v sz, Cxx.strtod (Constant.text c ++ tail) = Some (v, sz).
Proof.
  intros Hwf.
  destruct (well_formed_parts c Hwf) as (Hb & Hs & _).
  pose proof (body_head c (Constant.exponent_text c ++ tail) Hwf) as Hh.
  unfold Cxx.strtod, Constant.text.
  rewrite !RegexFacts.append_assoc.
  rewrite (skip_space_blank _ _ Hb), (skip_space_text _ _ Hs Hh),
    (scan_sign_text _ _ Hs Hh).
  destruct (scan_subject_some (String.eqb (Constant.sign c) "-") _ Hh)
    as (v & r & ->).
  eauto.
Qed.

End ConstantFacts.

Module NumberFacts.

Local Open Scope string_scope.

Lemma starts_number_head (s : string) :
  starts_number s = true ->
  exists c s', s = String c s' /\
    Cxx.isspace c = false /\ Ascii.eqb c "+" = false /\ Ascii.eqb c "-" = false.
Proof.
  destruct s as [|c s]; [discriminate|]. intros H. exists c, s.
  split; [reflexivity|].
  unfold starts_number, starts_with in H. cbn [numeric_head Cxx.scan_word] in H.
  destruct c as [[] [] [] [] [] [] [] []];
    try (repeat split; reflexivity); discriminate H.
Qed.

Lemma scan_sign_number (sg s : string) :
  is_sign sg = true -> starts_number s = true ->
  Cxx.skip_space (sg ++ s) = sg ++ s /\
  Cxx.scan_sign (sg ++ s) = (String.eqb sg "-", s).
Proof.
  intros Hs Hn.
  destruct (starts_number_head s Hn) as (c & s' & -> & Hsp & Hplus & Hminus).
  destruct (ConstantFacts.is_sign_cases sg Hs) as [-> | [-> | ->]];
    try (split; reflexivity).
  cbn [String.append Cxx.skip_space]. rewrite Hsp. split; [reflexivity|].
  destruct c as [[] [] [] [] [] [] [] []]; try reflexivity; discriminate.
Qed.

Lemma scan_subject_number (neg : bool) (s : string) :
  starts_number s = true ->
  exists v r, Cxx.scan_subject neg s = Some (v, r).
Proof.
  unfold starts_number, starts_with. intros Hh. unfold Cxx.scan_subject.
  destruct (Cxx.scan_word "infinity" s); [eauto|].
  destruct (Cxx.scan_word "inf" s); [eauto|].
  destruct (Cxx.scan_word "nan" s) as [r|].
  { destruct r as [|a r1]; [eauto|].
    destruct a as [[] [] [] [] [] [] [] []]; eauto.
    destruct (Cxx.skip_nchars r1) as [|b r2]; [eauto|].
    destruct b as [[] [] [] [] [] [] [] []]; eauto. }
  rewrite !orb_false_r in Hh.
  destruct (Cxx.scan_word "0x" s) as [r|];
    [|now apply ConstantFacts.scan_decimal_some].
  destruct (Cxx.scan_hexadecimal neg r) as [[v r']|]; [eauto|].
  now apply ConstantFacts.scan_decimal_some.
Qed.

(** White space, a sign and the start of a number: [strtod] reads a
    number, however the text goes on. *)
Lemma strtod_number (ws sg s : string) :
  blank ws = true -> is_sign sg = true -> starts_number s = true ->
  exists v sz, Cxx.strtod (ws ++ sg ++ s) = Some (v, sz).
Proof.
  intros Hb Hs Hn. unfold Cxx.strtod.
  rewrite (ConstantFacts.skip_space_blank _ _ Hb).
  destruct (scan_sign_number _ _ Hs Hn) as [-> ->].
  destruct (scan_subject_number (String.eqb sg "-") _ Hn) as (v & r & ->).
  eauto.
Qed.

End NumberFacts.

(* ================================================================= *)
(** * Properties of the member functions *)

Section Properties.

Context {R : Type} {ops : RealOps R} {env : Environment R}.

Implicit Types (self : MCScriptT R) (k : nat).

(** ** Computations that only write to the log *)

Lemma logged_refl self : logged self self.
Proof.
  repeat split. exists []. now rewrite app_nil_r.
Qed.

Lemma logged_trans self1 self2 self3 :
  logged self1 self2 -> logged self2 self3 -> logged self1 self3.
Proof.
  intros (Hp & He & Hr & Ho & a1 & Hl) (Hp' & He' & Hr' & Ho' & a2 & Hl').
  repeat split; try congruence.
  exists (a1 ++ a2). rewrite Hl', Hl. now rewrite app_assoc.
Qed.

Lemma compiling_ret {A : Type} (a : A) : compiling (R := R) (ret a).
Proof. intros self. split; [apply logged_refl | reflexivity]. Qed.

Lemma compiling_throw {A : Type} (e : exception) :
  compiling (R := R) (throw (A := A) e).
Proof. intros self. split; [apply logged_refl | reflexivity]. Qed.

Lemma compiling_call {A : Type} (r : result A) : compiling (R := R) (call r).
Proof. intros self. split; [apply logged_refl | reflexivity]. Qed.

Lemma compiling_QL_FAIL {A : Type} (msg : string) :
  compiling (R := R) (QL_FAIL (A := A) msg).
Proof. apply compiling_throw. Qed.

Lemma compiling_bind {A B : Type} (m : M R A) (f : A -> M R B) :
  compiling m -> (forall a, compiling (f a)) -> compiling (bind m f).
Proof.
  intros Hm Hf self. unfold bind.
  destruct (Hm self) as [Hlog Hst].
  destruct (m self) as [[a|e] self1] eqn:Hrun; simpl in *.
  - destruct (Hf a self1) as [Hlog' Hst']. split.
    + eapply logged_trans; eauto.
    + intros other Ho. specialize (Hst other Ho).
      destruct (Hm other) as [Hlo _].
      destruct (m other) as [r other1]; simpl in *. subst r.
      apply Hst'. destruct Hlo as (-> & _). destruct Hlog as (-> & _). exact Ho.
  - split; [exact Hlog|].
    intros other Ho. specialize (Hst other Ho).
    destruct (m other) as [r other1]; simpl in *. now subst r.
Qed.

Lemma compiling_try {A : Type} (m : M R A) :
  compiling m -> compiling (try_block m).
Proof.
  intros Hm self. unfold try_block. destruct (Hm self) as [Hlog Hst].
  destruct (m self) as [r self1] eqn:Hrun; simpl in *. split; [exact Hlog|].
  intros other Ho. specialize (Hst other Ho).
  destruct (m other) as [r' other1]; simpl in *. now subst.
Qed.

Lemma compiling_push (msg : string) : compiling (scriptLog_push_back (R := R) msg).
Proof.
  intros self. split; [|reflexivity].
  repeat split. now exists [msg].
Qed.

Lemma compiling_find (name : string) : compiling (payoffs_find (R := R) name).
Proof.
  intros self. split; [apply logged_refl|].
  intros other Ho. unfold payoffs_find. simpl. now rewrite Ho.
Qed.

Lemma compiling_if {A : Type} (b : bool) (m1 m2 : M R A) :
  compiling m1 -> compiling m2 -> compiling (if b then m1 else m2).
Proof. now destruct b. Qed.

Create HintDb compiling.
#[local] Hint Resolve compiling_ret compiling_throw compiling_call
  compiling_QL_FAIL compiling_try compiling_push compiling_find : compiling.

Lemma compiling_Cannot_interprete {A : Type} :
  compiling (Cannot_interprete (R := R) (A := A)).
Proof. apply compiling_throw. Qed.

#[local] Hint Resolve compiling_Cannot_interprete : compiling.

Ltac compiling_step :=
  first
    [ solve [auto with compiling]
    | apply compiling_bind; [|intros ?]
    | apply compiling_if
    | match goal with
      | |- compiling (match ?x with _ => _ end) => destruct x
      end ].

Ltac solve_compiling := repeat compiling_step.

Lemma compiling_hasChilds tree (nArgs k : nat) : compiling (hasChilds (R := R) tree nArgs k).
Proof. unfold hasChilds. solve_compiling. Qed.

Lemma compiling_hasLeafs tree (nArgs k : nat) : compiling (hasLeafs (R := R) tree nArgs k).
Proof. unfold hasLeafs. solve_compiling. Qed.

Lemma compiling_ensure (check : M R bool) : compiling check -> compiling (ensure check).
Proof. intros H. unfold ensure, Cannot_interprete. solve_compiling. Qed.

Lemma compiling_empty_tree {A : Type} k : compiling (empty_tree (R := R) (A := A) k).
Proof. unfold empty_tree, Cannot_interprete. solve_compiling. Qed.

Lemma compiling_cannot_convert {A : Type} (leaf : string) k :
  compiling (cannot_convert (R := R) (A := A) leaf k).
Proof. unfold cannot_convert, Cannot_interprete. solve_compiling. Qed.

#[local] Hint Resolve compiling_hasChilds compiling_hasLeafs compiling_ensure
  compiling_empty_tree compiling_cannot_convert : compiling.

Lemma compiling_arguments2 {A B : Type} (a : M R A) (b : M R B) :
  compiling a -> compiling b -> compiling (arguments2 a b).
Proof. intros Ha Hb. unfold arguments2. solve_compiling. Qed.

Lemma compiling_arguments3 {A B C : Type} (a : M R A) (b : M R B) (c : M R C) :
  compiling a -> compiling b -> compiling c -> compiling (arguments3 a b c).
Proof. intros Ha Hb Hc. unfold arguments3. solve_compiling. Qed.

Lemma compiling_nth {A B : Type} (f : A -> M R B) (l : list A) (d : M R B) (i : nat) :
  Forall (fun a => compiling (f a)) l -> compiling d ->
  compiling (nth i (map f l) d).
Proof.
  intros Hl Hd. revert i.
  induction Hl as [|a l Ha Hl IH]; intros [|i]; simpl; auto.
Qed.

(** The expression compiler leaves the symbol table alone, appends to
    the log, and its outcome is a function of the symbol table. *)
Lemma compiling_payoff_node (t : Expression) k : compiling (payoff_node t k).
Proof.
  induction t as [ty cs ls IH] using Expression_nested_ind.
  assert (Hchild : forall i,
             compiling
               (nth i
                    (map (fun c : option Expression =>
                            match c with
                            | Some t' => payoff_node t' k
                            | None => empty_tree k
                            end) cs)
                    (empty_tree k))).
  { intros i. apply compiling_nth; [|auto with compiling].
    eapply Forall_impl; [|exact IH].
    intros [e|] He; [exact He | auto with compiling]. }
  destruct ty; cbn [payoff_node]; unfold Cannot_interprete;
    repeat first
      [ apply compiling_arguments2
      | apply compiling_arguments3
      | apply Hchild
      | compiling_step ].
Qed.

Lemma compiling_payoff (tree : option Expression) k : compiling (payoff tree k).
Proof.
  destruct tree; simpl; [apply compiling_payoff_node | auto with compiling].
Qed.

(** ** What a computation returns *)

Lemma bind_value {A B : Type} (m : M R A) (f : A -> M R B) self (a : A) :
  compiling m -> (forall a', compiling (f a')) ->
  fst (m self) = Return a ->
  fst (bind m f self) = fst (f a self).
Proof.
  intros Hm Hf Ha. unfold bind.
  destruct (Hm self) as [(Hp & _) _].
  destruct (m self) as [r self1]; simpl in *. subst r.
  now apply (Hf a self).
Qed.

Lemma arguments2_value {A B : Type} (a : M R A) (b : M R B) self (x : A) (y : B) :
  compiling a -> compiling b ->
  fst (a self) = Return x -> fst (b self) = Return y ->
  fst (arguments2 a b self) = Return (x, y).
Proof.
  intros Ha Hb Hx Hy. unfold arguments2. destruct argument_order.
  - rewrite (bind_value _ _ (a := x)); auto.
    + rewrite (bind_value _ _ (a := y)); auto with compiling.
    + intros; solve_compiling.
  - rewrite (bind_value _ _ (a := y)); auto.
    + rewrite (bind_value _ _ (a := x)); auto with compiling.
    + intros; solve_compiling.
Qed.

(** C7. In the expression compiler, a unary-minus node with one child
    and no leaf compiles to [Axpy(-1.0, child, 0)]: the child scaled by
    -1, with the null pointer for the offset; a minus node with two
    children and no leaf compiles to [Axpy(-1.0, child1, child0)], that
    is child0 minus child1; a plus node compiles to
    [Axpy(1.0, child0, child1)]; and a unary-plus node is compiled as
    its child is. *)
Theorem C7_operators_compile_to_linear_combinations
        k self (c c0 c1 : option Expression) (x x0 x1 : shared_ptr R) :
  fst (payoff c k self) = Return x ->
  fst (payoff c0 k self) = Return x0 ->
  fst (payoff c1 k self) = Return x1 ->
  fst (payoff (Some (Expr UNARYMINUS [c] [])) k self)
    = Return (Some (Axpy (of_int (-1)) x None)) /\
  fst (payoff (Some (Expr MINUS [c0; c1] [])) k self)
    = Return (Some (Axpy (of_int (-1)) x1 x0)) /\
  fst (payoff (Some (Expr PLUS [c0; c1] [])) k self)
    = Return (Some (Axpy (of_int 1) x0 x1)) /\
  payoff (Some (Expr UNARYPLUS [c] [])) k self = payoff c k self.
Proof.
  intros Hx Hx0 Hx1.
  assert (H2 : forall a b xa xb,
             fst (payoff a k self) = Return xa ->
             fst (payoff b k self) = Return xb ->
             fst (arguments2 (payoff a k) (payoff b k) self) = Return (xa, xb)).
  { intros. apply arguments2_value; auto using compiling_payoff. }
  repeat split.
  - change (fst (bind (payoff c k)
                      (fun x => ret (Some (Axpy (of_int (-1)) x None))) self)
            = Return (Some (Axpy (of_int (-1)) x None))).
    rewrite (bind_value _ _ (a := x)); auto using compiling_payoff.
    intros; solve_compiling.
  - change (fst (bind (arguments2 (payoff c1 k) (payoff c0 k))
                      (fun xy => ret (Some (Axpy (of_int (-1)) (fst xy) (snd xy))))
                      self)
            = Return (Some (Axpy (of_int (-1)) x1 x0))).
    rewrite (bind_value _ _ (a := (x1, x0))); auto.
    + apply compiling_arguments2; apply compiling_payoff.
    + intros; solve_compiling.
  - change (fst (bind (arguments2 (payoff c0 k) (payoff c1 k))
                      (fun xy => ret (Some (Axpy (of_int 1) (fst xy) (snd xy))))
                      self)
            = Return (Some (Axpy (of_int 1) x0 x1))).
    rewrite (bind_value _ _ (a := (x0, x1))); auto.
    + apply compiling_arguments2; apply compiling_payoff.
    + intros; solve_compiling.
Qed.

(** ** Number literals *)

Lemma to_Number_strtod (str : string) (v : Cxx.strtod_value) (sz : nat) :
  Cxx.strtod str = Some (v, sz) -> to_Number str = of_strtod v.
Proof.
  intros H. unfold to_Number, stod. rewrite H. now destruct (of_strtod v).
Qed.

Lemma payoff_NUMBER (leaf : string) k self :
  payoff (Some (Expr NUMBER [] [leaf])) k self =
  match to_Number leaf with
  | Some number => (Return (Some (FixedAmount number)), self)
  | None => cannot_convert leaf k self
  end.
Proof.
  change (payoff (Some (Expr NUMBER [] [leaf])) k self)
    with (match to_Number leaf with
          | Some number => ret (Some (FixedAmount number))
          | None => cannot_convert leaf k
          end self).
  now destruct (to_Number leaf).
Qed.

Lemma to_Number_digits (digits tail : string) :
  digits <> EmptyString ->
  all_digits digits = true ->
  ends_number tail = true ->
  to_Number (digits ++ tail) = to_Number digits.
Proof.
  intros Hne Hd Ht.
  rewrite (to_Number_strtod _ (CxxFacts.strtod_digits tail Hne Hd Ht)).
  pose proof (CxxFacts.strtod_digits EmptyString Hne Hd eq_refl) as H.
  assert (Hnil : (digits ++ "")%string = digits).
  { clear. induction digits as [|c d IH]; simpl; [reflexivity | now rewrite IH]. }
  rewrite Hnil in H.
  now rewrite (to_Number_strtod _ H).
Qed.

(** C10, amended. Numeric-literal conversion succeeds on any string
    whose prefix parses as a floating-point number that [std::stod]
    converts without a range error, and ignores the characters after
    that prefix.  After white space and a sign, a text that starts
    with a digit, with a point and a digit, or with one of the words
    inf and nan is read by [strtod], however it goes on, and
    [to_Number] gives the number read, unless the rounding of that
    number reports a range error.  A decimal constant -- digits, an
    optional point, an optional exponent -- followed by something that
    does not continue it converts to the number it denotes, as if the
    rest were not there: [strtod] counts the characters of the
    constant only, and [to_Number] does not look at the count.  A number literal compiles to the constant
    payoff of the number converted, and is refused with "cannot
    convert ... to number" when the conversion fails.  The text "5abc"
    converts to the number that 5 rounds to, and the number literal
    "5abc" compiles to the constant payoff of that number. *)
Theorem C10_to_Number_reads_a_numeric_prefix :
  (forall ws sg rest : string,
      blank ws = true -> is_sign sg = true -> starts_number rest = true ->
      exists v sz,
        Cxx.strtod (ws ++ sg ++ rest) = Some (v, sz) /\
        to_Number (ws ++ sg ++ rest) = of_strtod v) /\
  (forall (c : Constant.t) (tail : string),
      Constant.well_formed c = true -> ends_number tail = true ->
      Cxx.strtod (Constant.text c ++ tail)
      = Some (Constant.value c, String.length (Constant.text c)) /\
      to_Number (Constant.text c ++ tail) = of_strtod (Constant.value c)) /\
  (forall (leaf : string) k self,
      payoff (Some (Expr NUMBER [] [leaf])) k self
      = match to_Number leaf with
        | Some x => (Return (Some (FixedAmount x)), self)
        | None =>
            (Throw (QL_Error "Cannot interprete payoff"),
             snd (scriptLog_push_back
                    (Error_line k ("cannot convert " ++ leaf ++ " to number."))
                    self))
        end) /\
  (forall x : R,
      of_strtod (Cxx.Decimal false 5 0) = Some x ->
      to_Number "5abc" = Some x /\
      forall k self,
        payoff (Some (Expr NUMBER [] ["5abc"])) k self
        = (Return (Some (FixedAmount x)), self)).
Proof.
  split; [|split; [|split]].
  - intros ws sg rest Hb Hs Hn.
    destruct (NumberFacts.strtod_number _ _ _ Hb Hs Hn) as (v & sz & Hv).
    exists v, sz. split; [exact Hv|]. exact (to_Number_strtod _ Hv).
  - intros c tail Hwf Ht.
    pose proof (ConstantFacts.strtod_constant c tail Hwf Ht) as Hv.
    split; [exact Hv | exact (to_Number_strtod _ Hv)].
  - intros leaf k self. rewrite payoff_NUMBER. now destruct (to_Number leaf).
  - intros x Hx.
    assert (H5 : to_Number "5abc" = Some x).
    { rewrite <- Hx. apply to_Number_strtod with (sz := 1). reflexivity. }
    split; [exact H5|]. intros k self. now rewrite payoff_NUMBER, H5.
Qed.

(** ** Date tokens *)

Lemma month_of_string_names (s : string) :
  month_of_string s <> None <->
  In s ["Jan"; "Feb"; "Mar"; "Apr"; "May"; "Jun";
        "Jul"; "Aug"; "Sep"; "Oct"; "Nov"; "Dec"].
Proof.
  unfold month_of_string. simpl.
  repeat match goal with
         | |- context [String.eqb s ?m] =>
             destruct (String.eqb_spec s m) as [->|?];
             [split; [intros _; tauto | intros _; discriminate]|]
         end.
  split; [congruence|].
  intros H. repeat (destruct H as [H|H]; [congruence|]). contradiction.
Qed.

Lemma substring_length (n m : nat) (str : string) :
  String.length (substring n m str) <= m.
Proof.
  revert n m. induction str as [|c str IH]; intros [|n] [|m]; simpl;
    try lia.
  - specialize (IH 0 m). lia.
  - apply (IH n 0).
  - apply (IH n (S m)).
Qed.

(** The day and the year of a date token are too short for [std::stol]
    to throw [std::out_of_range]. *)
Lemma stol_date_field (n m : nat) (str : string) (e : exception) :
  m <= 9 ->
  Cxx.stol long_extra_bits (substring n m str) = Throw e ->
  e = invalid_argument "stol".
Proof.
  intros Hm. rewrite CxxFacts.stol_short
    by (pose proof (substring_length n m str); lia).
  destruct (Cxx.scan_sign (Cxx.skip_space (substring n m str))) as [neg s'].
  destruct (Cxx.scan_digits 0 s') as [[v k] rest].
  destruct k; [now intros [= <-] | discriminate].
Qed.

(** What [date_to_Number] does: it succeeds exactly on the strings of
    length 9 for which [std::stol] converts characters 0-1 and
    characters 5-8, characters 2-4 are one of the abbreviations
    Jan..Dec, and the [Date] constructor accepts the day, month and
    year read.  No exception reaches the caller, since the [catch]
    clause takes every [std::exception]. *)
Lemma date_to_Number_converts (str : string) (x : R) :
  date_to_Number str = Some x <->
  String.length str = 9 /\
  exists day sz1 year sz2 month d,
    Cxx.stol long_extra_bits (substring 0 2 str) = Return (day, sz1) /\
    Cxx.stol long_extra_bits (substring 5 4 str) = Return (year, sz2) /\
    month_of_string (substring 2 3 str) = Some month /\
    Date_ctor day month year = Return d /\
    x = div (of_int (serialNumber d - serialNumber evaluationDate))
            (of_int 365).
Proof.
  unfold date_to_Number, date_to_Number_try, rbind.
  destruct (Nat.eqb_spec (String.length str) 9) as [Hlen|Hlen]; simpl.
  - split.
    + intros H. split; [exact Hlen|].
      destruct (Cxx.stol long_extra_bits (substring 0 2 str))
        as [[day sz1]|] eqn:Hday; [|discriminate].
      destruct (Cxx.stol long_extra_bits (substring 5 4 str))
        as [[year sz2]|] eqn:Hyear; [|discriminate].
      destruct (month_of_string (substring 2 3 str)) as [month|] eqn:Hmonth;
        [|discriminate].
      simpl in H.
      destruct (Date_ctor day month year) as [d|] eqn:Hd; [|discriminate].
      injection H as <-.
      exists day, sz1, year, sz2, month, d. repeat split; assumption.
    + intros (_ & day & sz1 & year & sz2 & month & d & Hday & Hyear & Hmonth & Hd & ->).
      rewrite Hday, Hyear, Hmonth. simpl. now rewrite Hd.
  - split; [discriminate|]. intros (H & _). contradiction.
Qed.

(** C5. The code breaks the claim on the token "1xJan2020", whose day
    is not a number: [std::stol] reads the 1, stops at the x and
    reports in [sz] that one character was converted;
    [date_to_Number] never looks at [sz], and the token converts as
    "01Jan2020" does, to (serial number of 1 January 2020 - serial
    number of the evaluation date) / 365.0, where the claim has it
    report failure. *)
Theorem C5_date_to_Number_accepts_a_malformed_day (d : Date) :
  Date_ctor 1 Jan 2020 = Return d ->
  all_digits (substring 0 2 "1xJan2020") = false /\
  Cxx.stol long_extra_bits (substring 0 2 "1xJan2020") = Return (1%Z, 1) /\
  date_to_Number "1xJan2020"
  = Some (div (of_int (serialNumber d - serialNumber evaluationDate))
              (of_int 365)) /\
  date_to_Number "01Jan2020" = date_to_Number "1xJan2020".
Proof.
  intros Hd.
  assert (Hday : Cxx.stol long_extra_bits "1x" = Return (1%Z, 1)).
  { rewrite CxxFacts.stol_short by (simpl; lia). reflexivity. }
  assert (Hday' : Cxx.stol long_extra_bits "01" = Return (1%Z, 2)).
  { rewrite CxxFacts.stol_short by (simpl; lia). reflexivity. }
  assert (Hyear : Cxx.stol long_extra_bits "2020" = Return (2020%Z, 4)).
  { rewrite CxxFacts.stol_short by (simpl; lia). reflexivity. }
  split; [reflexivity|]. split; [exact Hday|].
  unfold date_to_Number, date_to_Number_try.
  change (substring 0 2 "1xJan2020") with "1x".
  change (substring 0 2 "01Jan2020") with "01".
  change (substring 5 4 "1xJan2020") with "2020".
  change (substring 5 4 "01Jan2020") with "2020".
  rewrite Hday, Hday', Hyear. cbn. rewrite Hd. split; reflexivity.
Qed.

(** ** Monte-Carlo valuation *)

Lemma findPayoffs_from_missing self (keys : list string) (key : string)
      (acc : list (MCPayoffT R)) :
  In key keys -> StdMap.find key (payoffs_ self) = None ->
  exists e, findPayoffs_from self keys true acc = Throw e.
Proof.
  revert acc. induction keys as [|key0 keys IH]; intros acc; [contradiction|].
  intros [->|Hin] Hnone; simpl.
  - rewrite Hnone. eauto.
  - destruct (StdMap.find key0 (payoffs_ self)); eauto.
Qed.

Lemma findPayoffs_from_found self (keys : list string)
      (payoffs acc : list (MCPayoffT R)) :
  Forall2 (fun key p => StdMap.find key (payoffs_ self) = Some p) keys payoffs ->
  findPayoffs_from self keys true acc = Return (acc ++ payoffs).
Proof.
  intros H. revert acc.
  induction H as [|key p keys payoffs Hkey _ IH]; intros acc; simpl.
  - now rewrite app_nil_r.
  - rewrite Hkey, IH, <- app_assoc. reflexivity.
Qed.

Lemma over_paths_nil (simulation : SimulationType) (n count : nat)
      (fetched : list nat) :
  over_paths simulation [] n count [] fetched = ([], fetched ++ seq n count).
Proof.
  revert n fetched. induction count as [|count IH]; intros n fetched; simpl.
  - now rewrite app_nil_r.
  - rewrite IH, <- app_assoc. reflexivity.
Qed.

Lemma over_paths_cons (simulation : SimulationType) (q : MCPayoffT R)
      (payoffs : list (MCPayoffT R)) (n count : nat) (x : R) (npv : list R)
      (fetched : list nat) :
  over_paths simulation (q :: payoffs) n count (x :: npv) fetched =
  (fold_left add
     (map (fun j => discountedAt q (path simulation j)) (seq n count)) x
     :: fst (over_paths simulation payoffs n count npv fetched),
   snd (over_paths simulation payoffs n count npv fetched)).
Proof.
  revert n x npv fetched.
  induction count as [|count IH]; intros n x npv fetched; simpl.
  - reflexivity.
  - now rewrite IH.
Qed.

Lemma over_paths_sums (simulation : SimulationType)
      (payoffs : list (MCPayoffT R)) (count : nat) :
  over_paths simulation payoffs 0 count
             (repeat (of_int 0) (List.length payoffs)) [] =
  (map (fun q =>
          fold_left add
            (map (fun j => discountedAt q (path simulation j)) (seq 0 count))
            (of_int 0)) payoffs,
   seq 0 count).
Proof.
  induction payoffs as [|q payoffs IH].
  - apply over_paths_nil.
  - cbn [List.length repeat map]. rewrite over_paths_cons, IH. reflexivity.
Qed.

(** C6. [NPV] looks every requested name up in the symbol table
    before it fetches a path from the simulation.  If a name is absent
    it throws: no path has been fetched and no value is returned.  If
    every name is bound, it fetches the paths [0 .. nPaths-1] in order
    and returns, for each name, the sum of the discounted values of
    its payoff over these paths divided by the number of paths. *)
Theorem C6_NPV_resolves_names_then_averages
        self (simulation : SimulationType) (keys : list string) :
  (forall key,
      In key keys -> StdMap.find key (payoffs_ self) = None ->
      exists e, NPV self simulation keys = (Throw e, [])) /\
  (forall payoffs,
      Forall2 (fun key p => StdMap.find key (payoffs_ self) = Some p)
              keys payoffs ->
      NPV self simulation keys =
      (Return (map (average simulation) payoffs),
       seq 0 (nPaths simulation))).
Proof.
  split.
  - intros key Hin Hnone. unfold NPV, findPayoffs.
    destruct (findPayoffs_from_missing self keys key [] Hin Hnone) as [e ->].
    now exists e.
  - intros payoffs Hall. unfold NPV, findPayoffs.
    rewrite (findPayoffs_from_found _ [] Hall). cbn [app].
    rewrite over_paths_sums. rewrite map_map. reflexivity.
Qed.

(** ** Computations that return, and keep the table ordered *)

Lemma grows_refl self : grows self self.
Proof. split; [auto | exists []; now rewrite app_nil_r]. Qed.

Lemma grows_trans self1 self2 self3 :
  grows self1 self2 -> grows self2 self3 -> grows self1 self3.
Proof.
  intros (Ho & a1 & Hl) (Ho' & a2 & Hl'). split; [auto|].
  exists (a1 ++ a2). now rewrite Hl', Hl, app_assoc.
Qed.

Lemma logged_grows self self' : logged self self' -> grows self self'.
Proof.
  intros (Hp & _ & _ & _ & Hl). split; [now rewrite Hp | exact Hl].
Qed.

Lemma compiling_advancing {A : Type} (m : M R A) : compiling m -> advancing m.
Proof. intros H self. apply logged_grows, H. Qed.

Lemma advancing_bind {A B : Type} (m : M R A) (f : A -> M R B) :
  advancing m -> (forall a, advancing (f a)) -> advancing (bind m f).
Proof.
  intros Hm Hf self. unfold bind. specialize (Hm self).
  destruct (m self) as [[a|e] self1]; simpl in *; [|exact Hm].
  eapply grows_trans; [exact Hm | apply Hf].
Qed.

Lemma advancing_try {A : Type} (m : M R A) :
  advancing m -> advancing (try_block m).
Proof.
  intros Hm self. unfold try_block. specialize (Hm self).
  now destruct (m self).
Qed.

Lemma advancing_expressions_push_back (e : string) :
  advancing (expressions_push_back (R := R) e).
Proof.
  intros self. split; simpl; [auto | exists []; now rewrite app_nil_r].
Qed.

Lemma advancing_insert (name : string) (p : MCPayoffT R) :
  advancing (payoffs_insert name p).
Proof.
  intros self. split; simpl.
  - apply StdMapFacts.ordered_insert.
  - exists []. now rewrite app_nil_r.
Qed.

Lemma advancing_assign (name : string) (p : MCPayoffT R) :
  advancing (payoffs_assign name p).
Proof.
  intros self. split; simpl.
  - apply StdMapFacts.ordered_assign.
  - exists []. now rewrite app_nil_r.
Qed.

Lemma advancing_set_result (p : shared_ptr R) : advancing (set_result p).
Proof.
  intros self. split; simpl; [auto | exists []; now rewrite app_nil_r].
Qed.

Lemma advancing_set_observationTime (t : R) : advancing (set_observationTime t).
Proof.
  intros self. split; simpl; [auto | exists []; now rewrite app_nil_r].
Qed.

Lemma total_ret {A : Type} (a : A) : total (R := R) (ret a).
Proof. intros self. now exists a. Qed.

Lemma total_bind {A B : Type} (m : M R A) (f : A -> M R B) :
  total m -> (forall a, total (f a)) -> total (bind m f).
Proof.
  intros Hm Hf self. unfold bind. destruct (Hm self) as [a Ha].
  destruct (m self) as [r self1]; simpl in *. subst r. apply Hf.
Qed.

Lemma total_try {A : Type} (m : M R A) : total (try_block m).
Proof.
  intros self. unfold try_block. destruct (m self) as [r self1]. now exists r.
Qed.

Lemma total_push (msg : string) : total (scriptLog_push_back (R := R) msg).
Proof. intros self. now exists tt. Qed.

Lemma total_expressions_push_back (e : string) :
  total (expressions_push_back (R := R) e).
Proof. intros self. now exists tt. Qed.

Lemma total_find (name : string) : total (payoffs_find (R := R) name).
Proof. intros self. eexists. reflexivity. Qed.

Lemma total_insert (name : string) (p : MCPayoffT R) : total (payoffs_insert name p).
Proof. intros self. now exists tt. Qed.

Lemma total_assign (name : string) (p : MCPayoffT R) : total (payoffs_assign name p).
Proof. intros self. now exists tt. Qed.

Lemma total_unit (m : M R unit) self : total m -> fst (m self) = Return tt.
Proof. intros H. destruct (H self) as [[] Ha]. exact Ha. Qed.

Create HintDb advancing.
Create HintDb total.
#[local] Hint Resolve compiling_advancing compiling_payoff
  advancing_try advancing_expressions_push_back advancing_insert
  advancing_assign advancing_set_result advancing_set_observationTime
  : advancing.
#[local] Hint Resolve total_ret total_try total_push
  total_expressions_push_back total_find total_insert total_assign : total.

Ltac advancing_step :=
  first
    [ solve [auto with advancing compiling]
    | apply advancing_bind; [|intros ?]
    | match goal with
      | |- advancing (if ?b then _ else _) => destruct b
      | |- advancing (match ?x with _ => _ end) => destruct x
      end ].

Ltac total_step :=
  first
    [ solve [auto with total]
    | apply total_bind; [|intros ?]
    | match goal with
      | |- total (if ?b then _ else _) => destruct b
      | |- total (match ?x with _ => _ end) => destruct x
      end ].

Lemma total_hasChilds tree (nArgs k : nat) : total (hasChilds (R := R) tree nArgs k).
Proof. unfold hasChilds. repeat total_step. Qed.

Lemma total_hasLeafs tree (nArgs k : nat) : total (hasLeafs (R := R) tree nArgs k).
Proof. unfold hasLeafs. repeat total_step. Qed.

#[local] Hint Resolve total_hasChilds total_hasLeafs : total.

Lemma advancing_store_FlexBison (overwrite : bool) k (text var : string)
      (p : MCPayoffT R) : advancing (store_FlexBison overwrite k text var p).
Proof. unfold store_FlexBison. repeat advancing_step. Qed.

Lemma total_store_FlexBison (overwrite : bool) k (text var : string)
      (p : MCPayoffT R) : total (store_FlexBison overwrite k text var p).
Proof. unfold store_FlexBison. repeat total_step. Qed.

#[local] Hint Resolve advancing_store_FlexBison : advancing.
#[local] Hint Resolve total_store_FlexBison : total.

(** A line of the primary grammar never throws: the only exceptions
    are those of the expression compiler, and they are caught. *)
Lemma total_parseFlexBisonLine (overwrite : bool) k (line : string) :
  total (parseFlexBisonLine overwrite k line).
Proof. unfold parseFlexBisonLine. repeat total_step. Qed.

Lemma advancing_parseFlexBisonLine (overwrite : bool) k (line : string) :
  advancing (parseFlexBisonLine overwrite k line).
Proof. unfold parseFlexBisonLine. repeat advancing_step. Qed.

Lemma total_for_each_line (body : nat -> string -> M R unit) :
  (forall k line, total (body k line)) ->
  forall script k, total (for_each_line body k script).
Proof.
  intros Hb script. induction script as [|line script IH]; intros k; simpl.
  - apply total_ret.
  - apply total_bind; auto.
Qed.

Lemma advancing_for_each_line (body : nat -> string -> M R unit) :
  (forall k line, advancing (body k line)) ->
  forall script k, advancing (for_each_line body k script).
Proof.
  intros Hb script. induction script as [|line script IH]; intros k; simpl.
  - intros self. apply grows_refl.
  - apply advancing_bind; auto.
Qed.

(** The loop over the lines, cut at a line. *)
Lemma for_each_line_app (body : nat -> string -> M R unit)
      (before after : list string) k self :
  (forall k' line, total (body k' line)) ->
  for_each_line body k (before ++ after) self =
  for_each_line body (k + List.length before) after
                (snd (for_each_line body k before self)).
Proof.
  intros Hb. revert k self.
  induction before as [|line before IH]; intros k self; simpl.
  - now rewrite Nat.add_0_r.
  - unfold bind.
    pose proof (total_unit self (Hb k line)) as Hline.
    destruct (body k line self) as [r self1]; simpl in *. subst r.
    rewrite IH. now rewrite Nat.add_succ_r.
Qed.

(** ** The lines of the primary grammar *)

(** What the loop body does on a line that parses to an assignment
    with one child and one leaf. *)
Lemma parseFlexBisonLine_assignment (overwrite : bool) k (line : string) self
      (rhs : option Expression) (name : string) :
  returnValue (FlexBisonDriver line) = 0%Z ->
  expressionTree (FlexBisonDriver line) = Some (Expr ASSIGNMENT [rhs] [name]) ->
  parseFlexBisonLine overwrite k line self =
  let self1 :=
    snd (expressions_push_back
           ("L" ++ Cxx.to_string k ++ ":"
              ++ toString (Expr ASSIGNMENT [rhs] [name])) self) in
  match payoff rhs k self1 with
  | (Throw e, self2) =>
      scriptLog_push_back
        (Error_line k ("Exception caught: " ++ sliced_what)) self2
  | (Return None, self2) =>
      scriptLog_push_back (Error_line k "No payoff found.") self2
  | (Return (Some p), self2) =>
      if String.eqb name "" then
        scriptLog_push_back
          (Error_line k "Non-empty identifier expected.") self2
      else store_FlexBison overwrite k line name p self2
  end.
Proof.
  intros Hrv Htree. unfold parseFlexBisonLine. rewrite Hrv, Htree.
  cbn -[payoff store_FlexBison String.append Cxx.to_string].
  unfold bind, try_block.
  destruct (payoff rhs k _) as [[[p|]|e] self2]; try reflexivity.
  now destruct (String.eqb name "").
Qed.

Lemma payoff_after_expression (e : string) (rhs : option Expression) k self :
  fst (payoff rhs k (snd (expressions_push_back e self)))
  = fst (payoff rhs k self) /\
  payoffs_ (snd (payoff rhs k (snd (expressions_push_back e self))))
  = payoffs_ self /\
  exists added,
    scriptLog_ (snd (payoff rhs k (snd (expressions_push_back e self))))
    = scriptLog_ self ++ added.
Proof.
  destruct (compiling_payoff rhs k self) as [_ Hst].
  destruct (compiling_payoff rhs k (snd (expressions_push_back e self)))
    as [(Hp & _ & _ & _ & Hl) _].
  repeat split.
  - apply Hst. reflexivity.
  - rewrite Hp. reflexivity.
  - exact Hl.
Qed.

(** The outcome of compiling the right-hand side, seen from the loop
    body. *)
Ltac compile_rhs rhs k self name Hc :=
  let Hv := fresh "Hv" in
  let Hp := fresh "Hp" in
  let Hl := fresh "Hl" in
  let added := fresh "added" in
  let r := fresh "r" in
  let self2 := fresh "self2" in
  destruct (payoff_after_expression
              ("L" ++ Cxx.to_string k ++ ":"
                 ++ toString (Expr ASSIGNMENT [rhs] [name])) rhs k self)
    as (Hv & Hp & added & Hl);
  rewrite Hc in Hv;
  destruct (payoff rhs k
              (snd (expressions_push_back
                      ("L" ++ Cxx.to_string k ++ ":"
                         ++ toString (Expr ASSIGNMENT [rhs] [name])) self)))
    as [r self2];
  cbn [fst snd] in Hv, Hp, Hl; subst r.

Lemma stage_failure_logged (overwrite : bool) k (line : string) self :
  stage_failure overwrite k line self ->
  payoffs_ (snd (parseFlexBisonLine overwrite k line self)) = payoffs_ self /\
  exists added reason,
    scriptLog_ (snd (parseFlexBisonLine overwrite k line self))
    = scriptLog_ self ++ added ++ [Error_line k reason].
Proof.
  intros Hfail.
  destruct Hfail as [Hrv | Hrv Htree | t Hrv Htree Hty | t Hrv Htree Hty Har
                     | rhs name e Hrv Htree Hc | rhs name Hrv Htree Hc
                     | rhs p Hrv Htree Hc | rhs name p old Hrv Htree Hc Hne Hold ->].
  - unfold parseFlexBisonLine.
    apply Z.eqb_neq in Hrv. rewrite Hrv.
    destruct (expressionTree (FlexBisonDriver line)); simpl;
      (split; [reflexivity|]); exists [], (errorMsg (FlexBisonDriver line));
      reflexivity.
  - unfold parseFlexBisonLine. rewrite Hrv, Htree. simpl.
    split; [reflexivity|]. exists [], "Empty expression tree.". reflexivity.
  - unfold parseFlexBisonLine. rewrite Hrv, Htree, Hty. simpl.
    split; [reflexivity|]. exists [], "Assignment expected.". reflexivity.
  - unfold parseFlexBisonLine. rewrite Hrv, Htree, Hty.
    cbn -[payoff store_FlexBison String.append Cxx.to_string Nat.eqb].
    unfold hasChilds, hasLeafs.
    destruct (Nat.eqb_spec (List.length (childs t)) 1) as [Hc1|Hc1].
    + destruct (Nat.eqb_spec (List.length (leafs t)) 1) as [Hl1|Hl1];
        [destruct Har; contradiction|].
      simpl. split; [reflexivity|].
      exists [], (Cxx.to_string 1 ++ " leafs expected, but "
                    ++ Cxx.to_string (List.length (childs t)) ++ " found.")%string.
      reflexivity.
    + simpl. split; [reflexivity|].
      exists [], (Cxx.to_string 1 ++ " child expressions expected, but "
                    ++ Cxx.to_string (List.length (childs t)) ++ " found.")%string.
      reflexivity.
  - rewrite (parseFlexBisonLine_assignment _ _ _ _ Hrv Htree). cbv zeta.
    compile_rhs rhs k self name Hc. simpl.
    split; [exact Hp|].
    exists added, ("Exception caught: " ++ sliced_what)%string.
    now rewrite Hl, app_assoc.
  - rewrite (parseFlexBisonLine_assignment _ _ _ _ Hrv Htree). cbv zeta.
    compile_rhs rhs k self name Hc. simpl.
    split; [exact Hp|].
    exists added, "No payoff found.". now rewrite Hl, app_assoc.
  - rewrite (parseFlexBisonLine_assignment _ _ _ _ Hrv Htree). cbv zeta.
    compile_rhs rhs k self EmptyString Hc. simpl.
    split; [exact Hp|].
    exists added, "Non-empty identifier expected.". now rewrite Hl, app_assoc.
  - rewrite (parseFlexBisonLine_assignment _ _ _ _ Hrv Htree). cbv zeta.
    compile_rhs rhs k self name Hc.
    apply String.eqb_neq in Hne. rewrite Hne.
    unfold store_FlexBison, bind, payoffs_find. cbn [fst snd].
    rewrite Hp, Hold. simpl.
    split; [exact Hp|].
    exists added, ("Cannot replace line '" ++ line ++ "'")%string.
    now rewrite Hl, app_assoc.
Qed.

(** The stages are all there is: a line fails at one of them, or it
    reaches the store with a name that is unbound or may be
    overwritten. *)
Lemma line_fails_or_stores (overwrite : bool) k (line : string) self :
  stage_failure overwrite k line self \/
  exists n p,
    compiled_line k line self n p /\
    (StdMap.find n (payoffs_ self) = None \/ overwrite = true).
Proof.
  destruct (Z.eq_dec (returnValue (FlexBisonDriver line)) 0) as [Hrv|Hrv];
    [|left; now apply Parse_failure].
  destruct (expressionTree (FlexBisonDriver line)) as [t|] eqn:Htree;
    [|left; now apply Tree_absent].
  destruct (is_ASSIGNMENT (type t)) eqn:Hty;
    [|left; now apply Not_an_assignment with t].
  destruct t as [ty cs ls]. simpl in Hty.
  destruct ty; try discriminate Hty.
  destruct cs as [|rhs [|c cs]];
    try (left; apply Wrong_arity with (Expr ASSIGNMENT [] ls); auto;
         left; simpl; lia);
    try (left; apply Wrong_arity with (Expr ASSIGNMENT (rhs :: c :: cs) ls);
         auto; left; simpl; lia).
  destruct ls as [|n [|l ls]];
    try (left; apply Wrong_arity with (Expr ASSIGNMENT [rhs] []); auto;
         right; simpl; lia);
    try (left; apply Wrong_arity with (Expr ASSIGNMENT [rhs] (n :: l :: ls));
         auto; right; simpl; lia).
  destruct (fst (payoff rhs k self)) as [[p|]|e] eqn:Hc;
    [| left; now apply Compilation_null with rhs n
     | left; now apply Compilation_throws with rhs n e].
  destruct (String.eqb_spec n EmptyString) as [->|Hne];
    [left; now apply Empty_target_name with rhs p|].
  destruct (StdMap.find n (payoffs_ self)) as [old|] eqn:Hfind.
  - destruct overwrite.
    + right. exists n, p. split; [|now right]. exists rhs. auto.
    + left. now apply Disallowed_overwrite with rhs n p old.
  - right. exists n, p. split; [|now left]. exists rhs. auto.
Qed.

(** C3. Under the primary grammar, a line that fails at any stage
    (the parser reports a failure, the tree is absent, it is not an
    assignment, the assignment has not one child and one leaf, the
    right-hand side does not compile -- an exception or a null payoff
    --, the target name is empty, the name is bound and overwriting is
    disabled) stores nothing and appends a diagnostic "Error line k:"
    with the 0-based index [k] of the line; the loop then goes on with
    the next line, the script is processed to its end without
    throwing, and the diagnostic is in the final log. *)
Theorem C3_failed_lines_are_logged_and_skipped
        (overwrite : bool) (before : list string) (line : string)
        (after : list string) self :
  let k := List.length before in
  let script := before ++ line :: after in
  let s_k := snd (parseFlexBisonScript before overwrite self) in
  let s_k1 := snd (parseFlexBisonLine overwrite k line s_k) in
  stage_failure overwrite k line s_k ->
  (payoffs_ s_k1 = payoffs_ s_k /\
   exists added reason,
     scriptLog_ s_k1 = scriptLog_ s_k ++ added ++ [Error_line k reason]) /\
  parseFlexBisonScript script overwrite self
  = for_each_line (parseFlexBisonLine overwrite) (S k) after s_k1 /\
  fst (parseFlexBisonScript script overwrite self) = Return tt /\
  exists reason,
    In (Error_line k reason)
       (scriptLog_ (snd (parseFlexBisonScript script overwrite self))).
Proof.
  intros k script s_k s_k1 Hfail.
  pose proof (stage_failure_logged Hfail) as Hlogged.
  assert (Hnext : parseFlexBisonScript script overwrite self
                  = for_each_line (parseFlexBisonLine overwrite) (S k) after s_k1).
  { unfold parseFlexBisonScript, script.
    rewrite for_each_line_app by (intros; apply total_parseFlexBisonLine).
    cbn [for_each_line Nat.add]. unfold bind.
    fold (parseFlexBisonScript before overwrite self). fold s_k. fold k.
    pose proof (total_unit s_k (total_parseFlexBisonLine overwrite k line)) as Hret.
    unfold s_k1.
    destruct (parseFlexBisonLine overwrite k line s_k) as [r s]; simpl in *.
    now subst r. }
  repeat split.
  - apply Hlogged.
  - apply Hlogged.
  - exact Hnext.
  - apply total_unit. unfold parseFlexBisonScript.
    apply total_for_each_line. intros; apply total_parseFlexBisonLine.
  - destruct Hlogged as (_ & added & reason & Hlog).
    exists reason. rewrite Hnext.
    destruct (advancing_for_each_line
                (parseFlexBisonLine overwrite)
                (advancing_parseFlexBisonLine overwrite) after (S k) s_k1)
      as (_ & more & Hmore).
    rewrite Hmore. fold s_k1 in Hlog. rewrite Hlog.
    rewrite !in_app_iff. left. right. right. now left.
Qed.

(** C4. For a line of the primary grammar that reaches the store --
    it parses to an assignment to the name [n], which is not empty,
    and its right-hand side compiles to a payoff [p] --: if [n] is
    unbound, [(n, p)] is inserted, every other binding is kept, and
    "Insert line k" is logged; if [n] is bound and overwriting is
    enabled, the binding of [n] is replaced by [p] and "Replace line k"
    is logged; if [n] is bound and overwriting is disabled,
    "Error line k" is logged and the table, hence the payoff bound to
    [n], is unchanged. *)
Theorem C4_store_of_a_compiled_line
        (overwrite : bool) k (line : string) self (n : string)
        (p : MCPayoffT R) :
  compiled_line k line self n p ->
  let self' := snd (parseFlexBisonLine overwrite k line self) in
  let others_kept :=
    forall other, other <> n ->
      StdMap.find other (payoffs_ self') = StdMap.find other (payoffs_ self) in
  match StdMap.find n (payoffs_ self) with
  | None =>
      StdMap.find n (payoffs_ self') = Some p /\ others_kept /\
      exists added,
        scriptLog_ self'
        = scriptLog_ self ++ added
            ++ [("Insert line " ++ Cxx.to_string k ++ ": '" ++ line ++ "'")%string]
  | Some old =>
      if overwrite then
        StdMap.find n (payoffs_ self') = Some p /\ others_kept /\
        exists added,
          scriptLog_ self'
          = scriptLog_ self ++ added
              ++ [("Replace line " ++ Cxx.to_string k ++ ": '" ++ line ++ "'")%string]
      else
        payoffs_ self' = payoffs_ self /\
        StdMap.find n (payoffs_ self') = Some old /\
        exists added,
          scriptLog_ self'
          = scriptLog_ self ++ added
              ++ [Error_line k ("Cannot replace line '" ++ line ++ "'")]
  end.
Proof.
  intros (rhs & Hrv & Htree & Hc & Hne) self' others_kept.
  unfold others_kept, self'. clear others_kept self'.
  rewrite (parseFlexBisonLine_assignment _ _ _ _ Hrv Htree). cbv zeta.
  compile_rhs rhs k self n Hc.
  apply String.eqb_neq in Hne. rewrite Hne.
  unfold store_FlexBison, bind, payoffs_find. cbn [fst snd].
  rewrite Hp.
  destruct (StdMap.find n (payoffs_ self)) as [old|] eqn:Hfind.
  - destruct overwrite; simpl.
    + rewrite Hp. repeat split.
      * rewrite StdMapFacts.find_assign, String.eqb_refl, Hfind. reflexivity.
      * intros other Hother. rewrite StdMapFacts.find_assign.
        apply String.eqb_neq in Hother. now rewrite Hother.
      * exists added. now rewrite Hl, app_assoc.
    + repeat split; [exact Hp | now rewrite Hp |].
      exists added. now rewrite Hl, app_assoc.
  - simpl. rewrite Hp. repeat split.
    + rewrite StdMapFacts.find_insert by exact Hfind.
      now rewrite String.eqb_refl.
    + intros other Hother. rewrite StdMapFacts.find_insert by exact Hfind.
      apply String.eqb_neq in Hother. now rewrite Hother.
    + exists added. now rewrite Hl, app_assoc.
Qed.

(** ** The lines of the legacy grammar *)

Lemma compiling_payoff_string (expr : string) k : compiling (payoff_string expr k).
Proof. unfold payoff_string. solve_compiling. Qed.

Lemma total_payoff_string (expr : string) k : total (payoff_string expr k).
Proof. unfold payoff_string. repeat total_step. Qed.

Lemma compiling_with_operand (operand : string) k
      (cont : MCPayoffT R -> M R (shared_ptr R)) :
  (forall p, compiling (cont p)) -> compiling (with_operand operand k cont).
Proof.
  intros H. unfold with_operand.
  apply compiling_bind; [apply compiling_payoff_string|].
  intros [p|]; [apply H | solve_compiling].
Qed.

Lemma total_with_operand (operand : string) k
      (cont : MCPayoffT R -> M R (shared_ptr R)) :
  (forall p, total (cont p)) -> total (with_operand operand k cont).
Proof.
  intros H. unfold with_operand.
  apply total_bind; [apply total_payoff_string|].
  intros [p|]; [apply H | repeat total_step].
Qed.

Lemma compiling_no_valid_name k (name kind : string) :
  compiling (no_valid_name (R := R) k name kind).
Proof. unfold no_valid_name. solve_compiling. Qed.

Lemma total_no_valid_name k (name kind : string) :
  total (no_valid_name (R := R) k name kind).
Proof. unfold no_valid_name. repeat total_step. Qed.

#[local] Hint Resolve compiling_payoff_string compiling_no_valid_name : compiling.
#[local] Hint Resolve total_payoff_string total_no_valid_name : total.

Ltac legacy_compiling :=
  repeat first
    [ apply compiling_with_operand; intros ?
    | compiling_step ].

Ltac legacy_total :=
  repeat first
    [ apply total_with_operand; intros ?
    | total_step ].

Lemma compiling_compile_expr (expr : string) k : compiling (compile_expr expr k).
Proof.
  unfold compile_expr, operator1, operator2, function1, function2, function3.
  legacy_compiling.
Qed.

Lemma total_compile_expr (expr : string) k : total (compile_expr expr k).
Proof.
  unfold compile_expr, operator1, operator2, function1, function2, function3.
  legacy_total.
Qed.

Lemma advancing_store_legacy (overwrite : bool) k (line var : string)
      (p : MCPayoffT R) : advancing (store_legacy overwrite k line var p).
Proof. unfold store_legacy. repeat advancing_step. Qed.

Lemma total_store_legacy (overwrite : bool) k (line var : string)
      (p : MCPayoffT R) : total (store_legacy overwrite k line var p).
Proof. unfold store_legacy. repeat total_step. Qed.

#[local] Hint Resolve compiling_compile_expr advancing_store_legacy : advancing.
#[local] Hint Resolve total_compile_expr total_store_legacy : total.

(** A line of the legacy grammar never throws either. *)
Lemma total_parseLine (overwrite : bool) k (script_k : string) :
  total (parseLine overwrite k script_k).
Proof. unfold parseLine. repeat total_step. Qed.

Lemma advancing_parseLine (overwrite : bool) k (script_k : string) :
  advancing (parseLine overwrite k script_k).
Proof. unfold parseLine. repeat advancing_step. Qed.

Lemma total_push_all (msgs : list string) : total (scriptLog_push_back_all (R := R) msgs).
Proof. induction msgs; simpl; repeat total_step. Qed.

Lemma advancing_push_all (msgs : list string) :
  advancing (scriptLog_push_back_all (R := R) msgs).
Proof. induction msgs; simpl; repeat advancing_step. Qed.

Lemma total_parse (script : list string) (overwrite : bool) :
  total (parse script overwrite).
Proof.
  unfold parse, parseScript, parseFlexBisonScript.
  destruct (is_NonRecursive script).
  - apply total_bind.
    + apply total_for_each_line. intros; apply total_parseLine.
    + intros _. destruct (List.length script =? 0)%nat;
        [apply total_push_all | apply total_ret].
  - apply total_for_each_line. intros; apply total_parseFlexBisonLine.
Qed.

Lemma advancing_parse (script : list string) (overwrite : bool) :
  advancing (parse script overwrite).
Proof.
  unfold parse, parseScript, parseFlexBisonScript.
  destruct (is_NonRecursive script).
  - apply advancing_bind.
    + apply advancing_for_each_line. intros; apply advancing_parseLine.
    + intros _. destruct (List.length script =? 0)%nat;
        [apply advancing_push_all | auto with advancing compiling].
  - apply advancing_for_each_line. intros; apply advancing_parseFlexBisonLine.
Qed.

(** ** The constructor *)

Lemma advancing_initialize_map (keys : list string)
      (payoffs : list (MCPayoffT R)) (overwrite : bool) :
  advancing (initialize_map keys payoffs overwrite).
Proof.
  revert payoffs.
  induction keys as [|key keys IH]; intros [|p payoffs]; simpl;
    try (intros self; apply grows_refl).
  unfold QL_REQUIRE, QL_FAIL. repeat advancing_step.
Qed.

Lemma initialize_map_log (keys : list string) (payoffs : list (MCPayoffT R))
      (overwrite : bool) self :
  scriptLog_ (snd (initialize_map keys payoffs overwrite self)) = scriptLog_ self.
Proof.
  revert payoffs self.
  induction keys as [|key keys IH]; intros [|p payoffs] self; simpl;
    try reflexivity.
  unfold bind, payoffs_find. cbn [fst snd].
  destruct (StdMap.find key (payoffs_ self)); simpl.
  - destruct overwrite; simpl; [|reflexivity]. now rewrite IH.
  - now rewrite IH.
Qed.

Lemma initialize_map_overwrite (keys : list string)
      (payoffs : list (MCPayoffT R)) self :
  fst (initialize_map keys payoffs true self) = Return tt.
Proof.
  revert payoffs self.
  induction keys as [|key keys IH]; intros [|p payoffs] self; simpl;
    try reflexivity.
  unfold bind, payoffs_find. cbn [fst snd].
  destruct (StdMap.find key (payoffs_ self)); simpl; apply IH.
Qed.

(** Without the permission to overwrite, the initial bindings are
    stored exactly when no name is repeated or already bound. *)
Lemma initialize_map_returns (keys : list string)
      (payoffs : list (MCPayoffT R)) self :
  List.length keys = List.length payoffs ->
  fst (initialize_map keys payoffs false self) = Return tt <->
  NoDup keys /\
  forall key, In key keys -> StdMap.find key (payoffs_ self) = None.
Proof.
  revert payoffs self.
  induction keys as [|key keys IH]; intros [|p payoffs] self; simpl;
    try discriminate.
  - intros _. split; [|reflexivity]. intros _. split; [constructor | tauto].
  - intros [= Hlen]. unfold bind, payoffs_find. cbn [fst snd].
    destruct (StdMap.find key (payoffs_ self)) as [old|] eqn:Hfind; simpl.
    + split; [discriminate|]. intros (_ & H).
      rewrite (H key) in Hfind; [discriminate | now left].
    + rewrite (IH payoffs _ Hlen). simpl. split.
      * intros (Hnd & Hnew). split.
        -- constructor; [|exact Hnd]. intros Hin.
           specialize (Hnew key Hin).
           rewrite StdMapFacts.find_insert in Hnew by exact Hfind.
           now rewrite String.eqb_refl in Hnew.
        -- intros key' [<-|Hin]; [exact Hfind|].
           specialize (Hnew key' Hin).
           rewrite StdMapFacts.find_insert in Hnew by exact Hfind.
           now destruct (String.eqb key' key).
      * intros (Hnd & Hnone). inversion Hnd as [|? ? Hnotin Hnd']; subst.
        split; [exact Hnd'|]. intros key' Hin.
        rewrite StdMapFacts.find_insert by exact Hfind.
        destruct (String.eqb_spec key' key) as [->|_]; [contradiction|].
        apply Hnone. now right.
Qed.

Lemma initialize_map_throws (keys : list string)
      (payoffs : list (MCPayoffT R)) (overwrite : bool) self (e : exception) :
  fst (initialize_map keys payoffs overwrite self) = Throw e ->
  e = QL_Error "MCScript error: overwrite not allowed".
Proof.
  revert payoffs self.
  induction keys as [|key keys IH]; intros [|p payoffs] self; simpl;
    try discriminate.
  unfold bind, payoffs_find. cbn [fst snd].
  destruct (StdMap.find key (payoffs_ self)); simpl.
  - destruct overwrite; simpl; [apply IH | congruence].
  - apply IH.
Qed.

Lemma select_result_run self :
  select_result self =
  (Return tt,
   {| payoffs_ := payoffs_ self;
      expressions_ := expressions_ self;
      scriptLog_ := scriptLog_ self;
      result_ := selected self;
      observationTime_ :=
        match selected self with
        | Some p => observationTime p
        | None => observationTime_ self
        end |}).
Proof.
  unfold select_result, selected, pick_last, bind, payoffs_rbegin, payoffs_find,
    set_result, set_observationTime.
  cbn [fst snd payoffs_ result_].
  destruct (StdMap.find "payoff" (payoffs_ self)) as [p|]; cbn.
  - reflexivity.
  - destruct (option_map snd (StdMap.rbegin (payoffs_ self))); reflexivity.
Qed.

(** The stages of the constructor. *)
Lemma MCScriptT_ctor_run (keys : list string) (payoffs : list (MCPayoffT R))
      (script : list string) (overwrite : bool) :
  MCScriptT_ctor keys payoffs script overwrite fresh =
  if negb (List.length keys =? List.length payoffs)%nat then
    (Throw (QL_Error "MCScript error: key vs. value size missmatch"), fresh)
  else
    match initialize_map keys payoffs overwrite fresh with
    | (Throw e, s1) => (Throw e, s1)
    | (Return _, s1) =>
        let s2 := snd (parse script overwrite s1) in
        if (0 <? StdMap.size (payoffs_ s2))%nat then select_result s2
        else (Throw (QL_Error "MCScript error: no payoffs stored."), s2)
    end.
Proof.
  unfold MCScriptT_ctor.
  destruct (List.length keys =? List.length payoffs)%nat; [|reflexivity].
  cbn [negb QL_REQUIRE]. unfold bind at 1. cbn [ret].
  unfold bind at 1.
  destruct (initialize_map keys payoffs overwrite fresh) as [[[]|e] s1];
    [|reflexivity].
  unfold bind at 1.
  pose proof (total_unit s1 (total_parse script overwrite)) as Hparse.
  destruct (parse script overwrite s1) as [r s2]; simpl in *. subst r.
  unfold bind, payoffs_size. cbn [fst snd].
  now destruct (0 <? StdMap.size (payoffs_ s2))%nat.
Qed.

Lemma fresh_ordered : StdMap.ordered (payoffs_ (fresh (R := R))).
Proof. constructor. Qed.

(** What a successful construction went through. *)
Lemma new_MCScriptT_inv (keys : list string) (payoffs : list (MCPayoffT R))
      (script : list string) (overwrite : bool) (obj : MCScriptT R) :
  new_MCScriptT keys payoffs script overwrite = Return obj ->
  exists s1,
    initialize_map keys payoffs overwrite fresh = (Return tt, s1) /\
    let s2 := snd (parse script overwrite s1) in
    StdMap.ordered (payoffs_ s2) /\
    0 < StdMap.size (payoffs_ s2) /\
    payoffs_ obj = payoffs_ s2 /\
    scriptLog_ obj = scriptLog_ s2 /\
    result_ obj = selected s2.
Proof.
  unfold new_MCScriptT. rewrite MCScriptT_ctor_run.
  destruct (List.length keys =? List.length payoffs)%nat; [|discriminate].
  cbn [negb].
  pose proof (advancing_initialize_map keys payoffs overwrite fresh) as Hinit.
  destruct (initialize_map keys payoffs overwrite fresh) as [[[]|e] s1];
    [|discriminate].
  cbv zeta.
  destruct (Nat.ltb_spec 0 (StdMap.size (payoffs_ (snd (parse script overwrite s1)))))
    as [Hpos|Hzero]; [|discriminate].
  rewrite select_result_run. intros [= <-].
  exists s1. split; [reflexivity|]. cbv zeta. cbn [payoffs_ scriptLog_ result_].
  repeat split; try assumption.
  apply (advancing_parse script overwrite s1).
  apply Hinit. apply fresh_ordered.
Qed.

(** C2. The constructor throws in exactly three cases: the lists of
    names and of payoffs have different lengths; overwriting is
    disabled and a name is repeated among the initial bindings; the
    symbol table is empty once the initial bindings are stored and the
    whole script is processed.  In every other case it returns the
    object. *)
Theorem C2_constructor_throws_exactly_when
        (keys : list string) (payoffs : list (MCPayoffT R))
        (script : list string) (overwrite : bool) :
  let processed :=
    snd (bind (initialize_map keys payoffs overwrite)
              (fun _ => parse script overwrite) fresh) in
  (exists e, new_MCScriptT keys payoffs script overwrite = Throw e) <->
  List.length keys <> List.length payoffs \/
  (overwrite = false /\ ~ NoDup keys) \/
  StdMap.size (payoffs_ processed) = 0.
Proof.
  cbv zeta. unfold new_MCScriptT. rewrite MCScriptT_ctor_run. unfold bind.
  destruct (Nat.eqb_spec (List.length keys) (List.length payoffs)) as [Hlen|Hlen];
    cbn [negb].
  - destruct (initialize_map keys payoffs overwrite fresh) as [[[]|e] s1] eqn:Hinit.
    + cbv zeta.
      assert (Hnodup : overwrite = false -> NoDup keys).
      { intros ->.
        apply (initialize_map_returns keys payoffs fresh Hlen).
        now rewrite Hinit. }
      destruct (Nat.ltb_spec 0 (StdMap.size (payoffs_ (snd (parse script overwrite s1)))))
        as [Hpos|Hzero].
      * rewrite select_result_run. split.
        -- intros [e He]. discriminate.
        -- intros [H|[(Hov & Hdup)|H]]; [contradiction | | lia].
           exfalso. auto.
      * split; [|eauto]. intros _. right. right. lia.
    + split; [|eauto]. intros _. right. left.
      destruct overwrite.
      * pose proof (initialize_map_overwrite keys payoffs fresh) as H.
        rewrite Hinit in H. discriminate.
      * split; [reflexivity|]. intros Hnd.
        assert (H : fst (initialize_map keys payoffs false fresh) = Return tt).
        { apply (initialize_map_returns keys payoffs fresh Hlen).
          split; [exact Hnd | reflexivity]. }
        rewrite Hinit in H. discriminate.
  - split; [|eauto]. intros _. now left.
Qed.

(** C1, amended. After all script lines are processed, the result
    payoff is the node bound to the name "payoff" when that name is in
    the symbol table; otherwise it is the node bound to the greatest
    name of the table in the order of [std::string] (the last entry of
    the ordered map), whatever the order in which the names were
    inserted. *)
Theorem C1_result_selection_amended
        (keys : list string) (payoffs : list (MCPayoffT R))
        (script : list string) (overwrite : bool) (obj : MCScriptT R) :
  new_MCScriptT keys payoffs script overwrite = Return obj ->
  match StdMap.find "payoff" (payoffs_ obj) with
  | Some p => result_ obj = Some p
  | None =>
      exists name p,
        StdMap.rbegin (payoffs_ obj) = Some (name, p) /\
        result_ obj = Some p /\
        StdMap.find name (payoffs_ obj) = Some p /\
        forall name' p',
          StdMap.find name' (payoffs_ obj) = Some p' ->
          String.leb name' name = true
  end.
Proof.
  intros Hnew.
  destruct (new_MCScriptT_inv _ _ _ _ Hnew) as (s1 & _ & Hord & Hpos & Hp & _ & Hr).
  cbv zeta in *. rewrite Hr, Hp. unfold selected.
  destruct (StdMap.find "payoff" (payoffs_ (snd (parse script overwrite s1))));
    [reflexivity|].
  destruct (StdMap.rbegin (payoffs_ (snd (parse script overwrite s1))))
    as [[name p]|] eqn:Hlast.
  - exists name, p.
    destruct (StdMapFacts.rbegin_greatest Hord Hlast) as [Hfind Hmax].
    repeat split; assumption.
  - apply StdMapFacts.rbegin_None in Hlast. lia.
Qed.

(** ** The sentinel line *)

Lemma parseLine_NonRecursive (overwrite : bool) self :
  parseLine overwrite 0 "NonRecursive" self =
  scriptLog_push_back
    (Error_line 0 "'NonRecursive' is no valid assignment") self.
Proof. reflexivity. Qed.

(** C9. When the first line of the script is "NonRecursive", the
    legacy parser is run on the whole script, sentinel included: the
    sentinel is line 0, it is not an assignment, and its diagnostic
    "Error line 0: 'NonRecursive' is no valid assignment" is appended
    to the log before the lines that follow are parsed from index 1.
    It is the first message of the log of every object so
    constructed. *)
Theorem C9_sentinel_line_is_parsed (rest : list string) (overwrite : bool) :
  let script := "NonRecursive" :: rest in
  let diagnostic := Error_line 0 "'NonRecursive' is no valid assignment" in
  (forall self,
      parse script overwrite self =
      for_each_line (parseLine overwrite) 1 rest
                    (snd (scriptLog_push_back diagnostic self))) /\
  (forall self,
      exists more,
        scriptLog_ (snd (parse script overwrite self))
        = scriptLog_ self ++ diagnostic :: more) /\
  (forall keys payoffs obj,
      new_MCScriptT keys payoffs script overwrite = Return obj ->
      exists more, scriptLog_ obj = diagnostic :: more).
Proof.
  intros script diagnostic.
  assert (Hrun : forall self,
             parse script overwrite self =
             for_each_line (parseLine overwrite) 1 rest
                           (snd (scriptLog_push_back diagnostic self))).
  { intros self. unfold parse, script. cbn [is_NonRecursive].
    change (String.eqb "NonRecursive" "NonRecursive") with true. cbv iota.
    unfold parseScript. cbn [for_each_line List.length Nat.eqb].
    unfold bind at 1 2. rewrite parseLine_NonRecursive.
    cbn [scriptLog_push_back fst snd].
    pose proof (total_unit
                  (snd (scriptLog_push_back diagnostic self))
                  (total_for_each_line (parseLine overwrite)
                                       (total_parseLine overwrite) rest 1))
      as Hret.
    cbn [scriptLog_push_back fst snd] in Hret.
    fold diagnostic.
    destruct (for_each_line (parseLine overwrite) 1 rest _) as [r s];
      simpl in *.
    now subst r. }
  assert (Hlog : forall self,
             exists more,
               scriptLog_ (snd (parse script overwrite self))
               = scriptLog_ self ++ diagnostic :: more).
  { intros self. rewrite Hrun.
    destruct (advancing_for_each_line
                (parseLine overwrite) (advancing_parseLine overwrite) rest 1
                (snd (scriptLog_push_back diagnostic self)))
      as (_ & more & Hmore).
    exists more. rewrite Hmore. simpl. now rewrite <- app_assoc. }
  repeat split; try assumption.
  intros keys payoffs obj Hnew.
  destruct (new_MCScriptT_inv _ _ _ _ Hnew) as (s1 & Hinit & _ & _ & _ & Hl & _).
  cbv zeta in Hl. rewrite Hl.
  destruct (Hlog s1) as [more ->]. exists more.
  pose proof (initialize_map_log keys payoffs overwrite fresh) as H0.
  rewrite Hinit in H0. simpl in H0. now rewrite H0.
Qed.

(** ** Operands of the legacy grammar *)

Lemma resolves_logged self self1 (operand : string) :
  logged self self1 -> resolves self1 operand = resolves self operand.
Proof. intros (Hp & _). unfold resolves. now rewrite Hp. Qed.

Lemma payoff_string_unresolved (operand : string) k self :
  resolves self operand = false ->
  fst (payoff_string operand k self) = Return None.
Proof.
  unfold resolves, payoff_string.
  destruct (to_Number operand); [discriminate|].
  unfold bind, payoffs_find. cbn [fst snd].
  now destruct (StdMap.find operand (payoffs_ self)).
Qed.

(** An operand that does not resolve makes the function or operator
    return the null pointer. *)
Lemma with_operand_unresolved (operand : string) k
      (cont : MCPayoffT R -> M R (shared_ptr R)) self :
  resolves self operand = false ->
  fst (with_operand operand k cont self) = Return None.
Proof.
  intros H. unfold with_operand, bind.
  pose proof (payoff_string_unresolved operand k self H) as Hp.
  destruct (payoff_string operand k self) as [r self1]; simpl in *.
  now subst r.
Qed.

Lemma with_operand_null (operand : string) k
      (cont : MCPayoffT R -> M R (shared_ptr R)) self :
  (forall p self1, logged self self1 -> fst (cont p self1) = Return None) ->
  fst (with_operand operand k cont self) = Return None.
Proof.
  intros H. unfold with_operand, bind.
  destruct (compiling_payoff_string operand k self) as [Hlog _].
  pose proof (total_payoff_string operand k self) as [a Ha].
  destruct (payoff_string operand k self) as [r self1]; simpl in *. subst r.
  destruct a as [p|]; [now apply H | reflexivity].
Qed.

Lemma unresolved1 self (o1 : string) k
      (cont : MCPayoffT R -> M R (shared_ptr R)) :
  forallb (resolves self) [o1] = false ->
  fst (with_operand o1 k cont self) = Return None.
Proof.
  simpl. rewrite andb_true_r. apply with_operand_unresolved.
Qed.

Lemma unresolved2 self (o1 o2 : string) k
      (cont : MCPayoffT R -> MCPayoffT R -> M R (shared_ptr R)) :
  forallb (resolves self) [o1; o2] = false ->
  fst (with_operand o1 k (fun p1 => with_operand o2 k (cont p1)) self)
  = Return None.
Proof.
  intros H. cbn [forallb] in H.
  destruct (resolves self o1) eqn:H1; [|now apply with_operand_unresolved].
  apply with_operand_null. intros p1 self1 Hlog.
  apply unresolved1. cbn [forallb].
  rewrite (resolves_logged _ Hlog). exact H.
Qed.

Lemma unresolved3 self (o1 o2 o3 : string) k
      (cont : MCPayoffT R -> MCPayoffT R -> MCPayoffT R -> M R (shared_ptr R)) :
  forallb (resolves self) [o1; o2; o3] = false ->
  fst (with_operand o1 k (fun p1 =>
       with_operand o2 k (fun p2 =>
       with_operand o3 k (cont p1 p2))) self)
  = Return None.
Proof.
  intros H. cbn [forallb] in H.
  destruct (resolves self o1) eqn:H1; [|now apply with_operand_unresolved].
  apply with_operand_null. intros p1 self1 Hlog.
  apply unresolved2. cbn [forallb].
  rewrite !(resolves_logged _ Hlog). exact H.
Qed.

Lemma compile_expr_unresolved (expr : string) k self :
  forallb (resolves self) (operands expr) = false ->
  fst (compile_expr expr k self) = Return None.
Proof.
  unfold operands, compile_expr.
  destruct (Regex.regex_match expr re_operator1) as [what|];
    [apply unresolved1|].
  destruct (Regex.regex_match expr re_operator2) as [what|];
    [apply unresolved2|].
  destruct (Regex.regex_match expr re_function3) as [what|];
    [apply unresolved3|].
  destruct (Regex.regex_match expr re_function2) as [what|];
    [apply unresolved2|].
  destruct (Regex.regex_match expr re_function1) as [what|];
    [apply unresolved1|].
  simpl. rewrite andb_true_r. apply payoff_string_unresolved.
Qed.

(** A right-hand side that compiles to the null pointer: the line is
    logged as an error and nothing is stored. *)
Lemma parseLine_null (overwrite : bool) k (script_k : string) self
      (what : list string) :
  Regex.regex_match (Regex.remove_spaces script_k) re_assignment = Some what ->
  fst (compile_expr (Regex.sub what 3) k self) = Return None ->
  payoffs_ (snd (parseLine overwrite k script_k self)) = payoffs_ self /\
  exists added,
    scriptLog_ (snd (parseLine overwrite k script_k self))
    = scriptLog_ self ++ added
        ++ [Error_line k ("'" ++ Regex.sub what 3 ++ "' is no valid expression")].
Proof.
  intros Hm Hnull. unfold parseLine. rewrite Hm. unfold bind.
  destruct (compiling_compile_expr (Regex.sub what 3) k self)
    as [(Hp & _ & _ & _ & added & Hl) _].
  destruct (compile_expr (Regex.sub what 3) k self) as [r self1];
    simpl in *. subst r. simpl.
  split; [exact Hp|]. exists added. now rewrite Hl, app_assoc.
Qed.

Lemma nested_call_assignment :
  Regex.regex_match (Regex.remove_spaces "x = Min(Max(a,b), c)") re_assignment
  = Some ["x"; "="; "Min(Max(a,b),c)"].
Proof. vm_compute. reflexivity. Qed.

Lemma nested_call_dispatch k :
  compile_expr (R := R) "Min(Max(a,b),c)" k
  = function3 "Min" "Max(a" "b)" "c" k.
Proof.
  unfold compile_expr.
  replace (Regex.regex_match "Min(Max(a,b),c)" re_operator1)
    with (@None (list string)) by (vm_compute; reflexivity).
  replace (Regex.regex_match "Min(Max(a,b),c)" re_operator2)
    with (@None (list string)) by (vm_compute; reflexivity).
  replace (Regex.regex_match "Min(Max(a,b),c)" re_function3)
    with (Some ["Min"; "Max(a"; "b)"; "c"]) by (vm_compute; reflexivity).
  reflexivity.
Qed.

(** An operand that does not resolve: the right-hand side compiles to
    the null pointer, nothing is stored and "Error line k: '...' is no
    valid expression" is logged. *)
Lemma unresolved_operand_fails_the_line
      (overwrite : bool) k (script_k : string) self (what : list string) :
  Regex.regex_match (Regex.remove_spaces script_k) re_assignment = Some what ->
  forallb (resolves self) (operands (Regex.sub what 3)) = false ->
  payoffs_ (snd (parseLine overwrite k script_k self)) = payoffs_ self /\
  exists added,
    scriptLog_ (snd (parseLine overwrite k script_k self))
    = scriptLog_ self ++ added
        ++ [Error_line k ("'" ++ Regex.sub what 3 ++ "' is no valid expression")].
Proof.
  intros Hm Hun.
  apply (parseLine_null overwrite k script_k self Hm).
  now apply compile_expr_unresolved.
Qed.

(** The line  x = Min(Max(a,b), c)  is refused, whatever the symbol
    table: the operands cut out of it are "Max(a", "b)" and "c". *)
Lemma nested_call_is_refused (overwrite : bool) k self :
  operands "Min(Max(a,b),c)" = ["Max(a"; "b)"; "c"] /\
  payoffs_ (snd (parseLine overwrite k "x = Min(Max(a,b), c)" self))
  = payoffs_ self /\
  exists added,
    scriptLog_ (snd (parseLine overwrite k "x = Min(Max(a,b), c)" self))
    = scriptLog_ self ++ added
        ++ [Error_line k "'Min(Max(a,b),c)' is no valid expression"].
Proof.
  split; [vm_compute; reflexivity|].
  apply (parseLine_null overwrite k _ self nested_call_assignment).
  change (Regex.sub ["x"; "="; "Min(Max(a,b),c)"] 3) with "Min(Max(a,b),c)".
  rewrite nested_call_dispatch. unfold function3.
  apply with_operand_null. intros p1 self1 _.
  apply with_operand_null. intros p2 self2 _.
  apply with_operand_null. intros p3 self3 _.
  reflexivity.
Qed.

Lemma expression_operand_dispatch k :
  compile_expr (R := R) "1+2*3" k = operator2 "*" "1+2" "3" k.
Proof.
  unfold compile_expr.
  replace (Regex.regex_match "1+2*3" re_operator1)
    with (@None (list string)) by (vm_compute; reflexivity).
  replace (Regex.regex_match "1+2*3" re_operator2)
    with (Some ["1+2"; "*"; "3"]) by (vm_compute; reflexivity).
  reflexivity.
Qed.

(** C8. The code breaks the claim on the legacy line  x=1+2*3 .  The
    pattern of the binary operators cuts the right-hand side at its
    last operator, into the operands "1+2" and "3".  The operand "1+2"
    is an expression, neither a literal nor a name; but the operand
    lookup tries [to_Number] first, [std::stod] reads the 1 and stops
    at the plus, and [to_Number] never looks at [sz]: the operand
    passes for the number 1.  The line is stored, [x] bound to the
    product of 1 and 3, and no error is logged, on any object that
    does not bind [x] yet, where the claim has the line logged as an
    error and skipped.  The nested call  x = Min(Max(a,b), c)  of the
    claim is refused. *)
Theorem C8_an_expression_passes_for_an_operand
        (overwrite : bool) k self (one three : R) :
  of_strtod (Cxx.Decimal false 1 0) = Some one ->
  of_strtod (Cxx.Decimal false 3 0) = Some three ->
  StdMap.find "x" (payoffs_ self) = None ->
  operands "1+2*3" = ["1+2"; "3"] /\
  to_Number "1+2" = Some one /\
  parseLine overwrite k "x=1+2*3" self
  = (Return tt,
     {| payoffs_ :=
          StdMap.insert "x" (Mult (Some (FixedAmount one))
                                  (Some (FixedAmount three)))
                        (payoffs_ self);
        expressions_ := expressions_ self;
        scriptLog_ :=
          scriptLog_ self
            ++ [("Payoff line " ++ Cxx.to_string k ++ ": '"
                   ++ lexical_cast one ++ "' is fixed amount")%string;
                ("Payoff line " ++ Cxx.to_string k ++ ": '"
                   ++ lexical_cast three ++ "' is fixed amount")%string;
                ("Insert line " ++ Cxx.to_string k ++ ": 'x=1+2*3'")%string];
        result_ := result_ self;
        observationTime_ := observationTime_ self |}) /\
  payoffs_ (snd (parseLine overwrite k "x = Min(Max(a,b), c)" self))
  = payoffs_ self /\
  exists added,
    scriptLog_ (snd (parseLine overwrite k "x = Min(Max(a,b), c)" self))
    = scriptLog_ self ++ added
        ++ [Error_line k "'Min(Max(a,b),c)' is no valid expression"].
Proof.
  intros H1 H3 Hx.
  assert (Hn1 : to_Number "1+2" = Some one).
  { rewrite <- H1. now apply to_Number_strtod with (sz := 1). }
  assert (Hn3 : to_Number "3" = Some three).
  { rewrite <- H3. now apply to_Number_strtod with (sz := 1). }
  split; [vm_compute; reflexivity|]. split; [exact Hn1|].
  split; [|apply nested_call_is_refused].
  unfold parseLine.
  replace (Regex.regex_match (Regex.remove_spaces "x=1+2*3") re_assignment)
    with (Some ["x"; "="; "1+2*3"]) by (vm_compute; reflexivity).
  change (Regex.sub ["x"; "="; "1+2*3"] 3) with "1+2*3".
  change (Regex.sub ["x"; "="; "1+2*3"] 1) with "x".
  change (Regex.remove_spaces "x=1+2*3") with "x=1+2*3".
  rewrite expression_operand_dispatch.
  unfold operator2, with_operand, payoff_string.
  rewrite Hn1, Hn3.
  change (matches "*" (Regex.Lit "+")) with false.
  change (matches "*" (Regex.Lit "-")) with false.
  change (matches "*" (Regex.Lit "*")) with true.
  unfold store_legacy, bind, ret, scriptLog_push_back, payoffs_find,
    payoffs_insert, set_payoffs.
  cbn [payoffs_ expressions_ scriptLog_ result_ observationTime_ fst snd].
  rewrite Hx.
  cbn [payoffs_ expressions_ scriptLog_ result_ observationTime_ fst snd].
  now rewrite <- !app_assoc.
Qed.

(* ================================================================= *)
(** * Further properties of the expression compiler *)

(** ** The shape of a node *)

(** X1. The expression compiler checks the shape of a node before it
    looks at its children: a node whose number of children, or of
    leaves, is not the one its kind asks for is refused with the
    exception "Cannot interprete payoff", and the only trace is one
    "Error line k" message that gives the expected count; no child is
    compiled.  The message about the leaves reports the number of
    children found, not the number of leaves. *)
Theorem X1_payoff_checks_the_shape_of_a_node
        (ty : ExpressionType) (cs : list (option Expression))
        (ls : list string) k self (nc nl : nat) :
  arity ty = Some (nc, nl) ->
  List.length cs <> nc \/ List.length ls <> nl ->
  payoff (Some (Expr ty cs ls)) k self =
  (Throw (QL_Error "Cannot interprete payoff"),
   snd (scriptLog_push_back
          (Error_line k
             (if (List.length cs =? nc)%nat then
                Cxx.to_string nl ++ " leafs expected, but "
                  ++ Cxx.to_string (List.length cs) ++ " found."
              else
                Cxx.to_string nc ++ " child expressions expected, but "
                  ++ Cxx.to_string (List.length cs) ++ " found."))
          self)).
Proof.
  intros Har Hshape.
  destruct ty; simpl in Har; inversion Har; subst nc nl; clear Har;
    cbn [payoff payoff_node]; unfold ensure, hasChilds, hasLeafs;
    cbn [childs leafs];
    (match goal with
     | |- context [(List.length cs =? ?n)%nat] =>
         destruct (Nat.eqb_spec (List.length cs) n) as [Hc|Hc]
     end;
     [ match goal with
       | |- context [(List.length ls =? ?n)%nat] =>
           destruct (Nat.eqb_spec (List.length ls) n) as [Hl|Hl]
       end; [destruct Hshape; contradiction | reflexivity]
     | reflexivity ]).
Qed.

(** ** The payoff of each kind of node *)

Lemma arguments3_value {A B C : Type} (a : M R A) (b : M R B) (c : M R C)
      self (x : A) (y : B) (z : C) :
  compiling a -> compiling b -> compiling c ->
  fst (a self) = Return x -> fst (b self) = Return y ->
  fst (c self) = Return z ->
  fst (arguments3 a b c self) = Return (x, y, z).
Proof.
  intros Ha Hb Hc Hx Hy Hz. unfold arguments3. destruct argument_order.
  - rewrite (bind_value _ _ (a := x)); auto; [|intros; solve_compiling].
    rewrite (bind_value _ _ (a := y)); auto; [|intros; solve_compiling].
    rewrite (bind_value _ _ (a := z)); auto with compiling.
  - rewrite (bind_value _ _ (a := z)); auto; [|intros; solve_compiling].
    rewrite (bind_value _ _ (a := y)); auto; [|intros; solve_compiling].
    rewrite (bind_value _ _ (a := x)); auto with compiling.
Qed.

(** X2. Once its children are compiled, a product, quotient, minimum,
    maximum, comparison, conditional or cache node compiles to the
    payoff node of the same kind over the payoffs of its children, in
    the order of the children and whatever the order in which the
    compiler evaluates them; a comparison carries its leaf, the
    operator, along. *)
Theorem X2_nodes_compile_to_the_payoff_of_their_kind
        k self (c0 c1 c2 : option Expression) (x0 x1 x2 : shared_ptr R)
        (op : string) :
  fst (payoff c0 k self) = Return x0 ->
  fst (payoff c1 k self) = Return x1 ->
  fst (payoff c2 k self) = Return x2 ->
  fst (payoff (Some (Expr MULT [c0; c1] [])) k self)
    = Return (Some (Mult x0 x1)) /\
  fst (payoff (Some (Expr DIVISION [c0; c1] [])) k self)
    = Return (Some (Division x0 x1)) /\
  fst (payoff (Some (Expr MIN [c0; c1] [])) k self)
    = Return (Some (Min x0 x1)) /\
  fst (payoff (Some (Expr MAX [c0; c1] [])) k self)
    = Return (Some (Max x0 x1)) /\
  fst (payoff (Some (Expr LOGICAL [c0; c1] [op])) k self)
    = Return (Some (Logical x0 x1 op)) /\
  fst (payoff (Some (Expr IFTHENELSE [c0; c1; c2] [])) k self)
    = Return (Some (IfThenElse x0 x1 x2)) /\
  fst (payoff (Some (Expr CACHE [c0] [])) k self)
    = Return (Some (Cache x0)).
Proof.
  intros Hx0 Hx1 Hx2.
  assert (H2 : forall f : shared_ptr R * shared_ptr R -> MCPayoffT R,
             fst (bind (arguments2 (payoff c0 k) (payoff c1 k))
                       (fun xy => ret (Some (f xy))) self)
             = Return (Some (f (x0, x1)))).
  { intros f. rewrite (bind_value _ _ (a := (x0, x1))); auto.
    - apply compiling_arguments2; apply compiling_payoff.
    - intros; solve_compiling.
    - apply arguments2_value; auto using compiling_payoff. }
  repeat split.
  - exact (H2 (fun xy => Mult (fst xy) (snd xy))).
  - exact (H2 (fun xy => Division (fst xy) (snd xy))).
  - exact (H2 (fun xy => Min (fst xy) (snd xy))).
  - exact (H2 (fun xy => Max (fst xy) (snd xy))).
  - exact (H2 (fun xy => Logical (fst xy) (snd xy) op)).
  - change (fst (bind (arguments3 (payoff c0 k) (payoff c1 k) (payoff c2 k))
                      (fun xyz => ret (Some (IfThenElse (fst (fst xyz))
                                                        (snd (fst xyz))
                                                        (snd xyz)))) self)
            = Return (Some (IfThenElse x0 x1 x2))).
    rewrite (bind_value _ _ (a := (x0, x1, x2))); auto.
    + apply compiling_arguments3; apply compiling_payoff.
    + intros; solve_compiling.
    + apply arguments3_value; auto using compiling_payoff.
  - change (fst (bind (payoff c0 k) (fun x => ret (Some (Cache x))) self)
            = Return (Some (Cache x0))).
    rewrite (bind_value _ _ (a := x0)); auto using compiling_payoff.
    intros; solve_compiling.
Qed.

(** X3. A node that carries a time in its leaf (a payment or a
    look-up of a payoff at a time, the time given as a number or as a
    date) converts the leaf before it compiles its child: when the
    leaf does not convert, the node is refused with the single message
    "cannot convert ... to number" and the child is not looked at; when
    it converts to [t], a payment node over a child that compiles to
    [x] is [Pay(x, t)], and a look-up node over a child that compiles
    to a payoff [p] is what [p->at(t)] gives. *)
Theorem X3_time_leaf_is_converted_before_the_child
        k self (c : option Expression) (leaf : string) :
  let refused tree :=
    payoff tree k self =
    (Throw (QL_Error "Cannot interprete payoff"),
     snd (scriptLog_push_back
            (Error_line k ("cannot convert " ++ leaf ++ " to number.")) self)) in
  (to_Number leaf = None ->
   refused (Some (Expr PAY [c] [leaf])) /\
   refused (Some (Expr PAYOFFAT [c] [leaf]))) /\
  (date_to_Number leaf = None ->
   refused (Some (Expr PAY_WITHDATE [c] [leaf])) /\
   refused (Some (Expr PAYOFFAT_WITHDATE [c] [leaf]))) /\
  (forall t x,
      fst (payoff c k self) = Return x ->
      (to_Number leaf = Some t ->
       fst (payoff (Some (Expr PAY [c] [leaf])) k self)
       = Return (Some (Pay x t))) /\
      (date_to_Number leaf = Some t ->
       fst (payoff (Some (Expr PAY_WITHDATE [c] [leaf])) k self)
       = Return (Some (Pay x t)))) /\
  (forall t p,
      fst (payoff c k self) = Return (Some p) ->
      (to_Number leaf = Some t ->
       fst (payoff (Some (Expr PAYOFFAT [c] [leaf])) k self) = payoff_at p t) /\
      (date_to_Number leaf = Some t ->
       fst (payoff (Some (Expr PAYOFFAT_WITHDATE [c] [leaf])) k self)
       = payoff_at p t)).
Proof.
  cbv zeta.
  split; [intros Hleaf; split; cbn [payoff payoff_node nth]; now rewrite Hleaf|].
  split; [intros Hleaf; split; cbn [payoff payoff_node nth]; now rewrite Hleaf|].
  split; [intros t x Hx | intros t p Hp]; split.
  - intros Ht.
    change (fst (match to_Number leaf with
                 | None => cannot_convert leaf k
                 | Some number =>
                     bind (payoff c k) (fun x => ret (Some (Pay x number)))
                 end self) = Return (Some (Pay x t))).
    rewrite Ht.
    rewrite (bind_value _ _ (a := x)); auto using compiling_payoff.
    intros; solve_compiling.
  - intros Ht.
    change (fst (match date_to_Number leaf with
                 | None => cannot_convert leaf k
                 | Some number =>
                     bind (payoff c k) (fun x => ret (Some (Pay x number)))
                 end self) = Return (Some (Pay x t))).
    rewrite Ht.
    rewrite (bind_value _ _ (a := x)); auto using compiling_payoff.
    intros; solve_compiling.
  - intros Ht.
    change (fst (match to_Number leaf with
                 | None => cannot_convert leaf k
                 | Some number =>
                     bind (payoff c k)
                          (fun q => match q with
                                    | Some p' => call (payoff_at p' number)
                                    | None => Cannot_interprete
                                    end)
                 end self) = payoff_at p t).
    rewrite Ht.
    rewrite (bind_value _ _ (a := Some p)); auto using compiling_payoff.
    intros; solve_compiling.
  - intros Ht.
    change (fst (match date_to_Number leaf with
                 | None => cannot_convert leaf k
                 | Some number =>
                     bind (payoff c k)
                          (fun q => match q with
                                    | Some p' => call (payoff_at p' number)
                                    | None => Cannot_interprete
                                    end)
                 end self) = payoff_at p t).
    rewrite Ht.
    rewrite (bind_value _ _ (a := Some p)); auto using compiling_payoff.
    intros; solve_compiling.
Qed.

(** ** Failures of subtrees *)

Lemma doomed_bind {A B : Type} self (m : M R A) (f : A -> M R B) :
  doomed self m -> doomed self (bind m f).
Proof.
  intros Hm other Ho. destruct (Hm other Ho) as [e He]. exists e.
  unfold bind. destruct (m other) as [r s]; simpl in *. now subst r.
Qed.

Lemma doomed_later {A B : Type} self (m : M R A) (f : A -> M R B) :
  compiling m -> (forall a, doomed self (f a)) -> doomed self (bind m f).
Proof.
  intros Hm Hf other Ho. unfold bind.
  destruct (Hm other) as [(Hp & _) _].
  destruct (m other) as [[a|e] s]; simpl in *.
  - apply Hf. congruence.
  - now exists e.
Qed.

Lemma doomed_stable {A : Type} self (m : M R A) :
  compiling m -> (exists e, fst (m self) = Throw e) -> doomed self m.
Proof.
  intros Hm [e He] other Ho. exists e.
  destruct (Hm self) as [_ Hst]. now rewrite (Hst other Ho).
Qed.

Lemma doomed_arguments2 {A B : Type} self (a : M R A) (b : M R B) :
  compiling a -> compiling b ->
  doomed self a \/ doomed self b -> doomed self (arguments2 a b).
Proof.
  intros Ha Hb [H|H]; unfold arguments2; destruct argument_order;
    first [ apply doomed_bind; exact H
          | apply doomed_later; [assumption|]; intros ?;
            apply doomed_bind; exact H ].
Qed.

Lemma doomed_arguments3 {A B C : Type} self (a : M R A) (b : M R B) (c : M R C) :
  compiling a -> compiling b -> compiling c ->
  doomed self a \/ doomed self b \/ doomed self c ->
  doomed self (arguments3 a b c).
Proof.
  intros Ha Hb Hc [H|[H|H]]; unfold arguments3; destruct argument_order;
    first [ apply doomed_bind; exact H
          | apply doomed_later; [assumption|]; intros ?;
            apply doomed_bind; exact H
          | apply doomed_later; [assumption|]; intros ?;
            apply doomed_later; [assumption|]; intros ?;
            apply doomed_bind; exact H ].
Qed.

Lemma doomed_hasChilds {B : Type} self (t : Expression) (n : nat) k
      (f : unit -> M R B) :
  (List.length (childs t) = n -> doomed self (f tt)) ->
  doomed self (bind (ensure (hasChilds (Some t) n k)) f).
Proof.
  intros Hf other Ho. unfold ensure, hasChilds.
  destruct (Nat.eqb_spec (List.length (childs t)) n) as [Hn|Hn].
  - exact (Hf Hn other Ho).
  - eexists. reflexivity.
Qed.

Lemma doomed_hasLeafs {B : Type} self (t : Expression) (n : nat) k
      (f : unit -> M R B) :
  (List.length (leafs t) = n -> doomed self (f tt)) ->
  doomed self (bind (ensure (hasLeafs (Some t) n k)) f).
Proof.
  intros Hf other Ho. unfold ensure, hasLeafs.
  destruct (Nat.eqb_spec (List.length (leafs t)) n) as [Hn|Hn].
  - exact (Hf Hn other Ho).
  - eexists. reflexivity.
Qed.

Lemma doomed_always {A : Type} self (msg : string) :
  doomed self (bind (scriptLog_push_back msg)
                    (fun _ => Cannot_interprete (R := R) (A := A))).
Proof. intros other _. eexists. reflexivity. Qed.

(** A node with a child that does not compile does not compile. *)
Lemma doomed_parent (ty : ExpressionType) (cs : list (option Expression))
      (ls : list string) (c : option Expression) k self :
  In c cs -> doomed self (payoff c k) ->
  doomed self (payoff (Some (Expr ty cs ls)) k).
Proof.
  intros Hin Hc.
  assert (Hcomp : forall c', compiling (payoff c' k))
    by (intros; apply compiling_payoff).
  destruct ty; cbn [payoff payoff_node];
    try apply doomed_always;
    (apply doomed_hasChilds; cbn [childs]; intros Hlen;
     destruct cs as [|c0 [|c1 [|c2 [|c3 cs]]]]; try discriminate Hlen;
     try contradiction;
     apply doomed_hasLeafs; intros _; cbn [nth map];
     try fold (payoff c0 k); try fold (payoff c1 k); try fold (payoff c2 k)).
  all: try match goal with
           | |- doomed _ (match ?x with _ => _ end) =>
               destruct x; [|apply doomed_always]
           end.
  all: try (apply doomed_bind).
  all: try (apply doomed_arguments2; auto).
  all: try (apply doomed_arguments3; auto).
  all: simpl in Hin; intuition (subst; auto).
Qed.

(** X4. A tree does not compile when one of its subtrees, at any
    depth, does not: whatever the kind of the nodes above it and
    whatever the order in which the compiler evaluates the arguments of
    a call, the exception of a subtree (an unbound name, a leaf that is
    no number, a node of the wrong shape, a missing child) makes the
    compilation of the whole expression throw. *)
Theorem X4_a_failing_subtree_fails_the_tree
        (c : option Expression) (t : Expression) k self :
  descendant c t ->
  (exists e, fst (payoff c k self) = Throw e) ->
  exists e, fst (payoff (Some t) k self) = Throw e.
Proof.
  intros Hsub Hc.
  assert (H : doomed self (payoff (Some t) k)).
  { induction Hsub as [ty cs ls Hin | ty cs ls t Hin Hsub IH].
    - apply doomed_parent with c; [exact Hin|].
      apply doomed_stable; [apply compiling_payoff | exact Hc].
    - apply doomed_parent with (Some t); assumption. }
  apply H. reflexivity.
Qed.

(** ** What the compiler leaves in the log when it gives up *)

Lemma announces_ret {A : Type} k S (a : A) : announces (R := R) k S (ret a).
Proof.
  intros self. simpl. split; [exists []; now rewrite app_nil_r | discriminate].
Qed.

Lemma announces_bind {A B : Type} k S (m : M R A) (f : A -> M R B) :
  announces k S m -> (forall a, announces k S (f a)) ->
  announces k S (bind m f).
Proof.
  intros Hm Hf self. unfold bind. specialize (Hm self).
  destruct (m self) as [[a|e] s1]; simpl in Hm.
  2:{ simpl. split; [apply Hm|]. intros e0 [= <-]. now apply Hm. }
  destruct Hm as [(added & Hl) _]. specialize (Hf a s1).
  destruct (f a s1) as [r s2]. simpl in *.
  destruct Hf as [(added' & Hl') He]. split.
  - exists (added ++ added'). now rewrite Hl', Hl, app_assoc.
  - intros e Hr. destruct (He e Hr) as [(-> & add & reason & Ha)|H];
      [left | right; exact H].
    split; [reflexivity|]. exists (added ++ add), reason.
    now rewrite Ha, Hl, !app_assoc.
Qed.

Lemma announces_weaken {A : Type} k (S S' : MCScriptT R -> exception -> Prop)
      (m : M R A) :
  (forall s e, S s e -> S' s e) -> announces k S m -> announces k S' m.
Proof.
  intros HS Hm self. destruct (Hm self) as [Hl He]. split; [exact Hl|].
  intros e Hr. destruct (He e Hr) as [H|[H|H]]; auto.
Qed.

Lemma announces_push k S (msg : string) :
  announces (R := R) k S (scriptLog_push_back msg).
Proof. intros self. simpl. split; [now exists [msg] | discriminate]. Qed.

Lemma announces_find k S (name : string) :
  announces (R := R) k S (payoffs_find name).
Proof.
  intros self. simpl. split; [exists []; now rewrite app_nil_r | discriminate].
Qed.

Lemma announces_error {A : Type} k S (reason : string) :
  announces (R := R) (A := A) k S
            (bind (scriptLog_push_back (Error_line k reason))
                  (fun _ => Cannot_interprete)).
Proof.
  intros self. simpl. split; [now exists [Error_line k reason]|].
  intros e [= <-]. left. split; [reflexivity|]. now exists [], reason.
Qed.

Lemma announces_hasChilds k S (tree : option Expression) (n : nat) :
  announces (R := R) k S (ensure (hasChilds tree n k)).
Proof.
  unfold ensure, hasChilds. destruct tree as [t|].
  - destruct (negb (List.length (childs t) =? n)%nat).
    + intros self. simpl. split; [eexists [_]; reflexivity|].
      intros e [= <-]. left. split; [reflexivity|].
      exists [], (Cxx.to_string n ++ " child expressions expected, but "
                    ++ Cxx.to_string (List.length (childs t)) ++ " found.")%string.
      reflexivity.
    + intros self. simpl.
      split; [exists []; now rewrite app_nil_r | discriminate].
  - intros self. simpl. split; [eexists [_]; reflexivity|].
    intros e [= <-]. left. split; [reflexivity|].
    now exists [], "Empty expression tree.".
Qed.

Lemma announces_hasLeafs k S (tree : option Expression) (n : nat) :
  announces (R := R) k S (ensure (hasLeafs tree n k)).
Proof.
  unfold ensure, hasLeafs. destruct tree as [t|].
  - destruct (negb (List.length (leafs t) =? n)%nat).
    + intros self. simpl. split; [eexists [_]; reflexivity|].
      intros e [= <-]. left. split; [reflexivity|].
      exists [], (Cxx.to_string n ++ " leafs expected, but "
                    ++ Cxx.to_string (List.length (childs t)) ++ " found.")%string.
      reflexivity.
    + intros self. simpl.
      split; [exists []; now rewrite app_nil_r | discriminate].
  - intros self. simpl. split; [eexists [_]; reflexivity|].
    intros e [= <-]. left. split; [reflexivity|].
    now exists [], "Empty expression tree.".
Qed.

Lemma announces_arguments2 {A B : Type} k S (a : M R A) (b : M R B) :
  announces k S a -> announces k S b -> announces k S (arguments2 a b).
Proof.
  intros Ha Hb. unfold arguments2. destruct argument_order;
    repeat (apply announces_bind; [assumption | intros]);
    apply announces_ret.
Qed.

Lemma announces_arguments3 {A B C : Type} k S
      (a : M R A) (b : M R B) (c : M R C) :
  announces k S a -> announces k S b -> announces k S c ->
  announces k S (arguments3 a b c).
Proof.
  intros Ha Hb Hc. unfold arguments3. destruct argument_order;
    repeat (apply announces_bind; [assumption | intros]);
    apply announces_ret.
Qed.

Lemma announces_nth {A B : Type} k S (f : A -> M R B)
      (l : list A) (d : M R B) (i : nat) :
  Forall (fun a => announces k S (f a)) l -> announces k S d ->
  announces k S (nth i (map f l) d).
Proof.
  intros Hl Hd. revert i.
  induction Hl as [|a l Ha Hl IH]; intros [|i]; simpl; auto.
Qed.

Lemma announces_payoff_node (t : Expression) k :
  announces k (null_operand k t) (payoff_node t k).
Proof.
  induction t as [ty cs ls IH] using Expression_nested_ind.
  set (S := null_operand k (Expr ty cs ls)).
  set (F := fun c : option Expression =>
              match c with
              | Some t' => payoff_node t' k
              | None => empty_tree k
              end).
  assert (Hempty : forall A : Type, announces (A := A) k S (empty_tree k)).
  { intros A. apply (announces_error k S "Empty expression tree."). }
  assert (Hconvert : forall (A : Type) leaf,
             announces (A := A) k S (cannot_convert leaf k)).
  { intros A leaf.
    apply (announces_error k S ("cannot convert " ++ leaf ++ " to number.")). }
  assert (Hchild : forall i, announces k S (nth i (map F cs) (empty_tree k))).
  { intros i. apply announces_nth; [|apply Hempty].
    apply Forall_forall. intros c Hin. rewrite Forall_forall in IH.
    specialize (IH c Hin). destruct c as [t'|]; [|apply Hempty].
    apply announces_weaken with (null_operand k t'); [|exact IH].
    intros s e (He & c0 & s0 & Hop & Hrun). split; [exact He|].
    exists c0, s0. split; [|exact Hrun].
    now apply at_operand_below with t'. }
  assert (Hsome : forall p : MCPayoffT R, announces k S (ret (Some p))).
  { intros p. apply announces_ret. }
  assert (Hat : forall number,
             ty = PAYOFFAT \/ ty = PAYOFFAT_WITHDATE ->
             announces k S
                       (bind (nth 0 (map F cs) (empty_tree k))
                             (fun p => match p with
                                       | Some p' => call (payoff_at p' number)
                                       | None => Cannot_interprete
                                       end))).
  { intros number Hty self. unfold bind.
    destruct (Hchild 0 self) as [Hl He].
    assert (Hrun : nth 0 (map F cs) (empty_tree k) self
                   = payoff (nth 0 cs None) k self).
    { change (empty_tree k) with (F None). rewrite map_nth.
      now destruct (nth 0 cs None). }
    destruct (nth 0 (map F cs) (empty_tree k) self) as [[[p'|]|e] s1];
      simpl in Hl, He |- *.
    - unfold call. simpl. split; [exact Hl|].
      intros e He'. right; right. now exists p', number.
    - split; [exact Hl|]. intros e [= <-]. right; left.
      split; [reflexivity|]. exists (nth 0 cs None), self.
      split; [now apply at_operand_here | now symmetry].
    - split; [exact Hl|]. intros e0 [= <-]. now apply He. }
  destruct ty; cbn [payoff_node]; fold F;
    try (apply (announces_error k S "unknown expression type."));
    (apply announces_bind; [apply announces_hasChilds|]; intros _;
     apply announces_bind; [apply announces_hasLeafs|]; intros _).
  - destruct (to_Number (nth 0 ls EmptyString)); [apply Hsome | apply Hconvert].
  - apply announces_bind; [apply announces_find|].
    intros [p|].
    + apply announces_bind; [apply announces_push|]. intros _. apply Hsome.
    + apply (announces_error k S ("'" ++ nth 0 ls EmptyString ++ "' is no payoff")).
  - apply Hchild.
  - apply announces_bind; [apply Hchild|]. intros; apply announces_ret.
  - apply announces_bind;
      [apply announces_arguments2; apply Hchild | intros; apply announces_ret].
  - apply announces_bind;
      [apply announces_arguments2; apply Hchild | intros; apply announces_ret].
  - apply announces_bind;
      [apply announces_arguments2; apply Hchild | intros; apply announces_ret].
  - apply announces_bind;
      [apply announces_arguments2; apply Hchild | intros; apply announces_ret].
  - apply announces_bind;
      [apply announces_arguments3; apply Hchild | intros; apply announces_ret].
  - apply announces_bind;
      [apply announces_arguments2; apply Hchild | intros; apply announces_ret].
  - apply announces_bind;
      [apply announces_arguments2; apply Hchild | intros; apply announces_ret].
  - apply announces_bind;
      [apply announces_arguments2; apply Hchild | intros; apply announces_ret].
  - destruct (to_Number (nth 0 ls EmptyString)); [|apply Hconvert].
    apply announces_bind; [apply Hchild|]. intros; apply announces_ret.
  - destruct (date_to_Number (nth 0 ls EmptyString)); [|apply Hconvert].
    apply announces_bind; [apply Hchild|]. intros; apply announces_ret.
  - apply announces_bind; [apply Hchild|]. intros; apply announces_ret.
  - destruct (to_Number (nth 0 ls EmptyString));
      [apply Hat; now left | apply Hconvert].
  - destruct (date_to_Number (nth 0 ls EmptyString));
      [apply Hat; now right | apply Hconvert].
Qed.

(** X5. The expression compiler leaves the object as it is but for
    the log, to which it only appends.  When it throws, one of three
    things has happened.  It throws "Cannot interprete payoff" right
    after an "Error line k" diagnostic with the index of the line
    being compiled: the last message of the log tells why.  Or a node
    of kind PAYOFFAT or PAYOFFAT_WITHDATE found that its operand had
    compiled to the null pointer: it throws "Cannot interprete payoff"
    with no message of its own.  Or the exception is one that a
    payoff's own [at(t)] threw. *)
Theorem X5_compile_errors_are_logged_unless_an_operand_is_null
        (tree : option Expression) k self :
  logged self (snd (payoff tree k self)) /\
  forall e,
    fst (payoff tree k self) = Throw e ->
    announced k self (snd (payoff tree k self)) e \/
    (exists t, tree = Some t /\ null_operand k t (snd (payoff tree k self)) e) \/
    thrown_by_at e.
Proof.
  split; [apply compiling_payoff|].
  intros e He. destruct tree as [t|].
  - destruct (announces_payoff_node t k self) as [_ H].
    destruct (H e He) as [Ha|[Hn|Ht]]; auto.
    right; left. now exists t.
  - left. simpl in He |- *. injection He as <-. split; [reflexivity|].
    now exists [], "Empty expression tree.".
Qed.

(* ================================================================= *)
(** * Further properties of the scripts *)

(** ** A name that a line has bound *)

Lemma payoff_IDENTIFIER (name : string) k self :
  payoff (Some (Expr IDENTIFIER [] [name])) k self =
  match StdMap.find name (payoffs_ self) with
  | Some p =>
      (Return (Some p),
       snd (scriptLog_push_back
              ("Payoff line " ++ Cxx.to_string k ++ ": '" ++ name
                 ++ "' is in map") self))
  | None =>
      (Throw (QL_Error "Cannot interprete payoff"),
       snd (scriptLog_push_back
              (Error_line k ("'" ++ name ++ "' is no payoff")) self))
  end.
Proof.
  cbn [payoff payoff_node]. unfold ensure, hasChilds, hasLeafs, bind, payoffs_find.
  cbn [childs leafs List.length Nat.eqb negb ret fst snd nth].
  now destruct (StdMap.find name (payoffs_ self)).
Qed.

(** The symbol table after a line that reaches the store. *)
Lemma compiled_line_payoffs (overwrite : bool) k (line : string) self
      (n : string) (p : MCPayoffT R) :
  compiled_line k line self n p ->
  payoffs_ (snd (parseFlexBisonLine overwrite k line self)) =
  match StdMap.find n (payoffs_ self) with
  | None => StdMap.insert n p (payoffs_ self)
  | Some _ =>
      if overwrite then StdMap.assign n p (payoffs_ self) else payoffs_ self
  end.
Proof.
  intros (rhs & Hrv & Htree & Hc & Hne).
  rewrite (parseFlexBisonLine_assignment _ _ _ _ Hrv Htree). cbv zeta.
  compile_rhs rhs k self n Hc.
  apply String.eqb_neq in Hne. rewrite Hne.
  unfold store_FlexBison, bind, payoffs_find. cbn [fst snd].
  rewrite Hp.
  destruct (StdMap.find n (payoffs_ self)) as [old|] eqn:Hfind.
  - destruct overwrite; simpl; now rewrite Hp.
  - simpl. now rewrite Hp.
Qed.

(** X6. A name that a line of the primary grammar has just bound, or
    rebound, to a payoff [p] can be used in the lines that follow: as
    an identifier it compiles, on any later line [k'], to [p] itself,
    and the look-up leaves the message "Payoff line k': 'n' is in map"
    in the log. *)
Theorem X6_a_stored_name_compiles_to_its_payoff
        (overwrite : bool) k (line : string) self (n : string)
        (p : MCPayoffT R) (k' : nat) :
  compiled_line k line self n p ->
  StdMap.find n (payoffs_ self) = None \/ overwrite = true ->
  let self' := snd (parseFlexBisonLine overwrite k line self) in
  payoff (Some (Expr IDENTIFIER [] [n])) k' self' =
  (Return (Some p),
   snd (scriptLog_push_back
          ("Payoff line " ++ Cxx.to_string k' ++ ": '" ++ n ++ "' is in map")
          self')).
Proof.
  intros Hline Hfree self'. rewrite payoff_IDENTIFIER.
  assert (Hfind : StdMap.find n (payoffs_ self') = Some p).
  { unfold self'. rewrite (compiled_line_payoffs overwrite Hline).
    destruct (StdMap.find n (payoffs_ self)) as [old|] eqn:Hold.
    - destruct Hfree as [Hfree| ->]; [discriminate|].
      rewrite StdMapFacts.find_assign, String.eqb_refl, Hold. reflexivity.
    - rewrite StdMapFacts.find_insert by exact Hold.
      now rewrite String.eqb_refl. }
  now rewrite Hfind.
Qed.

(** ** Relations that every step of a script keeps *)

Lemma stepping_ret {A : Type} Rel (a : A) :
  preorder Rel -> stepping (R := R) Rel (ret a).
Proof. intros [Hrefl _] self. apply Hrefl. Qed.

Lemma stepping_bind {A B : Type} Rel (m : M R A) (f : A -> M R B) :
  preorder Rel -> stepping Rel m -> (forall a, stepping Rel (f a)) ->
  stepping Rel (bind m f).
Proof.
  intros [_ Htrans] Hm Hf self. unfold bind. specialize (Hm self).
  destruct (m self) as [[a|e] s1]; simpl in *; [|exact Hm].
  eapply Htrans; [exact Hm | apply Hf].
Qed.

Lemma stepping_compiling {A : Type} (Rel : MCScriptT R -> MCScriptT R -> Prop)
      (m : M R A) :
  (forall self self', logged self self' -> Rel self self') ->
  compiling m -> stepping Rel m.
Proof. intros Hlog Hm self. apply Hlog, Hm. Qed.

Lemma stepping_for_each_line Rel (body : nat -> string -> M R unit) :
  preorder Rel -> (forall k line, stepping Rel (body k line)) ->
  forall script k, stepping Rel (for_each_line body k script).
Proof.
  intros Hpre Hb script.
  induction script as [|line script IH]; intros k; simpl.
  - now apply stepping_ret.
  - apply stepping_bind; auto.
Qed.

Lemma stepping_push_all Rel (msgs : list string) :
  preorder Rel ->
  (forall self self', logged self self' -> Rel self self') ->
  stepping Rel (scriptLog_push_back_all (R := R) msgs).
Proof.
  intros Hpre Hlog. induction msgs as [|msg msgs IH]; simpl.
  - now apply stepping_ret.
  - apply stepping_bind; auto.
    apply stepping_compiling; auto with compiling.
Qed.

Lemma preorder_same_expressions : preorder (same_expressions (R := R)).
Proof. split; unfold same_expressions; congruence. Qed.

Lemma logged_same_expressions self self' :
  logged self self' -> same_expressions self self'.
Proof. intros (_ & He & _). exact He. Qed.

Lemma preorder_survive (overwrite : bool) : preorder (survive (R := R) overwrite).
Proof.
  split; unfold survive.
  - intros self name p H. destruct overwrite; congruence.
  - intros s1 s2 s3 H12 H23 name p H. specialize (H12 name p H).
    destruct overwrite.
    + destruct (StdMap.find name (payoffs_ s2)) as [q|] eqn:Hq; [|contradiction].
      exact (H23 name q Hq).
    + exact (H23 name p H12).
Qed.

Lemma logged_survive (overwrite : bool) self self' :
  logged self self' -> survive overwrite self self'.
Proof.
  intros (Hp & _) name p H. rewrite Hp. destruct overwrite; congruence.
Qed.

Lemma same_payoffs_survive (overwrite : bool) self self' :
  payoffs_ self' = payoffs_ self -> survive overwrite self self'.
Proof. intros Hp name p H. rewrite Hp. destruct overwrite; congruence. Qed.

Create HintDb stepping.
#[local] Hint Resolve stepping_ret stepping_compiling preorder_same_expressions
  logged_same_expressions preorder_survive logged_survive
  compiling_payoff compiling_compile_expr : stepping.

Ltac stepping_step :=
  first
    [ solve [auto with stepping compiling]
    | apply stepping_bind; [solve [auto with stepping] | | intros ?]
    | match goal with
      | |- stepping _ (if ?b then _ else _) => destruct b
      | |- stepping _ (match ?x with _ => _ end) => destruct x
      end ].

(** The store of either grammar. *)
Lemma stored_expressions (var : string) (p : MCPayoffT R)
      (inserted replaced refused : string) (overwrite : bool) :
  stepping same_expressions
    (bind (payoffs_find var)
          (fun it =>
             match it with
             | None =>
                 bind (payoffs_insert var p)
                      (fun _ => scriptLog_push_back inserted)
             | Some _ =>
                 if overwrite then
                   bind (payoffs_assign var p)
                        (fun _ => scriptLog_push_back replaced)
                 else scriptLog_push_back refused
             end)).
Proof.
  intros self. unfold bind, payoffs_find. cbn [fst snd].
  destruct (StdMap.find var (payoffs_ self)); [destruct overwrite|]; reflexivity.
Qed.

Lemma stored_survive (var : string) (p : MCPayoffT R)
      (inserted replaced refused : string) (overwrite : bool) :
  stepping (survive overwrite)
    (bind (payoffs_find var)
          (fun it =>
             match it with
             | None =>
                 bind (payoffs_insert var p)
                      (fun _ => scriptLog_push_back inserted)
             | Some _ =>
                 if overwrite then
                   bind (payoffs_assign var p)
                        (fun _ => scriptLog_push_back replaced)
                 else scriptLog_push_back refused
             end)).
Proof.
  intros self name q Hq. unfold bind, payoffs_find. cbn [fst snd].
  destruct (StdMap.find var (payoffs_ self)) as [old|] eqn:Hold.
  - destruct overwrite; simpl; [|exact Hq].
    rewrite StdMapFacts.find_assign, Hold, Hq.
    now destruct (String.eqb name var).
  - simpl. rewrite StdMapFacts.find_insert by exact Hold.
    destruct (String.eqb_spec name var) as [->|_]; [congruence|].
    rewrite Hq. destruct overwrite; congruence.
Qed.

Lemma store_FlexBison_expressions (overwrite : bool) k (text var : string)
      (p : MCPayoffT R) :
  stepping same_expressions (store_FlexBison overwrite k text var p).
Proof. apply stored_expressions. Qed.

Lemma store_legacy_expressions (overwrite : bool) k (line var : string)
      (p : MCPayoffT R) :
  stepping same_expressions (store_legacy overwrite k line var p).
Proof. apply stored_expressions. Qed.

Lemma store_FlexBison_survive (overwrite : bool) k (text var : string)
      (p : MCPayoffT R) :
  stepping (survive overwrite) (store_FlexBison overwrite k text var p).
Proof. apply stored_survive. Qed.

Lemma store_legacy_survive (overwrite : bool) k (line var : string)
      (p : MCPayoffT R) :
  stepping (survive overwrite) (store_legacy overwrite k line var p).
Proof. apply stored_survive. Qed.

#[local] Hint Resolve store_FlexBison_expressions store_legacy_expressions
  store_FlexBison_survive store_legacy_survive : stepping.

Lemma expressions_push_back_survive (overwrite : bool) (e : string) :
  stepping (survive overwrite) (expressions_push_back (R := R) e).
Proof. intros self. now apply same_payoffs_survive. Qed.

#[local] Hint Resolve expressions_push_back_survive : stepping.

Lemma parseFlexBisonLine_survive (overwrite : bool) k (line : string) :
  stepping (survive overwrite) (parseFlexBisonLine overwrite k line).
Proof. unfold parseFlexBisonLine. repeat stepping_step. Qed.

Lemma parseLine_survive (overwrite : bool) k (script_k : string) :
  stepping (survive overwrite) (parseLine overwrite k script_k).
Proof. unfold parseLine. repeat stepping_step. Qed.

Lemma parseLine_expressions (overwrite : bool) k (script_k : string) :
  stepping same_expressions (parseLine overwrite k script_k).
Proof. unfold parseLine. repeat stepping_step. Qed.

Lemma parse_survive (script : list string) (overwrite : bool) :
  stepping (survive overwrite) (parse script overwrite).
Proof.
  unfold parse, parseScript, parseFlexBisonScript.
  destruct (is_NonRecursive script).
  - apply stepping_bind; [apply preorder_survive | |].
    + apply stepping_for_each_line; [apply preorder_survive|].
      intros; apply parseLine_survive.
    + intros _. destruct (List.length script =? 0)%nat;
        [|apply stepping_ret, preorder_survive].
      apply stepping_push_all; [apply preorder_survive|].
      intros; now apply logged_survive.
  - apply stepping_for_each_line; [apply preorder_survive|].
    intros; apply parseFlexBisonLine_survive.
Qed.

(** X7. No script ever unbinds a name: whatever the lines of a script
    of either grammar do, a name that is bound before the script is
    parsed is still bound after it; and when overwriting is disabled it
    is still bound to the same payoff, so that the script cannot
    redefine what it was given. *)
Theorem X7_bindings_survive_a_script
        (script : list string) (overwrite : bool) self
        (name : string) (p : MCPayoffT R) :
  StdMap.find name (payoffs_ self) = Some p ->
  let self' := snd (parse script overwrite self) in
  StdMap.find name (payoffs_ self') <> None /\
  (overwrite = false -> StdMap.find name (payoffs_ self') = Some p).
Proof.
  intros Hp self'. pose proof (parse_survive script overwrite self name Hp) as H.
  fold self' in H. destruct overwrite.
  - split; [exact H | discriminate].
  - split; [congruence | intros _; exact H].
Qed.

(** ** The expressions a script leaves behind *)

Lemma bind_expressions {A B : Type} (m : M R A) (f : A -> M R B) self :
  (forall a, stepping same_expressions (f a)) ->
  expressions_ (snd (bind m f self)) = expressions_ (snd (m self)).
Proof.
  intros Hf. unfold bind. destruct (m self) as [[a|e] s1]; simpl; [|reflexivity].
  apply Hf.
Qed.

Lemma parseFlexBisonLine_expressions (overwrite : bool) k (line : string) self :
  expressions_ (snd (parseFlexBisonLine overwrite k line self)) =
  expressions_ self ++
  match expressionTree (FlexBisonDriver line) with
  | Some t => ["L" ++ Cxx.to_string k ++ ":" ++ toString t]%string
  | None => []
  end.
Proof.
  unfold parseFlexBisonLine. rewrite bind_expressions.
  - destruct (expressionTree (FlexBisonDriver line)); simpl;
      [reflexivity | now rewrite app_nil_r].
  - intros _. repeat stepping_step.
Qed.

Lemma parseFlexBisonScript_expressions (overwrite : bool)
      (script : list string) k self :
  expressions_ (snd (for_each_line (parseFlexBisonLine overwrite) k script self))
  = expressions_ self ++ recorded k script.
Proof.
  revert k self. induction script as [|line script IH]; intros k self; simpl.
  - now rewrite app_nil_r.
  - unfold bind.
    pose proof (total_unit self (total_parseFlexBisonLine overwrite k line)) as Hret.
    pose proof (parseFlexBisonLine_expressions overwrite k line self) as Hline.
    destruct (parseFlexBisonLine overwrite k line self) as [r s1]; simpl in *.
    subst r. rewrite IH, Hline. now rewrite app_assoc.
Qed.

Lemma parseScript_expressions (script : list string) (overwrite : bool) :
  stepping same_expressions (parseScript script overwrite).
Proof.
  unfold parseScript.
  apply stepping_bind; [apply preorder_same_expressions | |].
  - apply stepping_for_each_line; [apply preorder_same_expressions|].
    intros; apply parseLine_expressions.
  - intros _. destruct (List.length script =? 0)%nat;
      [|apply stepping_ret, preorder_same_expressions].
    apply stepping_push_all; [apply preorder_same_expressions|].
    intros; now apply logged_same_expressions.
Qed.

Lemma initialize_map_expressions (keys : list string)
      (payoffs : list (MCPayoffT R)) (overwrite : bool) :
  stepping same_expressions (initialize_map keys payoffs overwrite).
Proof.
  revert payoffs.
  induction keys as [|key keys IH]; intros [|p payoffs]; simpl;
    try (apply stepping_ret, preorder_same_expressions).
  apply stepping_bind; [apply preorder_same_expressions | | intros it].
  - intros self. reflexivity.
  - apply stepping_bind;
      [apply preorder_same_expressions | | intros ?; apply IH].
    intros self. destruct it; [destruct overwrite|]; reflexivity.
Qed.

(** X8. What [expressions()] holds.  The primary grammar records one
    text "Lk:" followed by the printed tree for every line [k] for
    which the parser hands back a tree, in the order of the lines and
    whether or not the line is then accepted; the legacy grammar
    records nothing.  An object just constructed holds exactly the
    records of its script: the initial bindings leave none. *)
Theorem X8_expressions_record_the_parsed_lines
        (script : list string) (overwrite : bool) self :
  expressions_ (snd (parseFlexBisonScript script overwrite self))
  = expressions_ self ++ recorded 0 script /\
  expressions_ (snd (parseScript script overwrite self)) = expressions_ self /\
  forall keys payoffs obj,
    new_MCScriptT keys payoffs script overwrite = Return obj ->
    expressions_ obj = if is_NonRecursive script then [] else recorded 0 script.
Proof.
  split; [apply parseFlexBisonScript_expressions|].
  split; [apply parseScript_expressions|].
  intros keys payoffs obj. unfold new_MCScriptT. rewrite MCScriptT_ctor_run.
  destruct (negb (List.length keys =? List.length payoffs)%nat); [discriminate|].
  pose proof (initialize_map_expressions keys payoffs overwrite fresh) as Hinit.
  destruct (initialize_map keys payoffs overwrite fresh) as [[[]|e] s1];
    [|discriminate].
  cbv zeta. simpl in Hinit.
  destruct (0 <? StdMap.size (payoffs_ (snd (parse script overwrite s1))))%nat;
    [|discriminate].
  rewrite select_result_run. intros [= <-]. cbn [expressions_].
  unfold parse. destruct (is_NonRecursive script).
  - rewrite (parseScript_expressions script overwrite s1). exact Hinit.
  - unfold parseFlexBisonScript. rewrite parseFlexBisonScript_expressions.
    now rewrite Hinit.
Qed.

(* ================================================================= *)
(** * Further properties of the legacy grammar *)

(** ** Functions and operators *)

Lemma with_operand_value (operand : string) k
      (cont : MCPayoffT R -> M R (shared_ptr R)) self (p : MCPayoffT R) :
  (forall p', compiling (cont p')) ->
  fst (payoff_string operand k self) = Return (Some p) ->
  fst (with_operand operand k cont self) = fst (cont p self).
Proof.
  intros Hcont Hp. unfold with_operand.
  rewrite (bind_value _ _ (a := Some p)); auto with compiling.
  intros [p'|]; [apply Hcont | solve_compiling].
Qed.

Ltac operand_value :=
  erewrite with_operand_value;
  [ | intros; repeat first [ apply compiling_with_operand; intros
                           | compiling_step ]
    | eassumption ].

(** X9. The functions of the legacy grammar are told apart by their
    exact name.  With operands that resolve, a call of one argument is
    a cache node when the name is "Cache"; a call of two arguments is a
    minimum, a maximum or a payment when the name is "Min", "Max" or
    "Pay" -- the payment is made at the second operand read as a
    number when it is one, and at the observation time of the second
    operand's payoff otherwise --; a call of three arguments is a
    conditional when the name is "IfThenElse".  Any other name, a
    different spelling included, gives the null pointer. *)
Theorem X9_legacy_functions_are_chosen_by_name
        (fname o1 o2 o3 : string) k self (p1 p2 p3 : MCPayoffT R) :
  fst (payoff_string o1 k self) = Return (Some p1) ->
  fst (payoff_string o2 k self) = Return (Some p2) ->
  fst (payoff_string o3 k self) = Return (Some p3) ->
  fst (function1 fname o1 k self) =
  Return (if String.eqb fname "Cache" then Some (Cache (Some p1)) else None) /\
  fst (function2 fname o1 o2 k self) =
  Return (if String.eqb fname "Min" then Some (Min (Some p1) (Some p2))
          else if String.eqb fname "Max" then Some (Max (Some p1) (Some p2))
          else if String.eqb fname "Pay" then
            Some (Pay (Some p1)
                      match to_Number o2 with
                      | Some t => t
                      | None => observationTime p2
                      end)
          else None) /\
  fst (function3 fname o1 o2 o3 k self) =
  Return (if String.eqb fname "IfThenElse" then
            Some (IfThenElse (Some p1) (Some p2) (Some p3))
          else None).
Proof.
  intros H1 H2 H3. repeat split.
  - unfold function1. operand_value.
    rewrite RegexFacts.matches_Lit. now destruct (String.eqb fname "Cache").
  - unfold function2. operand_value. operand_value.
    rewrite !RegexFacts.matches_Lit.
    destruct (String.eqb fname "Min"); [reflexivity|].
    destruct (String.eqb fname "Max"); [reflexivity|].
    destruct (String.eqb fname "Pay"); [|reflexivity].
    now destruct (to_Number o2).
  - unfold function3. operand_value. operand_value. operand_value.
    rewrite RegexFacts.matches_Lit.
    now destruct (String.eqb fname "IfThenElse").
Qed.

(** X10. The operators of the legacy grammar, on operands that
    resolve to [p1] and [p2]: a unary plus gives [p1] itself and a
    unary minus [Axpy(-1, p1, 0)]; [p1 + p2] is [Axpy(1, p1, p2)],
    [p1 - p2] is [Axpy(-1, p2, p1)], [p1 * p2] is [Mult(p1, p2)], and
    each of the eight comparison and logical operators gives
    [Logical(p1, p2, op)]; any other operator gives the null
    pointer. *)
Theorem X10_legacy_operators_build_their_nodes
        (op o1 o2 : string) k self (p1 p2 : MCPayoffT R) :
  fst (payoff_string o1 k self) = Return (Some p1) ->
  fst (payoff_string o2 k self) = Return (Some p2) ->
  fst (operator1 op o1 k self) =
  Return (if String.eqb op "+" then Some p1
          else if String.eqb op "-" then
            Some (Axpy (of_int (-1)) (Some p1) None)
          else None) /\
  fst (operator2 op o1 o2 k self) =
  Return (if String.eqb op "+" then
            Some (Axpy (of_int 1) (Some p1) (Some p2))
          else if String.eqb op "-" then
            Some (Axpy (of_int (-1)) (Some p2) (Some p1))
          else if String.eqb op "*" then Some (Mult (Some p1) (Some p2))
          else if existsb (String.eqb op)
                          ["=="; "!="; "<"; "<="; ">"; ">="; "&&"; "||"]%string
          then Some (Logical (Some p1) (Some p2) op)
          else None).
Proof.
  intros H1 H2. split.
  - unfold operator1. operand_value.
    rewrite !RegexFacts.matches_Lit.
    destruct (String.eqb op "+"); [reflexivity|].
    now destruct (String.eqb op "-").
  - unfold operator2. operand_value. operand_value.
    rewrite RegexFacts.matches_re_logical, !RegexFacts.matches_Lit.
    destruct (String.eqb op "+"); [reflexivity|].
    destruct (String.eqb op "-"); [reflexivity|].
    destruct (String.eqb op "*"); [reflexivity|].
    now destruct (existsb _ _).
Qed.

(** ** References to names *)

(** X11. The legacy grammar tries an operand as a number before it
    looks it up: a name bound in the symbol table is found by a
    reference when it does not start with "inf" or "nan" (in any
    case); a name that does is read as the fixed amount infinity, or
    NaN, and its binding is never reached. *)
Theorem X11_legacy_names_read_as_numbers_are_shadowed
        (name : string) (p : MCPayoffT R) k self :
  StdMap.find name (payoffs_ self) = Some p ->
  is_identifier name = true ->
  (starts_with "inf" name = false -> starts_with "nan" name = false ->
   fst (payoff_string name k self) = Return (Some p)) /\
  (starts_with "inf" name = true ->
   forall x, of_strtod (Cxx.Infinity false) = Some x ->
             fst (payoff_string name k self) = Return (Some (FixedAmount x))) /\
  (starts_with "nan" name = true ->
   forall x, of_strtod (Cxx.NaN false) = Some x ->
             fst (payoff_string name k self) = Return (Some (FixedAmount x))).
Proof.
  intros Hfind Hid. repeat split.
  - intros Hinf Hnan.
    pose proof (CxxWordFacts.strtod_identifier name Hid Hinf Hnan) as Hs.
    unfold payoff_string, to_Number, stod. rewrite Hs.
    unfold bind, payoffs_find. cbn [fst snd]. now rewrite Hfind.
  - intros Hinf x Hx.
    destruct (CxxWordFacts.strtod_inf name Hinf) as [sz Hs].
    unfold payoff_string. rewrite (to_Number_strtod _ Hs), Hx. reflexivity.
  - intros Hnan x Hx.
    destruct (CxxWordFacts.strtod_nan name Hnan) as [sz Hs].
    unfold payoff_string. rewrite (to_Number_strtod _ Hs), Hx. reflexivity.
Qed.

(** ** Right-hand sides that are one operand *)

(** X12. A right-hand side of the legacy grammar that holds none of
    the characters of the operators, and no opening parenthesis, is
    matched by none of the operator and function patterns: it is
    compiled as one operand, a number or a name.  A line  y = x  thus
    binds [y] to the payoff that [x] is bound to. *)
Theorem X12_a_plain_right_hand_side_is_one_operand
        (expr : string) k self :
  plain expr = true ->
  compile_expr expr k self = payoff_string expr k self.
Proof.
  intros Hplain. unfold compile_expr.
  rewrite (RegexFacts.marked_no_match re_operator1 expr eq_refl Hplain).
  rewrite (RegexFacts.marked_no_match re_operator2 expr eq_refl Hplain).
  rewrite (RegexFacts.marked_no_match re_function3 expr eq_refl Hplain).
  rewrite (RegexFacts.marked_no_match re_function2 expr eq_refl Hplain).
  rewrite (RegexFacts.marked_no_match re_function1 expr eq_refl Hplain).
  reflexivity.
Qed.

(** ** The two grammars side by side *)

Lemma binary_node_value (f : shared_ptr R * shared_ptr R -> MCPayoffT R)
      (c0 c1 : option Expression) (x0 x1 : shared_ptr R) k self :
  fst (payoff c0 k self) = Return x0 ->
  fst (payoff c1 k self) = Return x1 ->
  fst (bind (arguments2 (payoff c0 k) (payoff c1 k))
            (fun xy => ret (Some (f xy))) self)
  = Return (Some (f (x0, x1))).
Proof.
  intros H0 H1. rewrite (bind_value _ _ (a := (x0, x1))); auto.
  - apply compiling_arguments2; apply compiling_payoff.
  - intros; solve_compiling.
  - apply arguments2_value; auto using compiling_payoff.
Qed.

Lemma logical_operator_names (op : string) :
  existsb (String.eqb op) ["=="; "!="; "<"; "<="; ">"; ">="; "&&"; "||"]%string
  = true ->
  String.eqb op "+" = false /\ String.eqb op "-" = false /\
  String.eqb op "*" = false.
Proof.
  cbn [existsb]. rewrite !orb_true_iff, !String.eqb_eq.
  intros [->|[->|[->|[->|[->|[->|[->|[->|H]]]]]]]];
    try discriminate H; repeat split.
Qed.

(** X13. The two grammars build the same payoffs.  When the operands
    of an expression are given to the primary grammar as trees and to
    the legacy grammar as texts, and each tree compiles to the payoff
    its text resolves to, then a unary plus or minus, a sum, a
    difference, a product, a comparison, a minimum, a maximum, a
    conditional and a cache node of the primary grammar compile to the
    payoff that the operator or the function of the same name gives in
    the legacy grammar. *)
Theorem X13_the_two_grammars_build_the_same_payoffs
        k self (c1 c2 c3 : option Expression) (o1 o2 o3 : string)
        (p1 p2 p3 : MCPayoffT R) (op : string) :
  fst (payoff c1 k self) = Return (Some p1) ->
  fst (payoff_string o1 k self) = Return (Some p1) ->
  fst (payoff c2 k self) = Return (Some p2) ->
  fst (payoff_string o2 k self) = Return (Some p2) ->
  fst (payoff c3 k self) = Return (Some p3) ->
  fst (payoff_string o3 k self) = Return (Some p3) ->
  existsb (String.eqb op) ["=="; "!="; "<"; "<="; ">"; ">="; "&&"; "||"]%string
  = true ->
  fst (payoff (Some (Expr UNARYPLUS [c1] [])) k self)
  = fst (operator1 "+" o1 k self) /\
  fst (payoff (Some (Expr UNARYMINUS [c1] [])) k self)
  = fst (operator1 "-" o1 k self) /\
  fst (payoff (Some (Expr PLUS [c1; c2] [])) k self)
  = fst (operator2 "+" o1 o2 k self) /\
  fst (payoff (Some (Expr MINUS [c1; c2] [])) k self)
  = fst (operator2 "-" o1 o2 k self) /\
  fst (payoff (Some (Expr MULT [c1; c2] [])) k self)
  = fst (operator2 "*" o1 o2 k self) /\
  fst (payoff (Some (Expr LOGICAL [c1; c2] [op])) k self)
  = fst (operator2 op o1 o2 k self) /\
  fst (payoff (Some (Expr MIN [c1; c2] [])) k self)
  = fst (function2 "Min" o1 o2 k self) /\
  fst (payoff (Some (Expr MAX [c1; c2] [])) k self)
  = fst (function2 "Max" o1 o2 k self) /\
  fst (payoff (Some (Expr IFTHENELSE [c1; c2; c3] [])) k self)
  = fst (function3 "IfThenElse" o1 o2 o3 k self) /\
  fst (payoff (Some (Expr CACHE [c1] [])) k self)
  = fst (function1 "Cache" o1 k self).
Proof.
  intros Hc1 Ho1 Hc2 Ho2 Hc3 Ho3 Hop.
  destruct (logical_operator_names op Hop) as (Hplus & Hminus & Htimes).
  assert (Hunary : forall f : shared_ptr R -> shared_ptr R,
             fst (bind (payoff c1 k) (fun x => ret (f x)) self)
             = Return (f (Some p1))).
  { intros f. rewrite (bind_value _ _ (a := Some p1));
      auto using compiling_payoff.
    intros; solve_compiling. }
  repeat split.
  - unfold operator1. operand_value. exact Hc1.
  - unfold operator1. operand_value.
    exact (Hunary (fun x => Some (Axpy (of_int (-1)) x None))).
  - unfold operator2. operand_value. operand_value.
    exact (binary_node_value
             (fun xy => Axpy (of_int 1) (fst xy) (snd xy)) _ _ k self Hc1 Hc2).
  - unfold operator2. operand_value. operand_value.
    exact (binary_node_value
             (fun xy => Axpy (of_int (-1)) (fst xy) (snd xy)) _ _ k self Hc2 Hc1).
  - unfold operator2. operand_value. operand_value.
    exact (binary_node_value
             (fun xy => Mult (fst xy) (snd xy)) _ _ k self Hc1 Hc2).
  - unfold operator2. operand_value. operand_value.
    rewrite RegexFacts.matches_re_logical, !RegexFacts.matches_Lit.
    rewrite Hplus, Hminus, Htimes, Hop.
    exact (binary_node_value
             (fun xy => Logical (fst xy) (snd xy) op) _ _ k self Hc1 Hc2).
  - unfold function2. operand_value. operand_value.
    exact (binary_node_value
             (fun xy => Min (fst xy) (snd xy)) _ _ k self Hc1 Hc2).
  - unfold function2. operand_value. operand_value.
    exact (binary_node_value
             (fun xy => Max (fst xy) (snd xy)) _ _ k self Hc1 Hc2).
  - unfold function3. operand_value. operand_value. operand_value.
    change (fst (bind (arguments3 (payoff c1 k) (payoff c2 k) (payoff c3 k))
                      (fun xyz => ret (Some (IfThenElse (fst (fst xyz))
                                                        (snd (fst xyz))
                                                        (snd xyz)))) self)
            = Return (Some (IfThenElse (Some p1) (Some p2) (Some p3)))).
    rewrite (bind_value _ _ (a := (Some p1, Some p2, Some p3))); auto.
    + apply compiling_arguments3; apply compiling_payoff.
    + intros; solve_compiling.
    + apply arguments3_value; auto using compiling_payoff.
  - unfold function1. operand_value.
    exact (Hunary (fun x => Some (Cache x))).
Qed.

(** X14. The legacy grammar knows no dates.  The time of a payment is
    its second operand read as a number, and a number is read from the
    head of a text: when the second operand of "Pay" starts with digits
    that something other than the rest of a number follows, as a date
    15Jan2020 does, the payment is made at the time these digits
    spell. *)
Theorem X14_a_legacy_payment_is_made_at_the_leading_digits
        (o1 digits tail : string) (p1 : MCPayoffT R) (t : R) k self :
  fst (payoff_string o1 k self) = Return (Some p1) ->
  digits <> EmptyString ->
  all_digits digits = true ->
  ends_number tail = true ->
  to_Number digits = Some t ->
  fst (function2 "Pay" o1 (digits ++ tail) k self)
  = Return (Some (Pay (Some p1) t)).
Proof.
  intros H1 Hne Hdigits Htail Ht.
  assert (Hnumber : to_Number (digits ++ tail) = Some t)
    by now rewrite (to_Number_digits tail Hne Hdigits Htail).
  assert (H2 : fst (payoff_string (digits ++ tail) k self)
               = Return (Some (FixedAmount t))).
  { unfold payoff_string. now rewrite Hnumber. }
  unfold function2. operand_value. operand_value.
  rewrite !RegexFacts.matches_Lit. cbn [String.eqb Ascii.eqb Bool.eqb].
  now rewrite Hnumber.
Qed.

(** ** The lines of a legacy script *)

(** X15. A line of the legacy grammar never throws, and it has two
    outcomes.  Either it binds its target name -- it has the form of
    an assignment, its right-hand side compiles to a payoff [p], and
    the name is unbound or may be overwritten --: then [p] is inserted
    or replaces the old payoff, and the last message of the line is
    "Insert line k" or "Replace line k" with the text of the line
    without its blanks.  Or it leaves the symbol table as it is, and
    its last message is an "Error line k" diagnostic. *)
Theorem X15_a_legacy_line_binds_its_name_or_reports
        (overwrite : bool) k (script_k : string) self :
  let line := Regex.remove_spaces script_k in
  let self' := snd (parseLine overwrite k script_k self) in
  fst (parseLine overwrite k script_k self) = Return tt /\
  ((payoffs_ self' = payoffs_ self /\
    exists added reason,
      scriptLog_ self' = scriptLog_ self ++ added ++ [Error_line k reason]) \/
   (exists var p added,
       legacy_target script_k = Some var /\
       fst (compile_expr (legacy_rhs script_k) k self) = Return (Some p) /\
       match StdMap.find var (payoffs_ self) with
       | None =>
           payoffs_ self' = StdMap.insert var p (payoffs_ self) /\
           scriptLog_ self'
           = scriptLog_ self ++ added
               ++ [("Insert line " ++ Cxx.to_string k ++ ": '" ++ line ++ "'")%string]
       | Some _ =>
           overwrite = true /\
           payoffs_ self' = StdMap.assign var p (payoffs_ self) /\
           scriptLog_ self'
           = scriptLog_ self ++ added
               ++ [("Replace line " ++ Cxx.to_string k ++ ": '" ++ line ++ "'")%string]
       end)).
Proof.
  cbv zeta. split; [apply total_unit, total_parseLine|].
  unfold parseLine, legacy_target, legacy_rhs.
  destruct (Regex.regex_match (Regex.remove_spaces script_k) re_assignment)
    as [what|].
  - destruct (compiling_compile_expr (Regex.sub what 3) k self)
      as [(Hp & _ & _ & _ & added & Hl) _].
    destruct (total_compile_expr (Regex.sub what 3) k self) as [r Hr].
    unfold bind.
    destruct (compile_expr (Regex.sub what 3) k self) as [r' s1].
    cbn [fst snd] in *. subst r'. destruct r as [p|].
    + unfold store_legacy, bind, payoffs_find. cbn [fst snd]. rewrite Hp.
      destruct (StdMap.find (Regex.sub what 1) (payoffs_ self)) as [old|] eqn:Hold.
      * destruct overwrite; simpl.
        -- right. exists (Regex.sub what 1), p, added. rewrite Hold, Hp, Hl.
           now rewrite app_assoc.
        -- left. split; [exact Hp|].
           exists added, ("'" ++ Regex.sub what 1 ++ "' can not be replaced")%string.
           now rewrite Hl, app_assoc.
      * simpl. right. exists (Regex.sub what 1), p, added.
        rewrite Hold, Hp, Hl. now rewrite app_assoc.
    + simpl. left. split; [exact Hp|].
      exists added, ("'" ++ Regex.sub what 3 ++ "' is no valid expression")%string.
      now rewrite Hl, app_assoc.
  - simpl. left. split; [reflexivity|].
    exists [], ("'" ++ Regex.remove_spaces script_k
                    ++ "' is no valid assignment")%string.
    reflexivity.
Qed.

(** ** Where the names of the symbol table come from *)

Lemma find_inserted (m : StdMap.t (MCPayoffT R)) (var name : string)
      (p : MCPayoffT R) :
  StdMap.find var m = None ->
  StdMap.find name (StdMap.insert var p m) <> None ->
  StdMap.find name m <> None \/ var = name.
Proof.
  intros Hvar. rewrite StdMapFacts.find_insert by exact Hvar.
  destruct (String.eqb_spec name var) as [->|_]; auto.
Qed.

Lemma find_assigned (m : StdMap.t (MCPayoffT R)) (var name : string)
      (p : MCPayoffT R) :
  StdMap.find name (StdMap.assign var p m) <> None ->
  StdMap.find name m <> None.
Proof.
  rewrite StdMapFacts.find_assign.
  destruct (String.eqb_spec name var) as [->|_]; [|auto].
  now destruct (StdMap.find var m).
Qed.

Lemma parseFlexBisonLine_names (overwrite : bool) k (line : string) self
      (name : string) :
  StdMap.find name (payoffs_ (snd (parseFlexBisonLine overwrite k line self)))
  <> None ->
  StdMap.find name (payoffs_ self) <> None \/ target line = Some name.
Proof.
  destruct (line_fails_or_stores overwrite k line self)
    as [Hfail | (n & p & Hline & _)].
  - destruct (stage_failure_logged Hfail) as [-> _]. auto.
  - rewrite (compiled_line_payoffs overwrite Hline).
    destruct Hline as (rhs & Hrv & Htree & _ & _).
    assert (Ht : target line = Some n) by (unfold target; now rewrite Hrv, Htree).
    rewrite Ht.
    destruct (StdMap.find n (payoffs_ self)) as [old|] eqn:Hold.
    + destruct overwrite; [|auto]. intros H. left.
      now apply find_assigned in H.
    + intros H. apply find_inserted in H; [|exact Hold].
      destruct H as [H| ->]; auto.
Qed.

Lemma parseLine_names (overwrite : bool) k (script_k : string) self
      (name : string) :
  StdMap.find name (payoffs_ (snd (parseLine overwrite k script_k self)))
  <> None ->
  StdMap.find name (payoffs_ self) <> None \/ legacy_target script_k = Some name.
Proof.
  unfold parseLine, legacy_target.
  destruct (Regex.regex_match (Regex.remove_spaces script_k) re_assignment)
    as [what|]; [|auto].
  destruct (compiling_compile_expr (Regex.sub what 3) k self) as [(Hp & _) _].
  unfold bind.
  destruct (compile_expr (Regex.sub what 3) k self) as [[[p|]|e] s1];
    cbn [fst snd] in *;
    [ | simpl; rewrite Hp; auto | simpl; rewrite Hp; auto ].
  unfold store_legacy, bind, payoffs_find. cbn [fst snd]. rewrite Hp.
  destruct (StdMap.find (Regex.sub what 1) (payoffs_ self)) as [old|] eqn:Hold.
  - destruct overwrite; simpl; rewrite Hp; [|auto].
    intros H. left. now apply find_assigned in H.
  - simpl. rewrite Hp. intros H. apply find_inserted in H; [|exact Hold].
    destruct H as [H| ->]; auto.
Qed.

Lemma for_each_line_names (body : nat -> string -> M R unit)
      (of_line : string -> option string) :
  (forall k line self name,
      StdMap.find name (payoffs_ (snd (body k line self))) <> None ->
      StdMap.find name (payoffs_ self) <> None \/ of_line line = Some name) ->
  forall script k self name,
    StdMap.find name (payoffs_ (snd (for_each_line body k script self))) <> None ->
    StdMap.find name (payoffs_ self) <> None \/ In name (targets of_line script).
Proof.
  intros Hb script.
  induction script as [|line script IH]; intros k self name; simpl; [auto|].
  unfold bind. specialize (Hb k line self name).
  destruct (body k line self) as [[[]|e] s1]; cbn [fst snd] in *.
  - intros H. apply IH in H. rewrite in_app_iff.
    destruct H as [H|H]; [|auto].
    destruct (Hb H) as [H'| ->]; [auto|]. right. left. now left.
  - intros H. destruct (Hb H) as [H'| ->]; [auto|].
    right. rewrite in_app_iff. left. now left.
Qed.

Lemma legacy_targets_are_identifiers (script : list string) (name : string) :
  In name (targets legacy_target script) -> is_identifier name = true.
Proof.
  unfold targets. rewrite in_flat_map. intros (line & _ & H).
  unfold legacy_target in H.
  destruct (Regex.regex_match (Regex.remove_spaces line) re_assignment)
    as [what|] eqn:Hm; [|contradiction].
  destruct H as [<-|[]]. exact (RegexFacts.re_assignment_name _ Hm).
Qed.

(** X16. A script binds no name but the targets of its lines: a name
    that is in the symbol table after a script was already there
    before it, or it is the name that some line of the script assigns
    to.  Under the legacy grammar such a name is a letter followed by
    letters and digits. *)
Theorem X16_only_assigned_names_are_bound
        (script : list string) (overwrite : bool) self (name : string) :
  StdMap.find name (payoffs_ (snd (parse script overwrite self))) <> None ->
  StdMap.find name (payoffs_ self) <> None \/
  if is_NonRecursive script then
    In name (targets legacy_target script) /\ is_identifier name = true
  else In name (targets target script).
Proof.
  unfold parse. destruct (is_NonRecursive script).
  - unfold parseScript, bind.
    pose proof (for_each_line_names (parseLine overwrite) legacy_target
                  (parseLine_names overwrite) script 0 self name) as Hloop.
    destruct (for_each_line (parseLine overwrite) 0 script self) as [[[]|e] s1];
      cbn [fst snd] in *.
    + assert (Hhelp : payoffs_
                        (snd ((if (List.length script =? 0)%nat
                               then scriptLog_push_back_all grammar_help
                               else ret tt) s1)) = payoffs_ s1).
      { destruct (List.length script =? 0)%nat; [|reflexivity].
        apply (stepping_push_all (Rel := fun a b => payoffs_ b = payoffs_ a)).
        - split; congruence.
        - now intros a b (Hp & _). }
      rewrite Hhelp. intros H. destruct (Hloop H) as [H'|H']; [auto|].
      right. split; [exact H' | now apply legacy_targets_are_identifiers with script].
    + intros H. destruct (Hloop H) as [H'|H']; [auto|].
      right. split; [exact H' | now apply legacy_targets_are_identifiers with script].
  - apply for_each_line_names. apply parseFlexBisonLine_names.
Qed.

(* ================================================================= *)
(** * Further properties of the constructor *)

Lemma initialize_map_find (keys : list string) (payoffs : list (MCPayoffT R))
      (overwrite : bool) self (key : string) :
  fst (initialize_map keys payoffs overwrite self) = Return tt ->
  StdMap.find key (payoffs_ (snd (initialize_map keys payoffs overwrite self)))
  = match last_binding key (combine keys payoffs) with
    | Some p => Some p
    | None => StdMap.find key (payoffs_ self)
    end.
Proof.
  revert payoffs self.
  induction keys as [|key0 keys IH]; intros [|p payoffs] self; simpl;
    try reflexivity.
  unfold bind, payoffs_find. cbn [fst snd].
  destruct (StdMap.find key0 (payoffs_ self)) as [old|] eqn:Hold.
  - destruct overwrite; simpl; [|discriminate].
    intros Hret. rewrite (IH _ _ Hret). cbn [payoffs_].
    destruct (last_binding key (combine keys payoffs)); [reflexivity|].
    rewrite StdMapFacts.find_assign, Hold.
    now destruct (String.eqb key key0).
  - simpl. intros Hret. rewrite (IH _ _ Hret). cbn [payoffs_].
    destruct (last_binding key (combine keys payoffs)); [reflexivity|].
    rewrite StdMapFacts.find_insert by exact Hold.
    now destruct (String.eqb key key0).
Qed.

Lemma last_binding_In {V : Type} (key : string) (keys : list string)
      (values : list V) :
  List.length keys = List.length values ->
  In key keys -> last_binding key (combine keys values) <> None.
Proof.
  revert values.
  induction keys as [|k keys IH]; intros [|v values]; simpl; try discriminate;
    try contradiction.
  intros [= Hlen] [->|Hin].
  - destruct (last_binding key (combine keys values)); [discriminate|].
    now rewrite String.eqb_refl.
  - specialize (IH values Hlen Hin).
    now destruct (last_binding key (combine keys values)).
Qed.

Lemma last_binding_keys {V : Type} (key : string) (keys : list string)
      (values : list V) :
  last_binding key (combine keys values) <> None -> In key keys.
Proof.
  revert values.
  induction keys as [|k keys IH]; intros [|v values]; simpl; try congruence.
  destruct (last_binding key (combine keys values)) eqn:Hl.
  - intros _. right. apply (IH values). congruence.
  - destruct (String.eqb_spec key k) as [->|]; [now left | congruence].
Qed.

Lemma last_binding_NoDup {V : Type} (key : string) (v : V)
      (keys : list string) (values : list V) :
  NoDup keys -> In (key, v) (combine keys values) ->
  last_binding key (combine keys values) = Some v.
Proof.
  revert values.
  induction keys as [|k keys IH]; intros [|v0 values]; simpl; try contradiction.
  intros Hnd. inversion Hnd as [|? ? Hnotin Hnd']; subst.
  intros [[= -> ->]|Hin].
  - destruct (last_binding key (combine keys values)) as [v'|] eqn:Hl.
    + exfalso. apply Hnotin. apply (last_binding_keys key keys values).
      congruence.
    + now rewrite String.eqb_refl.
  - now rewrite (IH values Hnd' Hin).
Qed.

Lemma find_Some_size (m : StdMap.t (MCPayoffT R)) (key : string) :
  StdMap.find key m <> None -> 0 < StdMap.size m.
Proof. destruct m; simpl; [congruence | lia]. Qed.

(** The object the constructor leaves, seen from the table its
    initial bindings and its script build. *)
Lemma new_MCScriptT_stages (keys : list string) (payoffs : list (MCPayoffT R))
      (script : list string) (overwrite : bool) (obj : MCScriptT R) :
  new_MCScriptT keys payoffs script overwrite = Return obj ->
  List.length keys = List.length payoffs /\
  exists s1,
    initialize_map keys payoffs overwrite fresh = (Return tt, s1) /\
    payoffs_ obj = payoffs_ (snd (parse script overwrite s1)) /\
    result_ obj = selected (snd (parse script overwrite s1)) /\
    match result_ obj with
    | Some p => observationTime_ obj = observationTime p
    | None => False
    end.
Proof.
  unfold new_MCScriptT. rewrite MCScriptT_ctor_run.
  destruct (Nat.eqb_spec (List.length keys) (List.length payoffs)) as [Hlen|];
    [|discriminate].
  cbn [negb].
  pose proof (advancing_initialize_map keys payoffs overwrite fresh) as Hinit.
  destruct (initialize_map keys payoffs overwrite fresh) as [[[]|e] s1];
    [|discriminate].
  cbv zeta.
  destruct (Nat.ltb_spec 0 (StdMap.size (payoffs_ (snd (parse script overwrite s1)))))
    as [Hpos|Hzero]; [|discriminate].
  rewrite select_result_run. intros [= <-].
  split; [exact Hlen|]. exists s1. cbn [payoffs_ result_ observationTime_].
  repeat split.
  unfold selected.
  destruct (StdMap.find "payoff" (payoffs_ (snd (parse script overwrite s1))));
    [reflexivity|].
  destruct (StdMap.rbegin (payoffs_ (snd (parse script overwrite s1))))
    as [[name p]|] eqn:Hlast; [reflexivity|].
  apply StdMapFacts.rbegin_None in Hlast. lia.
Qed.

(** X17. The initial bindings in the constructed object.  Every name
    handed to the constructor is bound in the object, whatever the
    script.  With an empty script the table is that of the initial
    bindings, and a name given more than once is bound to the payoff
    of its last occurrence.  When overwriting is disabled every initial
    binding is in the object as it was given: the script cannot
    redefine it. *)
Theorem X17_initial_bindings_of_the_constructed_object
        (keys : list string) (payoffs : list (MCPayoffT R))
        (script : list string) (overwrite : bool) (obj : MCScriptT R) :
  new_MCScriptT keys payoffs script overwrite = Return obj ->
  (forall key, In key keys -> StdMap.find key (payoffs_ obj) <> None) /\
  (script = [] ->
   forall key,
     StdMap.find key (payoffs_ obj) = last_binding key (combine keys payoffs)) /\
  (overwrite = false ->
   forall key p,
     In (key, p) (combine keys payoffs) ->
     StdMap.find key (payoffs_ obj) = Some p).
Proof.
  intros Hnew.
  destruct (new_MCScriptT_stages _ _ _ _ Hnew)
    as (Hlen & s1 & Hinit & Hp & _ & _).
  assert (Hfind : forall key,
             StdMap.find key (payoffs_ s1)
             = last_binding key (combine keys payoffs)).
  { intros key.
    pose proof (initialize_map_find keys payoffs overwrite fresh key) as H.
    rewrite Hinit in H. cbn [fst snd] in H. rewrite H by reflexivity.
    now destruct (last_binding key (combine keys payoffs)). }
  rewrite Hp. repeat split.
  - intros key Hin.
    pose proof (last_binding_In key keys payoffs Hlen Hin) as Hsome.
    rewrite <- Hfind in Hsome.
    destruct (StdMap.find key (payoffs_ s1)) as [p|] eqn:Hk; [|congruence].
    pose proof (parse_survive script overwrite s1 key Hk) as Hs.
    destruct overwrite; [exact Hs | congruence].
  - intros -> key. simpl. apply Hfind.
  - intros -> key p Hin.
    assert (Hnd : NoDup keys).
    { apply (initialize_map_returns keys payoffs fresh Hlen).
      now rewrite Hinit. }
    pose proof (@last_binding_NoDup _ key p keys payoffs Hnd Hin) as Hl.
    rewrite <- Hfind in Hl.
    exact (parse_survive script false s1 key Hl).
Qed.

(** X18. A constructor call with at least one initial binding, as
    many payoffs as names, and no repeated name unless overwriting is
    enabled, returns an object whatever the script is: no line of a
    script, of either grammar, can make the constructor throw. *)
Theorem X18_no_script_makes_the_constructor_throw
        (keys : list string) (payoffs : list (MCPayoffT R))
        (script : list string) (overwrite : bool) :
  keys <> [] ->
  List.length keys = List.length payoffs ->
  overwrite = true \/ NoDup keys ->
  exists obj, new_MCScriptT keys payoffs script overwrite = Return obj.
Proof.
  intros Hne Hlen Hok. unfold new_MCScriptT. rewrite MCScriptT_ctor_run.
  rewrite Hlen, Nat.eqb_refl. cbn [negb].
  assert (Hret : fst (initialize_map keys payoffs overwrite fresh) = Return tt).
  { destruct overwrite; [apply initialize_map_overwrite|].
    destruct Hok as [|Hnd]; [discriminate|].
    apply (initialize_map_returns keys payoffs fresh Hlen). now split. }
  destruct keys as [|key keys]; [contradiction|].
  pose proof (initialize_map_find (key :: keys) payoffs overwrite fresh key Hret)
    as Hfind.
  pose proof (@last_binding_In _ key (key :: keys) payoffs Hlen
                               (or_introl eq_refl)) as Hsome.
  destruct (initialize_map (key :: keys) payoffs overwrite fresh) as [r s1].
  cbn [fst snd] in *. subst r. cbv zeta.
  destruct (last_binding key (combine (key :: keys) payoffs)) as [p|];
    [|congruence].
  pose proof (parse_survive script overwrite s1 key Hfind) as Hs.
  assert (Hpos : 0 < StdMap.size (payoffs_ (snd (parse script overwrite s1)))).
  { apply find_Some_size with key. destruct overwrite; [exact Hs | congruence]. }
  apply Nat.ltb_lt in Hpos. rewrite Hpos, select_result_run. eauto.
Qed.

(** X19. The result of a constructed object is never the null
    pointer: it is the payoff of a name of the object's symbol table,
    and the observation time the object reports as its own is the
    observation time of that payoff. *)
Theorem X19_the_object_takes_the_time_of_its_result
        (keys : list string) (payoffs : list (MCPayoffT R))
        (script : list string) (overwrite : bool) (obj : MCScriptT R) :
  new_MCScriptT keys payoffs script overwrite = Return obj ->
  exists name p,
    StdMap.find name (payoffs_ obj) = Some p /\
    result_ obj = Some p /\
    observationTime_ obj = observationTime p.
Proof.
  intros Hnew.
  destruct (new_MCScriptT_inv _ _ _ _ Hnew)
    as (s1 & Hinit & Hord & _ & Hp & _ & Hr).
  destruct (new_MCScriptT_stages _ _ _ _ Hnew) as (_ & s1' & Hinit' & _ & _ & Ht).
  cbv zeta in *. rewrite Hr in Ht |- *. rewrite Hp. unfold selected in *.
  destruct (StdMap.find "payoff" (payoffs_ (snd (parse script overwrite s1))))
    as [p|] eqn:Hpay.
  - exists "payoff"%string, p. auto.
  - destruct (StdMap.rbegin (payoffs_ (snd (parse script overwrite s1))))
      as [[name p]|] eqn:Hlast; [|contradiction].
    exists name, p. simpl in *.
    destruct (StdMapFacts.rbegin_greatest Hord Hlast) as [Hfind _]. auto.
Qed.

(* ================================================================= *)
(** * Further properties of the queries *)

Lemma findPayoffs_from_run self (keys : list string) (throwException : bool)
      (acc : list (MCPayoffT R)) :
  findPayoffs_from self keys throwException acc =
  match (if throwException then first_missing self keys else None) with
  | Some key => Throw (not_found key)
  | None => Return (acc ++ bound_payoffs self keys)
  end.
Proof.
  revert acc. induction keys as [|key keys IH]; intros acc; simpl.
  - destruct throwException; now rewrite app_nil_r.
  - destruct (StdMap.find key (payoffs_ self)) as [p|].
    + rewrite IH. simpl.
      destruct (if throwException then first_missing self keys else None);
        [reflexivity|].
      now rewrite <- app_assoc.
    + destruct throwException; [reflexivity|]. now rewrite IH.
Qed.

Lemma first_missing_None self (keys : list string) :
  first_missing self keys = None ->
  List.length (bound_payoffs self keys) = List.length keys.
Proof.
  induction keys as [|key keys IH]; simpl; [reflexivity|].
  destruct (StdMap.find key (payoffs_ self)); [|discriminate].
  intros H. simpl. now rewrite (IH H).
Qed.

(** X20. [findPayoffs] hands back the payoffs of the requested names
    in the order of the request.  Asked not to throw, it silently
    leaves out the names that are not bound.  Asked to throw, as it is
    by default, it fails at the first name that is not bound, and the
    exception names it; when it returns there is one payoff per
    requested name.  The valuation fails with the same exception, before
    any path is fetched. *)
Theorem X20_findPayoffs_reports_the_first_missing_name
        self (keys : list string) :
  findPayoffs self keys false = Return (bound_payoffs self keys) /\
  match first_missing self keys with
  | Some key =>
      findPayoffs self keys true = Throw (not_found key) /\
      forall simulation,
        NPV self simulation keys = (Throw (not_found key), [])
  | None =>
      findPayoffs self keys true = Return (bound_payoffs self keys) /\
      List.length (bound_payoffs self keys) = List.length keys
  end.
Proof.
  unfold NPV, findPayoffs. rewrite !findPayoffs_from_run. cbn [app].
  split; [reflexivity|].
  destruct (first_missing self keys) eqn:Hm.
  - split; reflexivity.
  - split; [reflexivity | now apply first_missing_None].
Qed.

(** ** The arguments of a call *)

(** What the evaluation of two arguments gives, in either order: the
    pair of their values, or an exception when one of them throws. *)
Lemma arguments2_outcome {A B : Type} (a : M R A) (b : M R B) self :
  compiling a -> compiling b ->
  same_outcome (fst (arguments2 a b self))
               match fst (a self), fst (b self) with
               | Return x, Return y => Return (x, y)
               | Throw e, _ => Throw e
               | _, Throw e => Throw e
               end.
Proof.
  intros Ha Hb.
  destruct (fst (a self)) as [x|ea] eqn:Ex; destruct (fst (b self)) as [y|eb] eqn:Ey.
  - rewrite (arguments2_value self Ha Hb Ex Ey). reflexivity.
  - destruct (@doomed_arguments2 _ _ self a b Ha Hb) with (other := self)
      as [e He]; [right; apply doomed_stable; eauto | reflexivity |].
    now rewrite He.
  - destruct (@doomed_arguments2 _ _ self a b Ha Hb) with (other := self)
      as [e He]; [left; apply doomed_stable; eauto | reflexivity |].
    now rewrite He.
  - destruct (@doomed_arguments2 _ _ self a b Ha Hb) with (other := self)
      as [e He]; [left; apply doomed_stable; eauto | reflexivity |].
    now rewrite He.
Qed.

Lemma arguments3_outcome {A B C : Type} (a : M R A) (b : M R B) (c : M R C)
      self :
  compiling a -> compiling b -> compiling c ->
  same_outcome (fst (arguments3 a b c self))
               match fst (a self), fst (b self), fst (c self) with
               | Return x, Return y, Return z => Return (x, y, z)
               | Throw e, _, _ => Throw e
               | _, Throw e, _ => Throw e
               | _, _, Throw e => Throw e
               end.
Proof.
  intros Ha Hb Hc.
  destruct (fst (a self)) as [x|ea] eqn:Ex;
    destruct (fst (b self)) as [y|eb] eqn:Ey;
    destruct (fst (c self)) as [z|ec] eqn:Ez;
    try (rewrite (arguments3_value self Ha Hb Hc Ex Ey Ez); reflexivity);
    (destruct (@doomed_arguments3 _ _ _ self a b c Ha Hb Hc) with (other := self)
      as [e He];
     [ first [ left; apply doomed_stable; solve [eauto]
             | right; left; apply doomed_stable; solve [eauto]
             | right; right; apply doomed_stable; solve [eauto] ]
     | reflexivity
     | now rewrite He ]).
Qed.

End Properties.

(* ================================================================= *)
(** * Properties of the observation times *)

Section ObservationTimeProperties.

Context {R : Type} {ops : RealOps R} {env : Environment R} {sets : TimeSets R}.

(** X21. The observation times of a list of names are those of the
    payoffs the names are bound to, united in the order of the list
    from the empty set.  The request fails when a name is not bound,
    with the exception that names the first such name and before any
    set is united: it fails on the lists of names on which the
    valuation fails, and on no other. *)
Theorem X21_observationTimes_needs_every_name
        (self : MCScriptT R) (keys : list string) :
  match first_missing self keys with
  | Some key => observationTimes self keys = Throw (not_found key)
  | None =>
      observationTimes self keys
      = Return (to_vector (union_of (bound_payoffs self keys)))
  end /\
  forall simulation,
    returns (observationTimes self keys)
    = returns (fst (NPV self simulation keys)).
Proof.
  unfold observationTimes, NPV, findPayoffs. rewrite findPayoffs_from_run.
  cbn [app]. destruct (first_missing self keys).
  - split; [reflexivity|]. intros simulation. reflexivity.
  - split; [reflexivity|]. intros simulation.
    now destruct (over_paths _ _ _ _ _ _).
Qed.

End ObservationTimeProperties.

(* ================================================================= *)
(** * The order of evaluation of the arguments of a call *)

Section ArgumentOrders.

Context {R : Type} {ops : RealOps R}.

Variable env : Environment R.
Variable order : ArgumentOrder.

Lemma alike_compiling {A : Type} (m1 m2 : M R A) :
  compiling m1 -> compiling m2 ->
  (forall self, same_outcome (fst (m1 self)) (fst (m2 self))) ->
  alike m1 m2.
Proof. intros H1 H2 H. split; [exact H1|]. split; [exact H2 | exact H]. Qed.

Lemma alike_refl {A : Type} (m : M R A) : compiling m -> alike m m.
Proof.
  intros Hm. apply alike_compiling; auto.
  intros self. now destruct (fst (m self)).
Qed.

Lemma alike_left {A : Type} (m1 m2 : M R A) : alike m1 m2 -> compiling m1.
Proof. now intros (H & _). Qed.

Lemma alike_right {A : Type} (m1 m2 : M R A) : alike m1 m2 -> compiling m2.
Proof. now intros (_ & H & _). Qed.

Lemma alike_bind {A B : Type} (m1 m2 : M R A) (f1 f2 : A -> M R B) :
  alike m1 m2 -> (forall a, alike (f1 a) (f2 a)) ->
  alike (bind m1 f1) (bind m2 f2).
Proof.
  intros Hm Hf.
  pose proof (alike_left Hm) as Hc1. pose proof (alike_right Hm) as Hc2.
  apply alike_compiling.
  - apply compiling_bind; [exact Hc1|]. intros a. exact (alike_left (Hf a)).
  - apply compiling_bind; [exact Hc2|]. intros a. exact (alike_right (Hf a)).
  - intros self. destruct Hm as (_ & _ & Hm). specialize (Hm self).
    unfold bind.
    destruct (Hc1 self) as [(Hp1 & _) _]. destruct (Hc2 self) as [(Hp2 & _) _].
    destruct (m1 self) as [[a|e1] s1]; destruct (m2 self) as [[b|e2] s2];
      simpl in *; try contradiction; [|exact I].
    subst b.
    destruct (alike_left (Hf a) self) as [_ Hst1].
    destruct (alike_right (Hf a) self) as [_ Hst2].
    rewrite (Hst1 s1 Hp1), (Hst2 s2 Hp2).
    apply (Hf a).
Qed.

(** The two arguments of a call, evaluated in one order or the
    other. *)
Lemma alike_arguments2 {A B : Type} (a1 a2 : M R A) (b1 b2 : M R B) :
  alike a1 a2 -> alike b1 b2 ->
  alike (arguments2 (env := env) a1 b1)
        (arguments2 (env := with_order env order) a2 b2).
Proof.
  intros Ha Hb.
  pose proof (alike_left Ha) as Ha1. pose proof (alike_right Ha) as Ha2.
  pose proof (alike_left Hb) as Hb1. pose proof (alike_right Hb) as Hb2.
  apply alike_compiling.
  - now apply compiling_arguments2.
  - now apply compiling_arguments2.
  - intros self.
    destruct Ha as (_ & _ & Ha). destruct Hb as (_ & _ & Hb).
    specialize (Ha self). specialize (Hb self).
    pose proof (@arguments2_outcome R env A B a1 b1 self Ha1 Hb1) as H1.
    pose proof (@arguments2_outcome R (with_order env order) A B a2 b2 self
                                    Ha2 Hb2) as H2.
    destruct (fst (a1 self)), (fst (a2 self)); try contradiction;
      destruct (fst (b1 self)), (fst (b2 self)); try contradiction;
      destruct (fst (arguments2 (env := env) a1 b1 self));
      destruct (fst (arguments2 (env := with_order env order) a2 b2 self));
      simpl in *; try contradiction; try exact I; congruence.
Qed.

Lemma alike_arguments3 {A B C : Type} (a1 a2 : M R A) (b1 b2 : M R B)
      (c1 c2 : M R C) :
  alike a1 a2 -> alike b1 b2 -> alike c1 c2 ->
  alike (arguments3 (env := env) a1 b1 c1)
        (arguments3 (env := with_order env order) a2 b2 c2).
Proof.
  intros Ha Hb Hc.
  pose proof (alike_left Ha) as Ha1. pose proof (alike_right Ha) as Ha2.
  pose proof (alike_left Hb) as Hb1. pose proof (alike_right Hb) as Hb2.
  pose proof (alike_left Hc) as Hc1. pose proof (alike_right Hc) as Hc2.
  apply alike_compiling.
  - now apply compiling_arguments3.
  - now apply compiling_arguments3.
  - intros self.
    destruct Ha as (_ & _ & Ha). destruct Hb as (_ & _ & Hb).
    destruct Hc as (_ & _ & Hc).
    specialize (Ha self). specialize (Hb self). specialize (Hc self).
    pose proof (@arguments3_outcome R env A B C a1 b1 c1 self Ha1 Hb1 Hc1) as H1.
    pose proof (@arguments3_outcome R (with_order env order) A B C a2 b2 c2 self
                                    Ha2 Hb2 Hc2) as H2.
    destruct (fst (a1 self)), (fst (a2 self)); try contradiction;
      destruct (fst (b1 self)), (fst (b2 self)); try contradiction;
      destruct (fst (c1 self)), (fst (c2 self)); try contradiction;
      destruct (fst (arguments3 (env := env) a1 b1 c1 self));
      destruct (fst (arguments3 (env := with_order env order) a2 b2 c2 self));
      simpl in *; try contradiction; try exact I; congruence.
Qed.

Ltac alike_leaf :=
  apply alike_refl;
  solve [ repeat first
            [ apply compiling_ensure | apply compiling_hasChilds
            | apply compiling_hasLeafs | apply compiling_ret
            | apply compiling_push | apply compiling_find
            | apply compiling_Cannot_interprete | apply compiling_call ] ].

Lemma alike_payoff_node (t : Expression) (k : nat) :
  alike (payoff_node (env := env) t k)
        (payoff_node (env := with_order env order) t k).
Proof.
  induction t as [ty cs ls IH] using Expression_nested_ind.
  assert (Hempty : alike (empty_tree (R := R) (A := shared_ptr R) k)
                         (empty_tree k))
    by apply alike_refl, compiling_empty_tree.
  assert (Hchild : forall i,
             alike
               (nth i
                    (map (fun c : option Expression =>
                            match c with
                            | Some t' => payoff_node (env := env) t' k
                            | None => empty_tree k
                            end) cs)
                    (empty_tree k))
               (nth i
                    (map (fun c : option Expression =>
                            match c with
                            | Some t' =>
                                payoff_node (env := with_order env order) t' k
                            | None => empty_tree k
                            end) cs)
                    (empty_tree k))).
  { induction IH as [|c cs Hc Hcs IHcs]; intros [|i]; simpl; auto.
    destruct c; [exact Hc | exact Hempty]. }
  destruct ty; cbn [payoff_node];
    change (@date_to_Number R ops (with_order env order))
      with (@date_to_Number R ops env);
    change (@payoff_at R (with_order env order)) with (@payoff_at R env);
    unfold cannot_convert;
    repeat first
      [ apply alike_arguments2
      | apply alike_arguments3
      | apply Hchild
      | apply alike_bind; [|intros ?]
      | match goal with
        | |- alike (match ?x with _ => _ end) _ => destruct x
        end
      | alike_leaf ].
Qed.

(** X22. C++ leaves open the order in which the arguments of a call
    are evaluated, and the expression compiler builds its binary and
    ternary nodes from such arguments.  The order is of no consequence
    for what is compiled: in one order as in the other the compilation
    of a tree returns, on the same symbol table, the same payoff, or
    throws in both; only the messages in the log may come in another
    order. *)
Theorem X22_the_order_of_the_arguments_changes_no_payoff
        (tree : option Expression) (k : nat) (self : MCScriptT R) :
  same_outcome (fst (payoff (env := env) tree k self))
               (fst (payoff (env := with_order env order) tree k self)).
Proof.
  destruct tree as [t|]; simpl.
  - apply alike_payoff_node.
  - reflexivity.
Qed.

(** ** Scripts and objects, in one order and in the other *)

Lemma similar_refl (self : MCScriptT R) : similar self self.
Proof. repeat split. Qed.

Lemma logged_similar (s1 s2 s1' s2' : MCScriptT R) :
  similar s1 s2 -> logged s1 s1' -> logged s2 s2' -> similar s1' s2'.
Proof.
  intros (Hp & He & Hr & Ho) (Hp1 & He1 & Hr1 & Ho1 & _)
         (Hp2 & He2 & Hr2 & Ho2 & _).
  repeat split; congruence.
Qed.

Lemma corresponding_alike {A : Type} (m1 m2 : M R A) :
  alike m1 m2 -> corresponding m1 m2.
Proof.
  intros (H1 & H2 & H) s1 s2 Hs. split.
  - apply logged_similar with s1 s2; [exact Hs | apply H1 | apply H2].
  - destruct (H2 s1) as [_ Hst]. destruct Hs as (Hp & _).
    rewrite (Hst s2 (eq_sym Hp)). apply H.
Qed.

Lemma corresponding_compiling {A : Type} (m : M R A) :
  compiling m -> corresponding m m.
Proof. intros Hm. apply corresponding_alike, alike_refl, Hm. Qed.

Lemma corresponding_bind {A B : Type} (m1 m2 : M R A) (f1 f2 : A -> M R B) :
  corresponding m1 m2 -> (forall a, corresponding (f1 a) (f2 a)) ->
  corresponding (bind m1 f1) (bind m2 f2).
Proof.
  intros Hm Hf s1 s2 Hs. unfold bind. destruct (Hm s1 s2 Hs) as [Hs' Ho].
  destruct (m1 s1) as [[a|e1] s1']; destruct (m2 s2) as [[b|e2] s2'];
    simpl in *; try contradiction.
  - subst b. now apply Hf.
  - split; [exact Hs' | exact I].
Qed.

(** A [try] block whose handler does not look at the exception. *)
Lemma corresponding_try {A B : Type} (m1 m2 : M R A)
      (f1 f2 : result A -> M R B) :
  corresponding m1 m2 ->
  (forall r1 r2, same_outcome r1 r2 -> corresponding (f1 r1) (f2 r2)) ->
  corresponding (bind (try_block m1) f1) (bind (try_block m2) f2).
Proof.
  intros Hm Hf s1 s2 Hs. unfold bind, try_block.
  destruct (Hm s1 s2 Hs) as [Hs' Ho].
  destruct (m1 s1) as [r1 s1']; destruct (m2 s2) as [r2 s2']; simpl in *.
  now apply Hf.
Qed.

Lemma corresponding_expressions_push_back (e : string) :
  corresponding (expressions_push_back (R := R) e) (expressions_push_back e).
Proof.
  intros s1 s2 (Hp & He & Hr & Ho). split; [|reflexivity].
  repeat split; simpl; congruence.
Qed.

Lemma corresponding_insert (name : string) (p : MCPayoffT R) :
  corresponding (payoffs_insert name p) (payoffs_insert name p).
Proof.
  intros s1 s2 (Hp & He & Hr & Ho). split; [|reflexivity].
  repeat split; simpl; congruence.
Qed.

Lemma corresponding_assign (name : string) (p : MCPayoffT R) :
  corresponding (payoffs_assign name p) (payoffs_assign name p).
Proof.
  intros s1 s2 (Hp & He & Hr & Ho). split; [|reflexivity].
  repeat split; simpl; congruence.
Qed.

Lemma corresponding_for_each_line (body1 body2 : nat -> string -> M R unit) :
  (forall k line, corresponding (body1 k line) (body2 k line)) ->
  forall script k,
    corresponding (for_each_line body1 k script) (for_each_line body2 k script).
Proof.
  intros Hb script. induction script as [|line script IH]; intros k; simpl.
  - apply corresponding_compiling, compiling_ret.
  - apply corresponding_bind; auto.
Qed.

Ltac corresponding_leaf :=
  first
    [ apply corresponding_expressions_push_back
    | apply corresponding_insert
    | apply corresponding_assign
    | apply corresponding_compiling;
      solve [ repeat first
                [ apply compiling_hasChilds | apply compiling_hasLeafs
                | apply compiling_ret | apply compiling_push
                | apply compiling_find | apply compiling_compile_expr
                | apply compiling_throw ] ] ].

Ltac corresponding_step :=
  first
    [ apply corresponding_bind; [|intros ?]
    | match goal with
      | |- corresponding (match ?x with _ => _ end) _ => destruct x
      end
    | corresponding_leaf ].

Lemma corresponding_parseFlexBisonLine (overwrite : bool) (k : nat)
      (line : string) :
  corresponding (parseFlexBisonLine (env := env) overwrite k line)
                (parseFlexBisonLine (env := with_order env order)
                                    overwrite k line).
Proof.
  unfold parseFlexBisonLine, store_FlexBison.
  change (@FlexBisonDriver R (with_order env order))
    with (@FlexBisonDriver R env).
  change (@toString R (with_order env order)) with (@toString R env).
  change (@sliced_what R (with_order env order)) with (@sliced_what R env).
  repeat first
    [ apply corresponding_try;
      [ apply corresponding_alike;
        match goal with
        | |- alike (payoff ?tree _) _ =>
            destruct tree; simpl;
            [ apply alike_payoff_node
            | apply alike_refl, compiling_empty_tree ]
        end
      | intros [[p|]|e1] [[q|]|e2] Hr; simpl in Hr; try contradiction;
        try discriminate Hr; try (injection Hr as <-) ]
    | corresponding_step ].
Qed.

Lemma corresponding_parseLine (overwrite : bool) (k : nat) (script_k : string) :
  corresponding (parseLine (env := env) overwrite k script_k)
                (parseLine (env := with_order env order) overwrite k script_k).
Proof.
  change (parseLine (env := with_order env order) overwrite k script_k)
    with (parseLine (env := env) overwrite k script_k).
  unfold parseLine, store_legacy. repeat corresponding_step.
Qed.

Lemma corresponding_push_all (msgs : list string) :
  corresponding (scriptLog_push_back_all (R := R) msgs)
                (scriptLog_push_back_all msgs).
Proof.
  induction msgs as [|msg msgs IH]; simpl; repeat corresponding_step.
  exact IH.
Qed.

Lemma corresponding_parse (script : list string) (overwrite : bool) :
  corresponding (parse (env := env) script overwrite)
                (parse (env := with_order env order) script overwrite).
Proof.
  unfold parse, parseScript, parseFlexBisonScript.
  destruct (is_NonRecursive script).
  - apply corresponding_bind.
    + apply corresponding_for_each_line. intros. apply corresponding_parseLine.
    + intros _. destruct (List.length script =? 0)%nat;
        [apply corresponding_push_all | corresponding_leaf].
  - apply corresponding_for_each_line. intros.
    apply corresponding_parseFlexBisonLine.
Qed.

Lemma corresponding_initialize_map (keys : list string)
      (payoffs : list (MCPayoffT R)) (overwrite : bool) :
  corresponding (initialize_map keys payoffs overwrite)
                (initialize_map keys payoffs overwrite).
Proof.
  revert payoffs.
  induction keys as [|key keys IH]; intros [|p payoffs]; simpl;
    try corresponding_leaf.
  unfold QL_REQUIRE, QL_FAIL. repeat corresponding_step. apply IH.
Qed.

Lemma corresponding_select_result :
  corresponding (select_result (env := env))
                (select_result (env := with_order env order)).
Proof.
  change (select_result (env := with_order env order))
    with (select_result (env := env)).
  intros s1 s2 (Hp & He & Hr & Ho). rewrite !select_result_run.
  unfold selected. rewrite Hp. split; [|reflexivity].
  repeat split; simpl; try congruence.
  destruct (StdMap.find "payoff" (payoffs_ s2)); [reflexivity|].
  now destruct (option_map snd (StdMap.rbegin (payoffs_ s2))).
Qed.

Lemma corresponding_ctor (keys : list string) (payoffs : list (MCPayoffT R))
      (script : list string) (overwrite : bool) :
  corresponding (MCScriptT_ctor (env := env) keys payoffs script overwrite)
                (MCScriptT_ctor (env := with_order env order)
                                keys payoffs script overwrite).
Proof.
  unfold MCScriptT_ctor, QL_REQUIRE, QL_FAIL.
  apply corresponding_bind; [repeat corresponding_step | intros _].
  apply corresponding_bind; [apply corresponding_initialize_map | intros _].
  apply corresponding_bind; [apply corresponding_parse | intros _].
  apply corresponding_bind.
  - intros s1 s2 Hs. split; [exact Hs|]. simpl. destruct Hs as (-> & _).
    reflexivity.
  - intros n. apply corresponding_bind; [repeat corresponding_step | intros _].
    apply corresponding_select_result.
Qed.

(** X23. The object that the constructor builds does not depend on
    the order in which the compiler evaluates the arguments of a call:
    in one order as in the other a script leaves the same symbol table
    and the same expressions, and the constructor throws in both or
    returns objects with the same symbol table, expressions, result
    and observation time.  Only their logs may differ. *)
Theorem X23_the_order_of_the_arguments_changes_no_object
        (keys : list string) (payoffs : list (MCPayoffT R))
        (script : list string) (overwrite : bool) :
  (forall self,
      similar (snd (parse (env := env) script overwrite self))
              (snd (parse (env := with_order env order) script overwrite self))) /\
  match new_MCScriptT (env := env) keys payoffs script overwrite,
        new_MCScriptT (env := with_order env order) keys payoffs script overwrite
  with
  | Return obj1, Return obj2 =>
      payoffs_ obj1 = payoffs_ obj2 /\
      expressions_ obj1 = expressions_ obj2 /\
      result_ obj1 = result_ obj2 /\
      observationTime_ obj1 = observationTime_ obj2
  | Throw _, Throw _ => True
  | _, _ => False
  end.
Proof.
  split.
  - intros self. apply corresponding_parse, similar_refl.
  - unfold new_MCScriptT.
    destruct (corresponding_ctor keys payoffs script overwrite
                                 (similar_refl fresh)) as [Hs Ho].
    destruct (MCScriptT_ctor (env := env) keys payoffs script overwrite fresh)
      as [[[]|e1] s1];
      destruct (MCScriptT_ctor (env := with_order env order)
                               keys payoffs script overwrite fresh)
      as [[[]|e2] s2];
      simpl in *; try contradiction; [exact Hs | exact I].
Qed.

End ArgumentOrders.

(* ================================================================= *)
(** * Properties of the SABR formulas *)

Section SabrProperties.

Context {T : Type} {fp : Floating T} {fn : Elementary T}.

Import Sabr.

Local Open Scope real_scope.

Lemma validateSabrParameters_returns (alpha beta nu rho : T) :
  returns (validateSabrParameters alpha beta nu rho)
  = valid_parameters alpha beta nu rho.
Proof.
  unfold validateSabrParameters, valid_parameters, require, rbind.
  destruct (alpha > lit 0.0); [|reflexivity].
  destruct ((beta >= lit 0.0) && (beta <= lit 1.0))%bool; [|reflexivity].
  destruct (nu >= lit 0.0); [|reflexivity].
  now destruct (rho * rho < lit 1.0).
Qed.

Lemma validateSabrParameters_unit (alpha beta nu rho : T) :
  valid_parameters alpha beta nu rho = true ->
  validateSabrParameters alpha beta nu rho = Return tt.
Proof.
  rewrite <- validateSabrParameters_returns.
  now destruct (validateSabrParameters alpha beta nu rho) as [[]|].
Qed.

Lemma validateSabrParameters_throws (alpha beta nu rho : T) :
  valid_parameters alpha beta nu rho = false ->
  exists message,
    validateSabrParameters alpha beta nu rho = Throw (QL_Error message).
Proof.
  unfold validateSabrParameters, valid_parameters, require, rbind.
  destruct (alpha > lit 0.0); [|eauto].
  destruct ((beta >= lit 0.0) && (beta <= lit 1.0))%bool; [|eauto].
  destruct (nu >= lit 0.0); [|eauto].
  destruct (rho * rho < lit 1.0); [discriminate | eauto].
Qed.

(** X24. [sabrVolatility] returns a volatility exactly when the strike
    and the forward are positive, the expiry time is not negative,
    alpha is positive, beta is between 0 and 1, nu is not negative and
    the square of rho is below 1, as the comparisons of the platform
    decide; it then returns the normal or the lognormal formula as the
    flag asks.  In every other case it throws a [QL_Error] and
    evaluates no formula. *)
Theorem X24_sabrVolatility_checks_its_arguments
        (strike forward expiryTime alpha beta nu rho : T)
        (calcNormalVol : bool) :
  let accepted :=
    ((strike > lit 0.0) && (forward > lit 0.0) && (expiryTime >= lit 0.0)
     && valid_parameters alpha beta nu rho)%bool in
  (accepted = true ->
   sabrVolatility strike forward expiryTime alpha beta nu rho calcNormalVol
   = Return (if calcNormalVol then
               unsafeNormalSabrVolatility strike forward expiryTime
                                          alpha beta nu rho
             else
               unsafeSabrVolatility strike forward expiryTime
                                    alpha beta nu rho)) /\
  (accepted = false ->
   exists message,
     sabrVolatility strike forward expiryTime alpha beta nu rho calcNormalVol
     = Throw (QL_Error message)).
Proof.
  cbv zeta. unfold sabrVolatility, require, rbind.
  destruct (strike > lit 0.0); [|split; [discriminate | eauto]].
  destruct (forward > lit 0.0); [|split; [discriminate | eauto]].
  destruct (expiryTime >= lit 0.0); [|split; [discriminate | eauto]].
  cbn [andb].
  destruct (valid_parameters alpha beta nu rho) eqn:Hvalid.
  - rewrite (validateSabrParameters_unit _ _ _ _ Hvalid).
    split; [|discriminate]. intros _. now destruct calcNormalVol.
  - destruct (validateSabrParameters_throws _ _ _ _ Hvalid) as [message ->].
    split; [discriminate | eauto].
Qed.

(** X25. The shifted formula is the lognormal formula at the shifted
    strike and the shifted forward: [shiftedSabrVolatility] with the
    shift [s] returns on exactly the arguments on which
    [sabrVolatility], asked for the lognormal volatility at
    [strike + s] and [forward + s], returns, and it returns the same
    number. *)
Theorem X25_shifted_volatility_is_the_volatility_of_shifted_rates
        (strike forward expiryTime alpha beta nu rho shift : T) :
  let shifted :=
    shiftedSabrVolatility strike forward expiryTime alpha beta nu rho shift in
  let plain :=
    sabrVolatility (strike + shift) (forward + shift) expiryTime
                   alpha beta nu rho false in
  returns shifted = returns plain /\
  forall v, shifted = Return v <-> plain = Return v.
Proof.
  cbv zeta.
  unfold shiftedSabrVolatility, sabrVolatility, unsafeShiftedSabrVolatility,
    require, rbind.
  destruct (strike + shift > lit 0.0);
    [|split; [reflexivity | split; discriminate]].
  destruct (forward + shift > lit 0.0);
    [|split; [reflexivity | split; discriminate]].
  destruct (expiryTime >= lit 0.0);
    [|split; [reflexivity | split; discriminate]].
  destruct (validateSabrParameters alpha beta nu rho) as [[]|e];
    split; try reflexivity; split; auto; discriminate.
Qed.

End SabrProperties.

(* ================================================================= *)
(** * Properties of the local correlation surface *)

Section LocalCorrProperties.

Context {T : Type} {fp : Floating T}.

Import LocalCorr.

Local Open Scope nat_scope.

Lemma length_update {A : Type} (n : nat) (x : A) (v : list A) :
  List.length (update n x v) = List.length v.
Proof.
  revert n. induction v as [|a v IH]; intros [|n]; simpl; auto.
Qed.

Lemma nth_error_update {A : Type} (n : nat) (x : A) (v : list A) (k : nat) :
  n < List.length v ->
  nth_error (update n x v) k = if k =? n then Some x else nth_error v k.
Proof.
  revert n k. induction v as [|a v IH]; intros n k; simpl; [lia|].
  destruct n as [|n]; destruct k as [|k]; simpl; try reflexivity.
  intros H. apply IH. lia.
Qed.

Lemma Forall_update {A : Type} (P : A -> Prop) (n : nat) (x : A) (v : list A) :
  Forall P v -> P x -> Forall P (update n x v).
Proof.
  intros Hv Hx. revert n.
  induction Hv as [|a v Ha Hv IH]; intros [|n]; simpl; auto.
Qed.

Lemma assign_defined (n : nat) (m : MatA) (i j : nat) (x : T) :
  square n m -> i < n -> j < n -> exists m', assign m i j x = Some m'.
Proof.
  intros [Hlen Hrows] Hi Hj. unfold assign.
  destruct (nth_error m i) as [row|] eqn:Hrow.
  - assert (Hn : List.length row = n).
    { rewrite Forall_forall in Hrows. eapply Hrows, nth_error_In, Hrow. }
    rewrite Hn. apply Nat.ltb_lt in Hj. rewrite Hj. eauto.
  - apply nth_error_None in Hrow. lia.
Qed.

Lemma square_assign (n : nat) (m m' : MatA) (i j : nat) (x : T) :
  square n m -> assign m i j x = Some m' -> square n m'.
Proof.
  intros [Hlen Hrows]. unfold assign.
  destruct (nth_error m i) as [row|] eqn:Hrow; [|discriminate].
  destruct (j <? List.length row); [|discriminate].
  intros [= <-]. split.
  - now rewrite length_update.
  - apply Forall_update; [exact Hrows|].
    rewrite length_update.
    rewrite Forall_forall in Hrows. eapply Hrows, nth_error_In, Hrow.
Qed.

Lemma subscript_assign (m m' : MatA) (i j : nat) (x : T) (a b : nat) :
  assign m i j x = Some m' ->
  subscript m' a b
  = if (a =? i) && (b =? j) then Some x else subscript m a b.
Proof.
  unfold assign, subscript.
  destruct (nth_error m i) as [row|] eqn:Hrow; [|discriminate].
  destruct (Nat.ltb_spec j (List.length row)) as [Hj|]; [|discriminate].
  intros [= <-].
  assert (Hi : i < List.length m) by (apply nth_error_Some; congruence).
  rewrite (@nth_error_update _ i (update j x row) m a Hi).
  destruct (Nat.eqb_spec a i) as [->|Hne]; simpl; [|reflexivity].
  rewrite (@nth_error_update _ j x row b Hj), Hrow. reflexivity.
Qed.

Lemma covers_entry (n : nat) (c : MatA) (i j : nat) :
  covers n c -> i <= j -> j < n -> subscript c i j = Some (entry c i j).
Proof.
  intros Hc Hij Hj. unfold entry. specialize (Hc i j Hij Hj).
  now destruct (subscript c i j).
Qed.

Lemma cell_run (self : LocalCorrSurfaceABF) (lambda : T) (n i j : nat)
      (m : MatA) :
  square n m -> covers n (corr0_ self) -> covers n (corr1_ self) ->
  i <= j -> j < n ->
  exists m',
    cell self lambda i j m
    = (if fneq (blend self lambda i j) (lit 1) || (i =? j)
       then Finished else refused, m') /\
    (fneq (blend self lambda i j) (lit 1) || (i =? j) = true ->
     square n m' /\
     forall a b,
       subscript m' a b
       = if (Nat.min a b =? i) && (Nat.max a b =? j)
         then Some (blend self lambda i j) else subscript m a b).
Proof.
  intros Hm H0 H1 Hij Hj. unfold cell.
  assert (Hi : i < n) by lia.
  rewrite (@covers_entry n (corr0_ self) i j H0 Hij Hj),
    (@covers_entry n (corr1_ self) i j H1 Hij Hj).
  fold (blend self lambda i j).
  destruct (@assign_defined n m i j (blend self lambda i j) Hm Hi Hj)
    as [m1 Hm1].
  rewrite Hm1.
  pose proof (@square_assign n m m1 i j (blend self lambda i j) Hm Hm1) as Hsq1.
  rewrite (@subscript_assign m m1 i j (blend self lambda i j) i j Hm1),
    !Nat.eqb_refl.
  cbn [andb].
  destruct (fneq (blend self lambda i j) (lit 1) || (i =? j)) eqn:Hpass;
    cbn [negb].
  - destruct (@assign_defined n m1 j i (blend self lambda i j) Hsq1 Hj Hi)
      as [m2 Hm2].
    rewrite Hm2. exists m2. split; [reflexivity|]. intros _.
    split; [exact (@square_assign n m1 m2 j i (blend self lambda i j) Hsq1 Hm2)|].
    intros a b.
    rewrite (@subscript_assign m1 m2 j i (blend self lambda i j) a b Hm2),
      (@subscript_assign m m1 i j (blend self lambda i j) a b Hm1).
    destruct (Nat.eqb_spec a j), (Nat.eqb_spec b i), (Nat.eqb_spec a i),
      (Nat.eqb_spec b j), (Nat.eqb_spec (Nat.min a b) i),
      (Nat.eqb_spec (Nat.max a b) j); cbn [andb]; try reflexivity; lia.
  - exists m1. split; [reflexivity | discriminate].
Qed.

Lemma row_loop_run (self : LocalCorrSurfaceABF) (lambda : T) (n i : nat) :
  covers n (corr0_ self) -> covers n (corr1_ self) ->
  forall count j m,
    square n m -> i <= j -> j + count = n ->
    exists m',
      row_loop self lambda i j count m
      = (if admissible_row self lambda i j count then Finished else refused, m') /\
      (admissible_row self lambda i j count = true ->
       square n m' /\
       forall a b,
         subscript m' a b
         = if (Nat.min a b =? i) && (j <=? Nat.max a b) && (Nat.max a b <? n)
           then Some (blend self lambda (Nat.min a b) (Nat.max a b))
           else subscript m a b).
Proof.
  intros H0 H1. induction count as [|count IH]; intros j m Hm Hij Hn.
  - exists m. split; [reflexivity|]. intros _. split; [exact Hm|].
    intros a b.
    destruct (Nat.eqb_spec (Nat.min a b) i), (Nat.leb_spec j (Nat.max a b)),
      (Nat.ltb_spec (Nat.max a b) n); cbn [andb]; try reflexivity; lia.
  - cbn [row_loop]. unfold admissible_row. cbn [seq forallb].
    fold (admissible_row self lambda i (S j) count).
    assert (Hj : j < n) by lia.
    destruct (@cell_run self lambda n i j m Hm H0 H1 Hij Hj)
      as (m1 & -> & Hcell).
    destruct (fneq (blend self lambda i j) (lit 1) || (i =? j)) eqn:Hpass;
      cbn [andb].
    + destruct (Hcell eq_refl) as [Hsq1 Hsub1].
      destruct (IH (S j) m1 Hsq1) as (m2 & -> & Hrest); [lia | lia |].
      exists m2. split; [reflexivity|]. intros Hadm.
      destruct (Hrest Hadm) as [Hsq2 Hsub2]. split; [exact Hsq2|].
      intros a b. rewrite Hsub2, Hsub1.
      destruct (Nat.eqb_spec (Nat.min a b) i),
        (Nat.leb_spec (S j) (Nat.max a b)), (Nat.leb_spec j (Nat.max a b)),
        (Nat.ltb_spec (Nat.max a b) n), (Nat.eqb_spec (Nat.max a b) j);
        cbn [andb]; try reflexivity; try lia.
      subst. reflexivity.
    + exists m1. split; [reflexivity | discriminate].
Qed.

Lemma rows_loop_run (self : LocalCorrSurfaceABF) (lambda : T) (n : nat) :
  covers n (corr0_ self) -> covers n (corr1_ self) ->
  forall count i m,
    square n m -> i + count = n ->
    exists m',
      rows_loop self lambda i count m
      = (if admissible self lambda n i count then Finished else refused, m') /\
      (admissible self lambda n i count = true ->
       square n m' /\
       forall a b,
         subscript m' a b
         = if (i <=? Nat.min a b) && (Nat.max a b <? n)
           then Some (blend self lambda (Nat.min a b) (Nat.max a b))
           else subscript m a b).
Proof.
  intros H0 H1. induction count as [|count IH]; intros i m Hm Hn.
  - exists m. split; [reflexivity|]. intros _. split; [exact Hm|].
    intros a b.
    destruct (Nat.leb_spec i (Nat.min a b)), (Nat.ltb_spec (Nat.max a b) n);
      cbn [andb]; try reflexivity; lia.
  - cbn [rows_loop admissible].
    destruct (nth_error m i) as [row|] eqn:Hrow.
    + assert (Hlen : List.length row = n).
      { destruct Hm as [_ Hrows]. rewrite Forall_forall in Hrows.
        eapply Hrows, nth_error_In, Hrow. }
      rewrite Hlen.
      destruct (@row_loop_run self lambda n i H0 H1 (n - i) i m Hm)
        as (m1 & -> & Hrow1); [lia | lia |].
      destruct (admissible_row self lambda i i (n - i)) eqn:Hadm1; cbn [andb].
      * destruct (Hrow1 eq_refl) as [Hsq1 Hsub1].
        destruct (IH (S i) m1 Hsq1) as (m2 & -> & Hrest); [lia|].
        exists m2. split; [reflexivity|]. intros Hadm.
        destruct (Hrest Hadm) as [Hsq2 Hsub2]. split; [exact Hsq2|].
        intros a b. rewrite Hsub2, Hsub1.
        destruct (Nat.leb_spec (S i) (Nat.min a b)),
          (Nat.leb_spec i (Nat.min a b)), (Nat.ltb_spec (Nat.max a b) n),
          (Nat.eqb_spec (Nat.min a b) i), (Nat.leb_spec i (Nat.max a b));
          cbn [andb]; try reflexivity; lia.
      * exists m1. split; [reflexivity | discriminate].
    + destruct Hm as [Hlen _]. apply nth_error_None in Hrow. lia.
Qed.

Lemma admissible_row_iff (self : LocalCorrSurfaceABF) (lambda : T)
      (i j count : nat) :
  admissible_row self lambda i j count = true <->
  forall b, j <= b -> b < j + count -> i <> b ->
            fneq (blend self lambda i b) (lit 1) = true.
Proof.
  unfold admissible_row. rewrite forallb_forall. split.
  - intros H b Hjb Hb Hne.
    assert (Hin : In b (seq j count)) by (apply in_seq; lia).
    specialize (H b Hin). apply orb_true_iff in H.
    destruct H as [H|H]; [exact H|]. apply Nat.eqb_eq in H. contradiction.
  - intros H b Hin. apply in_seq in Hin. apply orb_true_iff.
    destruct (Nat.eqb_spec i b) as [|Hne]; [now right|].
    left. apply H; lia.
Qed.

Lemma admissible_iff (self : LocalCorrSurfaceABF) (lambda : T) (n : nat) :
  forall count i,
    i + count = n ->
    admissible self lambda n i count = true <->
    forall a b, i <= a -> a < b -> b < n ->
                fneq (blend self lambda a b) (lit 1) = true.
Proof.
  induction count as [|count IH]; intros i Hn.
  - simpl. split; [|reflexivity]. intros _ a b Ha Hab Hb. lia.
  - cbn [admissible]. rewrite andb_true_iff, admissible_row_iff.
    rewrite (IH (S i)) by lia. split.
    + intros [Hrow Hrest] a b Ha Hab Hb.
      destruct (Nat.eq_dec a i) as [->|Hne].
      * apply Hrow; lia.
      * apply Hrest; lia.
    + intros H. split.
      * intros b Hib Hb Hne. apply H; lia.
      * intros a b Ha Hab Hb. apply H; lia.
Qed.

(** X26. On a square matrix, and with correlation matrices that have
    the elements on and above its diagonal, [localCorrImpl] runs into
    no subscript out of range.  When none of the blended correlations
    above the diagonal is 1, it returns and leaves a symmetric matrix:
    the element in row [a] and column [b] is the blend, with the
    weight [lambda = (localF - localA) / localB], of the elements of
    the two correlation matrices in row [min a b] and column
    [max a b]; what the matrix held before, and what the correlation
    matrices hold below their diagonals, is of no consequence.
    Otherwise it throws. *)
Theorem X26_localCorrImpl_leaves_a_symmetric_matrix
        (self : LocalCorrSurfaceABF) (corrMatrix : MatA) (t : T) (X0 : VecA)
        (extrapolate : bool) (n : nat) :
  square n corrMatrix ->
  covers n (corr0_ self) -> covers n (corr1_ self) ->
  let lambda := lambda_of self t X0 extrapolate in
  let admitted := admissible self lambda n 0 n in
  (admitted = true <->
   forall a b, a < b -> b < n -> fneq (blend self lambda a b) (lit 1) = true) /\
  exists m',
    localCorrImpl self corrMatrix t X0 extrapolate
    = (if admitted then Finished else refused, m') /\
    (admitted = true ->
     square n m' /\
     forall a b,
       a < n -> b < n ->
       subscript m' a b
       = Some (blend self lambda (Nat.min a b) (Nat.max a b)) /\
       subscript m' a b = subscript m' b a).
Proof.
  intros Hm H0 H1 lambda admitted. split.
  - unfold admitted. rewrite (@admissible_iff self lambda n n 0 eq_refl).
    split; intros H a b; [apply H; lia | intros _; apply H].
  - destruct (@rows_loop_run self lambda n H0 H1 n 0 corrMatrix Hm eq_refl)
      as (m' & Hrun & Hspec).
    exists m'. split.
    + unfold localCorrImpl. fold (lambda_of self t X0 extrapolate).
      fold lambda. destruct Hm as [-> _]. exact Hrun.
    + intros Hadm. destruct (Hspec Hadm) as [Hsq Hsub].
      split; [exact Hsq|]. intros a b Ha Hb.
      assert (Hcell : forall a b, a < n -> b < n ->
                 subscript m' a b
                 = Some (blend self lambda (Nat.min a b) (Nat.max a b))).
      { intros a' b' Ha' Hb'. rewrite Hsub.
        destruct (Nat.ltb_spec (Nat.max a' b') n); [reflexivity | lia]. }
      split; [now apply Hcell|].
      rewrite !Hcell by assumption.
      now rewrite Nat.min_comm, Nat.max_comm.
Qed.

End LocalCorrProperties.

(* ================================================================= *)
(** * The properties at work on concrete scripts *)

Section Runs.

Import Example.

(** C1 as first stated fails on the initial bindings [b], [a], in
    this order, and on the script  b = 3, a = 2 : the result is the
    node bound to [b], the greatest name, while [a] was inserted
    last. *)
Lemma C1_counterexample :
  new_MCScriptT ["b"; "a"] [External 0; External 1] [] true
  = Return {| payoffs_ := [("a", External 1); ("b", External 0)];
              expressions_ := [];
              scriptLog_ := [];
              result_ := Some (External 0);
              observationTime_ := Finite (inject_Z 0) |} /\
  most_recently_inserted ["b"; "a"] = Some "a" /\
  StdMap.find "a" [("a", External (R := xreal) 1); ("b", External 0)]
  = Some (External 1) /\
  StdMap.find "payoff" [("a", External (R := xreal) 1); ("b", External 0)]
  = None /\
  Some (External 0)
  <> StdMap.find "a" [("a", External (R := xreal) 1); ("b", External 0)] /\
  new_MCScriptT [] [] ["b = 3"; "a = 2"] false
  = Return {| payoffs_ := [("a", FixedAmount (Finite (inject_Z 2)));
                           ("b", FixedAmount (Finite (inject_Z 3)))];
              expressions_ := ["L0:expression"; "L1:expression"];
              scriptLog_ := ["Insert line 0: 'b = 3'"; "Insert line 1: 'a = 2'"];
              result_ := Some (FixedAmount (Finite (inject_Z 3)));
              observationTime_ := Finite (inject_Z 0) |}.
Proof. repeat split; try (vm_compute; reflexivity). discriminate. Qed.

(** C1, amended, on the same initial bindings. *)
Lemma C1_witness :
  new_MCScriptT ["b"; "a"] [External 0; External 1] [] true
  = Return {| payoffs_ := [("a", External 1); ("b", External 0)];
              expressions_ := [];
              scriptLog_ := [];
              result_ := Some (External 0);
              observationTime_ := Finite (inject_Z 0) |} /\
  exists name p,
    StdMap.rbegin [("a", External (R := xreal) 1); ("b", External 0)]
    = Some (name, p) /\
    Some (External 0) = Some p /\
    StdMap.find name [("a", External (R := xreal) 1); ("b", External 0)]
    = Some p /\
    forall name' p',
      StdMap.find name' [("a", External (R := xreal) 1); ("b", External 0)]
      = Some p' ->
      String.leb name' name = true.
Proof.
  assert (H : new_MCScriptT ["b"; "a"] [External 0; External 1] [] true
              = Return {| payoffs_ := [("a", External 1); ("b", External 0)];
                          expressions_ := [];
                          scriptLog_ := [];
                          result_ := Some (External 0);
                          observationTime_ := Finite (inject_Z 0) |})
    by (vm_compute; reflexivity).
  split; [exact H|].
  exact (@C1_result_selection_amended
           xreal xreal_ops env ["b"; "a"] [External 0; External 1] [] true _ H).
Defined.

(** C3 on the script  a = 2, y = z + 1, b = 3 : line 1 names [z],
    which is unbound; its compilation throws, the error is logged with
    index 1 and line 2 is processed. *)
Lemma C3_witness :
  stage_failure false 1 "y = z + 1"
                (snd (parseFlexBisonScript ["a = 2"] false fresh)) /\
  parseFlexBisonScript ["a = 2"; "y = z + 1"; "b = 3"] false fresh
  = for_each_line (parseFlexBisonLine false) 2 ["b = 3"]
      (snd (parseFlexBisonLine false 1 "y = z + 1"
              (snd (parseFlexBisonScript ["a = 2"] false fresh)))) /\
  fst (parseFlexBisonScript ["a = 2"; "y = z + 1"; "b = 3"] false fresh)
  = Return tt /\
  exists reason,
    In (Error_line 1 reason)
       (scriptLog_
          (snd (parseFlexBisonScript ["a = 2"; "y = z + 1"; "b = 3"]
                                     false fresh))).
Proof.
  assert (H : stage_failure false 1 "y = z + 1"
                (snd (parseFlexBisonScript ["a = 2"] false fresh))).
  { apply (@Compilation_throws xreal xreal_ops env false 1 "y = z + 1" _
             (Some (Expr PLUS [identifier "z"; number "1"] [])) "y"
             (QL_Error "Cannot interprete payoff"));
      vm_compute; reflexivity. }
  split; [exact H|].
  exact (proj2 (@C3_failed_lines_are_logged_and_skipped
                  xreal xreal_ops env false ["a = 2"] "y = z + 1" ["b = 3"]
                  fresh H)).
Defined.

(** C4 on the line  a = 2  and a fresh object: the name is unbound
    and the payoff is inserted. *)
Lemma C4_witness :
  compiled_line 0 "a = 2" fresh "a" (FixedAmount (Finite (inject_Z 2))) /\
  StdMap.find "a" (payoffs_ (snd (parseFlexBisonLine false 0 "a = 2" fresh)))
  = Some (FixedAmount (Finite (inject_Z 2))) /\
  (forall other, other <> "a" ->
     StdMap.find other (payoffs_ (snd (parseFlexBisonLine false 0 "a = 2" fresh)))
     = StdMap.find other (payoffs_ (fresh (R := xreal)))) /\
  exists added,
    scriptLog_ (snd (parseFlexBisonLine false 0 "a = 2" fresh))
    = scriptLog_ (fresh (R := xreal)) ++ added ++ ["Insert line 0: 'a = 2'"].
Proof.
  assert (H : compiled_line 0 "a = 2" fresh "a"
                            (FixedAmount (Finite (inject_Z 2)))).
  { exists (number "2"). repeat split; try (vm_compute; reflexivity).
    discriminate. }
  split; [exact H|].
  exact (@C4_store_of_a_compiled_line
           xreal xreal_ops env false 0 "a = 2" fresh "a"
           (FixedAmount (Finite (inject_Z 2))) H).
Defined.

(** A bound name and no permission to overwrite: the line  a = 7  is
    refused and [a] keeps its payoff. *)
Lemma refused_overwrite_run :
  parseFlexBisonScript ["a = 2"; "a = 7"] false fresh
  = (Return tt,
     {| payoffs_ := [("a", FixedAmount (Finite (inject_Z 2)))];
        expressions_ := ["L0:expression"; "L1:expression"];
        scriptLog_ := ["Insert line 0: 'a = 2'";
                       "Error line 1: Cannot replace line 'a = 7'"];
        result_ := None;
        observationTime_ := Finite (inject_Z 0) |}).
Proof. vm_compute. reflexivity. Qed.

Lemma replaced_run :
  parseFlexBisonScript ["a = 2"; "a = 7"] true fresh
  = (Return tt,
     {| payoffs_ := [("a", FixedAmount (Finite (inject_Z 7)))];
        expressions_ := ["L0:expression"; "L1:expression"];
        scriptLog_ := ["Insert line 0: 'a = 2'"; "Replace line 1: 'a = 7'"];
        result_ := None;
        observationTime_ := Finite (inject_Z 0) |}).
Proof. vm_compute. reflexivity. Qed.

(** C5 on the token "1xJan2020", with the evaluation date on 1 January
    2019: the day is not a number, and yet the token converts, to
    365 / 365, as "01Jan2020" does. *)
Lemma C5_witness :
  Date_ctor 1 Jan 2020 = Return 43831%Z /\
  all_digits (substring 0 2 "1xJan2020") = false /\
  Cxx.stol long_extra_bits (substring 0 2 "1xJan2020") = Return (1%Z, 1) /\
  date_to_Number "1xJan2020" = Some (Finite (inject_Z 1)) /\
  date_to_Number "01Jan2020" = date_to_Number "1xJan2020".
Proof.
  assert (H : Date_ctor 1 Jan 2020 = Return 43831%Z)
    by (vm_compute; reflexivity).
  split; [exact H|].
  exact (@C5_date_to_Number_accepts_a_malformed_day
           xreal xreal_ops env 43831%Z H).
Defined.

Lemma date_15Jan2020 :
  date_to_Number "15Jan2020" = Some (Finite (Qmake 379 365)) /\
  date_to_Number "15Xxx2020" = None /\
  date_to_Number "15Jan20" = None /\
  date_to_Number "xxJan2020" = None.
Proof. repeat split; vm_compute; reflexivity. Qed.

(** C7 on  -a ,  a - b ,  a + b  and  +a  with [a] and [b] bound. *)
Lemma C7_witness :
  fst (payoff (Some (Expr UNARYMINUS [identifier "a"] [])) 0 bound_ab)
  = Return (Some (Axpy (Finite (inject_Z (-1))) (Some (External 0)) None)) /\
  fst (payoff (Some (Expr MINUS [identifier "a"; identifier "b"] [])) 0 bound_ab)
  = Return (Some (Axpy (Finite (inject_Z (-1)))
                       (Some (External 1)) (Some (External 0)))) /\
  fst (payoff (Some (Expr PLUS [identifier "a"; identifier "b"] [])) 0 bound_ab)
  = Return (Some (Axpy (Finite (inject_Z 1))
                       (Some (External 0)) (Some (External 1)))) /\
  payoff (Some (Expr UNARYPLUS [identifier "a"] [])) 0 bound_ab
  = payoff (identifier "a") 0 bound_ab.
Proof.
  apply (@C7_operators_compile_to_linear_combinations
           xreal xreal_ops env 0 bound_ab
           (identifier "a") (identifier "a") (identifier "b")
           (Some (External 0)) (Some (External 0)) (Some (External 1)));
    vm_compute; reflexivity.
Defined.

(** C8 on the legacy line  x=1+2*3 , line 1 of a script: the operand
    "1+2" resolves, to 1; the line is stored, as the product of 1 and
    3, and no error is logged. *)
Lemma C8_witness :
  of_strtod (Cxx.Decimal false 1 0) = Some (Finite (inject_Z 1)) /\
  of_strtod (Cxx.Decimal false 3 0) = Some (Finite (inject_Z 3)) /\
  StdMap.find "x" (payoffs_ (fresh (R := xreal))) = None /\
  operands "1+2*3" = ["1+2"; "3"] /\
  to_Number "1+2" = Some (Finite (inject_Z 1)) /\
  parseLine false 1 "x=1+2*3" fresh
  = (Return tt,
     {| payoffs_ :=
          [("x", Mult (Some (FixedAmount (Finite (inject_Z 1))))
                      (Some (FixedAmount (Finite (inject_Z 3)))))];
        expressions_ := [];
        scriptLog_ := ["Payoff line 1: '1' is fixed amount";
                       "Payoff line 1: '3' is fixed amount";
                       "Insert line 1: 'x=1+2*3'"];
        result_ := None;
        observationTime_ := Finite (inject_Z 0) |}) /\
  payoffs_ (snd (parseLine false 1 "x = Min(Max(a,b), c)" fresh))
  = payoffs_ (fresh (R := xreal)) /\
  exists added,
    scriptLog_ (snd (parseLine false 1 "x = Min(Max(a,b), c)" fresh))
    = scriptLog_ (fresh (R := xreal)) ++ added
        ++ [Error_line 1 "'Min(Max(a,b),c)' is no valid expression"].
Proof.
  assert (H1 : of_strtod (Cxx.Decimal false 1 0) = Some (Finite (inject_Z 1)))
    by (vm_compute; reflexivity).
  assert (H3 : of_strtod (Cxx.Decimal false 3 0) = Some (Finite (inject_Z 3)))
    by (vm_compute; reflexivity).
  assert (Hx : StdMap.find "x" (payoffs_ (fresh (R := xreal))) = None)
    by (vm_compute; reflexivity).
  split; [exact H1|]. split; [exact H3|]. split; [exact Hx|].
  exact (@C8_an_expression_passes_for_an_operand
           xreal xreal_ops env false 1 fresh
           (Finite (inject_Z 1)) (Finite (inject_Z 3)) H1 H3 Hx).
Defined.

(** The whole construction on the legacy script of C8: [x] is the only
    name stored, and the result of the object. *)
Lemma legacy_expression_run :
  new_MCScriptT [] [] ["NonRecursive"; "x=1+2*3"] false
  = Return {| payoffs_ :=
                [("x", Mult (Some (FixedAmount (Finite (inject_Z 1))))
                            (Some (FixedAmount (Finite (inject_Z 3)))))];
              expressions_ := [];
              scriptLog_ :=
                ["Error line 0: 'NonRecursive' is no valid assignment";
                 "Payoff line 1: '1' is fixed amount";
                 "Payoff line 1: '3' is fixed amount";
                 "Insert line 1: 'x=1+2*3'"];
              result_ := Some (Mult (Some (FixedAmount (Finite (inject_Z 1))))
                                    (Some (FixedAmount (Finite (inject_Z 3)))));
              observationTime_ := Finite (inject_Z 0) |}.
Proof. vm_compute. reflexivity. Qed.

(** C10 on the text " -12.5e+2abc", which converts to -1250, and on
    the number literal "5abc", which compiles to the constant 5. *)
Lemma C10_witness :
  Constant.well_formed a_constant = true /\
  (Constant.text a_constant ++ "abc")%string = " -12.5e+2abc" /\
  to_Number " -12.5e+2abc" = Some (Finite (inject_Z (-1250))) /\
  to_Number "5abc" = Some (Finite (inject_Z 5)) /\
  payoff (Some (Expr NUMBER [] ["5abc"])) 0 fresh
  = (Return (Some (FixedAmount (Finite (inject_Z 5)))), fresh).
Proof.
  pose proof (@C10_to_Number_reads_a_numeric_prefix xreal xreal_ops env)
    as (_ & Hconstant & _ & Hfive).
  assert (Hwf : Constant.well_formed a_constant = true)
    by (vm_compute; reflexivity).
  split; [exact Hwf|]. split; [reflexivity|].
  split; [exact (proj2 (Hconstant a_constant "abc" Hwf eq_refl))|].
  assert (H5 : of_strtod (Cxx.Decimal false 5 0) = Some (Finite (inject_Z 5)))
    by (vm_compute; reflexivity).
  destruct (Hfive (Finite (inject_Z 5)) H5) as [Hnumber Hpayoff].
  split; [exact Hnumber | exact (Hpayoff 0 fresh)].
Defined.

(** C10 as first stated fails on the text "1e400": all of it parses as
    a floating-point number, ten to the power 400, which is beyond the
    range of a [double]; [std::stod] throws [std::out_of_range],
    [to_Number] returns [false] and the number literal is refused. *)
Lemma C10_counterexample :
  Constant.well_formed a_large_constant = true /\
  Constant.text a_large_constant = "1e400" /\
  Cxx.strtod "1e400" = Some (Cxx.Decimal false 1 400, 5) /\
  stod "1e400" = Throw (out_of_range "stod") /\
  to_Number "1e400" = None /\
  payoff (Some (Expr NUMBER [] ["1e400"])) 0 fresh
  = (Throw (QL_Error "Cannot interprete payoff"),
     {| payoffs_ := [];
        expressions_ := [];
        scriptLog_ := ["Error line 0: cannot convert 1e400 to number."];
        result_ := None;
        observationTime_ := Finite (inject_Z 0) |}).
Proof. repeat split; vm_compute; reflexivity. Qed.

(** Where the example arithmetic reports a range error, as [strtod]
    does on a [double]: beyond the largest and below the smallest
    normal number; the largest power of ten that fits converts. *)
Lemma range_errors_run :
  to_Number "1e400" = None /\
  to_Number "2e308" = None /\
  to_Number "1e-400" = None /\
  to_Number "-1e400" = None /\
  to_Number "1e308" = Some (Finite (inject_Z (10 ^ 308))) /\
  to_Number "0e400" = Some (Finite (inject_Z 0)) /\
  to_Number "inf" = Some (Infinite false).
Proof. repeat split; vm_compute; reflexivity. Qed.

(** The three ways in which the constructor throws, and a construction
    with a repeated name that overwriting allows. *)
Lemma constructor_runs :
  new_MCScriptT ["a"] [] [] true
  = Throw (QL_Error "MCScript error: key vs. value size missmatch") /\
  new_MCScriptT ["a"; "a"] [External 0; External 1] [] false
  = Throw (QL_Error "MCScript error: overwrite not allowed") /\
  new_MCScriptT [] [] ["zzz"] true
  = Throw (QL_Error "MCScript error: no payoffs stored.") /\
  new_MCScriptT ["a"; "a"] [External 0; External 1] [] true
  = Return {| payoffs_ := [("a", External 1)];
              expressions_ := [];
              scriptLog_ := [];
              result_ := Some (External 1);
              observationTime_ := Finite (inject_Z 0) |}.
Proof. repeat split; vm_compute; reflexivity. Qed.

(** [NPV] over three paths on an object that binds [y] to the
    constant 5, for names that are bound and for a name that is
    not. *)
Lemma NPV_runs :
  NPV {| payoffs_ := [("y", FixedAmount (Finite (inject_Z 5)))];
         expressions_ := [];
         scriptLog_ := [];
         result_ := None;
         observationTime_ := Finite (inject_Z 0) |}
      {| nPaths := 3; path := fun n => n |} ["y"; "y"]
  = (Return [Finite (inject_Z 5); Finite (inject_Z 5)], [0; 1; 2]) /\
  NPV {| payoffs_ := [("y", FixedAmount (Finite (inject_Z 5)))];
         expressions_ := [];
         scriptLog_ := [];
         result_ := None;
         observationTime_ := Finite (inject_Z 0) |}
      {| nPaths := 3; path := fun n => n |} ["y"; "z"]
  = (Throw (QL_Error "MCScript error: payoff 'z' not found"), []).
Proof. repeat split; vm_compute; reflexivity. Qed.

(** A legacy script: the sentinel is line 0 and is logged as an
    error; the nested call of line 1 fails; line 2 is stored. *)
Lemma legacy_run :
  new_MCScriptT ["a"; "b"; "c"] [External 0; External 1; External 2]
                ["NonRecursive"; "x = Min(Max(a,b), c)"; "z = Min(a, b)"] false
  = Return {| payoffs_ := [("a", External 0); ("b", External 1);
                           ("c", External 2);
                           ("z", Min (Some (External 0)) (Some (External 1)))];
              expressions_ := [];
              scriptLog_ :=
                ["Error line 0: 'NonRecursive' is no valid assignment";
                 "Error line 1: 'Max(a' is no payoff";
                 "Error line 1: 'Max(a' is no valid operand";
                 "Error line 1: 'Min(Max(a,b),c)' is no valid expression";
                 "Payoff line 2: 'a' is in map";
                 "Payoff line 2: 'b' is in map";
                 "Insert line 2: 'z=Min(a,b)'"];
              result_ := Some (Min (Some (External 0)) (Some (External 1)));
              observationTime_ := Finite (inject_Z 0) |}.
Proof. vm_compute. reflexivity. Qed.

End Runs.

(* ================================================================= *)
(** * Runs of the further properties *)

Section FurtherRuns.

Import Example.
Import ExactArithmetic.

(** X1 on a sum with one operand. *)
Lemma X1_witness :
  payoff (Some (Expr PLUS [identifier "a"] [])) 0 bound_ab =
  (Throw (QL_Error "Cannot interprete payoff"),
   snd (scriptLog_push_back
          "Error line 0: 2 child expressions expected, but 1 found."
          bound_ab)).
Proof.
  apply (@X1_payoff_checks_the_shape_of_a_node
           xreal xreal_ops env PLUS [identifier "a"] [] 0 bound_ab 2 0);
    [reflexivity | left; simpl; lia].
Defined.

(** X2 on the operands [a], [b] and 2. *)
Lemma X2_witness :
  fst (payoff (Some (Expr MULT [identifier "a"; identifier "b"] [])) 0 bound_ab)
    = Return (Some (Mult (Some (External 0)) (Some (External 1)))) /\
  fst (payoff (Some (Expr DIVISION [identifier "a"; identifier "b"] [])) 0
              bound_ab)
    = Return (Some (Division (Some (External 0)) (Some (External 1)))) /\
  fst (payoff (Some (Expr MIN [identifier "a"; identifier "b"] [])) 0 bound_ab)
    = Return (Some (Min (Some (External 0)) (Some (External 1)))) /\
  fst (payoff (Some (Expr MAX [identifier "a"; identifier "b"] [])) 0 bound_ab)
    = Return (Some (Max (Some (External 0)) (Some (External 1)))) /\
  fst (payoff (Some (Expr LOGICAL [identifier "a"; identifier "b"] ["<"])) 0
              bound_ab)
    = Return (Some (Logical (Some (External 0)) (Some (External 1)) "<")) /\
  fst (payoff (Some (Expr IFTHENELSE
                          [identifier "a"; identifier "b"; number "2"] [])) 0
              bound_ab)
    = Return (Some (IfThenElse (Some (External 0)) (Some (External 1))
                               (Some (FixedAmount (Finite (inject_Z 2)))))) /\
  fst (payoff (Some (Expr CACHE [identifier "a"] [])) 0 bound_ab)
    = Return (Some (Cache (Some (External 0)))).
Proof.
  apply (@X2_nodes_compile_to_the_payoff_of_their_kind
           xreal xreal_ops env 0 bound_ab
           (identifier "a") (identifier "b") (number "2")
           (Some (External 0)) (Some (External 1))
           (Some (FixedAmount (Finite (inject_Z 2)))) "<");
    vm_compute; reflexivity.
Defined.

(** X4 on the expression  Cache(z + 1) , where [z] is unbound. *)
Lemma X4_witness :
  descendant (identifier "z")
             (Expr CACHE [Some (Expr PLUS [identifier "z"; number "1"] [])] []) /\
  (exists e, fst (payoff (identifier "z") 0 bound_ab) = Throw e) /\
  exists e,
    fst (payoff
           (Some (Expr CACHE [Some (Expr PLUS [identifier "z"; number "1"] [])] []))
           0 bound_ab) = Throw e.
Proof.
  assert (Hsub : descendant
                   (identifier "z")
                   (Expr CACHE
                         [Some (Expr PLUS [identifier "z"; number "1"] [])] [])).
  { apply descendant_deeper with (Expr PLUS [identifier "z"; number "1"] []).
    - now left.
    - apply descendant_child. now left. }
  assert (Hz : exists e, fst (payoff (identifier "z") 0 bound_ab) = Throw e).
  { eexists. vm_compute. reflexivity. }
  split; [exact Hsub|]. split; [exact Hz|].
  exact (@X4_a_failing_subtree_fails_the_tree
           xreal xreal_ops env (identifier "z")
           (Expr CACHE [Some (Expr PLUS [identifier "z"; number "1"] [])] [])
           0 bound_ab Hsub Hz).
Defined.

(** X5 on a payment date taken twice, on line 3, where [at(t)] hands
    back the null pointer: the inner node compiles to the null
    pointer, and the outer one throws. *)
Lemma X5_witness :
  logged bound_ab
         (snd (payoff (env := forgetful)
                      (Some (Expr PAYOFFAT
                                  [Some (Expr PAYOFFAT [identifier "a"] ["1"])]
                                  ["2"])) 3 bound_ab)) /\
  forall e,
    fst (payoff (env := forgetful)
                (Some (Expr PAYOFFAT
                            [Some (Expr PAYOFFAT [identifier "a"] ["1"])]
                            ["2"])) 3 bound_ab) = Throw e ->
    announced 3 bound_ab
              (snd (payoff (env := forgetful)
                           (Some (Expr PAYOFFAT
                                       [Some (Expr PAYOFFAT [identifier "a"] ["1"])]
                                       ["2"])) 3 bound_ab)) e \/
    (exists t,
        Some (Expr PAYOFFAT [Some (Expr PAYOFFAT [identifier "a"] ["1"])] ["2"])
        = Some t /\
        null_operand (env := forgetful) 3 t
          (snd (payoff (env := forgetful)
                       (Some (Expr PAYOFFAT
                                   [Some (Expr PAYOFFAT [identifier "a"] ["1"])]
                                   ["2"])) 3 bound_ab)) e) \/
    thrown_by_at (env := forgetful) e.
Proof.
  exact (@X5_compile_errors_are_logged_unless_an_operand_is_null
           xreal xreal_ops forgetful
           (Some (Expr PAYOFFAT [Some (Expr PAYOFFAT [identifier "a"] ["1"])]
                       ["2"])) 3 bound_ab).
Defined.

(** The two ways in which the compiler itself gives up: on the unbound
    name [z] the reason is the last message of the log; on the payment
    date taken twice, where [at(t)] hands back the null pointer, the
    log has no reason. *)
Lemma compile_failures_run :
  payoff (identifier "z") 3 bound_ab
  = (Throw (QL_Error "Cannot interprete payoff"),
     {| payoffs_ := [("a", External 0); ("b", External 1)];
        expressions_ := [];
        scriptLog_ := ["Error line 3: 'z' is no payoff"];
        result_ := None;
        observationTime_ := Finite (inject_Z 0) |}) /\
  payoff (env := forgetful)
         (Some (Expr PAYOFFAT [identifier "a"] ["1"])) 3 bound_ab
  = (Return None,
     {| payoffs_ := [("a", External 0); ("b", External 1)];
        expressions_ := [];
        scriptLog_ := ["Payoff line 3: 'a' is in map"];
        result_ := None;
        observationTime_ := Finite (inject_Z 0) |}) /\
  payoff (env := forgetful)
         (Some (Expr PAYOFFAT [Some (Expr PAYOFFAT [identifier "a"] ["1"])]
                     ["2"])) 3 bound_ab
  = (Throw (QL_Error "Cannot interprete payoff"),
     {| payoffs_ := [("a", External 0); ("b", External 1)];
        expressions_ := [];
        scriptLog_ := ["Payoff line 3: 'a' is in map"];
        result_ := None;
        observationTime_ := Finite (inject_Z 0) |}).
Proof. repeat split; vm_compute; reflexivity. Qed.

(** X6 on the line  a = 2 , referenced on line 1. *)
Lemma X6_witness :
  compiled_line 0 "a = 2" fresh "a" (FixedAmount (Finite (inject_Z 2))) /\
  payoff (Some (Expr IDENTIFIER [] ["a"])) 1
         (snd (parseFlexBisonLine false 0 "a = 2" fresh)) =
  (Return (Some (FixedAmount (Finite (inject_Z 2)))),
   snd (scriptLog_push_back
          "Payoff line 1: 'a' is in map"
          (snd (parseFlexBisonLine false 0 "a = 2" fresh)))).
Proof.
  assert (H : compiled_line 0 "a = 2" fresh "a"
                            (FixedAmount (Finite (inject_Z 2)))).
  { exists (number "2"). repeat split; try (vm_compute; reflexivity).
    discriminate. }
  split; [exact H|].
  exact (@X6_a_stored_name_compiles_to_its_payoff
           xreal xreal_ops env false 0 "a = 2" fresh "a"
           (FixedAmount (Finite (inject_Z 2))) 1 H (or_introl eq_refl)).
Defined.

(** X7 on a script that assigns to [a], which is bound, without the
    permission to overwrite. *)
Lemma X7_witness :
  StdMap.find "a" (payoffs_ (snd (parse ["a = 7"; "b = 3"] false bound_ab)))
  <> None /\
  (false = false ->
   StdMap.find "a" (payoffs_ (snd (parse ["a = 7"; "b = 3"] false bound_ab)))
   = Some (External 0)).
Proof.
  apply (@X7_bindings_survive_a_script
           xreal xreal_ops env ["a = 7"; "b = 3"] false bound_ab "a" (External 0)).
  reflexivity.
Defined.

(** X9 on the function name "Max" and the operands [a], [b] and 2. *)
Lemma X9_witness :
  fst (function1 "Max" "a" 0 bound_ab) = Return None /\
  fst (function2 "Max" "a" "b" 0 bound_ab)
  = Return (Some (Max (Some (External 0)) (Some (External 1)))) /\
  fst (function3 "Max" "a" "b" "2" 0 bound_ab) = Return None.
Proof.
  apply (@X9_legacy_functions_are_chosen_by_name
           xreal xreal_ops env "Max" "a" "b" "2" 0 bound_ab
           (External 0) (External 1) (FixedAmount (Finite (inject_Z 2))));
    vm_compute; reflexivity.
Defined.

(** X10 on the operator "-" and the operands [a] and [b]. *)
Lemma X10_witness :
  fst (operator1 "-" "a" 0 bound_ab)
  = Return (Some (Axpy (Finite (inject_Z (-1))) (Some (External 0)) None)) /\
  fst (operator2 "-" "a" "b" 0 bound_ab)
  = Return (Some (Axpy (Finite (inject_Z (-1)))
                       (Some (External 1)) (Some (External 0)))).
Proof.
  apply (@X10_legacy_operators_build_their_nodes
           xreal xreal_ops "-" "a" "b" 0 bound_ab (External 0) (External 1));
    vm_compute; reflexivity.
Defined.

(** X11 on the name [info]: a reference to it is the fixed amount
    infinity. *)
Lemma X11_witness :
  (starts_with "inf" "info" = false -> starts_with "nan" "info" = false ->
   fst (payoff_string "info" 0 bound_info) = Return (Some (External 0))) /\
  (starts_with "inf" "info" = true ->
   forall x, of_strtod (Cxx.Infinity false) = Some x ->
             fst (payoff_string "info" 0 bound_info)
             = Return (Some (FixedAmount x))) /\
  (starts_with "nan" "info" = true ->
   forall x, of_strtod (Cxx.NaN false) = Some x ->
             fst (payoff_string "info" 0 bound_info)
             = Return (Some (FixedAmount x))).
Proof.
  apply (@X11_legacy_names_read_as_numbers_are_shadowed
           xreal xreal_ops "info" (External 0) 0 bound_info);
    reflexivity.
Defined.

(** X12 on the right-hand side [a]. *)
Lemma X12_witness :
  compile_expr "a" 0 bound_ab = payoff_string "a" 0 bound_ab.
Proof.
  apply (@X12_a_plain_right_hand_side_is_one_operand
           xreal xreal_ops env "a" 0 bound_ab).
  reflexivity.
Defined.

(** X13 on the operands [a], [b] and 2 and the comparison "<". *)
Lemma X13_witness :
  fst (payoff (Some (Expr UNARYPLUS [identifier "a"] [])) 0 bound_ab)
  = fst (operator1 "+" "a" 0 bound_ab) /\
  fst (payoff (Some (Expr UNARYMINUS [identifier "a"] [])) 0 bound_ab)
  = fst (operator1 "-" "a" 0 bound_ab) /\
  fst (payoff (Some (Expr PLUS [identifier "a"; identifier "b"] [])) 0 bound_ab)
  = fst (operator2 "+" "a" "b" 0 bound_ab) /\
  fst (payoff (Some (Expr MINUS [identifier "a"; identifier "b"] [])) 0 bound_ab)
  = fst (operator2 "-" "a" "b" 0 bound_ab) /\
  fst (payoff (Some (Expr MULT [identifier "a"; identifier "b"] [])) 0 bound_ab)
  = fst (operator2 "*" "a" "b" 0 bound_ab) /\
  fst (payoff (Some (Expr LOGICAL [identifier "a"; identifier "b"] ["<"])) 0
              bound_ab)
  = fst (operator2 "<" "a" "b" 0 bound_ab) /\
  fst (payoff (Some (Expr MIN [identifier "a"; identifier "b"] [])) 0 bound_ab)
  = fst (function2 "Min" "a" "b" 0 bound_ab) /\
  fst (payoff (Some (Expr MAX [identifier "a"; identifier "b"] [])) 0 bound_ab)
  = fst (function2 "Max" "a" "b" 0 bound_ab) /\
  fst (payoff (Some (Expr IFTHENELSE
                          [identifier "a"; identifier "b"; number "2"] [])) 0
              bound_ab)
  = fst (function3 "IfThenElse" "a" "b" "2" 0 bound_ab) /\
  fst (payoff (Some (Expr CACHE [identifier "a"] [])) 0 bound_ab)
  = fst (function1 "Cache" "a" 0 bound_ab).
Proof.
  apply (@X13_the_two_grammars_build_the_same_payoffs
           xreal xreal_ops env 0 bound_ab
           (identifier "a") (identifier "b") (number "2") "a" "b" "2"
           (External 0) (External 1) (FixedAmount (Finite (inject_Z 2))) "<");
    vm_compute; reflexivity.
Defined.

(** X14 on the payment  Pay(a, 15Jan2020) : it is made at the
    time 15. *)
Lemma X14_witness :
  fst (function2 "Pay" "a" "15Jan2020" 0 bound_ab)
  = Return (Some (Pay (Some (External 0)) (Finite (inject_Z 15)))).
Proof.
  apply (@X14_a_legacy_payment_is_made_at_the_leading_digits
           xreal xreal_ops env "a" "15" "Jan2020" (External 0)
           (Finite (inject_Z 15)) 0 bound_ab);
    try (vm_compute; reflexivity).
  discriminate.
Defined.

(** The same line in the two grammars: the legacy grammar pays at the
    time 15, the primary grammar 379 days after the evaluation
    date. *)
Lemma dated_payment_run :
  StdMap.find "p" (payoffs_ (snd (parseScript ["p = Pay(a, 15Jan2020)"]
                                              false bound_ab)))
  = Some (Pay (Some (External 0)) (Finite (inject_Z 15))) /\
  StdMap.find "p" (payoffs_ (snd (parseFlexBisonScript
                                    ["p = Pay(a, 15Jan2020)"] false bound_ab)))
  = Some (Pay (Some (External 0)) (Finite (379 # 365))).
Proof. split; vm_compute; reflexivity. Qed.

(** X16 on the script  a = 2  and a fresh object. *)
Lemma X16_witness :
  StdMap.find "a" (payoffs_ (snd (parse ["a = 2"] false (fresh (R := xreal)))))
  <> None /\
  (StdMap.find "a" (payoffs_ (fresh (R := xreal))) <> None \/
   In "a" (targets target ["a = 2"])).
Proof.
  assert (H : StdMap.find
                "a" (payoffs_ (snd (parse ["a = 2"] false (fresh (R := xreal)))))
              <> None).
  { vm_compute. discriminate. }
  split; [exact H|].
  exact (@X16_only_assigned_names_are_bound
           xreal xreal_ops env ["a = 2"] false fresh "a" H).
Defined.

(** X17 on the initial bindings [b], [a], [b] and an empty script. *)
Lemma X17_witness :
  new_MCScriptT ["b"; "a"; "b"] [External 0; External 1; External 2] [] true
  = Return {| payoffs_ := [("a", External 1); ("b", External 2)];
              expressions_ := [];
              scriptLog_ := [];
              result_ := Some (External 2);
              observationTime_ := Finite (inject_Z 0) |} /\
  (forall key,
      In key ["b"; "a"; "b"] ->
      StdMap.find key [("a", External (R := xreal) 1); ("b", External 2)]
      <> None) /\
  (@nil string = [] ->
   forall key,
     StdMap.find key [("a", External (R := xreal) 1); ("b", External 2)]
     = last_binding key (combine ["b"; "a"; "b"]
                                 [External 0; External 1; External 2])) /\
  (true = false ->
   forall key p,
     In (key, p) (combine ["b"; "a"; "b"]
                          [External (R := xreal) 0; External 1; External 2]) ->
     StdMap.find key [("a", External (R := xreal) 1); ("b", External 2)]
     = Some p).
Proof.
  assert (H : new_MCScriptT ["b"; "a"; "b"]
                            [External 0; External 1; External 2] [] true
              = Return {| payoffs_ := [("a", External 1); ("b", External 2)];
                          expressions_ := [];
                          scriptLog_ := [];
                          result_ := Some (External 2);
                          observationTime_ := Finite (inject_Z 0) |})
    by (vm_compute; reflexivity).
  split; [exact H|].
  exact (@X17_initial_bindings_of_the_constructed_object
           xreal xreal_ops env ["b"; "a"; "b"]
           [External 0; External 1; External 2] [] true _ H).
Defined.

(** X18 on one initial binding and a script whose only line fails. *)
Lemma X18_witness :
  exists obj,
    new_MCScriptT ["a"] [External (R := xreal) 0] ["y = z + 1"] false
    = Return obj.
Proof.
  apply (@X18_no_script_makes_the_constructor_throw
           xreal xreal_ops env ["a"] [External 0] ["y = z + 1"] false).
  - discriminate.
  - reflexivity.
  - right. constructor; [intros [] | constructor].
Defined.

(** X19 on the script  b = 3, a = 2 . *)
Lemma X19_witness :
  new_MCScriptT [] [] ["b = 3"; "a = 2"] false
  = Return {| payoffs_ := [("a", FixedAmount (Finite (inject_Z 2)));
                           ("b", FixedAmount (Finite (inject_Z 3)))];
              expressions_ := ["L0:expression"; "L1:expression"];
              scriptLog_ := ["Insert line 0: 'b = 3'"; "Insert line 1: 'a = 2'"];
              result_ := Some (FixedAmount (Finite (inject_Z 3)));
              observationTime_ := Finite (inject_Z 0) |} /\
  exists name p,
    StdMap.find name [("a", FixedAmount (Finite (inject_Z 2)));
                      ("b", FixedAmount (Finite (inject_Z 3)))] = Some p /\
    Some (FixedAmount (Finite (inject_Z 3))) = Some p /\
    Finite (inject_Z 0) = observationTime p.
Proof.
  assert (H : new_MCScriptT [] [] ["b = 3"; "a = 2"] false
              = Return {| payoffs_ := [("a", FixedAmount (Finite (inject_Z 2)));
                                       ("b", FixedAmount (Finite (inject_Z 3)))];
                          expressions_ := ["L0:expression"; "L1:expression"];
                          scriptLog_ := ["Insert line 0: 'b = 3'";
                                         "Insert line 1: 'a = 2'"];
                          result_ := Some (FixedAmount (Finite (inject_Z 3)));
                          observationTime_ := Finite (inject_Z 0) |})
    by (vm_compute; reflexivity).
  split; [exact H|].
  exact (@X19_the_object_takes_the_time_of_its_result
           xreal xreal_ops env [] [] ["b = 3"; "a = 2"] false _ H).
Defined.

(** X26 on two assets and a matrix of zeros. *)
Lemma X26_witness :
  LocalCorr.square 2 ExactArithmetic.zeros /\
  LocalCorr.covers 2 (LocalCorr.corr0_ ExactArithmetic.surface) /\
  LocalCorr.covers 2 (LocalCorr.corr1_ ExactArithmetic.surface) /\
  exists m',
    LocalCorr.localCorrImpl ExactArithmetic.surface ExactArithmetic.zeros
                            0%Q [] false
    = (LocalCorr.Finished, m') /\
    LocalCorr.square 2 m' /\
    forall a b,
      a < 2 -> b < 2 ->
      LocalCorr.subscript m' a b
      = Some (LocalCorr.blend
                ExactArithmetic.surface
                (LocalCorr.lambda_of ExactArithmetic.surface 0%Q [] false)
                (Nat.min a b) (Nat.max a b)) /\
      LocalCorr.subscript m' a b = LocalCorr.subscript m' b a.
Proof.
  assert (Hsq : LocalCorr.square 2 ExactArithmetic.zeros)
    by (split; [reflexivity | repeat constructor]).
  assert (Hc0 : LocalCorr.covers
                  2 (LocalCorr.corr0_ ExactArithmetic.surface)).
  { intros [|[|i]] [|[|j]] Hij Hj; try lia; simpl; discriminate. }
  assert (Hc1 : LocalCorr.covers
                  2 (LocalCorr.corr1_ ExactArithmetic.surface)).
  { intros [|[|i]] [|[|j]] Hij Hj; try lia; simpl; discriminate. }
  repeat (split; [assumption|]).
  destruct (@X26_localCorrImpl_leaves_a_symmetric_matrix
              Q ExactArithmetic.exact ExactArithmetic.surface
              ExactArithmetic.zeros 0%Q [] false 2 Hsq Hc0 Hc1)
    as [_ (m' & Hrun & Hspec)].
  exists m'. split; [exact Hrun | exact (Hspec eq_refl)].
Defined.

(** The line  c = a - b  in the two orders of evaluation: the same
    binding, and the look-ups logged in the order of their
    evaluation. *)
Lemma argument_orders_run :
  scriptLog_ (snd (parseFlexBisonScript (env := environment LeftToRight)
                                        ["c = a - b"] false bound_ab))
  = ["Payoff line 0: 'b' is in map"; "Payoff line 0: 'a' is in map";
     "Insert line 0: 'c = a - b'"] /\
  scriptLog_ (snd (parseFlexBisonScript (env := environment RightToLeft)
                                        ["c = a - b"] false bound_ab))
  = ["Payoff line 0: 'a' is in map"; "Payoff line 0: 'b' is in map";
     "Insert line 0: 'c = a - b'"] /\
  payoffs_ (snd (parseFlexBisonScript (env := environment LeftToRight)
                                      ["c = a - b"] false bound_ab))
  = payoffs_ (snd (parseFlexBisonScript (env := environment RightToLeft)
                                        ["c = a - b"] false bound_ab)).
Proof. repeat split; vm_compute; reflexivity. Qed.

End FurtherRuns.
